(** * n8n-nodes-juniper: the configuration parser, serializer, differ,
      interface extractor and Jinja2 template synthesizer

    A shallow embedding of [nodes/Juniper/util/juniper.ts] and
    [nodes/Juniper/util/jinja2.ts], with the properties of the specification
    stated and settled over it.

    Conventions of the embedding.
    - A JavaScript string is a [string]; each [ascii] stands for one UTF-16
      code unit below 256.  The white space class of [\s] and of
      [String.prototype.trim] is, in that range, TAB, LF, VT, FF, CR, SPACE
      and NBSP; the line terminators that [.] refuses are LF and CR.
    - [null] fields of a node are [None].
    - Functions that can throw return a [result]; loops that the termination
      checker cannot see through take a fuel argument, and the theorems that
      speak of a result prove that the fuel supplied is enough. *)

From Stdlib Require Import String Ascii List Bool Arith ZArith QArith Lia.
From Stdlib Require Import Permutation DecimalString DecimalNat.
Import ListNotations.

Local Open Scope string_scope.
Local Open Scope list_scope.
Local Open Scope nat_scope.

Infix "+++" := String.append (right associativity, at level 60).

(* ================================================================== *)
(** ** JavaScript string primitives *)
(* ================================================================== *)

Module Str.

(** Character classes. *)

Definition is_space (c : ascii) : bool :=
  match nat_of_ascii c with
  | 9 | 10 | 11 | 12 | 13 | 32 | 160 => true
  | _ => false
  end.

Definition is_line_terminator (c : ascii) : bool :=
  match nat_of_ascii c with
  | 10 | 13 => true
  | _ => false
  end.

Definition LF : ascii := ascii_of_nat 10.
Definition CR : ascii := ascii_of_nat 13.
Definition TAB : ascii := ascii_of_nat 9.
Definition dquote : ascii := ascii_of_nat 34.

Definition nl : string := String LF EmptyString.

Definition is_empty (s : string) : bool :=
  match s with EmptyString => true | String _ _ => false end.

(** [s.includes(c)] for a one-character needle. *)
Fixpoint includes_char (c : ascii) (s : string) : bool :=
  match s with
  | EmptyString => false
  | String a s' => Ascii.eqb a c || includes_char c s'
  end.

(** Every character of [s] satisfies [p]. *)
Fixpoint all_chars (p : ascii -> bool) (s : string) : bool :=
  match s with
  | EmptyString => true
  | String a s' => p a && all_chars p s'
  end.

Definition no_line_terminator (s : string) : bool :=
  all_chars (fun c => negb (is_line_terminator c)) s.

(** [s.replace(/c/g, '')]. *)
Fixpoint remove_char (c : ascii) (s : string) : string :=
  match s with
  | EmptyString => EmptyString
  | String a s' =>
      if Ascii.eqb a c then remove_char c s' else String a (remove_char c s')
  end.

(** [s.trim()]. *)
Fixpoint ltrim (s : string) : string :=
  match s with
  | EmptyString => EmptyString
  | String c s' => if is_space c then ltrim s' else s
  end.

Fixpoint rtrim (s : string) : string :=
  match s with
  | EmptyString => EmptyString
  | String c s' =>
      match rtrim s' with
      | EmptyString => if is_space c then EmptyString else String c EmptyString
      | r => String c r
      end
  end.

Definition trim (s : string) : string := rtrim (ltrim s).

(** [s.split(c)] for a one-character separator: never the empty list. *)
Fixpoint split_char (sep : ascii) (s : string) : list string :=
  match s with
  | EmptyString => [EmptyString]
  | String c s' =>
      if Ascii.eqb c sep then EmptyString :: split_char sep s'
      else match split_char sep s' with
           | h :: t => String c h :: t
           | [] => [String c EmptyString]
           end
  end.

(** [s.split(/\s+/)]: the pieces between maximal runs of white space; a
    leading or trailing run leaves an empty first or last piece.  [in_sep]
    records that the previous character belonged to a separator run. *)
Fixpoint split_ws_aux (in_sep : bool) (s : string) : list string :=
  match s with
  | EmptyString => [EmptyString]
  | String c s' =>
      if is_space c then
        if in_sep then split_ws_aux true s'
        else EmptyString :: split_ws_aux true s'
      else match split_ws_aux false s' with
           | h :: t => String c h :: t
           | [] => [String c EmptyString]
           end
  end.

Definition split_ws (s : string) : list string := split_ws_aux false s.

(** [l.join(sep)]. *)
Definition join (sep : string) (l : list string) : string :=
  String.concat sep l.

(** [s.repeat(n)]. *)
Fixpoint repeat_str (s : string) (n : nat) : string :=
  match n with
  | 0 => EmptyString
  | S n' => s +++ repeat_str s n'
  end.

(** [s = r + c]: the string without its last character [c]. *)
Fixpoint strip_last (c : ascii) (s : string) : option string :=
  match s with
  | EmptyString => None
  | String a EmptyString => if Ascii.eqb a c then Some EmptyString else None
  | String a s' => option_map (String a) (strip_last c s')
  end.

(** The string without its last character, and that character. *)
Fixpoint split_last (s : string) : option (string * ascii) :=
  match s with
  | EmptyString => None
  | String a EmptyString => Some (EmptyString, a)
  | String a s' =>
      match split_last s' with
      | Some (r, z) => Some (String a r, z)
      | None => None
      end
  end.

(** The longest prefix whose characters satisfy [p], and the rest. *)
Fixpoint span (p : ascii -> bool) (s : string) : string * string :=
  match s with
  | EmptyString => (EmptyString, EmptyString)
  | String c s' =>
      if p c then let (a, b) := span p s' in (String c a, b)
      else (EmptyString, s)
  end.

(** [line.replace(/#.*$/, '')].  Without the [m] and [s] flags [$] is the end
    of the string and [.] stops at a line terminator, so the match starts at
    the leftmost [#] with no line terminator after it. *)
Fixpoint strip_comment (s : string) : string :=
  match s with
  | EmptyString => EmptyString
  | String c s' =>
      if Ascii.eqb c "#" && no_line_terminator s' then EmptyString
      else String c (strip_comment s')
  end.

End Str.

(* ================================================================== *)
(** ** The configuration tree ([JuniperNode]) *)
(* ================================================================== *)

(** [interface JuniperNode { type; name; value; children }]. *)
#[warnings="-register-all"]
Inductive node : Type :=
  mkNode (type : string) (name : option string) (value : option string)
         (children : list node).

Definition node_type (n : node) : string :=
  match n with mkNode t _ _ _ => t end.
Definition node_name (n : node) : option string :=
  match n with mkNode _ x _ _ => x end.
Definition node_value (n : node) : option string :=
  match n with mkNode _ _ v _ => v end.
Definition node_children (n : node) : list node :=
  match n with mkNode _ _ _ cs => cs end.

(** [createNode(type, name = null, value = null, children = [])]. *)
Definition createNode (type : string) (name value : option string)
    (children : list node) : node :=
  mkNode type name value children.

(** The induction principle that reaches the children. *)
Section NodeInd.
Variable P : node -> Prop.
Hypothesis step : forall t x v cs, Forall P cs -> P (mkNode t x v cs).

Fixpoint node_ind' (n : node) : P n :=
  match n with
  | mkNode t x v cs =>
      step t x v cs
        ((fix all (l : list node) : Forall P l :=
            match l with
            | [] => Forall_nil P
            | c :: l' => Forall_cons c (node_ind' c) (all l')
            end) cs)
  end.
End NodeInd.

(* ================================================================== *)
(** ** The parser ([parseJuniperConfig], [parseBlock]) *)
(* ================================================================== *)

Module Parser.
Import Str.

(** [line.match(/^(\S+)\s+(<[^>]+>)\s+{$/)]: the two groups.  Every piece of
    the pattern is delimited by a character its neighbour refuses, so the
    match, when there is one, is the left-to-right scan below. *)
Definition matchPatternBlock (line : string) : option (string * string) :=
  let (blockType, r1) := span (fun c => negb (is_space c)) line in
  if is_empty blockType then None else
  let (w1, r2) := span is_space r1 in
  if is_empty w1 then None else
  match r2 with
  | String "<" r3 =>
      let (body, r4) := span (fun c => negb (Ascii.eqb c ">")) r3 in
      if is_empty body then None else
      match r4 with
      | String ">" r5 =>
          let (w2, r6) := span is_space r5 in
          if is_empty w2 then None
          else if String.eqb r6 "{" then Some (blockType, "<" +++ body +++ ">")
          else None
      | _ => None
      end
  | _ => None
  end.

(** [line.match(/^(.+)\s+{$/)]: the group.  The line ends in [{] after at
    least one white space character; the greedy [(.+)] takes everything
    before the last of them, unless a line terminator stops it earlier, in
    which case all that follows must be white space. *)
Definition matchMultiWordBlock (line : string) : option string :=
  match strip_last "{" line with
  | None => None
  | Some b =>
      match split_last b with
      | None => None
      | Some (c, z) =>
          if negb (is_space z) then None
          else
            let (g, rest) := span (fun a => negb (is_line_terminator a)) c in
            if is_empty g then None
            else if all_chars is_space rest then Some g
            else None
      end
  end.

(** [line.match(/^(.+);$/)]: the group. *)
Definition matchLeaf (line : string) : option string :=
  match strip_last ";" line with
  | None => None
  | Some g =>
      if is_empty g then None
      else if no_line_terminator g then Some g
      else None
  end.

(** [console.warn(`Warning: Could not parse line ${i + 1}: "${line}"`)]. *)
Record warning : Type := mkWarning { warn_line : nat; warn_text : string }.

(** The preprocessing of [parseJuniperConfig]. *)
Definition preprocess_line (line : string) : string :=
  trim (strip_comment line).

Definition preprocess (config : string) : list string :=
  filter (fun line => negb (is_empty line))
         (map preprocess_line (split_char LF config)).

(** The node a block header line opens, for the two header rules. *)
Definition headerNode (header : string) (body : list node) : node :=
  let blockHeader := trim header in
  let parts := split_ws blockHeader in
  match parts with
  | [p] => createNode "block" (Some p) None body
  | _ =>
      createNode "named-block" (Some (hd "" parts))
                 (Some (join " " (tl parts))) body
  end.

(** The node of a leaf statement. *)
Definition leafNode (g : string) : node :=
  let statement := trim g in
  if includes_char " " statement then
    let parts := split_ws statement in
    createNode "directive" (Some (hd "" parts))
               (Some (remove_char dquote (join " " (tl parts)))) []
  else createNode "flag" (Some statement) None [].

(** [parseBlock(lines, startIndex, parent)]: the nodes pushed onto
    [parent.children], the index returned, and the warnings logged, in
    order.  One unit of fuel is spent at each turn of the [while] loop; the
    recursive call for a block body and the rest of the loop both run on what
    is left ([None]: out of fuel). *)
Fixpoint parseBlock (fuel : nat) (lines : list string) (i : nat)
    : option (list node * nat * list warning) :=
  match fuel with
  | 0 => None
  | S fuel' =>
      match nth_error lines i with
      | None => Some ([], i, [])
      | Some line =>
          if String.eqb line "}" then Some ([], i + 1, [])
          else
            match matchPatternBlock line with
            | Some (blockType, pattern) =>
                match parseBlock fuel' lines (i + 1) with
                | None => None
                | Some (body, j, w1) =>
                    match parseBlock fuel' lines j with
                    | None => None
                    | Some (rest, k, w2) =>
                        Some (createNode "pattern-block" (Some blockType)
                                (Some pattern) body :: rest, k, w1 ++ w2)
                    end
                end
            | None =>
                match matchMultiWordBlock line with
                | Some header =>
                    match parseBlock fuel' lines (i + 1) with
                    | None => None
                    | Some (body, j, w1) =>
                        match parseBlock fuel' lines j with
                        | None => None
                        | Some (rest, k, w2) =>
                            Some (headerNode header body :: rest, k, w1 ++ w2)
                        end
                    end
                | None =>
                    match matchLeaf line with
                    | Some g =>
                        match parseBlock fuel' lines (i + 1) with
                        | None => None
                        | Some (rest, k, w) => Some (leafNode g :: rest, k, w)
                        end
                    | None =>
                        match parseBlock fuel' lines (i + 1) with
                        | None => None
                        | Some (rest, k, w) =>
                            Some (rest, k, mkWarning (i + 1) line :: w)
                        end
                    end
                end
            end
      end
  end.

(** [parseJuniperConfig(config)]: the tree and the warnings.  The loop
    advances by at least one line per turn, so one unit of fuel per line and
    one more are enough ([parseBlock_returns]). *)
Definition parseJuniperConfig (config : string)
    : option (node * list warning) :=
  let lines := preprocess config in
  match parseBlock (S (length lines)) lines 0 with
  | None => None
  | Some (cs, _, w) => Some (createNode "root" None None cs, w)
  end.

End Parser.

(* ================================================================== *)
(** ** The serializer ([astToConfig], [nodeToConfig]) *)
(* ================================================================== *)

Module Serializer.
Import Str.

(** A template literal prints a [null] field as the text [null]. *)
Definition show (o : option string) : string :=
  match o with Some s => s | None => "null" end.

Fixpoint nodeToConfig (n : node) (indent : nat) : string :=
  let indentStr := repeat_str "    " indent in
  match n with
  | mkNode type name value children =>
      if String.eqb type "root" then
        join nl (map (fun child => nodeToConfig child indent) children)
      else if String.eqb type "block" then
        let childrenConfig :=
          join nl (map (fun child => nodeToConfig child (indent + 1)) children) in
        (indentStr +++ show name +++ " {" +++ nl)
        +++ (if is_empty childrenConfig then "" else childrenConfig +++ nl)
        +++ (indentStr +++ "}")
      else if String.eqb type "named-block" || String.eqb type "pattern-block" then
        let childrenConfig :=
          join nl (map (fun child => nodeToConfig child (indent + 1)) children) in
        (indentStr +++ show name +++ " " +++ show value +++ " {" +++ nl)
        +++ (if is_empty childrenConfig then "" else childrenConfig +++ nl)
        +++ (indentStr +++ "}")
      else if String.eqb type "directive" then
        indentStr +++ show name +++ " " +++ show value +++ ";"
      else if String.eqb type "flag" then
        indentStr +++ show name +++ ";"
      else indentStr +++ "# Unknown node type: " +++ type
  end.

Definition astToConfig (ast : node) : string := nodeToConfig ast 0.

End Serializer.

(* ================================================================== *)
(** ** JSON-shaped values *)
(* ================================================================== *)

(** [diffAst], [addInterfaceProp] and the synthesizer walk arbitrary values
    by run-time inspection.  An object is the list of its own enumerable
    properties in enumeration order; property reads and [in] see own
    properties only.  The members of [Object.prototype] and
    [Array.prototype] come in where the code goes a different way for a key
    that names one: in the groups of [findLoopOpportunities], in the reverse
    substitution table of the synthesizer, and in the deep set of the store
    model.  The numbers of a tree are integers. *)
Module Js.
Import Str.

#[warnings="-register-all"]
Inductive value : Type :=
| VUndef
| VNull
| VBool (b : bool)
| VNum (z : Z)
| VStr (s : string)
| VArr (elems : list value)
| VObj (props : list (string * value)).

Section ValueInd.
Variable P : value -> Prop.
Hypothesis Hundef : P VUndef.
Hypothesis Hnull : P VNull.
Hypothesis Hbool : forall b, P (VBool b).
Hypothesis Hnum : forall z, P (VNum z).
Hypothesis Hstr : forall s, P (VStr s).
Hypothesis Harr : forall l, Forall P l -> P (VArr l).
Hypothesis Hobj : forall l, Forall (fun kv => P (snd kv)) l -> P (VObj l).

Fixpoint value_ind' (v : value) : P v :=
  match v with
  | VUndef => Hundef
  | VNull => Hnull
  | VBool b => Hbool b
  | VNum z => Hnum z
  | VStr s => Hstr s
  | VArr l =>
      Harr l ((fix all (l : list value) : Forall P l :=
                 match l with
                 | [] => Forall_nil P
                 | x :: l' => Forall_cons x (value_ind' x) (all l')
                 end) l)
  | VObj l =>
      Hobj l ((fix all (l : list (string * value))
                 : Forall (fun kv => P (snd kv)) l :=
                 match l with
                 | [] => Forall_nil _
                 | kv :: l' =>
                     Forall_cons (P := fun kv => P (snd kv)) kv
                       (match kv as p return P (snd p) with
                        | (_, x) => value_ind' x
                        end)
                       (all l')
                 end) l)
  end.
End ValueInd.

(** [typeof v]. *)
Definition typeof (v : value) : string :=
  match v with
  | VUndef => "undefined"
  | VNull => "object"
  | VBool _ => "boolean"
  | VNum _ => "number"
  | VStr _ => "string"
  | VArr _ => "object"
  | VObj _ => "object"
  end.

Definition is_null (v : value) : bool :=
  match v with VNull => true | _ => false end.

Definition isArray (v : value) : bool :=
  match v with VArr _ => true | _ => false end.

(** Truthiness, as [&&], [||], [?:] and [if] test it. *)
Definition truthy (v : value) : bool :=
  match v with
  | VUndef | VNull => false
  | VBool b => b
  | VNum z => negb (Z.eqb z 0)
  | VStr s => negb (is_empty s)
  | VArr _ | VObj _ => true
  end.

(** [a === b].  Two objects are equal when they are the same reference,
    which the parts of two separately built trees never are: the model
    answers [false] for them. *)
Definition strict_eq (a b : value) : bool :=
  match a, b with
  | VUndef, VUndef => true
  | VNull, VNull => true
  | VBool x, VBool y => Bool.eqb x y
  | VNum x, VNum y => Z.eqb x y
  | VStr x, VStr y => String.eqb x y
  | _, _ => false
  end.

(** [n.toString()] of an array index. *)
Definition string_of_nat (n : nat) : string :=
  DecimalString.NilZero.string_of_uint (Nat.to_uint n).

Definition string_of_Z (z : Z) : string :=
  DecimalString.NilZero.string_of_int (Z.to_int z).

(** The array index a property key denotes, if it is the canonical decimal
    form of one. *)
Definition index_of_string (s : string) : option nat :=
  match DecimalString.NilZero.uint_of_string s with
  | Some d =>
      let n := Nat.of_uint d in
      if String.eqb (string_of_nat n) s then Some n else None
  | None => None
  end.

(** [String(v)], as string concatenation, template literals and property
    keys coerce. *)
Fixpoint toString (v : value) : string :=
  match v with
  | VUndef => "undefined"
  | VNull => "null"
  | VBool true => "true"
  | VBool false => "false"
  | VNum z => string_of_Z z
  | VStr s => s
  | VArr l =>
      join ","
        (map (fun x => match x with
                       | VUndef | VNull => ""
                       | _ => toString x
                       end) l)
  | VObj _ => "[object Object]"
  end.

Fixpoint assoc {A : Type} (k : string) (l : list (string * A)) : option A :=
  match l with
  | [] => None
  | (k', x) :: l' => if String.eqb k' k then Some x else assoc k l'
  end.

(** [0, 1, ..., n-1]. *)
Definition indices (n : nat) : list nat := seq 0 n.

(** [Object.keys(v)] of a value that is not [null] or [undefined]. *)
Definition keys (v : value) : list string :=
  match v with
  | VObj props => map fst props
  | VArr l => map string_of_nat (indices (length l))
  | VStr s => map string_of_nat (indices (String.length s))
  | _ => []
  end.

(** [v[k]] of a value that is not [null] or [undefined]. *)
Definition get_prop (v : value) (k : string) : value :=
  match v with
  | VObj props => match assoc k props with Some x => x | None => VUndef end
  | VArr l =>
      if String.eqb k "length" then VNum (Z.of_nat (length l))
      else match index_of_string k with
           | Some i => nth i l VUndef
           | None => VUndef
           end
  | VStr s =>
      if String.eqb k "length" then VNum (Z.of_nat (String.length s))
      else match index_of_string k with
           | Some i =>
               match String.get i s with
               | Some c => VStr (String c EmptyString)
               | None => VUndef
               end
           | None => VUndef
           end
  | _ => VUndef
  end.

(** [k in v] of an object or array. *)
Definition has_prop (v : value) (k : string) : bool :=
  match v with
  | VObj props => match assoc k props with Some _ => true | None => false end
  | VArr l =>
      String.eqb k "length" ||
      match index_of_string k with
      | Some i => Nat.ltb i (length l)
      | None => false
      end
  | _ => false
  end.

Definition mem (k : string) (l : list string) : bool :=
  existsb (String.eqb k) l.

(** The elements of [new Set(l)], in insertion order. *)
Fixpoint dedup_from (seen : list string) (l : list string) : list string :=
  match l with
  | [] => []
  | x :: l' =>
      if mem x seen then dedup_from seen l'
      else x :: dedup_from (x :: seen) l'
  end.

Definition dedup (l : list string) : list string := dedup_from [] l.

(** [l[i] = x] on an array: in range it replaces, past the end it extends,
    the slots skipped reading as [hole] ([undefined]). *)
Fixpoint list_set {A : Type} (hole : A) (l : list A) (i : nat) (x : A) : list A :=
  match i, l with
  | 0, [] => [x]
  | 0, _ :: l' => x :: l'
  | S i', [] => hole :: list_set hole [] i' x
  | S i', y :: l' => y :: list_set hole l' i' x
  end.

(** [d[k] = x] on a plain object, kept in enumeration order: an existing key
    keeps its place, a new index key goes among the index keys in ascending
    order, any other new key goes last. *)
Fixpoint dict_replace {A : Type} (d : list (string * A)) (k : string) (x : A)
    : list (string * A) :=
  match d with
  | [] => []
  | (k', y) :: d' =>
      if String.eqb k' k then (k', x) :: d' else (k', y) :: dict_replace d' k x
  end.

Fixpoint dict_insert_index {A : Type} (d : list (string * A)) (i : nat)
    (k : string) (x : A) : list (string * A) :=
  match d with
  | [] => [(k, x)]
  | (k', y) :: d' =>
      match index_of_string k' with
      | Some j =>
          if Nat.ltb j i then (k', y) :: dict_insert_index d' i k x
          else (k, x) :: d
      | None => (k, x) :: d
      end
  end.

Definition dict_set {A : Type} (d : list (string * A)) (k : string) (x : A)
    : list (string * A) :=
  match assoc k d with
  | Some _ => dict_replace d k x
  | None =>
      match index_of_string k with
      | Some i => dict_insert_index d i k x
      | None => d ++ [(k, x)]
      end
  end.

(** The tree as the JSON object [createNode] builds. *)
Definition of_opt (o : option string) : value :=
  match o with Some s => VStr s | None => VNull end.

Fixpoint of_node (n : node) : value :=
  match n with
  | mkNode t x v cs =>
      VObj [("type", VStr t); ("name", of_opt x); ("value", of_opt v);
            ("children", VArr (map of_node cs))]
  end.

End Js.

(* ================================================================== *)
(** ** The differ ([diffAst], [calculateSimilarity]) *)
(* ================================================================== *)

Module Differ.
Import Str Js.

(** [maxDepth]: a number, [Infinity] by default. *)
Inductive depth : Type :=
| Infinity
| Finite (z : Z).

(** [maxDepth !== 0]. *)
Definition depth_nonzero (d : depth) : bool :=
  match d with
  | Finite z => negb (Z.eqb z 0)
  | Infinity => true
  end.

(** [maxDepth > 0 ? maxDepth - 1 : 0]. *)
Definition depth_next (d : depth) : depth :=
  match d with
  | Infinity => Infinity
  | Finite z => if Z.ltb 0 z then Finite (z - 1) else Finite 0
  end.

(** [interface DiffOptions]; a missing option is [None]. *)
Record DiffOptions : Type := mkOptions {
  ignoreProperties : option (list string);
  ignoreArrayOrder : option bool;
  maxDepth : option depth;
  currentPath : option (list string);
  absolutePath : option (list string)
}.

Definition defaultOptions : DiffOptions := mkOptions None None None None None.

(** [interface JuniperDiff]; an absent field is [None]. *)
Record JuniperDiff : Type := mkDiff {
  d_type : string;
  d_path : list string;
  d_absolutePath : list string;
  d_oldValue : option value;
  d_newValue : option value;
  d_property : option string;
  d_nodeType : option value;
  d_oldType : option string;
  d_newType : option string
}.

(** Scores are exact rationals.  The scores of two objects that carry a
    [name] or [value] property are among 1/10, 1/4, 1/2, 3/4 and 1, on which
    the comparisons of the double precision numbers of JavaScript agree
    with the exact ones.  The score of two arrays is a product and a sum of
    such fractions, which the code rounds at each step: there the exact
    score and the double can differ in the last place (7/10 against
    0.7000000000000001); no statement below rests on the score of two
    arrays. *)
Definition Qgtb (a b : Q) : bool := negb (Qle_bool a b).
Definition Qltb (a b : Q) : bool := negb (Qle_bool b a).
Definition Qnat (n : nat) : Q := inject_Z (Z.of_nat n).

Definition not_metadata (p : string) : bool :=
  negb (String.eqb p "loc") && negb (String.eqb p "range").

Definition keyPropNames : list string :=
  ["id"; "name"; "value"; "operator"; "key"; "kind"; "computed"].

(** The part of [calculateSimilarity] that compares two objects property by
    property. *)
Definition objectSimilarity (nodeA nodeB : value) : Q :=
  let propsA := filter not_metadata (keys nodeA) in
  let propsB := filter not_metadata (keys nodeB) in
  match propsA, propsB with
  | [], [] => 1%Q
  | [], _ | _, [] => 3 # 10
  | _, _ =>
      let commonProps := filter (fun p => mem p propsB) propsA in
      let propOverlap :=
        (Qnat (length commonProps)
         / Qnat (Nat.max (length propsA) (length propsB)))%Q in
      let valueSimilarity :=
        match commonProps with
        | [] => 0%Q
        | _ =>
            let keyProps := filter (fun p => mem p keyPropNames) commonProps in
            let propsToCheck :=
              match keyProps with [] => firstn 3 commonProps | _ => keyProps end in
            let total :=
              fold_left
                (fun acc prop =>
                   let a := get_prop nodeA prop in
                   let b := get_prop nodeB prop in
                   if negb (String.eqb (typeof a) "object")
                      && negb (String.eqb (typeof b) "object")
                   then (acc + (if strict_eq a b then 1 else 0))%Q
                   else if truthy a && truthy b then (acc + (1 # 2))%Q
                   else acc)
                propsToCheck 0%Q in
            let checkedProps := length propsToCheck in
            if Nat.ltb 0 checkedProps then (total / Qnat checkedProps)%Q
            else 0%Q
        end in
      ((1 # 2) * propOverlap + (1 # 2) * valueSimilarity)%Q
  end.

(** The part of [calculateSimilarity] that compares two arrays; [simA] holds,
    for each element of [nodeA], the similarity to it. *)
Definition arraySimilarity (simA : list (value -> Q)) (lb : list value) : Q :=
  let lenA := length simA in
  let lenB := length lb in
  if Nat.eqb lenA 0 && Nat.eqb lenB 0 then 1%Q
  else if Nat.eqb lenA 0 || Nat.eqb lenB 0 then 3 # 10
  else
    let lengthRatio :=
      (Qnat (Nat.min lenA lenB) / Qnat (Nat.max lenA lenB))%Q in
    if Qltb lengthRatio (1 # 2) then ((2 # 10) + lengthRatio * (3 # 10))%Q
    else
      let maxComparisons := 5 in
      let comparisons := Nat.min maxComparisons (Nat.min lenA lenB) in
      let totalSimilarity :=
        fold_left
          (fun acc i =>
             let indexA := (i * lenA) / comparisons in
             let indexB := (i * lenB) / comparisons in
             (acc + nth indexA simA (fun _ => 0) (nth indexB lb VUndef))%Q)
          (indices comparisons) 0%Q in
      (((1 # 2) + (1 # 2) * (totalSimilarity / Qnat comparisons))
       * lengthRatio)%Q.

Fixpoint calculateSimilarity (nodeA nodeB : value) {struct nodeA} : Q :=
  if negb (String.eqb (typeof nodeA) (typeof nodeB)) then 0%Q
  else if is_null nodeA || is_null nodeB then
    (if strict_eq nodeA nodeB then 1%Q else 0%Q)
  else if negb (String.eqb (typeof nodeA) "object")
          || negb (String.eqb (typeof nodeB) "object") then
    (if strict_eq nodeA nodeB then 1%Q else 0%Q)
  else if negb (strict_eq (get_prop nodeA "type") (get_prop nodeB "type")) then 1 # 10
  else
    match nodeA, nodeB with
    | VArr la, VArr lb =>
        arraySimilarity (map (fun a => calculateSimilarity a) la) lb
    | _, _ => objectSimilarity nodeA nodeB
    end.

Section Diff.

(** The options that every recursive call inherits unchanged. *)
Variable ignoreProps : list string.
Variable ignoreOrder : bool.

Definition shouldIgnore (prop : string) : bool := mem prop ignoreProps.

Definition getNodeType (n : value) : value :=
  match n with
  | VArr _ | VObj _ =>
      let t := get_prop n "type" in
      if truthy t then t else VStr "Unknown"
  | _ => VStr (typeof n)
  end.

(** [lastComponent === component], [lastComponent] being [null] on the
    empty path. *)
Definition last_is (absPath : list string) (component : value) : bool :=
  match component, rev absPath with
  | VStr s, l :: _ => String.eqb l s
  | _, _ => false
  end.

(** [getAbsolutePath(node, pathSegment)].  Path components are strings, as
    [JuniperDiff] declares; a truthy [name] that is not a string, which
    [JuniperNode] excludes, is entered in its string form. *)
Definition getAbsolutePath (absPath : list string) (n : value)
    (pathSegment : string) : list string :=
  match n with
  | VArr _ | VObj _ =>
      let nm := get_prop n "name" in
      if truthy nm then
        if last_is absPath nm then absPath else absPath ++ [toString nm]
      else absPath ++ [pathSegment]
  | _ => absPath ++ [pathSegment]
  end.

(** What a recursive call on a part of [oldAst] computes, once [oldAst] is
    fixed: the comparison with a new value at a depth and a pair of paths. *)
Definition continuation : Type :=
  value -> depth -> list string -> list string -> list JuniperDiff.

(** The first pass of the order-insensitive branch for one old element: the
    best unmatched candidate, the first one on ties. *)
Definition bestMatch (oldNode : value) (news : list value)
    (matched : list nat) : option nat * Q :=
  fold_left
    (fun best j =>
       if existsb (Nat.eqb j) matched then best
       else
         let similarityScore := calculateSimilarity oldNode (nth j news VUndef) in
         if Qgtb similarityScore (snd best) then (Some j, similarityScore)
         else best)
    (indices (length news)) (None, (- (1))%Q).

Definition removeRecord (curPath absPath : list string) (i : nat)
    (oldNode : value) : JuniperDiff :=
  mkDiff "remove" (curPath ++ [string_of_nat i])
         (getAbsolutePath absPath oldNode (string_of_nat i))
         (Some oldNode) None None (Some (getNodeType oldNode)) None None.

Definition addRecord (curPath absPath : list string) (j : nat)
    (newNode : value) : JuniperDiff :=
  mkDiff "add" (curPath ++ [string_of_nat j])
         (getAbsolutePath absPath newNode (string_of_nat j))
         None (Some newNode) None (Some (getNodeType newNode)) None None.

(** The [for] loop over the old elements when [ignoreArrayOrder] is set:
    the records, and the set of matched indices. *)
Fixpoint unorderedLoop (olds : list (value * continuation)) (i : nat)
    (news : list value) (matched : list nat) (d : depth)
    (curPath absPath : list string) : list JuniperDiff * list nat :=
  match olds with
  | [] => ([], matched)
  | (oldNode, recur) :: olds' =>
      match bestMatch oldNode news matched with
      | (Some bestMatchIndex, bestMatchScore) =>
          if Qgtb bestMatchScore (7 # 10) then
            let nodePath := getAbsolutePath absPath oldNode (string_of_nat i) in
            let childDiffs :=
              recur (nth bestMatchIndex news VUndef) (depth_next d)
                    (curPath ++ [string_of_nat i]) nodePath in
            let (rest, m) :=
              unorderedLoop olds' (S i) news (bestMatchIndex :: matched) d
                            curPath absPath in
            (childDiffs ++ rest, m)
          else
            let (rest, m) :=
              unorderedLoop olds' (S i) news matched d curPath absPath in
            (removeRecord curPath absPath i oldNode :: rest, m)
      | (None, _) =>
          let (rest, m) :=
            unorderedLoop olds' (S i) news matched d curPath absPath in
          (removeRecord curPath absPath i oldNode :: rest, m)
      end
  end.

(** The second loop of that branch: the new elements never matched. *)
Definition unmatchedAdds (news : list value) (matched : list nat)
    (curPath absPath : list string) : list JuniperDiff :=
  flat_map
    (fun j =>
       if existsb (Nat.eqb j) matched then []
       else [addRecord curPath absPath j (nth j news VUndef)])
    (indices (length news)).

(** The [for] loop by index when the order matters. *)
Fixpoint orderedLoop (olds : list (value * continuation)) (i : nat)
    (news : list value) (d : depth) (curPath absPath : list string)
    : list JuniperDiff :=
  match olds, news with
  | [], _ =>
      map (fun jn => addRecord curPath absPath (fst jn) (snd jn))
          (combine (seq i (length news)) news)
  | (oldNode, recur) :: olds', [] =>
      removeRecord curPath absPath i oldNode
      :: orderedLoop olds' (S i) [] d curPath absPath
  | (oldNode, recur) :: olds', newNode :: news' =>
      (if depth_nonzero d then
         recur newNode (depth_next d) (curPath ++ [string_of_nat i])
               (getAbsolutePath absPath oldNode (string_of_nat i))
       else [])
      ++ orderedLoop olds' (S i) news' d curPath absPath
  end.

(** The body of the loop over [allProps] for one property. *)
Definition propStep (oldAst newAst : value)
    (recur : list (string * continuation)) (d : depth)
    (curPath absPath : list string) (prop : string) : list JuniperDiff :=
  if shouldIgnore prop then []
  else if negb (has_prop oldAst prop) then
    [mkDiff "add-prop" (curPath ++ [prop]) (absPath ++ [prop])
            None (Some (get_prop newAst prop)) (Some prop) None None None]
  else if negb (has_prop newAst prop) then
    [mkDiff "remove-prop" (curPath ++ [prop]) (absPath ++ [prop])
            (Some (get_prop oldAst prop)) None (Some prop) None None None]
  else if depth_nonzero d then
    let nodePath :=
      if String.eqb prop "children" && truthy (get_prop oldAst "name") then
        let nodePathComponent :=
          toString (get_prop oldAst "name")
          +++ (if truthy (get_prop oldAst "value")
               then " " +++ toString (get_prop oldAst "value") else "") in
        if last_is absPath (VStr nodePathComponent) then absPath
        else absPath ++ [nodePathComponent]
      else if negb (String.eqb prop "children") then absPath ++ [prop]
      else absPath in
    match assoc prop recur with
    | Some k => k (get_prop newAst prop) (depth_next d) (curPath ++ [prop]) nodePath
    | None => []
    end
  else [].

(** One call of [diffAst] on [oldAst], the recursive calls on the parts of
    [oldAst] being given: [recur] pairs each own key of [oldAst] with the
    call on the part under it. *)
Definition diffBody (oldAst : value) (recur : list (string * continuation))
    : continuation :=
  fun newAst d curPath absPath =>
  if negb (String.eqb (typeof oldAst) (typeof newAst)) then
    [mkDiff "replace" curPath absPath (Some oldAst) (Some newAst) None None
            (Some (typeof oldAst)) (Some (typeof newAst))]
  else if is_null oldAst || is_null newAst
          || negb (String.eqb (typeof oldAst) "object")
          || negb (String.eqb (typeof newAst) "object") then
    if negb (strict_eq oldAst newAst) then
      [mkDiff "replace" curPath absPath (Some oldAst) (Some newAst)
              None None None None]
    else []
  else
    match oldAst, newAst with
    | VArr olds, VArr news =>
        let parts := combine olds (map snd recur) in
        if ignoreOrder then
          let (diffs, matched) :=
            unorderedLoop parts 0 news [] d curPath absPath in
          diffs ++ unmatchedAdds news matched curPath absPath
        else orderedLoop parts 0 news d curPath absPath
    | _, _ =>
        let allProps := dedup (keys oldAst ++ keys newAst) in
        flat_map (propStep oldAst newAst recur d curPath absPath) allProps
    end.

Fixpoint diffWalk (oldAst : value) {struct oldAst} : continuation :=
  diffBody oldAst
    (match oldAst with
     | VArr olds =>
         combine (keys oldAst) (map (fun o => diffWalk o) olds)
         ++ [("length", diffBody (get_prop oldAst "length") [])]
     | VObj props =>
         map (fun kv => match kv with (k, v) => (k, diffWalk v) end) props
     | _ => []
     end).

End Diff.

Definition orDefault {A : Type} (o : option A) (d : A) : A :=
  match o with Some x => x | None => d end.

(** [diffAst(oldAst, newAst, options = {})]. *)
Definition diffAst (oldAst newAst : value) (options : DiffOptions)
    : list JuniperDiff :=
  diffWalk (orDefault (ignoreProperties options) ["loc"; "range"])
           (orDefault (ignoreArrayOrder options) false)
           oldAst newAst
           (orDefault (maxDepth options) Infinity)
           (orDefault (currentPath options) [])
           (orDefault (absolutePath options) []).

End Differ.

(* ================================================================== *)
(** ** Results of functions that can throw *)
(* ================================================================== *)

Inductive result (A : Type) : Type :=
| Ok (a : A)
| Throw (error : string).
Arguments Ok {A} a.
Arguments Throw {A} error.

Definition bind {A B : Type} (r : result A) (f : A -> result B) : result B :=
  match r with
  | Ok a => f a
  | Throw e => Throw e
  end.

Notation "x <- r ;; k" := (bind r (fun x => k))
  (at level 61, r at next level, right associativity).

Definition TypeError : string := "TypeError".

(** [mapM f l]: [l.map(f)] when [f] can throw; the first failure wins. *)
Fixpoint mapM {A B : Type} (f : A -> result B) (l : list A) : result (list B) :=
  match l with
  | [] => Ok []
  | x :: l' => y <- f x ;; ys <- mapM f l' ;; Ok (y :: ys)
  end.

(* ================================================================== *)
(** ** The parts of lodash the code calls: [_.get], [_.set] *)
(* ================================================================== *)

(** lodash is a dependency of the repository, not part of it; the
    definitions follow its [baseGet] and [baseSet].  A string path is split
    at its dots.  lodash also reads brackets in a path ([a[0]] is the key
    [a], then [0]); that syntax is not modelled, and the statements about
    arbitrary paths take paths without brackets. *)
Module Lodash.
Import Str Js.

Definition isObject (v : value) : bool :=
  match v with VArr _ | VObj _ => true | _ => false end.

(** [isIndex(key)]. *)
Definition isIndex (k : string) : bool :=
  match index_of_string k with Some _ => true | None => false end.

(** [castPath(path, object)] for a string path: the string itself when it
    names a property of [object] (or holds no dot), its dot-separated pieces
    otherwise. *)
Definition castPath (path : string) (object : value) : list string :=
  if has_prop object path then [path] else split_char "." path.

Fixpoint walk (object : value) (path : list string) : value :=
  match path with
  | [] => object
  | key :: rest =>
      match object with
      | VUndef | VNull => VUndef
      | _ => walk (get_prop object key) rest
      end
  end.

Definition baseGet (object : value) (path : list string) : value :=
  match path with
  | [] => VUndef
  | _ => walk object path
  end.

(** [_.get(object, path)]. *)
Definition get (object : value) (path : string) : value :=
  match object with
  | VUndef | VNull => VUndef
  | _ => baseGet object (castPath path object)
  end.

(** [object[key] = x].  A named property put on an array is not modelled:
    the array is left as it is. *)
Definition assignValue (object : value) (key : string) (x : value) : value :=
  match object with
  | VObj props => VObj (dict_set props key x)
  | VArr l =>
      match index_of_string key with
      | Some i => VArr (list_set VUndef l i x)
      | None => object
      end
  | _ => object
  end.

Definition unsafeKey (key : string) : bool :=
  String.eqb key "__proto__" || String.eqb key "constructor"
  || String.eqb key "prototype".

(** The loop of [baseSet] from [nested] on: the value [nested] becomes.  (A
    level that only a prototype answers counts as missing here; the store
    model below tells it apart.) *)
Fixpoint baseSet (nested : value) (path : list string) (x : value) : value :=
  match path with
  | [] => nested
  | key :: rest =>
      if unsafeKey key then nested
      else
        match rest with
        | [] => assignValue nested key x
        | next :: _ =>
            let objValue := get_prop nested key in
            let newValue :=
              if isObject objValue then objValue
              else if isIndex next then VArr [] else VObj [] in
            assignValue nested key (baseSet newValue rest x)
        end
  end.

(** [_.set(object, path, x)]: what [object] has become. *)
Definition set (object : value) (path : string) (x : value) : value :=
  if isObject object then baseSet object (castPath path object) x
  else object.

End Lodash.

(* ================================================================== *)
(** ** The template synthesizer ([convertToJinja2Ast]) *)
(* ================================================================== *)

Module Synth.
Import Str Js Lodash Differ.

(** *** String helpers *)

(** [s.substr(n)]. *)
Fixpoint drop (n : nat) (s : string) : string :=
  match n, s with
  | 0, _ => s
  | S n', String _ s' => drop n' s'
  | S _, EmptyString => EmptyString
  end.

(** [s.startsWith(p)]. *)
Definition startsWith (s p : string) : bool := String.prefix p s.

(** [s.replace(pat, by)] for a string pattern: the first occurrence only. *)
Fixpoint replace_first (pat by_ s : string) : string :=
  if String.prefix pat s then by_ +++ drop (String.length pat) s
  else match s with
       | EmptyString => EmptyString
       | String c s' => String c (replace_first pat by_ s')
       end.

(** [l.slice(0, -n)]. *)
Definition drop_last {A : Type} (n : nat) (l : list A) : list A :=
  firstn (length l - n) l.

(** *** Numbers: unary [+] on a string *)

(** A subgroup is the result of unary [+] on a path segment: a double.
    [Int z] is the double whose value is the integer [z]; [Frac m e] is the
    double [m / 2^e] with [m] odd, which is no integer; [Inf] is one of the
    two infinities.  The two zeros are both [Int 0]: [===], [Set] and
    property keys do not tell them apart. *)
Inductive num : Type :=
| NaN
| Int (z : Z)
| Frac (m : Z) (e : positive)
| Inf (negative : bool).

(** The double nearest to [a / b] for positive [a] and [b], ties going to
    the even significand: [Some (m, e)] stands for [m * 2^e], where
    [2^52 <= m <= 2^53] or [e = -1074]; [None] when the quotient rounds
    beyond the largest double. *)
Definition nearest (a b : Z) : option (Z * Z) :=
  let l := (Z.log2 a - Z.log2 b)%Z in
  let below :=
    if (0 <=? l)%Z then (a <? b * 2 ^ l)%Z else (a * 2 ^ (- l) <? b)%Z in
  let e := Z.max ((if below then l - 1 else l) - 52) (- 1074) in
  let n := if (0 <=? e)%Z then a else (a * 2 ^ (- e))%Z in
  let d := if (0 <=? e)%Z then (b * 2 ^ e)%Z else b in
  let q := (n / d)%Z in
  let r := (n mod d)%Z in
  let m :=
    if (2 * r <? d)%Z then q
    else if (d <? 2 * r)%Z then (q + 1)%Z
    else if Z.even q then q else (q + 1)%Z in
  if (2 ^ 1024 <=? m * 2 ^ e)%Z then None else Some (m, e).

(** [m / 2^k] with the common factors of two removed. *)
Fixpoint lowest (m : positive) (k : nat) : positive * nat :=
  match k, m with
  | S k', xO p => lowest p k'
  | _, _ => (m, k)
  end.

Definition signed (negative : bool) (z : Z) : Z :=
  if negative then (- z)%Z else z.

(** The number whose value is the double nearest to [a / b], for [a >= 0]
    and [b > 0].  An integer up to [2^53] is a double. *)
Definition number (negative : bool) (a b : Z) : num :=
  if (a =? 0)%Z then Int 0
  else if (b =? 1)%Z && (a <=? 2 ^ 53)%Z then Int (signed negative a)
  else
    match nearest a b with
    | None => Inf negative
    | Some (m, e) =>
        if (0 <=? e)%Z then Int (signed negative (m * 2 ^ e))
        else
          match m with
          | Zpos p =>
              match lowest p (Z.to_nat (- e)) with
              | (p', 0) => Int (signed negative (Zpos p'))
              | (p', S k) => Frac (signed negative (Zpos p')) (Pos.of_succ_nat k)
              end
          | _ => Int 0
          end
    end.

(** The value of a digit in a radix up to 16. *)
Definition digit_of (radix : Z) (c : ascii) : option Z :=
  let n := Z.of_nat (nat_of_ascii c) in
  let v :=
    if (48 <=? n)%Z && (n <=? 57)%Z then (n - 48)%Z
    else if (97 <=? n)%Z && (n <=? 102)%Z then (n - 87)%Z
    else if (65 <=? n)%Z && (n <=? 70)%Z then (n - 55)%Z
    else radix in
  if (v <? radix)%Z then Some v else None.

Definition is_digit (c : ascii) : bool :=
  match digit_of 10 c with Some _ => true | None => false end.

(** The value of a string of digits, continuing from [acc]. *)
Fixpoint digits_from (radix acc : Z) (s : string) : option Z :=
  match s with
  | EmptyString => Some acc
  | String c s' =>
      match digit_of radix c with
      | Some v => digits_from radix (acc * radix + v) s'
      | None => None
      end
  end.

(** One digit at least. *)
Definition digits (radix : Z) (s : string) : option Z :=
  if is_empty s then None else digits_from radix 0 s.

(** [0x], [0o] and [0b] literals, which take no sign: [None] when the
    string does not start like one. *)
Definition radixLiteral (t : string) : option num :=
  match t with
  | String z (String c r) =>
      let radix :=
        if negb (Ascii.eqb z "0") then None
        else if Ascii.eqb c "x" || Ascii.eqb c "X" then Some 16%Z
        else if Ascii.eqb c "o" || Ascii.eqb c "O" then Some 8%Z
        else if Ascii.eqb c "b" || Ascii.eqb c "B" then Some 2%Z
        else None in
      match radix with
      | Some k =>
          Some (match digits k r with
                | Some v => number false v 1
                | None => NaN
                end)
      | None => None
      end
  | _ => None
  end.

(** The exponent part of a decimal literal: nothing, or [e] or [E], a sign
    if any, and digits. *)
Definition exponentPart (r : string) : option Z :=
  match r with
  | EmptyString => Some 0%Z
  | String c r' =>
      if Ascii.eqb c "e" || Ascii.eqb c "E" then
        match r' with
        | String "+" ds => digits 10 ds
        | String "-" ds => option_map Z.opp (digits 10 ds)
        | _ => digits 10 r'
        end
      else None
  end.

(** A decimal literal without its sign: [Infinity], or digits with a
    fraction and an exponent, one digit at least before the exponent. *)
Definition unsignedLiteral (negative : bool) (r : string) : num :=
  if String.eqb r "Infinity" then Inf negative
  else
    let (ip, r1) := span is_digit r in
    let (fp, r2) :=
      match r1 with
      | String "." r' => span is_digit r'
      | _ => (EmptyString, r1)
      end in
    if is_empty ip && is_empty fp then NaN
    else
      match exponentPart r2, digits_from 10 0 (ip +++ fp) with
      | Some x, Some mantissa =>
          let e10 := (x - Z.of_nat (String.length fp))%Z in
          if (0 <=? e10)%Z then number negative (mantissa * 10 ^ e10) 1
          else number negative mantissa (10 ^ (- e10))
      | _, _ => NaN
      end.

(** [+s]: the white space around the literal does not count, and the empty
    literal is zero. *)
Definition toNumber (s : string) : num :=
  let t := trim s in
  if is_empty t then Int 0
  else
    match radixLiteral t with
    | Some n => n
    | None =>
        match t with
        | String c r =>
            if Ascii.eqb c "+" then unsignedLiteral false r
            else if Ascii.eqb c "-" then unsignedLiteral true r
            else unsignedLiteral false t
        | EmptyString => unsignedLiteral false t
        end
    end.

(** SameValueZero, the equality of [Set] and of [includes]. *)
Definition num_eqb (a b : num) : bool :=
  match a, b with
  | NaN, NaN => true
  | Int x, Int y => Z.eqb x y
  | Frac m e, Frac m' e' => Z.eqb m m' && Pos.eqb e e'
  | Inf x, Inf y => Bool.eqb x y
  | _, _ => false
  end.

(** [index === n] for an array index. *)
Definition is_index (index : nat) (n : num) : bool :=
  match n with
  | Int z => Z.eqb z (Z.of_nat index)
  | _ => false
  end.

Fixpoint num_dedup_from (seen : list num) (l : list num) : list num :=
  match l with
  | [] => []
  | x :: l' =>
      if existsb (num_eqb x) seen then num_dedup_from seen l'
      else x :: num_dedup_from (x :: seen) l'
  end.

(** [[...new Set(l)]]. *)
Definition distinct (l : list num) : list num := num_dedup_from [] l.

(** [subgroups.includes(index)]. *)
Definition includes (subgroups : list num) (index : nat) : bool :=
  existsb (is_index index) subgroups.

(** *** [findLoopOpportunities] *)

Record change : Type := mkChange { c_path : string; c_subgroup : num }.

Definition loopGroups : Type := list (string * list change).

(** The names of the members of [Object.prototype] (those of V8): what a
    plain object answers for a key it does not own. *)
Definition objectPrototypeNames : list string :=
  ["constructor"; "__defineGetter__"; "__defineSetter__"; "hasOwnProperty";
   "__lookupGetter__"; "__lookupSetter__"; "isPrototypeOf";
   "propertyIsEnumerable"; "toString"; "valueOf"; "__proto__";
   "toLocaleString"].

(** [acc[key] ?? []] followed by the spread [[...existingList, x]]: the list
    filed under an own key; the empty list for a key that [acc] does not
    answer; for a key that only [Object.prototype] answers, the member found
    there, a function or an object, is not iterable and the spread throws. *)
Definition existingList (acc : loopGroups) (key : string) : result (list change) :=
  match assoc key acc with
  | Some l => Ok l
  | None => if mem key objectPrototypeNames then Throw TypeError else Ok []
  end.

(** The callback of the [reduce] in [findLoopOpportunities]. *)
Definition addOpportunity (acc : loopGroups) (path : list string)
    : result loopGroups :=
  let wildcardPath := join "." (drop_last 2 path) in
  let existingKey :=
    find (fun candidate =>
            String.eqb wildcardPath candidate
            || startsWith wildcardPath (candidate +++ "."))
         (map fst acc) in
  let key := match existingKey with Some k => k | None => wildcardPath end in
  existing <- existingList acc key ;;
  let subgroup :=
    toNumber (hd "" (split_char "." (drop (String.length key + 1) (join "." path)))) in
  Ok (dict_set acc key (existing ++ [mkChange (join "." path) subgroup])).

Fixpoint foldM {A B : Type} (f : A -> B -> result A) (acc : A) (l : list B)
    : result A :=
  match l with
  | [] => Ok acc
  | x :: l' => acc' <- f acc x ;; foldM f acc' l'
  end.

Definition findLoopOpportunities (diff : list JuniperDiff) : result loopGroups :=
  foldM (fun acc d => addOpportunity acc (d_path d)) [] diff.

(** *** [flattenObjectReverse] *)

(** [res[key] = path] on the table: the key [__proto__] names the setter of
    [Object.prototype], which ignores a string, so that the table is left as
    it is. *)
Definition assignEntry (res : list (string * string)) (key path : string)
    : list (string * string) :=
  if String.eqb key "__proto__" then res else dict_set res key path.

(** The loop of [flattenObjectReverse] over the entries of an object. *)
Fixpoint flattenInto (obj : value) (prefix : string)
    (res : list (string * string)) {struct obj} : list (string * string) :=
  match obj with
  | VObj props =>
      (fix entries (ps : list (string * value)) (res : list (string * string))
         : list (string * string) :=
         match ps with
         | [] => res
         | (key, x) :: ps' =>
             let path := if is_empty prefix then key else prefix +++ "." +++ key in
             entries ps'
               (match x with
                | VObj _ => flattenInto x path res
                | _ => assignEntry res (toString x) path
                end)
         end) props res
  | _ => res
  end.

(** [Object.entries(v)], which throws on [null] and [undefined]. *)
Definition entries (v : value) : result (list (string * value)) :=
  match v with
  | VUndef | VNull => Throw TypeError
  | _ => Ok (combine (keys v) (map (get_prop v) (keys v)))
  end.

Definition flattenObjectReverse (obj : value) : result (list (string * string)) :=
  es <- entries obj ;; Ok (flattenInto (VObj es) "" []).

(** *** The reverse table, read as [reveredVariables[key]] *)

(** The table is a plain object, so a key it does not own is looked up in
    [Object.prototype].  The text [toString()] gives for an inherited member
    (that of V8): *)
Definition nativeText (key : string) : string :=
  if String.eqb key "__proto__" then "[object Object]"
  else if String.eqb key "constructor" then "function Object() { [native code] }"
  else "function " +++ key +++ "() { [native code] }".

Inductive lookup : Type :=
| Found (path : string)
| Inherited (text : string)
| Missing.

Definition reverseLookup (rev : list (string * string)) (key : string) : lookup :=
  match assoc key rev with
  | Some p => Found p
  | None =>
      if mem key objectPrototypeNames then Inherited (nativeText key)
      else Missing
  end.

(** [reveredVariables[key] ? `{{${reveredVariables[key]}}}` : dflt]. *)
Definition placeholderOr (rev : list (string * string)) (key dflt : value)
    : value :=
  match reverseLookup rev (toString key) with
  | Found p => if is_empty p then dflt else VStr ("{{" +++ p +++ "}}")
  | Inherited t => VStr ("{{" +++ t +++ "}}")
  | Missing => dflt
  end.

(** The callback of the [map] over the dot-components of an [interface]
    value. *)
Definition rewriteComponent (rev : list (string * string)) (index : nat)
    (value : string) : result string :=
  match index with
  | 0 | 1 =>
      let target := if Nat.eqb index 0 then "interface.name"
                    else "interface.unit.name" in
      match reverseLookup rev value with
      | Missing => Throw TypeError
      | Found p => if String.eqb p target then Ok ("{{" +++ p +++ "}}") else Ok value
      | Inherited t => if String.eqb t target then Ok ("{{" +++ t +++ "}}") else Ok value
      end
  | _ => Ok value
  end.

Fixpoint mapi_from {A B : Type} (f : nat -> A -> result B) (i : nat) (l : list A)
    : result (list B) :=
  match l with
  | [] => Ok []
  | x :: l' => y <- f i x ;; ys <- mapi_from f (S i) l' ;; Ok (y :: ys)
  end.

(** [{...ast}]: the own enumerable properties, none for a value that has
    none. *)
Definition spread (ast : value) : list (string * value) :=
  match ast with
  | VObj props => props
  | VArr _ | VStr _ => combine (keys ast) (map (get_prop ast) (keys ast))
  | _ => []
  end.

(** [v.name] and the like, which throw on [null] and [undefined]. *)
Definition read_prop (v : value) (k : string) : result value :=
  match v with
  | VUndef | VNull => Throw TypeError
  | _ => Ok (get_prop v k)
  end.

Section LoopBody.

Variable variables : value.
Variable reveredVariables : list (string * string).

(** What the recursive call on a child computes, given the path. *)
Definition bodyOf : Type := string -> result value.

(** One call of [convertToLoopBody], the recursive calls on the elements of
    [ast.children] being given in [recur]. *)
Definition loopBody (ast : value) (recur : list (value * bodyOf))
    (currPath : string) : result value :=
  let replaced := spread ast in
  let nameV := get_prop (VObj replaced) "name" in
  let valueV := get_prop (VObj replaced) "value" in
  replaced1 <-
    (if strict_eq nameV (VStr "interface") && truthy valueV then
       match valueV with
       | VStr s =>
           parts <- mapi_from (rewriteComponent reveredVariables) 0
                              (split_char "." s) ;;
           Ok (dict_set replaced "value" (VStr (join "." parts)))
       | _ => Throw TypeError
       end
     else
       match get variables currPath with
       | VStr _ => Ok (dict_set replaced "value" (VStr ("{{" +++ currPath +++ "}}")))
       | _ =>
           if negb (startsWith currPath "interface.") then
             let r1 :=
               if truthy nameV
               then dict_set replaced "name" (placeholderOr reveredVariables nameV nameV)
               else replaced in
             let r2 :=
               if truthy valueV
               then dict_set r1 "value" (placeholderOr reveredVariables valueV valueV)
               else r1 in
             Ok r2
           else Ok replaced
       end) ;;
  match get_prop (VObj replaced1) "children" with
  | VArr _ =>
      children <-
        mapM (fun cr : value * bodyOf =>
                let (child, k) := cr in
                childName <- read_prop child "name" ;;
                k (currPath +++ "." +++ toString childName))
             recur ;;
      Ok (VObj (dict_set replaced1 "children" (VArr children)))
  | _ => Ok (VObj replaced1)
  end.

Fixpoint convertToLoopBody (ast : value) {struct ast} : bodyOf :=
  loopBody ast
    (match ast with
     | VObj props =>
         (fix children (ps : list (string * value)) : list (value * bodyOf) :=
            match ps with
            | [] => []
            | (k, v) :: ps' =>
                if String.eqb k "children" then
                  match v with
                  | VArr elems =>
                      map (fun c => (c, convertToLoopBody c)) elems
                  | _ => []
                  end
                else children ps'
            end) props
     | _ => []
     end).

End LoopBody.

(** *** [convertToJinja2Ast] *)

Definition marker (name : string) : value :=
  VObj [("type", VStr "flag"); ("name", VStr name); ("value", VNull);
        ("children", VArr [])].

Definition loopOpen : value := marker "{% for interface in interface.physical %}".
Definition loopClose : value := marker "{% endfor %}".

(** [subgroups[0]]. *)
Definition firstSubgroup (subgroups : list num) : option num := hd_error subgroups.

(** The callback of [original.reduce]: [acc2] after the element at
    [index]. *)
Definition loopReduce (variables : value) (original : list value)
    (subgroups : list num) (currPath : value)
    (acc2 : list value) (index : nat) (child : value) : result (list value) :=
  if match firstSubgroup subgroups with
     | Some s => is_index index s
     | None => false
     end
  then
    rev <- flattenObjectReverse variables ;;
    path <- match currPath with
            | VStr s => Ok (replace_first "interfaces" "interface" s)
            | _ => Throw TypeError
            end ;;
    body <- convertToLoopBody variables rev (nth index original VUndef) path ;;
    Ok (acc2 ++ [loopOpen; body; loopClose])
  else if negb (includes subgroups index) then Ok (acc2 ++ [child])
  else Ok acc2.

Fixpoint reduce_from {A : Type} (f : list A -> nat -> value -> result (list A))
    (acc : list A) (i : nat) (l : list value) : result (list A) :=
  match l with
  | [] => Ok acc
  | x :: l' => acc' <- f acc i x ;; reduce_from f acc' (S i) l'
  end.

(** The callback of the outer [reduce]: [acc] after one loop group. *)
Definition loopStep (variables : value) (acc : value)
    (group : string * list change) : result value :=
  let (loopPath, changes) := group in
  let subgroups := distinct (map c_subgroup changes) in
  currPath <-
    read_prop (get acc (join "." (drop_last 1 (split_char "." loopPath)))) "name" ;;
  match get acc loopPath with
  | VArr original =>
      replaced <-
        reduce_from (loopReduce variables original subgroups currPath) [] 0
                    original ;;
      Ok (set acc loopPath (VArr replaced))
  | _ => Throw TypeError
  end.

(** [convertToJinja2Ast(ast, diff, variables)]: the groups are computed
    first, and a failure there ends the call.  [_.cloneDeep(ast)] is [ast]
    itself here, values having no identity; the store model below keeps the
    copy apart from the original. *)
Definition convertToJinja2Ast (ast : value) (diff : list JuniperDiff)
    (variables : value) : result value :=
  groups <- findLoopOpportunities diff ;;
  foldM (loopStep variables) ast groups.

End Synth.

(* ================================================================== *)
(** ** The store model: objects with identity *)
(* ================================================================== *)

(** [addInterfaceProp] pushes onto and writes into the objects it is handed,
    and the synthesizer writes into a copy of its input tree.  To tell an
    object from its copy, this model keeps objects in a store: a value is a
    primitive or a reference to a cell, a cell is an array or a plain
    object.  The change list and the substitution table are only ever read
    ([reduce], [slice], [join], [_.get], [Object.entries]); they stay plain
    data, with old values that may refer into the store. *)
Module Store.
Import Str Js Differ Synth.

Inductive hval : Type :=
| HUndef
| HNull
| HBool (b : bool)
| HNum (z : Z)
| HStr (s : string)
| HRef (l : nat).

Inductive cell : Type :=
| CArr (elems : list hval)
| CObj (props : list (string * hval)).

Definition store : Type := list cell.

(** How a call ends: with a value, with an exception, out of fuel, or at a
    built-in object.  The store holds the objects and arrays of the data;
    the functions and prototypes of the JavaScript library are not in it.  A
    run that is about to enter one of them ends there, as [AtBuiltin]. *)
Inductive outcome (A : Type) : Type :=
| Done (a : A)
| Thrown (error : string)
| OutOfFuel
| AtBuiltin.
Arguments Done {A} a.
Arguments Thrown {A} error.
Arguments OutOfFuel {A}.
Arguments AtBuiltin {A}.

(** A computation takes the store and leaves one, however it ends. *)
Definition M (A : Type) : Type := store -> store * outcome A.

Definition ret {A : Type} (a : A) : M A := fun s => (s, Done a).
Definition throw {A : Type} (e : string) : M A := fun s => (s, Thrown e).
Definition exhausted {A : Type} : M A := fun s => (s, OutOfFuel).
Definition atBuiltin {A : Type} : M A := fun s => (s, AtBuiltin).

Definition bindM {A B : Type} (m : M A) (f : A -> M B) : M B :=
  fun s =>
    match m s with
    | (s1, Done a) => f a s1
    | (s1, Thrown e) => (s1, Thrown e)
    | (s1, OutOfFuel) => (s1, OutOfFuel)
    | (s1, AtBuiltin) => (s1, AtBuiltin)
    end.

Notation "x <~ m ;; k" := (bindM m (fun x => k))
  (at level 61, m at next level, right associativity).

(** A pure step that can throw. *)
Definition lift {A : Type} (r : result A) : M A :=
  match r with
  | Ok a => ret a
  | Throw e => throw e
  end.

(** A pure step that can run out of fuel. *)
Definition fueled {A : Type} (o : option A) : M A :=
  match o with
  | Some a => ret a
  | None => exhausted
  end.

(** Reading the store. *)
Definition reading {A : Type} (f : store -> A) : M A := fun s => (s, Done (f s)).

Fixpoint mapS {A B : Type} (f : A -> M B) (l : list A) : M (list B) :=
  match l with
  | [] => ret []
  | x :: l' => y <~ f x ;; ys <~ mapS f l' ;; ret (y :: ys)
  end.

Fixpoint foldS {A B : Type} (f : A -> B -> M A) (acc : A) (l : list B) : M A :=
  match l with
  | [] => ret acc
  | x :: l' => acc' <~ f acc x ;; foldS f acc' l'
  end.

Fixpoint reduceS {A B : Type} (f : A -> nat -> B -> M A) (acc : A) (i : nat)
    (l : list B) : M A :=
  match l with
  | [] => ret acc
  | x :: l' => acc' <~ f acc i x ;; reduceS f acc' (S i) l'
  end.

(** *** Cells *)

(** A new object or array: a cell at the end of the store. *)
Definition alloc (c : cell) : M hval :=
  fun s => (s ++ [c], Done (HRef (length s))).

Fixpoint update (s : store) (l : nat) (c : cell) : store :=
  match s, l with
  | [], _ => []
  | _ :: s', 0 => c :: s'
  | x :: s', S l' => x :: update s' l' c
  end.

Definition truthy (v : hval) : bool :=
  match v with
  | HUndef | HNull => false
  | HBool b => b
  | HNum z => negb (Z.eqb z 0)
  | HStr s => negb (is_empty s)
  | HRef _ => true
  end.

(** [a === b]: two references are equal when they are the same. *)
Definition strict_eq (a b : hval) : bool :=
  match a, b with
  | HUndef, HUndef => true
  | HNull, HNull => true
  | HBool x, HBool y => Bool.eqb x y
  | HNum x, HNum y => Z.eqb x y
  | HStr x, HStr y => String.eqb x y
  | HRef x, HRef y => Nat.eqb x y
  | _, _ => false
  end.

Definition isObject (v : hval) : bool :=
  match v with HRef _ => true | _ => false end.

Definition lookupOr (k : string) (props : list (string * hval)) : hval :=
  match assoc k props with Some x => x | None => HUndef end.

(** [v[k]] of a value that is not [null] or [undefined], for a key the
    value owns or nothing answers ([inherits] tells the keys that only a
    prototype answers). *)
Definition read (s : store) (v : hval) (k : string) : hval :=
  match v with
  | HRef l =>
      match nth_error s l with
      | Some (CObj props) => lookupOr k props
      | Some (CArr elems) =>
          if String.eqb k "length" then HNum (Z.of_nat (length elems))
          else match index_of_string k with
               | Some i => nth i elems HUndef
               | None => HUndef
               end
      | None => HUndef
      end
  | HStr str =>
      if String.eqb k "length" then HNum (Z.of_nat (String.length str))
      else match index_of_string k with
           | Some i =>
               match String.get i str with
               | Some c => HStr (String c EmptyString)
               | None => HUndef
               end
           | None => HUndef
           end
  | _ => HUndef
  end.

(** [k in v] of an object or array. *)
Definition has (s : store) (v : hval) (k : string) : bool :=
  match v with
  | HRef l =>
      match nth_error s l with
      | Some (CObj props) =>
          match assoc k props with Some _ => true | None => false end
      | Some (CArr elems) =>
          String.eqb k "length" ||
          match index_of_string k with
          | Some i => Nat.ltb i (length elems)
          | None => false
          end
      | None => false
      end
  | _ => false
  end.

(** The names of the members of [Array.prototype] (those of V8). *)
Definition arrayPrototypeNames : list string :=
  ["constructor"; "at"; "concat"; "copyWithin"; "fill"; "find"; "findIndex";
   "findLast"; "findLastIndex"; "lastIndexOf"; "pop"; "push"; "reverse";
   "shift"; "unshift"; "slice"; "sort"; "splice"; "includes"; "indexOf";
   "join"; "keys"; "entries"; "values"; "forEach"; "filter"; "flat";
   "flatMap"; "map"; "every"; "some"; "reduce"; "reduceRight";
   "toLocaleString"; "toString"; "toReversed"; "toSorted"; "toSpliced";
   "with"].

(** [v[k]] is answered by the prototype chain alone: [k] is no own property
    of the object or array [v] and names a member of [Object.prototype] or,
    for an array, of [Array.prototype]. *)
Definition inherits (s : store) (v : hval) (k : string) : bool :=
  negb (has s v k)
  && match v with
     | HRef l =>
         match nth_error s l with
         | Some (CObj _) => mem k objectPrototypeNames
         | Some (CArr _) =>
             mem k arrayPrototypeNames || mem k objectPrototypeNames
         | None => false
         end
     | _ => false
     end.

(** [v[k] = x].  A named property put on an array is not modelled. *)
Definition write (v : hval) (k : string) (x : hval) : M unit :=
  fun s =>
    (match v with
     | HRef l =>
         match nth_error s l with
         | Some (CObj props) => update s l (CObj (dict_set props k x))
         | Some (CArr elems) =>
             match index_of_string k with
             | Some i => update s l (CArr (list_set HUndef elems i x))
             | None => s
             end
         | None => s
         end
     | _ => s
     end, Done tt).

(** [v.k], which throws on [null] and [undefined]. *)
Definition readProp (v : hval) (k : string) : M hval :=
  match v with
  | HUndef | HNull => throw TypeError
  | _ => reading (fun s => read s v k)
  end.

(** [{...v}]: the own enumerable properties. *)
Definition spread (s : store) (v : hval) : list (string * hval) :=
  match v with
  | HRef l =>
      match nth_error s l with
      | Some (CObj props) => props
      | Some (CArr elems) =>
          combine (map string_of_nat (indices (length elems))) elems
      | None => []
      end
  | HStr str =>
      map (fun i => (string_of_nat i, read s v (string_of_nat i)))
          (indices (String.length str))
  | _ => []
  end.

(** [String(v)]; the fuel bounds the nesting of arrays. *)
Fixpoint toStringIn (fuel : nat) (s : store) (v : hval) : option string :=
  match v with
  | HUndef => Some "undefined"
  | HNull => Some "null"
  | HBool true => Some "true"
  | HBool false => Some "false"
  | HNum z => Some (string_of_Z z)
  | HStr str => Some str
  | HRef l =>
      match fuel with
      | 0 => None
      | S fuel' =>
          match nth_error s l with
          | Some (CArr elems) =>
              option_map (join ",")
                ((fix pieces (es : list hval) : option (list string) :=
                    match es with
                    | [] => Some []
                    | e :: es' =>
                        match (match e with
                               | HUndef | HNull => Some ""
                               | _ => toStringIn fuel' s e
                               end), pieces es' with
                        | Some p, Some ps => Some (p :: ps)
                        | _, _ => None
                        end
                    end) elems)
          | _ => Some "[object Object]"
          end
      end
  end.

Definition toStringS (fuel : nat) (v : hval) : M string :=
  fun s => fueled (toStringIn fuel s v) s.

(** *** lodash on the store *)

Definition castPath (s : store) (path : string) (object : hval) : list string :=
  if has s object path then [path] else split_char "." path.

Fixpoint walk (s : store) (object : hval) (path : list string) : hval :=
  match path with
  | [] => object
  | key :: rest =>
      match object with
      | HUndef | HNull => HUndef
      | _ => walk s (read s object key) rest
      end
  end.

(** [_.get(object, path)]. *)
Definition get (object : hval) (path : string) : M hval :=
  reading (fun s =>
    match object with
    | HUndef | HNull => HUndef
    | _ =>
        match castPath s path object with
        | [] => HUndef
        | p => walk s object p
        end
    end).

(** The loop of [baseSet] from [nested] on.  A level that already holds an
    object is left as it is ([assignValue] writes nothing when the property
    already holds the value); a missing level is created.  Where
    [nested[key]] is a member that [nested] inherits, a function or a
    prototype, [baseSet] takes it for the next level and goes on inside it:
    the run leaves the store. *)
Fixpoint baseSet (nested : hval) (path : list string) (x : hval) : M unit :=
  match path with
  | [] => ret tt
  | key :: rest =>
      if Lodash.unsafeKey key then ret tt
      else
        match rest with
        | [] => write nested key x
        | next :: _ =>
            inherited <~ reading (fun s => inherits s nested key) ;;
            if inherited then atBuiltin
            else
              objValue <~ reading (fun s => read s nested key) ;;
              if isObject objValue then baseSet objValue rest x
              else
                newValue <~ alloc (if Lodash.isIndex next then CArr [] else CObj []) ;;
                _ <~ write nested key newValue ;;
                baseSet newValue rest x
        end
  end.

(** [_.set(object, path, x)]. *)
Definition set (object : hval) (path : string) (x : hval) : M unit :=
  if isObject object then
    p <~ reading (fun s => castPath s path object) ;;
    baseSet object p x
  else ret tt.

(** [_.cloneDeep(v)]: a fresh cell for every cell reached from [v].  (A cell
    reached twice is copied twice; lodash would copy it once.) *)
Fixpoint cloneDeep (fuel : nat) (v : hval) : M hval :=
  match v with
  | HRef l =>
      match fuel with
      | 0 => exhausted
      | S fuel' =>
          c <~ reading (fun s => nth_error s l) ;;
          match c with
          | Some (CArr elems) =>
              copies <~ mapS (cloneDeep fuel') elems ;;
              alloc (CArr copies)
          | Some (CObj props) =>
              copies <~ mapS (cloneDeep fuel') (map snd props) ;;
              alloc (CObj (combine (map fst props) copies))
          | None => ret HUndef
          end
      end
  | _ => ret v
  end.

(** *** Moving between plain values and the store *)

(** The value put into the store, every object and array in a new cell. *)
Fixpoint inject (v : value) : M hval :=
  match v with
  | VUndef => ret HUndef
  | VNull => ret HNull
  | VBool b => ret (HBool b)
  | VNum z => ret (HNum z)
  | VStr str => ret (HStr str)
  | VArr l =>
      es <~ (fix elems (l : list value) : M (list hval) :=
               match l with
               | [] => ret []
               | x :: l' => y <~ inject x ;; ys <~ elems l' ;; ret (y :: ys)
               end) l ;;
      alloc (CArr es)
  | VObj props =>
      es <~ (fix entries (ps : list (string * value)) : M (list (string * hval)) :=
               match ps with
               | [] => ret []
               | (k, x) :: ps' =>
                   y <~ inject x ;; ys <~ entries ps' ;; ret ((k, y) :: ys)
               end) props ;;
      alloc (CObj es)
  end.

(** The plain value a store value stands for. *)
Fixpoint load (fuel : nat) (s : store) (v : hval) : option value :=
  match v with
  | HUndef => Some VUndef
  | HNull => Some VNull
  | HBool b => Some (VBool b)
  | HNum z => Some (VNum z)
  | HStr str => Some (VStr str)
  | HRef l =>
      match fuel with
      | 0 => None
      | S fuel' =>
          match nth_error s l with
          | Some (CArr elems) =>
              option_map VArr
                ((fix all (es : list hval) : option (list value) :=
                    match es with
                    | [] => Some []
                    | e :: es' =>
                        match load fuel' s e, all es' with
                        | Some x, Some xs => Some (x :: xs)
                        | _, _ => None
                        end
                    end) elems)
          | Some (CObj props) =>
              option_map VObj
                ((fix all (ps : list (string * hval))
                    : option (list (string * value)) :=
                    match ps with
                    | [] => Some []
                    | (k, e) :: ps' =>
                        match load fuel' s e, all ps' with
                        | Some x, Some xs => Some ((k, x) :: xs)
                        | _, _ => None
                        end
                    end) props)
          | None => Some VUndef
          end
      end
  end.

(** *** The interface extractor ([addInterfaceProp] and the fold of the
    host) *)

(** [path.filter((_, index) => index && index % 2 === 0)]. *)
Fixpoint evenPositions (index : nat) (path : list string) : list string :=
  match path with
  | [] => []
  | seg :: path' =>
      if negb (Nat.eqb index 0) && Nat.even index
      then seg :: evenPositions (S index) path'
      else evenPositions (S index) path'
  end.

(** [interfaces.find(i => i.name === interfaceName)]; reading [name] off
    [null] or [undefined] throws. *)
Fixpoint findByName (s : store) (elems : list hval) (interfaceName : hval)
    : result hval :=
  match elems with
  | [] => Ok HUndef
  | i :: elems' =>
      match i with
      | HUndef | HNull => Throw TypeError
      | _ =>
          if strict_eq (read s i "name") interfaceName then Ok i
          else findByName s elems' interfaceName
      end
  end.

(** The elements of an array; anything else has no [find], [push] or
    [reduce]. *)
Definition arrayElems (v : hval) : M (list hval) :=
  fun s =>
    match v with
    | HRef l =>
        match nth_error s l with
        | Some (CArr elems) => (s, Done elems)
        | _ => (s, Thrown TypeError)
        end
    | _ => (s, Thrown TypeError)
    end.

(** [interfaces.push(x)]. *)
Definition push (interfaces : hval) (x : hval) : M unit :=
  elems <~ arrayElems interfaces ;;
  write interfaces (string_of_nat (length elems)) x.

Definition addInterfaceProp (interfaces : hval) (path : list string)
    (value : hval) : M hval :=
  match path with
  | first :: _ =>
      if negb (String.eqb first "interfaces") then ret interfaces
      else
        let interfaceName :=
          match nth_error path 1 with Some n => HStr n | None => HUndef end in
        let normalizedPath := join "." (evenPositions 0 path) in
        elems <~ arrayElems interfaces ;;
        found <~ (fun s => lift (findByName s elems interfaceName) s) ;;
        entry <~
          (if truthy found then ret found
           else
             fresh <~ alloc (CObj [("name", interfaceName)]) ;;
             _ <~ push interfaces fresh ;;
             ret fresh) ;;
        _ <~ (if negb (String.eqb normalizedPath "name")
              then set entry normalizedPath value
              else ret tt) ;;
        ret interfaces
  | [] => ret interfaces
  end.

(** What the fold reads of a change record. *)
Record changeRecord : Type := mkRecord {
  r_type : string;
  r_absolutePath : list string;
  r_oldValue : hval
}.

(** The fold of the host: [diff.reduce((acc, {absolutePath, type,
    oldValue}) => type !== 'replace' ? acc : addInterfaceProp(acc,
    absolutePath, oldValue), [])]. *)
Definition extractInterfaces (diff : list changeRecord) : M hval :=
  table <~ alloc (CArr []) ;;
  foldS (fun acc d =>
           if negb (String.eqb (r_type d) "replace") then ret acc
           else addInterfaceProp acc (r_absolutePath d) (r_oldValue d))
        table diff.

(** *** The synthesizer on the store *)

(** [reveredVariables[key] ? `{{${reveredVariables[key]}}}` : dflt]. *)
Definition placeholderOr (fuel : nat) (rev : list (string * string))
    (key : hval) : M hval :=
  k <~ toStringS fuel key ;;
  ret (match reverseLookup rev k with
       | Found p => if is_empty p then key else HStr ("{{" +++ p +++ "}}")
       | Inherited t => HStr ("{{" +++ t +++ "}}")
       | Missing => key
       end).

(** [convertToLoopBody]: [replaced] is built property by property and put
    in its cell once complete. *)
Fixpoint convertToLoopBody (fuel : nat) (variables : value)
    (rev : list (string * string)) (ast : hval) (currPath : string) : M hval :=
  match fuel with
  | 0 => exhausted
  | S fuel' =>
      replaced <~ reading (fun s => spread s ast) ;;
      let nameV := lookupOr "name" replaced in
      let valueV := lookupOr "value" replaced in
      replaced1 <~
        (if strict_eq nameV (HStr "interface") && truthy valueV then
           match valueV with
           | HStr str =>
               parts <~ lift (mapi_from (rewriteComponent rev) 0
                                        (split_char "." str)) ;;
               ret (dict_set replaced "value" (HStr (join "." parts)))
           | _ => throw TypeError
           end
         else
           match Lodash.get variables currPath with
           | VStr _ =>
               ret (dict_set replaced "value" (HStr ("{{" +++ currPath +++ "}}")))
           | _ =>
               if negb (startsWith currPath "interface.") then
                 r1 <~ (if truthy nameV then
                          p <~ placeholderOr fuel' rev nameV ;;
                          ret (dict_set replaced "name" p)
                        else ret replaced) ;;
                 (if truthy valueV then
                    p <~ placeholderOr fuel' rev valueV ;;
                    ret (dict_set r1 "value" p)
                  else ret r1)
               else ret replaced
           end) ;;
      isArr <~ reading (fun s =>
                 match lookupOr "children" replaced1 with
                 | HRef l =>
                     match nth_error s l with
                     | Some (CArr elems) => Some elems
                     | _ => None
                     end
                 | _ => None
                 end) ;;
      match isArr with
      | Some elems =>
          children <~
            mapS (fun child =>
                    childName <~ readProp child "name" ;;
                    n <~ toStringS fuel' childName ;;
                    convertToLoopBody fuel' variables rev child
                                      (currPath +++ "." +++ n))
                 elems ;;
          arr <~ alloc (CArr children) ;;
          alloc (CObj (dict_set replaced1 "children" arr))
      | None => alloc (CObj replaced1)
      end
  end.

(** A synthetic flag node. *)
Definition marker (name : string) : M hval :=
  children <~ alloc (CArr []) ;;
  alloc (CObj [("type", HStr "flag"); ("name", HStr name); ("value", HNull);
               ("children", children)]).

(** The callback of [original.reduce]. *)
Definition loopReduce (fuel : nat) (variables : value) (original : list hval)
    (subgroups : list num) (currPath : hval)
    (acc2 : list hval) (index : nat) (child : hval) : M (list hval) :=
  if match firstSubgroup subgroups with
     | Some sg => is_index index sg
     | None => false
     end
  then
    loopOpen <~ marker "{% for interface in interface.physical %}" ;;
    rev <~ lift (flattenObjectReverse variables) ;;
    path <~ match currPath with
            | HStr str => ret (replace_first "interfaces" "interface" str)
            | _ => throw TypeError
            end ;;
    body <~ convertToLoopBody fuel variables rev (nth index original HUndef) path ;;
    loopClose <~ marker "{% endfor %}" ;;
    ret (acc2 ++ [loopOpen; body; loopClose])
  else if negb (includes subgroups index) then ret (acc2 ++ [child])
  else ret acc2.

(** The callback of the outer [reduce]. *)
Definition loopStep (fuel : nat) (variables : value) (acc : hval)
    (group : string * list change) : M hval :=
  let (loopPath, changes) := group in
  let subgroups := distinct (map c_subgroup changes) in
  owner <~ get acc (join "." (drop_last 1 (split_char "." loopPath))) ;;
  currPath <~ readProp owner "name" ;;
  original <~ get acc loopPath ;;
  elems <~ arrayElems original ;;
  replaced <~ reduceS (loopReduce fuel variables elems subgroups currPath)
                      [] 0 elems ;;
  arr <~ alloc (CArr replaced) ;;
  _ <~ set acc loopPath arr ;;
  ret acc.

Definition convertToJinja2Ast (fuel : nat) (ast : hval)
    (diff : list JuniperDiff) (variables : value) : M hval :=
  groups <~ lift (findLoopOpportunities diff) ;;
  acc <~ cloneDeep fuel ast ;;
  foldS (loopStep fuel variables) acc groups.

End Store.

(* ================================================================== *)
(** ** The later [convertToLoopBody], with its guard *)
(* ================================================================== *)

(** The later version of [jinja2.ts] differs from the one above in the
    callback that rewrites the dot-components of an [interface] value: it
    starts with [if (!reversedVariables[value]) return value;]. *)
Module Guarded.
Import Str Js Lodash Differ Synth.

(** The callback: a component the table does not map, or maps to the empty
    path, is returned as it is; what follows the guard is the callback of
    the earlier version. *)
Definition rewriteComponent (rev : list (string * string)) (index : nat)
    (value : string) : result string :=
  match reverseLookup rev value with
  | Missing => Ok value
  | Found p =>
      if is_empty p then Ok value else Synth.rewriteComponent rev index value
  | Inherited _ => Synth.rewriteComponent rev index value
  end.

Section LoopBody.

Variable variables : value.
Variable reversedVariables : list (string * string).

Definition loopBody (ast : value) (recur : list (value * bodyOf))
    (currPath : string) : result value :=
  let replaced := spread ast in
  let nameV := get_prop (VObj replaced) "name" in
  let valueV := get_prop (VObj replaced) "value" in
  replaced1 <-
    (if strict_eq nameV (VStr "interface") && truthy valueV then
       match valueV with
       | VStr s =>
           parts <- mapi_from (rewriteComponent reversedVariables) 0
                              (split_char "." s) ;;
           Ok (dict_set replaced "value" (VStr (join "." parts)))
       | _ => Throw TypeError
       end
     else
       match get variables currPath with
       | VStr _ => Ok (dict_set replaced "value" (VStr ("{{" +++ currPath +++ "}}")))
       | _ =>
           if negb (startsWith currPath "interface.") then
             let r1 :=
               if truthy nameV
               then dict_set replaced "name" (placeholderOr reversedVariables nameV nameV)
               else replaced in
             let r2 :=
               if truthy valueV
               then dict_set r1 "value" (placeholderOr reversedVariables valueV valueV)
               else r1 in
             Ok r2
           else Ok replaced
       end) ;;
  match get_prop (VObj replaced1) "children" with
  | VArr _ =>
      children <-
        mapM (fun cr : value * bodyOf =>
                let (child, k) := cr in
                childName <- read_prop child "name" ;;
                k (currPath +++ "." +++ toString childName))
             recur ;;
      Ok (VObj (dict_set replaced1 "children" (VArr children)))
  | _ => Ok (VObj replaced1)
  end.

Fixpoint convertToLoopBody (ast : value) {struct ast} : bodyOf :=
  loopBody ast
    (match ast with
     | VObj props =>
         (fix children (ps : list (string * value)) : list (value * bodyOf) :=
            match ps with
            | [] => []
            | (k, v) :: ps' =>
                if String.eqb k "children" then
                  match v with
                  | VArr elems =>
                      map (fun c => (c, convertToLoopBody c)) elems
                  | _ => []
                  end
                else children ps'
            end) props
     | _ => []
     end).

End LoopBody.

End Guarded.

(* ================================================================== *)
(** ** Specification-level notions used in the statements *)
(* ================================================================== *)

Module Spec.
Import Str Js Parser Serializer Differ.

(** A preprocessed line that matches none of the grammar rules. *)
Definition unparseable (line : string) : bool :=
  negb (String.eqb line "}")
  && match matchPatternBlock line with Some _ => false | None => true end
  && match matchMultiWordBlock line with Some _ => false | None => true end
  && match matchLeaf line with Some _ => false | None => true end.

(** A line that one of the rules takes: a closing brace, a block header or
    a statement. *)
Definition parseable (line : string) : bool := negb (unparseable line).

(** How many of the lines before index [i] the rules take. *)
Definition parseableBefore (lines : list string) (i : nat) : nat :=
  length (filter parseable (firstn i lines)).

(** The diagnostics owed to the lines at the indices [i, ..., k-1]: one for
    each unparseable line, carrying its 1-based index and its content. *)
Definition warningsBetween (lines : list string) (i k : nat) : list warning :=
  flat_map
    (fun j =>
       match nth_error lines j with
       | Some line => if unparseable line then [mkWarning (j + 1) line] else []
       | None => []
       end)
    (seq i (k - i)).

(** Every [#] of the line lies inside a double-quoted string; [inside] tells
    whether the scan is between two quotes. *)
Fixpoint hashes_quoted_from (inside : bool) (s : string) : bool :=
  match s with
  | EmptyString => true
  | String c s' =>
      if Ascii.eqb c dquote then hashes_quoted_from (negb inside) s'
      else if Ascii.eqb c "#" then inside && hashes_quoted_from inside s'
      else hashes_quoted_from inside s'
  end.

Definition hashes_quoted (line : string) : bool := hashes_quoted_from false line.

(** The line [description "a#b";]. *)
Definition quotedHashLine : string :=
  "description " +++ String dquote "a#b" +++ String dquote ";".

(** The two configurations of the diff scenario. *)
Definition unitInet : string :=
  "unit 0 {" +++ nl +++ "    family inet;" +++ nl +++ "}".
Definition unitInet6 : string :=
  "unit 0 {" +++ nl +++ "    family inet6;" +++ nl +++ "}".

(** The changing interface [ge-0/0/1] stands between two interfaces that
    stay, and is referred to under [protocols]. *)
Definition loopConfig (ifname unit : string) : string :=
  join nl
    ["interfaces {";
     "    lo0 {";
     "        primary;";
     "    }";
     "    " +++ ifname +++ " {";
     "        unit " +++ unit +++ " {";
     "            family inet;";
     "        }";
     "    }";
     "    fxp0 {";
     "        disable;";
     "    }";
     "}";
     "protocols {";
     "    interface " +++ ifname +++ "." +++ unit +++ ";";
     "}"].

(** The tree a configuration parses to, as a value ([undefined] if the
    parser ran out of fuel, which [parseBlock_returns] excludes). *)
Definition parsed (config : string) : value :=
  match parseJuniperConfig config with
  | Some (t, _) => of_node t
  | None => VUndef
  end.

Definition loopAst : value := parsed (loopConfig "ge-0/0/1" "100").
Definition loopDiff : list JuniperDiff :=
  diffAst loopAst (parsed (loopConfig "ge-0/0/2" "200")) defaultOptions.

(** Substitution tables: with and without a variable for the unit. *)
Definition loopVariables : value :=
  VObj [("interface",
         VObj [("name", VStr "ge-0/0/1");
               ("unit", VObj [("name", VStr "100")])])].
Definition nameOnlyVariables : value :=
  VObj [("interface", VObj [("name", VStr "ge-0/0/1")])].

(** The elements of [l], whose indices start at [i], that stay: those with
    no index among the subgroups. *)
Fixpoint survivors (subgroups : list Synth.num) (i : nat) (l : list value)
    : list value :=
  match l with
  | [] => []
  | x :: l' =>
      if Synth.includes subgroups i then survivors subgroups (S i) l'
      else x :: survivors subgroups (S i) l'
  end.

(** [l.slice(0, -1).join('.')] of the pieces of a loop path: the path of the
    node that owns the array. *)
Definition parentPath (loopPath : string) : string :=
  join "." (Synth.drop_last 1 (split_char "." loopPath)).

(** No segment of the path is one that [_.set] refuses to write. *)
Definition writable (path : list string) : bool :=
  forallb (fun k => negb (Lodash.unsafeKey k)) path.

(** The path holds no bracket: lodash reads [a[0]] as the keys [a] and [0],
    the definitions above split a path at its dots only. *)
Definition bracketFree (path : string) : bool :=
  negb (includes_char "[" path) && negb (includes_char "]" path).

(** *** The frame of a store computation *)

(** [fresh n v]: the value refers to no cell below [n]. *)
Definition fresh (n : nat) (v : Store.hval) : Prop :=
  match v with
  | Store.HRef l => n <= l
  | _ => True
  end.

Definition primitive (v : Store.hval) : Prop :=
  match v with
  | Store.HRef _ => False
  | _ => True
  end.

Definition cell_fresh (n : nat) (c : Store.cell) : Prop :=
  match c with
  | Store.CArr elems => Forall (fresh n) elems
  | Store.CObj props => Forall (fun kv => fresh n (snd kv)) props
  end.

(** The cells from [n] on refer to no cell below [n]. *)
Definition closed (n : nat) (s : Store.store) : Prop :=
  forall l c, n <= l -> nth_error s l = Some c -> cell_fresh n c.

Definition inv (n : nat) (s : Store.store) : Prop :=
  n <= length s /\ closed n s.

(** The cells below [n] are the same in [s'] as in [s]. *)
Definition keeps (n : nat) (s s' : Store.store) : Prop :=
  forall l, l < n -> nth_error s' l = nth_error s l.

(** The computation writes to no cell below [n], whichever way it ends, and
    establishes [post] when it ends with a value. *)
Definition safe {A : Type} (n : nat) (m : Store.M A) (post : A -> Prop) : Prop :=
  forall s, inv n s ->
    inv n (fst (m s)) /\ keeps n s (fst (m s))
    /\ forall a, snd (m s) = Store.Done a -> post a.

(** The run stays in the store: it does not end at a built-in object. *)
Definition modelled {A : Type} (m : Store.M A) : Prop :=
  forall s, snd (m s) <> Store.AtBuiltin.

(** A key that no prototype answers for an object or an array, and that
    holds no bracket (lodash reads brackets in a path as further keys). *)
Definition plainKey (k : string) : bool :=
  negb (mem k Synth.objectPrototypeNames)
  && negb (mem k Store.arrayPrototypeNames)
  && bracketFree k.

(** The keys [addInterfaceProp] hands to [_.set] for a record: the segments
    of the absolute path at the even positions from 2 on, joined with dots
    and split at the dots. *)
Definition attributeKeys (d : Store.changeRecord) : list string :=
  split_char "." (join "." (Store.evenPositions 0 (Store.r_absolutePath d))).

Definition plainRecord (d : Store.changeRecord) : bool :=
  forallb plainKey (attributeKeys d).

(** The change record of the interface scenario. *)
Definition familyRecord : Store.changeRecord :=
  Store.mkRecord "replace" ["interfaces"; "ge-0/0/0"; "unit"; "0"; "family"]
                 (Store.HStr "inet").

(** *** Order-insensitive matching of sibling nodes *)

Definition unorderedOptions : DiffOptions := mkOptions None (Some true) None None None.

(** Both fields are strings, and the same string. *)
Definition same_string (a b : option string) : bool :=
  match a, b with
  | Some x, Some y => String.eqb x y
  | _, _ => false
  end.

(** The score of two nodes: [calculateSimilarity] on nodes, in closed form
    ([similarity_of_nodes]). *)
Definition nodeScore (x y : node) : Q :=
  if negb (String.eqb (node_type x) (node_type y)) then 1 # 10
  else
    match same_string (node_name x) (node_name y),
          same_string (node_value x) (node_value y) with
    | true, true => 32 # 32
    | true, false | false, true => 24 # 32
    | false, false => 16 # 32
    end.

(** [y] scores against [x] as high as [x] itself: same type, same name, and
    the same value unless [x] has none. *)
Definition twin (x y : node) : bool :=
  String.eqb (node_type x) (node_type y)
  && same_string (node_name x) (node_name y)
  && match node_value x with
     | None => true
     | Some _ => same_string (node_value x) (node_value y)
     end.

(** No element has a twin among the others. *)
Fixpoint twin_free (l : list node) : bool :=
  match l with
  | [] => true
  | x :: l' =>
      forallb (fun y => negb (twin x y) && negb (twin y x)) l' && twin_free l'
  end.

(** Every node of the tree has a name. *)
Fixpoint named (n : node) : bool :=
  match n with
  | mkNode _ x _ cs =>
      match x with Some _ => true | None => false end && forallb named cs
  end.

(** A default for [nth] on lists of nodes. *)
Definition nobody : node := mkNode "" None None [].

(** Two blocks of the same name, told apart by their bodies only. *)
Definition twinBlocks : list node :=
  [mkNode "block" (Some "a") None [mkNode "flag" (Some "p") None []];
   mkNode "block" (Some "a") None [mkNode "flag" (Some "q") None []]].

(** *** Round trip: the shape of what the parser produces *)

(** No white space in [s]. *)
Definition no_space (s : string) : bool :=
  all_chars (fun c => negb (is_space c)) s.

(** Only white space in [s]. *)
Definition blank (s : string) : bool := all_chars is_space s.

(** A token: not empty, no white space. *)
Definition is_token (s : string) : bool := negb (is_empty s) && no_space s.

Definition starts_nonspace (s : string) : bool :=
  match s with
  | String c _ => negb (is_space c)
  | EmptyString => false
  end.

Fixpoint ends_nonspace (s : string) : bool :=
  match s with
  | EmptyString => false
  | String c EmptyString => negb (is_space c)
  | String _ s' => ends_nonspace s'
  end.

(** Not empty, and nothing for [trim] to remove. *)
Definition trimmed (s : string) : bool := starts_nonspace s && ends_nonspace s.

Definition no_char (c : ascii) (s : string) : bool := negb (includes_char c s).

(** [Sep toks s]: [s] is the tokens [toks], one at least, with a run of
    white space between each two. *)
Inductive Sep : list string -> string -> Prop :=
| Sep_one (t : string) : is_token t = true -> Sep [t] t
| Sep_cons (t w : string) (toks : list string) (r : string) :
    is_token t = true -> is_empty w = false -> blank w = true ->
    Sep toks r -> Sep (t :: toks) (t +++ w +++ r).

(** The pattern-block rule [^(\S+)\s+(<[^>]+>)\s+{$] as an automaton over
    the characters of the line; [PBrace] accepts. *)
Inductive pstate : Type :=
  PStart | PName | PGap | PLt | PBody | PGt | PGap2 | PBrace | PDead.

Definition pstep (s : pstate) (c : ascii) : pstate :=
  match s with
  | PStart => if is_space c then PDead else PName
  | PName => if is_space c then PGap else PName
  | PGap => if is_space c then PGap else if Ascii.eqb c "<" then PLt else PDead
  | PLt => if Ascii.eqb c ">" then PDead else PBody
  | PBody => if Ascii.eqb c ">" then PGt else PBody
  | PGt => if is_space c then PGap2 else PDead
  | PGap2 => if is_space c then PGap2 else if Ascii.eqb c "{" then PBrace else PDead
  | PBrace => PDead
  | PDead => PDead
  end.

Fixpoint prun (s : pstate) (l : string) : pstate :=
  match l with
  | EmptyString => s
  | String c l' => prun (pstep s c) l'
  end.

Definition paccepts (l : string) : bool :=
  match prun PStart l with PBrace => true | _ => false end.

(** The nodes the parser builds: what each grammar rule leaves in the name
    and the value. *)
#[warnings="-register-all"]
Inductive WF : node -> Prop :=
| WF_block (p : string) (cs : list node) :
    is_token p = true -> Forall WF cs ->
    WF (mkNode "block" (Some p) None cs)
| WF_named (t : string) (toks : list string) (cs : list node) :
    is_token t = true -> toks <> [] ->
    Forall (fun x => is_token x = true) toks ->
    matchPatternBlock (t +++ " " +++ join " " toks +++ " {") = None ->
    Forall WF cs ->
    WF (mkNode "named-block" (Some t) (Some (join " " toks)) cs)
| WF_pattern (t body : string) (cs : list node) :
    is_token t = true -> is_empty body = false ->
    no_char ">" body = true -> no_char LF body = true ->
    Forall WF cs ->
    WF (mkNode "pattern-block" (Some t) (Some ("<" +++ body +++ ">")) cs)
| WF_directive (t : string) (ws : list string) :
    is_token t = true -> ws <> [] ->
    Forall (fun x => no_space x = true /\ no_char dquote x = true) ws ->
    WF (mkNode "directive" (Some t) (Some (join " " ws)) [])
| WF_flag (s : string) :
    trimmed s = true -> no_line_terminator s = true -> no_char " " s = true ->
    WF (mkNode "flag" (Some s) None []).

(** What the round trip asks of a tree: no [#] in a name or a value, and no
    empty word in the value of a directive (the value is not empty and has
    no space at either end nor two in a row). *)
Definition no_hash (o : option string) : bool :=
  match o with Some s => no_char "#" s | None => true end.

Definition full_words (o : option string) : bool :=
  match o with
  | Some v => forallb (fun w => negb (is_empty w)) (split_char " " v)
  | None => true
  end.

Fixpoint clean (n : node) : bool :=
  match n with
  | mkNode type name value children =>
      no_hash name && no_hash value
      && (if String.eqb type "directive" then full_words value else true)
      && forallb clean children
  end.

(** The lines [nodeToConfig] writes for a node at a depth, each as its depth
    and its text after the indentation. *)
Fixpoint nodeLines (n : node) (indent : nat) : list (nat * string) :=
  match n with
  | mkNode type name value children =>
      if String.eqb type "block" then
        (indent, show name +++ " {")
          :: flat_map (fun child => nodeLines child (indent + 1)) children
          ++ [(indent, "}")]
      else if String.eqb type "named-block" || String.eqb type "pattern-block" then
        (indent, show name +++ " " +++ show value +++ " {")
          :: flat_map (fun child => nodeLines child (indent + 1)) children
          ++ [(indent, "}")]
      else if String.eqb type "directive" then
        [(indent, show name +++ " " +++ show value +++ ";")]
      else if String.eqb type "flag" then
        [(indent, show name +++ ";")]
      else []
  end.

Definition render (l : nat * string) : string :=
  repeat_str "    " (fst l) +++ snd l.

(** A line as the parser wants it after preprocessing. *)
Definition core_ok (l : string) : Prop :=
  trimmed l = true /\ no_char LF l = true /\ no_char "#" l = true.

(** The preprocessed lines of a list of sibling nodes. *)
Definition coreLines (indent : nat) (cs : list node) : list string :=
  map snd (flat_map (fun child => nodeLines child indent) cs).

(** What may follow the lines of a block body: the end of the text, or the
    closing brace; the index returned steps over the brace. *)
Definition closes (post : list string) : Prop :=
  post = [] \/ exists rest, post = "}" :: rest.

Definition closing (post : list string) : nat :=
  match post with [] => 0 | _ :: _ => 1 end.

(** [parseBlock] reads the lines of [cs] back, wherever they stand. *)
Definition reparses (cs : list node) : Prop :=
  forall indent fuel lines pre post,
    lines = pre ++ coreLines indent cs ++ post ->
    closes post ->
    length (coreLines indent cs) + length post < fuel ->
    parseBlock fuel lines (length pre)
    = Some (cs, length pre + length (coreLines indent cs) + closing post, []).

(** A configuration with one node of each kind, and its tree. *)
Definition sampleConfig : string :=
  "interfaces {" +++ nl +++
  "    ge-0/0/0  unit 0 {" +++ nl +++
  "        family inet;" +++ nl +++
  "        disable;" +++ nl +++
  "    }" +++ nl +++
  "    apply <ge-*> {" +++ nl +++
  "    }" +++ nl +++
  "}".

Definition sampleTree : node :=
  mkNode "root" None None
    [mkNode "block" (Some "interfaces") None
       [mkNode "named-block" (Some "ge-0/0/0") (Some "unit 0")
          [mkNode "directive" (Some "family") (Some "inet") [];
           mkNode "flag" (Some "disable") None []];
        mkNode "pattern-block" (Some "apply") (Some "<ge-*>") []]].

(** The statement [a "";]: a directive whose value is a pair of quotes. *)
Definition emptyQuoted : string :=
  "a " +++ String dquote (String dquote ";").

(** The line [a#b;] of a text whose lines end in CR LF. *)
Definition hashBeforeCR : string := "a#b;" +++ String CR nl.

(** *** The shape of a parsed tree *)

Definition is_some_token (o : option string) : bool :=
  match o with Some s => is_token s | None => false end.

Definition is_none (o : option string) : bool :=
  match o with Some _ => false | None => true end.

Definition no_children (cs : list node) : bool :=
  match cs with [] => true | _ :: _ => false end.

(** The words of a header value: tokens, one space apart. *)
Definition spaced_tokens (o : option string) : bool :=
  match o with
  | Some v => forallb is_token (split_char " " v)
  | None => false
  end.

(** A pattern: [<], a body without [>] that is not empty, [>]. *)
Definition is_pattern (o : option string) : bool :=
  match o with
  | Some (String "<" r) =>
      match strip_last ">" r with
      | Some body => negb (is_empty body) && no_char ">" body
      | None => false
      end
  | _ => false
  end.

(** A directive value: words without white space, one space apart, and no
    double quote. *)
Definition is_directive_value (o : option string) : bool :=
  match o with
  | Some v => forallb no_space (split_char " " v) && no_char dquote v
  | None => false
  end.

(** A flag name: not empty, no white space at either end, no space and no
    line terminator inside. *)
Definition is_flag_name (o : option string) : bool :=
  match o with
  | Some s => trimmed s && no_char " " s && no_line_terminator s
  | None => false
  end.

(** What the five rules of [parseBlock] can build, all the way down. *)
Fixpoint shaped (n : node) : bool :=
  match n with
  | mkNode type name value children =>
      (if String.eqb type "block" then is_some_token name && is_none value
       else if String.eqb type "named-block" then
         is_some_token name && spaced_tokens value
       else if String.eqb type "pattern-block" then
         is_some_token name && is_pattern value
       else if String.eqb type "directive" then
         is_some_token name && is_directive_value value && no_children children
       else if String.eqb type "flag" then
         is_flag_name name && is_none value && no_children children
       else false)
      && forallb shaped children
  end.

(** The node types [nodeToConfig] has a case for. *)
Definition knownTypes : list string :=
  ["root"; "block"; "named-block"; "pattern-block"; "directive"; "flag"].

Definition known (n : node) : bool := mem (node_type n) knownTypes.

(** The tree without the nodes of a type unknown to [nodeToConfig], at
    every depth. *)
Fixpoint prune (n : node) : node :=
  match n with
  | mkNode type name value children =>
      mkNode type name value
        ((fix kept (cs : list node) : list node :=
            match cs with
            | [] => []
            | c :: cs' => if known c then prune c :: kept cs' else kept cs'
            end) children)
  end.

(** The unknown types written for the tree hold no line terminator. *)
Fixpoint unknown_on_one_line (n : node) : bool :=
  match n with
  | mkNode _ _ _ children =>
      forallb (fun c => if known c then unknown_on_one_line c
                        else no_line_terminator (node_type c))
              children
  end.

(** *** Where the records of an order-sensitive diff point *)

(** [Located old new d suffix r]: the record [r] was logged [suffix] below
    the two values compared at depth [d]: on the spot ([replace]), one key
    down (a part added or removed), or further down a key both have. *)
Inductive Located : value -> value -> depth -> list string -> JuniperDiff -> Prop :=
| Located_replace (old new : value) (d : depth) (r : JuniperDiff) :
    d_type r = "replace" ->
    d_oldValue r = Some old -> d_newValue r = Some new ->
    Located old new d [] r
| Located_added (old new : value) (d : depth) (k : string) (r : JuniperDiff) :
    Lodash.isObject new = true ->
    d_type r = "add" \/ d_type r = "add-prop" ->
    d_oldValue r = None -> d_newValue r = Some (get_prop new k) ->
    Located old new d [k] r
| Located_removed (old new : value) (d : depth) (k : string) (r : JuniperDiff) :
    Lodash.isObject old = true ->
    d_type r = "remove" \/ d_type r = "remove-prop" ->
    d_oldValue r = Some (get_prop old k) -> d_newValue r = None ->
    Located old new d [k] r
| Located_inside (old new : value) (d : depth) (k : string)
    (suffix : list string) (r : JuniperDiff) :
    Lodash.isObject old = true -> Lodash.isObject new = true ->
    depth_nonzero d = true ->
    Located (get_prop old k) (get_prop new k) (depth_next d) suffix r ->
    Located old new d (k :: suffix) r.

(** What a call of [diffAst] on [old] owes: each record it logs is located
    below the two values, at the path it carries. *)
Definition locates (old : value) (call : continuation) : Prop :=
  forall new d cur abs r,
    In r (call new d cur abs) ->
    exists suffix, d_path r = cur ++ suffix /\ Located old new d suffix r.

(** White space before the text of a line: no line feed. *)
Definition is_indent (w : string) : bool := blank w && no_char LF w.

(** *** The loop groups *)

(** [path.slice(0, -2).join('.')]: the path a record's group is looked up
    under. *)
Definition wildcard (path : list string) : string :=
  join "." (Synth.drop_last 2 path).

(** The key of a group fits a record: it is the record's wildcard path, or
    a dotted prefix of it. *)
Definition fits (key : string) (path : list string) : bool :=
  String.eqb (wildcard path) key || Synth.startsWith (wildcard path) (key +++ ".").

(** The key [addOpportunity] files a path under: the first key that fits,
    the wildcard path itself when none does. *)
Definition groupKey (acc : Synth.loopGroups) (path : list string) : string :=
  match find (fun candidate =>
                String.eqb (wildcard path) candidate
                || Synth.startsWith (wildcard path) (candidate +++ "."))
             (map fst acc) with
  | Some k => k
  | None => wildcard path
  end.

(** [path.join('.')] of a record. *)
Definition pathText (d : JuniperDiff) : string := join "." (d_path d).

(** The number that follows the key in a dotted path:
    [+text.substr(key.length + 1).split('.')[0]]. *)
Definition subgroupOf (key text : string) : Synth.num :=
  Synth.toNumber (hd "" (split_char "." (Synth.drop (String.length key + 1) text))).

(** *** The reverse substitution table *)

(** No object of the value, however deep, has an empty key or the same key
    twice ([seen] holds the keys met so far).  Arrays count as leaves, as
    they do for [flattenObjectReverse]. *)
Fixpoint plain_keys (v : value) : bool :=
  match v with
  | VObj props =>
      (fix all (ps : list (string * value)) (seen : list string) : bool :=
         match ps with
         | [] => true
         | (k, x) :: ps' =>
             negb (is_empty k) && negb (mem k seen) && plain_keys x
             && all ps' (k :: seen)
         end) props []
  | _ => true
  end.

(** [value !== null && typeof value === 'object' && !Array.isArray(value)]. *)
Definition is_plain_object (v : value) : bool :=
  match v with VObj _ => true | _ => false end.

(** *** The two versions of [convertToLoopBody] *)

(** [later] returns whatever [earlier] returns, wherever [earlier] returns. *)
Definition refines (earlier later : Synth.bodyOf) : Prop :=
  forall path r, earlier path = Ok r -> later path = Ok r.

(** *** The fold of the host over the change list *)

(** The records the fold acts on: of kind [replace], with an absolute path
    that starts at [interfaces]. *)
Definition relevant (d : Store.changeRecord) : bool :=
  String.eqb (Store.r_type d) "replace"
  && match Store.r_absolutePath d with
     | first :: _ => String.eqb first "interfaces"
     | [] => false
     end.

(** *** Counting lines *)

(** The nodes of a tree, and of a list of siblings. *)
Fixpoint nodeCount (n : node) : nat :=
  match n with
  | mkNode _ _ _ children => S (list_sum (map nodeCount children))
  end.

Definition nodesIn (cs : list node) : nat := list_sum (map nodeCount cs).

(** The lines [}] at the indices [i, ..., k-1]. *)
Definition closingBetween (lines : list string) (i k : nat) : nat :=
  length
    (filter (fun j => match nth_error lines j with
                      | Some line => String.eqb line "}"
                      | None => false
                      end)
            (seq i (k - i))).

End Spec.

(* ================================================================== *)
(** * Properties *)
(* ================================================================== *)

Import Str Js Parser Serializer Differ Lodash Synth Spec.

(** ** Parser: preprocessing *)

Lemma strip_comment_hash (pre post : string) :
  includes_char "#" pre = false ->
  no_line_terminator post = true ->
  strip_comment (pre +++ String "#" post) = pre.
Proof.
  intros Hpre Hpost. induction pre as [|c pre IH]; simpl in *.
  - now rewrite Hpost.
  - apply orb_false_iff in Hpre as [Hc Hpre].
    rewrite Hc. simpl. now rewrite IH.
Qed.

(** C6 (as amended).  The leftmost [#] of a line truncates the rest of the
    line whether or not it stands inside a quoted string, provided no
    carriage return or line feed follows it on the line: what precedes it,
    trimmed, is the preprocessed line. *)
Theorem comment_strip_ignores_quotes (pre post : string) :
  includes_char "#" pre = false ->
  no_line_terminator post = true ->
  preprocess_line (pre +++ String "#" post) = trim pre.
Proof.
  intros Hpre Hpost. unfold preprocess_line.
  now rewrite strip_comment_hash.
Qed.

Lemma comment_strip_ignores_quotes_witness :
  preprocess_line (("description " +++ String dquote "a") +++ String "#" "b;")
  = "description " +++ String dquote "a".
Proof.
  rewrite (comment_strip_ignores_quotes
             ("description " +++ String dquote "a") "b;");
    reflexivity.
Defined.

(** C6 (as stated) fails: the only [#] of the line [description "a#b";]
    stands inside a double-quoted string, and preprocessing cuts the line
    there all the same; what is left is no statement any more. *)
Lemma quoted_hash_is_stripped :
  hashes_quoted quotedHashLine = true
  /\ preprocess_line quotedHashLine = "description " +++ String dquote "a"
  /\ ~ (forall line, hashes_quoted line = true -> strip_comment line = line).
Proof.
  split; [reflexivity | split; [reflexivity |]].
  intros H. specialize (H quotedHashLine eq_refl). discriminate H.
Qed.

(** ** Parser: totality and diagnostics *)

Lemma warningsBetween_nil lines i : warningsBetween lines i i = [].
Proof. unfold warningsBetween. now rewrite Nat.sub_diag. Qed.

Lemma warningsBetween_split lines i j k :
  i <= j -> j <= k ->
  warningsBetween lines i k = warningsBetween lines i j ++ warningsBetween lines j k.
Proof.
  intros Hij Hjk. unfold warningsBetween.
  replace (k - i) with ((j - i) + (k - j)) by lia.
  rewrite seq_app, flat_map_app.
  now replace (i + (j - i)) with j by lia.
Qed.

Lemma warningsBetween_first lines i k line :
  i < k -> nth_error lines i = Some line ->
  warningsBetween lines i k =
  (if unparseable line then [mkWarning (i + 1) line] else [])
  ++ warningsBetween lines (i + 1) k.
Proof.
  intros Hik Hline. unfold warningsBetween.
  replace (k - i) with (S (k - (i + 1))) by lia.
  simpl. rewrite Hline. now replace (S i) with (i + 1) by lia.
Qed.

(** With more fuel than lines left, [parseBlock] returns; the index it
    returns lies past the one it started from (strictly, when a line was
    left) and follows a closing brace unless the lines are exhausted; the
    warnings are those of the unparseable lines in between. *)
Lemma parseBlock_returns (fuel : nat) :
  forall (lines : list string) (i : nat),
    length lines - i < fuel ->
    exists cs k ws,
      parseBlock fuel lines i = Some (cs, k, ws)
      /\ i <= k /\ k <= Nat.max i (length lines)
      /\ (i < length lines -> i < k)
      /\ (length lines <= k \/ nth_error lines (k - 1) = Some "}" /\ i < k)
      /\ ws = warningsBetween lines i k.
Proof.
  induction fuel as [|fuel IH]; intros lines i Hfuel; [lia|].
  simpl. destruct (nth_error lines i) as [line|] eqn:Hline.
  2:{ exists [], i, []. apply nth_error_None in Hline.
      repeat split; try lia. now rewrite warningsBetween_nil. }
  assert (Hi : i < length lines) by (apply nth_error_Some; congruence).
  assert (Hnext : length lines - (i + 1) < fuel) by lia.
  destruct (String.eqb line "}") eqn:Hclose.
  { exists [], (i + 1), []. repeat split; try lia.
    - right. replace (i + 1 - 1) with i by lia.
      apply String.eqb_eq in Hclose. subst line. split; [assumption | lia].
    - rewrite (warningsBetween_first lines i (i + 1) line) by (auto; lia).
      unfold unparseable. rewrite Hclose. simpl.
      now rewrite warningsBetween_nil. }
  assert (Hblock : forall mk : list node -> node,
            unparseable line = false ->
            exists cs k ws,
              match parseBlock fuel lines (i + 1) with
              | Some (body, j, w1) =>
                  match parseBlock fuel lines j with
                  | Some (rest, k, w2) => Some (mk body :: rest, k, w1 ++ w2)
                  | None => None
                  end
              | None => None
              end = Some (cs, k, ws)
              /\ i <= k /\ k <= Nat.max i (length lines)
              /\ (i < length lines -> i < k)
              /\ (length lines <= k
                  \/ nth_error lines (k - 1) = Some "}" /\ i < k)
              /\ ws = warningsBetween lines i k).
  { intros mk Hun.
    destruct (IH lines (i + 1) Hnext)
      as (body & j & w1 & -> & Hj1 & Hj2 & Hj3 & _ & ->).
    destruct (IH lines j ltac:(lia))
      as (rest & k & w2 & -> & Hk1 & Hk2 & Hk3 & Hk4 & ->).
    exists (mk body :: rest), k,
      (warningsBetween lines (i + 1) j ++ warningsBetween lines j k).
    repeat split; try lia.
    - destruct Hk4 as [Hk4 | [Hk4 Hk5]]; [left; lia | right; split; [assumption | lia]].
    - rewrite (warningsBetween_first lines i k line) by (auto; lia).
      rewrite Hun. simpl.
      now rewrite (warningsBetween_split lines (i + 1) j k) by lia. }
  destruct (matchPatternBlock line) as [[blockType pattern]|] eqn:Hpat.
  { apply (Hblock (createNode "pattern-block" (Some blockType) (Some pattern))).
    unfold unparseable. rewrite Hpat. now rewrite andb_false_r. }
  destruct (matchMultiWordBlock line) as [header|] eqn:Hmulti.
  { apply (Hblock (headerNode header)).
    unfold unparseable. rewrite Hmulti. now rewrite andb_false_r. }
  destruct (IH lines (i + 1) Hnext)
    as (rest & k & w & -> & Hk1 & Hk2 & Hk3 & Hk4 & ->).
  assert (Hk4' : length lines <= k
                 \/ nth_error lines (k - 1) = Some "}" /\ i < k).
  { destruct Hk4 as [Hk4 | [Hk4 Hk5]]; [left; lia | right; split; [assumption | lia]]. }
  destruct (matchLeaf line) as [g|] eqn:Hleaf.
  - exists (leafNode g :: rest), k, (warningsBetween lines (i + 1) k).
    repeat split; try lia; try assumption.
    rewrite (warningsBetween_first lines i k line) by (auto; lia).
    unfold unparseable. rewrite Hleaf. now rewrite andb_false_r.
  - exists rest, k, (mkWarning (i + 1) line :: warningsBetween lines (i + 1) k).
    repeat split; try lia; try assumption.
    rewrite (warningsBetween_first lines i k line) by (auto; lia).
    unfold unparseable. now rewrite Hclose, Hpat, Hmulti, Hleaf.
Qed.

Lemma parseBlock_more_fuel (fuel : nat) :
  forall lines i r,
    parseBlock fuel lines i = Some r -> parseBlock (S fuel) lines i = Some r.
Proof.
  induction fuel as [|fuel IH]; intros lines i r H; [discriminate|].
  cbn [parseBlock] in H. change (parseBlock (S (S fuel)) lines i) with
    (match nth_error lines i with
     | None => Some ([], i, [])
     | Some line =>
         if String.eqb line "}" then Some ([], i + 1, [])
         else
           match matchPatternBlock line with
           | Some (blockType, pattern) =>
               match parseBlock (S fuel) lines (i + 1) with
               | None => None
               | Some (body, j, w1) =>
                   match parseBlock (S fuel) lines j with
                   | None => None
                   | Some (rest, k, w2) =>
                       Some (createNode "pattern-block" (Some blockType)
                               (Some pattern) body :: rest, k, w1 ++ w2)
                   end
               end
           | None =>
               match matchMultiWordBlock line with
               | Some header =>
                   match parseBlock (S fuel) lines (i + 1) with
                   | None => None
                   | Some (body, j, w1) =>
                       match parseBlock (S fuel) lines j with
                       | None => None
                       | Some (rest, k, w2) =>
                           Some (headerNode header body :: rest, k, w1 ++ w2)
                       end
                   end
               | None =>
                   match matchLeaf line with
                   | Some g =>
                       match parseBlock (S fuel) lines (i + 1) with
                       | None => None
                       | Some (rest, k, w) => Some (leafNode g :: rest, k, w)
                       end
                   | None =>
                       match parseBlock (S fuel) lines (i + 1) with
                       | None => None
                       | Some (rest, k, w) =>
                           Some (rest, k, mkWarning (i + 1) line :: w)
                       end
                   end
               end
           end
     end).
  destruct (nth_error lines i) as [line|]; [|exact H].
  destruct (String.eqb line "}"); [exact H|].
  destruct (matchPatternBlock line) as [[bt pat]|].
  { destruct (parseBlock fuel lines (i + 1)) as [[[body j] w1]|] eqn:H1; [|discriminate].
    rewrite (IH _ _ _ H1).
    destruct (parseBlock fuel lines j) as [[[rest k] w2]|] eqn:H2; [|discriminate].
    now rewrite (IH _ _ _ H2). }
  destruct (matchMultiWordBlock line) as [g|].
  { destruct (parseBlock fuel lines (i + 1)) as [[[body j] w1]|] eqn:H1; [|discriminate].
    rewrite (IH _ _ _ H1).
    destruct (parseBlock fuel lines j) as [[[rest k] w2]|] eqn:H2; [|discriminate].
    now rewrite (IH _ _ _ H2). }
  destruct (matchLeaf line) as [g|].
  { destruct (parseBlock fuel lines (i + 1)) as [[[rest k] w1]|] eqn:H1; [|discriminate].
    now rewrite (IH _ _ _ H1). }
  destruct (parseBlock fuel lines (i + 1)) as [[[rest k] w1]|] eqn:H1; [|discriminate].
  now rewrite (IH _ _ _ H1).
Qed.

Lemma parseBlock_fuel_le (fuel fuel' : nat) :
  fuel <= fuel' ->
  forall lines i r,
    parseBlock fuel lines i = Some r -> parseBlock fuel' lines i = Some r.
Proof.
  induction 1 as [|fuel' _ IH]; intros lines i r H; [exact H|].
  now apply parseBlock_more_fuel, IH.
Qed.

(** Counting the lines the rules take. *)

Lemma firstn_next {A : Type} (l : list A) :
  forall i x, nth_error l i = Some x -> firstn (i + 1) l = firstn i l ++ [x].
Proof.
  induction l as [|y l IH]; intros [|i] x H; try discriminate.
  - now injection H as ->.
  - cbn [Nat.add firstn app]. f_equal. now apply IH.
Qed.

Lemma parseableBefore_next (lines : list string) (i : nat) (line : string) :
  nth_error lines i = Some line ->
  parseableBefore lines (i + 1)
  = parseableBefore lines i + (if parseable line then 1 else 0).
Proof.
  intros H. unfold parseableBefore.
  rewrite (firstn_next lines i line H), filter_app, length_app.
  cbn [filter]. now destruct (parseable line).
Qed.

Lemma parseableBefore_end (lines : list string) (i : nat) :
  nth_error lines i = None ->
  nth_error (filter parseable lines) (parseableBefore lines i) = None.
Proof.
  intros H. apply nth_error_None in H. unfold parseableBefore.
  rewrite firstn_all2 by assumption. now apply nth_error_None.
Qed.

Lemma nth_error_parseable (lines : list string) :
  forall i line,
    nth_error lines i = Some line -> parseable line = true ->
    nth_error (filter parseable lines) (parseableBefore lines i) = Some line.
Proof.
  unfold parseableBefore.
  induction lines as [|x lines IH]; intros [|i] line H Hp; try discriminate.
  - injection H as ->. cbn [firstn filter length]. now rewrite Hp.
  - cbn [firstn filter]. cbn [nth_error] in H.
    destruct (parseable x); [|now apply IH].
    cbn [length nth_error]. now apply IH.
Qed.

(** The lines that match no rule add nothing to the tree: without them,
    [parseBlock] builds the same nodes, and logs nothing. *)
Lemma parseBlock_skips (fuel : nat) :
  forall lines i cs k ws,
    parseBlock fuel lines i = Some (cs, k, ws) ->
    parseBlock fuel (filter parseable lines) (parseableBefore lines i)
    = Some (cs, parseableBefore lines k, []).
Proof.
  induction fuel as [|fuel IH]; intros lines i cs k ws H; [discriminate|].
  cbn [parseBlock] in H.
  destruct (nth_error lines i) as [line|] eqn:Hline.
  2:{ injection H as <- <- <-. cbn [parseBlock].
      now rewrite parseableBefore_end. }
  pose proof (parseableBefore_next lines i line Hline) as Hnext.
  destruct (unparseable line) eqn:Hun.
  - unfold parseable in Hnext. rewrite Hun, Nat.add_0_r in Hnext.
    unfold unparseable in Hun.
    apply andb_true_iff in Hun as [Hun Hleaf].
    apply andb_true_iff in Hun as [Hun Hmulti].
    apply andb_true_iff in Hun as [Hclose Hpat].
    apply negb_true_iff in Hclose. rewrite Hclose in H.
    destruct (matchPatternBlock line); [discriminate Hpat|].
    destruct (matchMultiWordBlock line); [discriminate Hmulti|].
    destruct (matchLeaf line); [discriminate Hleaf|].
    destruct (parseBlock fuel lines (i + 1)) as [[[rest k0] w]|] eqn:H1;
      [|discriminate].
    injection H as <- <- <-.
    apply parseBlock_more_fuel. rewrite <- Hnext. now apply (IH _ _ _ _ w).
  - assert (Hp : parseable line = true) by (unfold parseable; now rewrite Hun).
    rewrite Hp in Hnext.
    cbn [parseBlock]. rewrite (nth_error_parseable lines i line Hline Hp).
    rewrite <- Hnext.
    destruct (String.eqb line "}") eqn:Hclose.
    { injection H as <- <- <-. now rewrite Hnext. }
    destruct (matchPatternBlock line) as [[bt pat]|] eqn:Hpat.
    { destruct (parseBlock fuel lines (i + 1)) as [[[body j] w1]|] eqn:H1;
        [|discriminate].
      destruct (parseBlock fuel lines j) as [[[rest k0] w2]|] eqn:H2;
        [|discriminate].
      injection H as <- <- <-.
      now rewrite (IH _ _ _ _ _ H1), (IH _ _ _ _ _ H2). }
    destruct (matchMultiWordBlock line) as [g|] eqn:Hmulti.
    { destruct (parseBlock fuel lines (i + 1)) as [[[body j] w1]|] eqn:H1;
        [|discriminate].
      destruct (parseBlock fuel lines j) as [[[rest k0] w2]|] eqn:H2;
        [|discriminate].
      injection H as <- <- <-.
      now rewrite (IH _ _ _ _ _ H1), (IH _ _ _ _ _ H2). }
    destruct (matchLeaf line) as [g|] eqn:Hleaf.
    { destruct (parseBlock fuel lines (i + 1)) as [[[rest k0] w1]|] eqn:H1;
        [|discriminate].
      injection H as <- <- <-.
      now rewrite (IH _ _ _ _ _ H1). }
    unfold unparseable in Hun. rewrite Hclose, Hpat, Hmulti, Hleaf in Hun.
    discriminate Hun.
Qed.

(** The texts of the diagnostics owed to the lines before [k]. *)
Lemma warning_texts (lines : list string) (n : nat) :
  forall i,
    i + n <= length lines ->
    map warn_text (warningsBetween lines i (i + n))
    = filter unparseable (firstn n (skipn i lines)).
Proof.
  induction n as [|n IH]; intros i Hi.
  - now rewrite Nat.add_0_r, warningsBetween_nil.
  - destruct (nth_error lines i) as [line|] eqn:Hline;
      [|apply nth_error_None in Hline; lia].
    rewrite (warningsBetween_first lines i (i + S n) line) by (auto; lia).
    replace (i + S n) with ((i + 1) + n) by lia.
    rewrite map_app, IH by lia.
    assert (Hskip : skipn i lines = line :: skipn (i + 1) lines).
    { clear - Hline. revert i Hline.
      induction lines as [|x lines IHl]; intros [|i] H; try discriminate.
      - now injection H as ->.
      - cbn [skipn Nat.add]. now apply IHl. }
    rewrite Hskip. cbn [firstn filter].
    now destruct (unparseable line).
Qed.

(** C7 (as amended).  [parseJuniperConfig] returns a root tree for every
    input string, malformed or not, and never raises: the fuel it hands to
    [parseBlock] is enough.  The top-level call returns at an index [k] of
    the preprocessed lines, which is their number or the index just past a
    closing brace met at top level.  The lines before [k] that match none of
    the grammar rules are skipped: each is logged in one diagnostic that
    carries its content, in the order of the lines, and there is no other
    diagnostic; none of them adds a node, the parse going on with the next
    line, so that the tree is the one the lines that match a rule give by
    themselves, a parse in which nothing is logged. *)
Theorem parse_total_with_diagnostics (config : string) :
  exists cs k ws k',
    parseBlock (S (length (preprocess config))) (preprocess config) 0
      = Some (cs, k, ws)
    /\ parseJuniperConfig config = Some (mkNode "root" None None cs, ws)
    /\ (k = length (preprocess config)
        \/ k < length (preprocess config)
           /\ nth_error (preprocess config) (k - 1) = Some "}")
    /\ map warn_text ws = filter unparseable (firstn k (preprocess config))
    /\ parseBlock (S (length (filter parseable (preprocess config))))
                  (filter parseable (preprocess config)) 0
       = Some (cs, k', []).
Proof.
  set (lines := preprocess config).
  destruct (parseBlock_returns (S (length lines)) lines 0 ltac:(lia))
    as (cs & k & ws & Hrun & _ & Hk & _ & Hend & Hws).
  assert (Hle : k <= length lines) by lia.
  exists cs, k, ws, (parseableBefore lines k).
  unfold parseJuniperConfig. fold lines. rewrite Hrun.
  repeat split.
  - destruct (Nat.eq_dec k (length lines)) as [|Hne]; [now left|].
    right. split; [lia|]. destruct Hend as [Hend | [Hend _]]; [lia | assumption].
  - subst ws. exact (warning_texts lines k 0 Hle).
  - pose proof (parseBlock_skips _ _ _ _ _ _ Hrun) as Hskip.
    change (parseableBefore lines 0) with 0 in Hskip.
    set (kept := filter parseable lines) in *.
    destruct (parseBlock_returns (S (length kept)) kept 0 ltac:(lia))
      as (cs' & k' & ws' & Hrun' & _).
    rewrite Hrun'.
    assert (Hfuel : S (length kept) <= S (length lines)).
    { apply le_n_S. apply filter_length_le. }
    rewrite (parseBlock_fuel_le _ _ Hfuel _ _ _ Hrun') in Hskip.
    exact Hskip.
Qed.

(** C7 (as stated) fails, in two ways.  A closing brace at top level ends
    the parse, and the line after it, which matches none of the grammar
    rules, is dropped without a diagnostic.  And the number in a diagnostic
    counts the lines left after comments and blank lines were removed: the
    second line of a text, coming after a comment, is reported as line 1. *)
Lemma unreached_line_and_line_number :
  (let config := "}" +++ nl +++ "foo" in
   preprocess config = ["}"; "foo"]
   /\ unparseable "foo" = true
   /\ parseJuniperConfig config = Some (mkNode "root" None None [], []))
  /\ (let config := "# c" +++ nl +++ "foo" in
      split_char LF config = ["# c"; "foo"]
      /\ unparseable "foo" = true
      /\ parseJuniperConfig config
         = Some (mkNode "root" None None [], [mkWarning 1 "foo"])).
Proof. repeat split; reflexivity. Qed.

(** ** Differ: identity *)

Lemma assoc_in_keys {A : Type} (k : string) (l : list (string * A)) :
  In k (map fst l) -> exists x, assoc k l = Some x /\ In (k, x) l.
Proof.
  induction l as [|[k' y] l IH]; simpl; [tauto|].
  intros Hin. destruct (String.eqb k' k) eqn:Hk.
  - apply String.eqb_eq in Hk. subst k'. exists y. auto.
  - destruct Hin as [Heq | Hin].
    + subst k'. now rewrite String.eqb_refl in Hk.
    + destruct (IH Hin) as (x & Hx & Hx'). exists x. auto.
Qed.

Lemma assoc_map_snd {A B : Type} (f : A -> B) (k : string) (l : list (string * A)) :
  assoc k (map (fun kv => match kv with (k', v) => (k', f v) end) l)
  = option_map f (assoc k l).
Proof.
  induction l as [|[k' y] l IH]; simpl; [reflexivity|].
  now destruct (String.eqb k' k).
Qed.

Lemma dedup_from_incl seen l x : In x (dedup_from seen l) -> In x l.
Proof.
  revert seen. induction l as [|y l IH]; simpl; intros seen; [tauto|].
  destruct (mem y seen).
  - intros H. right. eapply IH, H.
  - intros [H | H]; [now left | right; eapply IH, H].
Qed.

Lemma flat_map_nil {A B : Type} (f : A -> list B) (l : list A) :
  (forall x, In x l -> f x = []) -> flat_map f l = [].
Proof.
  induction l as [|x l IH]; simpl; intros H; [reflexivity|].
  rewrite (H x) by now left. apply IH. intros y Hy. apply H. now right.
Qed.

Lemma map_snd_combine {A B : Type} (l1 : list A) (l2 : list B) :
  length l1 = length l2 -> map snd (combine l1 l2) = l2.
Proof.
  revert l2. induction l1 as [|a l1 IH]; intros [|b l2]; simpl; intros H;
    try discriminate; [reflexivity|].
  f_equal. apply IH. now injection H.
Qed.

Lemma combine_app_same {A B : Type} (l1 : list A) (l2 extra : list B) :
  length l1 = length l2 -> combine l1 (l2 ++ extra) = combine l1 l2.
Proof.
  revert l2. induction l1 as [|a l1 IH]; intros [|b l2]; simpl; intros H;
    try discriminate; [reflexivity|].
  f_equal. apply IH. now injection H.
Qed.

Lemma keys_array_length (l : list value) : length (keys (VArr l)) = length l.
Proof. simpl. unfold indices. now rewrite length_map, length_seq. Qed.

(** The pairs of an old array with the calls on its elements, as
    [diffBody] rebuilds them from the continuations of [diffWalk]. *)
Lemma array_parts ign ord (olds : list value) :
  combine olds
    (map snd (combine (keys (VArr olds)) (map (fun o => diffWalk ign ord o) olds)
              ++ [("length", diffBody ign ord (get_prop (VArr olds) "length") [])]))
  = combine olds (map (fun o => diffWalk ign ord o) olds).
Proof.
  rewrite map_app, map_snd_combine
    by (now rewrite keys_array_length, length_map).
  apply combine_app_same. now rewrite length_map.
Qed.

Lemma diffWalk_unfold ign ord (oldAst : value) :
  diffWalk ign ord oldAst =
  diffBody ign ord oldAst
    (match oldAst with
     | VArr olds =>
         combine (keys oldAst) (map (fun o => diffWalk ign ord o) olds)
         ++ [("length", diffBody ign ord (get_prop oldAst "length") [])]
     | VObj props =>
         map (fun kv => match kv with (k, v) => (k, diffWalk ign ord v) end) props
     | _ => []
     end).
Proof. destruct oldAst; reflexivity. Qed.

Lemma orderedLoop_same ign ord (olds : list value) :
  Forall (fun o => forall d cur abs, diffWalk ign ord o o d cur abs = []) olds ->
  forall i d cur abs,
    orderedLoop (combine olds (map (fun o => diffWalk ign ord o) olds))
                i olds d cur abs = [].
Proof.
  induction 1 as [|o olds Ho _ IH]; intros i d cur abs; simpl; [reflexivity|].
  rewrite IH, app_nil_r. destruct (depth_nonzero d); [apply Ho | reflexivity].
Qed.

Lemma diffBody_arrays ign ord olds news recur d cur abs :
  diffBody ign ord (VArr olds) recur (VArr news) d cur abs =
  let parts := combine olds (map snd recur) in
  if ord then
    let (diffs, matched) := unorderedLoop parts 0 news [] d cur abs in
    diffs ++ unmatchedAdds news matched cur abs
  else orderedLoop parts 0 news d cur abs.
Proof. reflexivity. Qed.

Lemma diffBody_objects ign ord ps qs recur d cur abs :
  diffBody ign ord (VObj ps) recur (VObj qs) d cur abs =
  flat_map (propStep ign (VObj ps) (VObj qs) recur d cur abs)
           (dedup (keys (VObj ps) ++ keys (VObj qs))).
Proof. reflexivity. Qed.

Lemma diffWalk_same ign (x : value) :
  forall d cur abs, diffWalk ign false x x d cur abs = [].
Proof.
  induction x as [| | b | z | s | l IH | props IH] using value_ind';
    intros d cur abs; rewrite diffWalk_unfold.
  - reflexivity.
  - reflexivity.
  - unfold diffBody; simpl. now rewrite Bool.eqb_reflx.
  - unfold diffBody; simpl. now rewrite Z.eqb_refl.
  - unfold diffBody; simpl. now rewrite String.eqb_refl.
  - rewrite diffBody_arrays. cbv zeta.
    rewrite (array_parts ign false l). now apply orderedLoop_same.
  - rewrite diffBody_objects.
    apply flat_map_nil. intros prop Hprop.
    apply dedup_from_incl, in_app_or in Hprop.
    assert (Hin : In prop (map fst props)) by (simpl in Hprop; tauto).
    clear Hprop.
    destruct (assoc_in_keys prop props Hin) as (v & Hv & Hv').
    unfold propStep. destruct (shouldIgnore ign prop); [reflexivity|].
    simpl. rewrite Hv. simpl.
    destruct (depth_nonzero d); [|reflexivity].
    rewrite (assoc_map_snd (fun v => diffWalk ign false v)), Hv. simpl.
    rewrite Forall_forall in IH. apply (IH (prop, v) Hv').
Qed.

(** C2.  Diff identity: under the default options [diffAst(x, x)] is the
    empty change list, for every JSON-shaped value [x] and so for every
    tree. *)
Theorem diff_identity :
  (forall x : value, diffAst x x defaultOptions = [])
  /\ (forall t : node, diffAst (of_node t) (of_node t) defaultOptions = []).
Proof.
  split; intros; apply diffWalk_same.
Qed.

(** ** Differ: the [family inet] / [family inet6] scenario *)

(** C3 (as amended).  With the two configurations laid out one statement per
    line, as the parser requires, the diff of their parses under the default
    options is exactly one record, of kind [replace], with
    [oldValue = "inet"] and [newValue = "inet6"]; its [absolutePath] is
    [unit; unit 0; family; value]: it ends in the property name [value],
    which follows the segment [family]. *)
Theorem diff_family_scenario :
  exists tA tB,
    parseJuniperConfig unitInet = Some (tA, [])
    /\ parseJuniperConfig unitInet6 = Some (tB, [])
    /\ diffAst (of_node tA) (of_node tB) defaultOptions =
       [mkDiff "replace"
               ["children"; "0"; "children"; "0"; "value"]
               ["unit"; "unit 0"; "family"; "value"]
               (Some (VStr "inet")) (Some (VStr "inet6"))
               None None None None].
Proof.
  eexists. eexists. split; [reflexivity | split; reflexivity].
Qed.

(** C3 (as stated) fails: the [absolutePath] of the one record does not end
    in the segment [family]. *)
Lemma diff_family_path_ends_in_value :
  ~ (exists tA tB d,
       parseJuniperConfig unitInet = Some (tA, [])
       /\ parseJuniperConfig unitInet6 = Some (tB, [])
       /\ diffAst (of_node tA) (of_node tB) defaultOptions = [d]
       /\ d_type d = "replace"
       /\ last (d_absolutePath d) "" = "family"
       /\ d_oldValue d = Some (VStr "inet")
       /\ d_newValue d = Some (VStr "inet6")).
Proof.
  intros (tA & tB & d & HA & HB & Hd & _ & Hlast & _).
  vm_compute in HA, HB.
  injection HA as <-. injection HB as <-.
  vm_compute in Hd. injection Hd as <-. discriminate Hlast.
Qed.

(** ** Synthesizer: the missing reverse-lookup entry *)

Lemma mapi_from_throws_at_0 rev i c rest :
  i <= 1 -> reverseLookup rev c = Missing ->
  mapi_from (rewriteComponent rev) i (c :: rest) = Throw TypeError.
Proof.
  intros Hi Hc. simpl. unfold rewriteComponent.
  destruct i as [|[|i]]; try lia; now rewrite Hc.
Qed.

Lemma mapi_from_throws_at_1 rev c0 c1 rest :
  reverseLookup rev c1 = Missing ->
  mapi_from (rewriteComponent rev) 0 (c0 :: c1 :: rest) = Throw TypeError.
Proof.
  intros Hc. change (mapi_from (rewriteComponent rev) 0 (c0 :: c1 :: rest))
    with (y <- rewriteComponent rev 0 c0 ;;
          ys <- mapi_from (rewriteComponent rev) 1 (c1 :: rest) ;; Ok (y :: ys)).
  rewrite mapi_from_throws_at_0 by (auto; lia).
  unfold rewriteComponent. simpl.
  destruct (reverseLookup rev c0) as [p | t |]; [| | reflexivity].
  - now destruct (String.eqb p "interface.name").
  - now destruct (String.eqb t "interface.name").
Qed.

Lemma convertToLoopBody_unfold variables rev props currPath :
  convertToLoopBody variables rev (VObj props) currPath =
  loopBody variables rev (VObj props)
    ((fix children (ps : list (string * value)) : list (value * bodyOf) :=
        match ps with
        | [] => []
        | (k, v) :: ps' =>
            if String.eqb k "children" then
              match v with
              | VArr elems =>
                  map (fun c => (c, convertToLoopBody variables rev c)) elems
              | _ => []
              end
            else children ps'
        end) props)
    currPath.
Proof. reflexivity. Qed.

(** C10.  [convertToJinja2Ast] is not total: it throws a [TypeError] on the
    tree, diff and name-only substitution table of the repository's own
    scenario, where the representative element holds [interface
    ge-0/0/1.100;] and [100] is no leaf value of the table.  In general
    [convertToLoopBody] throws on every node whose [name] is [interface] and
    whose [value] is a non-empty string, as soon as the first or the second
    dot-component of the value is missing from the reverse table (it is no
    leaf value of the substitution table, nor the name of a member of
    [Object.prototype]): [toString] is called on [undefined]. *)
Theorem synthesizer_throws_on_unmapped_component :
  convertToJinja2Ast loopAst loopDiff nameOnlyVariables = Throw TypeError
  /\ forall (variables : value) (rev : list (string * string))
            (props : list (string * value)) (v currPath : string),
       assoc "name" props = Some (VStr "interface") ->
       assoc "value" props = Some (VStr v) ->
       v <> "" ->
       (reverseLookup rev (nth 0 (split_char "." v) "") = Missing
        \/ (1 < length (split_char "." v)
            /\ reverseLookup rev (nth 1 (split_char "." v) "") = Missing)) ->
       convertToLoopBody variables rev (VObj props) currPath = Throw TypeError.
Proof.
  split; [vm_compute; reflexivity|].
  intros variables rev props v currPath Hname Hvalue Hv Hmiss.
  rewrite convertToLoopBody_unfold. unfold loopBody.
  cbn [spread get_prop]. rewrite Hname, Hvalue.
  cbn [strict_eq truthy String.eqb Ascii.eqb Bool.eqb andb].
  assert (Ht : negb (is_empty v) = true) by (destruct v; [congruence | reflexivity]).
  rewrite Ht.
  assert (Hthrow : mapi_from (rewriteComponent rev) 0 (split_char "." v)
                   = Throw TypeError).
  { destruct (split_char "." v) as [|c0 [|c1 rest]] eqn:Hsplit.
    - destruct v; simpl in Hsplit; [discriminate|].
      destruct (Ascii.eqb a "."); [discriminate|].
      destruct (split_char "." v); discriminate.
    - destruct Hmiss as [Hmiss | [Hlen _]]; [|simpl in Hlen; lia].
      apply mapi_from_throws_at_0; [lia | exact Hmiss].
    - destruct Hmiss as [Hmiss | [_ Hmiss]].
      + apply mapi_from_throws_at_0; [lia | exact Hmiss].
      + apply mapi_from_throws_at_1. exact Hmiss. }
  now rewrite Hthrow.
Qed.

Lemma synthesizer_throws_on_unmapped_component_witness :
  convertToLoopBody nameOnlyVariables [("ge-0/0/1", "interface.name")]
    (VObj [("type", VStr "directive"); ("name", VStr "interface");
           ("value", VStr "ge-0/0/1.100"); ("children", VArr [])])
    "protocols.interface"
  = Throw TypeError.
Proof.
  apply (proj2 synthesizer_throws_on_unmapped_component
           nameOnlyVariables [("ge-0/0/1", "interface.name")] _
           "ge-0/0/1.100" "protocols.interface");
    [reflexivity | reflexivity | discriminate |].
  right. split; [vm_compute; lia | reflexivity].
Defined.

(** ** lodash: reading back what was set *)

Lemma split_char_nonempty sep s : split_char sep s <> [].
Proof.
  destruct s as [|c s]; simpl; [discriminate|].
  destruct (Ascii.eqb c sep); [discriminate|].
  destruct (split_char sep s); discriminate.
Qed.

Lemma castPath_nonempty p object : castPath p object <> [].
Proof.
  unfold castPath. destruct (has_prop object p); [discriminate|].
  apply split_char_nonempty.
Qed.

Lemma get_prop_primitive (v : value) (k : string) :
  isObject v = false -> isObject (get_prop v k) = false.
Proof.
  destruct v; simpl; try reflexivity; try discriminate. intros _.
  destruct (String.eqb k "length"); [reflexivity|].
  destruct (index_of_string k); [|reflexivity].
  now destruct (String.get n s).
Qed.

Lemma walk_primitive (path : list string) :
  forall v, isObject v = false -> path <> [] -> isObject (walk v path) = false.
Proof.
  induction path as [|k path IH]; intros v Hv Hpath; [congruence|].
  simpl. destruct path as [|k' path].
  - destruct v; simpl; try reflexivity; try discriminate.
    now apply (get_prop_primitive (VStr s)).
  - assert (Hnext : isObject (walk (get_prop v k) (k' :: path)) = false).
    { apply IH; [now apply get_prop_primitive | discriminate]. }
    destruct v; try reflexivity; try exact Hnext; discriminate.
Qed.

Lemma assoc_dict_replace {A : Type} (props : list (string * A)) (k : string) (y : A) :
  forall x, assoc k props = Some x -> assoc k (dict_replace props k y) = Some y.
Proof.
  induction props as [|[k' z] props IH]; simpl; intros x Hx; [discriminate|].
  destruct (String.eqb k' k) eqn:Hk; simpl; rewrite Hk; [reflexivity|].
  now apply (IH x).
Qed.

Lemma assoc_dict_replace_other {A : Type} (props : list (string * A))
    (k k2 : string) (y : A) :
  k2 <> k -> assoc k2 (dict_replace props k y) = assoc k2 props.
Proof.
  intros Hne. induction props as [|[k' z] props IH]; simpl; [reflexivity|].
  destruct (String.eqb k' k) eqn:Hk; simpl.
  - apply String.eqb_eq in Hk. subst k'.
    destruct (String.eqb k k2) eqn:Hk2; [|reflexivity].
    apply String.eqb_eq in Hk2. congruence.
  - now rewrite IH.
Qed.

Lemma nth_list_set {A : Type} (hole : A) (l : list A) :
  forall i y, i < length l -> nth i (list_set hole l i y) hole = y.
Proof.
  induction l as [|x l IH]; intros [|i] y Hi; simpl in *; try lia; auto.
  apply IH. lia.
Qed.

Lemma length_list_set {A : Type} (hole : A) (l : list A) :
  forall i y, i < length l -> length (list_set hole l i y) = length l.
Proof.
  induction l as [|x l IH]; intros [|i] y Hi; simpl in *; try lia; auto.
  rewrite IH; lia.
Qed.

(** A key under which an object or array is read is an own key. *)
Lemma object_read_array (l : list value) (key : string) :
  isObject (get_prop (VArr l) key) = true ->
  String.eqb key "length" = false
  /\ exists i, index_of_string key = Some i /\ i < length l.
Proof.
  simpl. destruct (String.eqb key "length"); [discriminate|].
  destruct (index_of_string key) as [i|]; [|discriminate].
  intros H. split; [reflexivity|]. exists i. split; [reflexivity|].
  destruct (Nat.lt_ge_cases i (length l)) as [|Hge]; [assumption|].
  rewrite nth_overflow in H by assumption. discriminate.
Qed.

Lemma get_prop_assign (nested : value) (key : string) (y : value) :
  isObject (get_prop nested key) = true ->
  get_prop (assignValue nested key y) key = y.
Proof.
  destruct nested as [| | | | s | l | props]; try discriminate.
  - intros H. now rewrite (get_prop_primitive (VStr s) key) in H.
  - intros H. destruct (object_read_array l key H) as (Hlen & i & Hi & Hlt).
    simpl. rewrite Hi. simpl. rewrite Hlen, Hi. now apply nth_list_set.
  - simpl. unfold dict_set.
    destruct (assoc key props) as [x|] eqn:Hx; [|discriminate].
    intros _. now rewrite (assoc_dict_replace props key y x Hx).
Qed.

Lemma has_prop_assign (nested : value) (key : string) (y : value) (k : string) :
  isObject (get_prop nested key) = true ->
  has_prop (assignValue nested key y) k = has_prop nested k.
Proof.
  destruct nested as [| | | | s | l | props]; try discriminate.
  - intros H. now rewrite (get_prop_primitive (VStr s) key) in H.
  - intros H. destruct (object_read_array l key H) as (Hlen & i & Hi & Hlt).
    simpl. rewrite Hi. simpl. now rewrite length_list_set.
  - simpl. unfold dict_set.
    destruct (assoc key props) as [x|] eqn:Hx; [|discriminate].
    intros _. destruct (String.eqb k key) eqn:Hk.
    + apply String.eqb_eq in Hk. subst k.
      now rewrite (assoc_dict_replace props key y x Hx), Hx.
    + apply String.eqb_neq in Hk.
      now rewrite assoc_dict_replace_other.
Qed.

Lemma isObject_assign (nested : value) (key : string) (y : value) :
  isObject nested = true -> isObject (assignValue nested key y) = true.
Proof.
  destruct nested; try discriminate; simpl; intros _; [|reflexivity].
  now destruct (index_of_string key).
Qed.

Lemma isObject_read (nested : value) (key : string) :
  isObject (get_prop nested key) = true -> isObject nested = true.
Proof.
  destruct (isObject nested) eqn:H; [reflexivity|].
  now rewrite get_prop_primitive.
Qed.

Lemma walk_object_head (v : value) (k : string) (path : list string) :
  isObject (walk v (k :: path)) = true ->
  isObject v = true /\ walk v (k :: path) = walk (get_prop v k) path
  /\ isObject (get_prop v k) = true.
Proof.
  intros H.
  assert (Hv : isObject v = true).
  { destruct (isObject v) eqn:Hv; [reflexivity|].
    rewrite walk_primitive in H; [discriminate | assumption | discriminate]. }
  assert (Heq : walk v (k :: path) = walk (get_prop v k) path)
    by (destruct v; try discriminate; reflexivity).
  repeat split; auto. rewrite Heq in H.
  destruct path as [|k' path]; [exact H|].
  destruct (isObject (get_prop v k)) eqn:Ho; [reflexivity|].
  rewrite walk_primitive in H; [discriminate | assumption | discriminate].
Qed.

Lemma walk_of_object (v : value) (k : string) (path : list string) :
  isObject v = true -> walk v (k :: path) = walk (get_prop v k) path.
Proof. destruct v; try discriminate; reflexivity. Qed.

Lemma walk_baseSet (path : list string) :
  forall nested x,
    path <> [] -> writable path = true ->
    isObject (walk nested path) = true ->
    walk (baseSet nested path x) path = x.
Proof.
  induction path as [|key path IH]; intros nested x Hne Hsafe Hobj; [congruence|].
  simpl in Hsafe. apply andb_true_iff in Hsafe as [Hkey Hsafe].
  apply negb_true_iff in Hkey.
  destruct (walk_object_head nested key path Hobj) as (Hnested & Hwalk & Hread).
  simpl baseSet. rewrite Hkey.
  destruct path as [|next rest].
  - rewrite walk_of_object by now apply isObject_assign.
    simpl. now apply get_prop_assign.
  - rewrite Hread.
    rewrite walk_of_object by now apply isObject_assign.
    rewrite get_prop_assign by assumption.
    apply IH; [discriminate | assumption | now rewrite <- Hwalk].
Qed.

Lemma has_prop_baseSet (path : list string) (nested x : value) (k : string) :
  path <> [] -> writable path = true ->
  isObject (walk nested path) = true ->
  has_prop (baseSet nested path x) k = has_prop nested k.
Proof.
  destruct path as [|key path]; intros Hne Hsafe Hobj; [congruence|].
  simpl in Hsafe. apply andb_true_iff in Hsafe as [Hkey _].
  apply negb_true_iff in Hkey.
  destruct (walk_object_head nested key path Hobj) as (Hnested & Hwalk & Hread).
  simpl baseSet. rewrite Hkey.
  destruct path as [|next rest]; [now apply has_prop_assign|].
  rewrite Hread. now apply has_prop_assign.
Qed.

Lemma isObject_baseSet (path : list string) (nested x : value) :
  isObject nested = true -> isObject (baseSet nested path x) = true.
Proof.
  intros H. destruct path as [|key path]; [assumption|].
  simpl. destruct (unsafeKey key); [assumption|].
  destruct path; now apply isObject_assign.
Qed.

(** Where [_.get] finds an object or array at a writable path, [_.get]
    after [_.set] at that path finds what was set. *)
Lemma get_set (acc : value) (p : string) (x : value) :
  isObject (get acc p) = true ->
  writable (castPath p acc) = true ->
  get (set acc p x) p = x.
Proof.
  intros Hget Hsafe.
  assert (Hacc : isObject acc = true).
  { destruct acc as [| | b | z | s | l | props];
      try discriminate; try reflexivity;
      unfold get, baseGet in Hget;
      (destruct (castPath p _) eqn:Hp; [discriminate|]);
      (rewrite walk_primitive in Hget;
       [discriminate | reflexivity | discriminate]). }
  assert (Hwalk : isObject (walk acc (castPath p acc)) = true).
  { unfold get, baseGet in Hget.
    destruct acc; try discriminate;
      destruct (castPath p _) eqn:Hp; try discriminate; exact Hget. }
  unfold set. rewrite Hacc.
  set (acc' := baseSet acc (castPath p acc) x).
  assert (Hacc' : isObject acc' = true) by now apply isObject_baseSet.
  assert (Hcast : castPath p acc' = castPath p acc).
  { unfold castPath. unfold acc'.
    rewrite has_prop_baseSet; auto using castPath_nonempty. }
  assert (Hres : walk acc' (castPath p acc) = x).
  { apply walk_baseSet; auto using castPath_nonempty. }
  unfold get, baseGet. rewrite Hcast.
  pose proof (castPath_nonempty p acc) as Hne.
  destruct acc'; try discriminate;
    destruct (castPath p acc); try congruence.
Qed.

(** ** Synthesizer: the array a loop group leaves *)

Section LoopReduce.
Variable variables : value.
Variable original : list value.
Variable subgroups : list num.
Variable s0 : nat.
Hypothesis Hfirst : firstSubgroup subgroups = Some (Int (Z.of_nat s0)).

Lemma is_representative (index : nat) :
  match firstSubgroup subgroups with
  | Some s => is_index index s
  | None => false
  end = Nat.eqb s0 index.
Proof.
  rewrite Hfirst. simpl.
  destruct (Nat.eqb_spec s0 index) as [->|Hne].
  - apply Z.eqb_refl.
  - apply Z.eqb_neq. lia.
Qed.

(** Past the representative, the [reduce] keeps the survivors. *)
Lemma reduce_past_representative (currPath : value) (l : list value) :
  forall acc2 i,
    s0 < i ->
    reduce_from (loopReduce variables original subgroups currPath) acc2 i l
    = Ok (acc2 ++ survivors subgroups i l).
Proof.
  induction l as [|x l IH]; intros acc2 i Hi; simpl.
  - now rewrite app_nil_r.
  - unfold loopReduce at 1. rewrite is_representative.
    destruct (Nat.eqb_spec s0 i) as [|_]; [lia|].
    destruct (includes subgroups i); simpl.
    + apply IH. lia.
    + rewrite IH by lia. now rewrite <- app_assoc.
Qed.

(** Up to and at the representative: the survivors before it, the three
    loop nodes in its place, the survivors after it. *)
Lemma reduce_through_representative (rev : list (string * string))
    (cp : string) (body : value) :
  flattenObjectReverse variables = Ok rev ->
  convertToLoopBody variables rev (nth s0 original VUndef)
    (replace_first "interfaces" "interface" cp) = Ok body ->
  forall l acc2 i,
    i <= s0 -> s0 < i + length l ->
    reduce_from (loopReduce variables original subgroups (VStr cp)) acc2 i l
    = Ok (acc2 ++ survivors subgroups i (firstn (s0 - i) l)
          ++ [loopOpen; body; loopClose]
          ++ survivors subgroups (S s0) (skipn (S (s0 - i)) l)).
Proof.
  intros Hrev Hbody.
  induction l as [|x l IH]; intros acc2 i Hle Hlt; simpl in Hlt; [lia|].
  simpl reduce_from. unfold loopReduce at 1. rewrite is_representative.
  destruct (Nat.eqb_spec s0 i) as [Heq|Hne].
  - subst i. rewrite Hrev. simpl. rewrite Hbody. simpl.
    rewrite reduce_past_representative by lia.
    rewrite Nat.sub_diag. simpl. now rewrite <- app_assoc.
  - replace (s0 - i) with (S (s0 - S i)) by lia.
    simpl firstn. simpl skipn. simpl survivors.
    destruct (includes subgroups i); simpl.
    + apply IH; lia.
    + rewrite IH by lia. now rewrite <- app_assoc.
Qed.

End LoopReduce.

(** C5 (as amended).  Take a loop group whose path holds no bracket and no
    segment that [_.set] refuses ([__proto__], [constructor], [prototype]),
    and whose representative (the first distinct subgroup index [s0]) is an
    index of the array at that path.  Whenever the node that owns the array
    has a string [name] (a group at the top level has no owner, and the step
    throws), the reverse table can be built and the representative can be
    rewritten, the step of the synthesizer for the group succeeds, and the
    array at the group's path is afterwards: every original sibling before
    the representative whose index is no subgroup index, in order; then the
    flag node [{% for interface in interface.physical %}], the rewritten
    representative and the flag node [{% endfor %}], in the place of the
    representative; then every original sibling after it whose index is no
    subgroup index, in order. *)
Theorem loop_group_rewrite
    (variables acc : value) (loopPath : string) (changes : list change)
    (original : list value) (s0 : nat) (rev : list (string * string))
    (cp : string) (body : value) :
  bracketFree loopPath = true ->
  writable (castPath loopPath acc) = true ->
  get acc loopPath = VArr original ->
  firstSubgroup (distinct (map c_subgroup changes)) = Some (Int (Z.of_nat s0)) ->
  s0 < length original ->
  get_prop (get acc (parentPath loopPath)) "name" = VStr cp ->
  flattenObjectReverse variables = Ok rev ->
  convertToLoopBody variables rev (nth s0 original VUndef)
    (replace_first "interfaces" "interface" cp) = Ok body ->
  exists acc',
    loopStep variables acc (loopPath, changes) = Ok acc'
    /\ get acc' loopPath =
       VArr (survivors (distinct (map c_subgroup changes)) 0 (firstn s0 original)
             ++ [loopOpen; body; loopClose]
             ++ survivors (distinct (map c_subgroup changes)) (S s0)
                  (skipn (S s0) original)).
Proof.
  intros _ Hsafe Hget Hfirst Hs0 Hname Hrev Hbody.
  unfold loopStep. fold (parentPath loopPath).
  assert (Hparent : read_prop (get acc (parentPath loopPath)) "name" = Ok (VStr cp)).
  { unfold read_prop.
    destruct (get acc (parentPath loopPath)); try discriminate Hname;
      now rewrite <- Hname. }
  rewrite Hparent. simpl bind. rewrite Hget.
  rewrite (reduce_through_representative variables original _ s0 Hfirst
             rev cp body Hrev Hbody original [] 0) by lia.
  rewrite Nat.sub_0_r. simpl bind. eexists. split; [reflexivity|].
  apply get_set; [now rewrite Hget | assumption].
Qed.

Lemma loop_group_rewrite_witness :
  exists acc',
    loopStep loopVariables loopAst
      ("children.0.children",
       [mkChange "children.0.children.1.name" (Int 1);
        mkChange "children.0.children.1.children.0.value" (Int 1)]) = Ok acc'
    /\ exists lo0 body fxp0,
         get loopAst "children.0.children" = VArr [lo0; nth 1 [lo0; body; fxp0] VUndef; fxp0]
         /\ get acc' "children.0.children"
            = VArr [lo0; loopOpen;
                    VObj [("type", VStr "block"); ("name", VStr "{{interface.name}}");
                          ("value", VNull);
                          ("children",
                           VArr [VObj [("type", VStr "named-block");
                                       ("name", VStr "unit");
                                       ("value", VStr "100");
                                       ("children",
                                        VArr [VObj [("type", VStr "directive");
                                                    ("name", VStr "family");
                                                    ("value", VStr "inet");
                                                    ("children", VArr [])]])]])];
                    loopClose; fxp0].
Proof.
  destruct (loop_group_rewrite loopVariables loopAst "children.0.children"
              [mkChange "children.0.children.1.name" (Int 1);
               mkChange "children.0.children.1.children.0.value" (Int 1)]
              (match get loopAst "children.0.children" with
               | VArr l => l | _ => [] end)
              1 [("100", "interface.unit.name"); ("ge-0/0/1", "interface.name")]
              "interfaces"
              (VObj [("type", VStr "block"); ("name", VStr "{{interface.name}}");
                     ("value", VNull);
                     ("children",
                      VArr [VObj [("type", VStr "named-block");
                                  ("name", VStr "unit");
                                  ("value", VStr "100");
                                  ("children",
                                   VArr [VObj [("type", VStr "directive");
                                               ("name", VStr "family");
                                               ("value", VStr "inet");
                                               ("children", VArr [])]])]])]))
    as (acc' & Hstep & Hres);
    [reflexivity | reflexivity | reflexivity | reflexivity | vm_compute; lia
     | reflexivity | reflexivity | reflexivity |].
  exists acc'. split; [exact Hstep|].
  eexists. eexists. eexists. split; [reflexivity | exact Hres].
Defined.

(** C5 (as stated) fails: in the scenario the loop group at
    [children.0.children] has the one subgroup index 1, and the array the
    synthesizer leaves there starts with the untouched sibling [lo0]; the
    loop-open marker comes second, where the representative was.  And for a
    group at the top level of the tree, at the path [children], nothing is
    replaced: the array has no owner to take a name from, and the step
    throws. *)
Lemma loop_markers_not_first :
  findLoopOpportunities loopDiff =
    Ok [("children.0.children",
         [mkChange "children.0.children.1.name" (Int 1);
          mkChange "children.0.children.1.children.0.value" (Int 1)]);
        ("children.1.children",
         [mkChange "children.1.children.0.value" (Int 0)])]
  /\ (exists result elems,
       convertToJinja2Ast loopAst loopDiff loopVariables = Ok result
       /\ get result "children.0.children" = VArr elems
       /\ length elems = 5
       /\ get_prop (nth 0 elems VUndef) "name" = VStr "lo0"
       /\ nth 0 elems VUndef <> loopOpen
       /\ nth 1 elems VUndef = loopOpen
       /\ nth 3 elems VUndef = loopClose)
  /\ (exists interfaces protocols,
        get loopAst "children" = VArr [interfaces; protocols]
        /\ loopStep loopVariables loopAst
             ("children", [mkChange "children.1.name" (Int 1)])
           = Throw TypeError).
Proof.
  split; [vm_compute; reflexivity|]. split.
  - eexists. eexists. split; [vm_compute; reflexivity|].
    split; [vm_compute; reflexivity|].
    repeat split; try reflexivity. discriminate.
  - eexists. eexists. split; vm_compute; reflexivity.
Qed.

(** ** The store: what a computation leaves untouched *)

Lemma keeps_refl n s : keeps n s s.
Proof. intros l _. reflexivity. Qed.

Lemma keeps_trans n s1 s2 s3 : keeps n s1 s2 -> keeps n s2 s3 -> keeps n s1 s3.
Proof. intros H12 H23 l Hl. now rewrite H23, H12. Qed.

Lemma safe_pure {A : Type} n (m : Store.M A) (post : A -> Prop) :
  (forall s, inv n s ->
     fst (m s) = s /\ forall a, snd (m s) = Store.Done a -> post a) ->
  safe n m post.
Proof.
  intros Hm s Hinv. destruct (Hm s Hinv) as [Hs Hpost]. rewrite Hs.
  split; [assumption | split; [apply keeps_refl | assumption]].
Qed.

Lemma safe_ret {A : Type} n (a : A) (post : A -> Prop) :
  post a -> safe n (Store.ret a) post.
Proof.
  intros Hpost. apply safe_pure. intros s _. split; [reflexivity|].
  intros b Hb. now injection Hb as <-.
Qed.

Lemma safe_throw {A : Type} n e (post : A -> Prop) : safe n (Store.throw e) post.
Proof. apply safe_pure. intros s _. split; [reflexivity | discriminate]. Qed.

Lemma safe_exhausted {A : Type} n (post : A -> Prop) : safe n Store.exhausted post.
Proof. apply safe_pure. intros s _. split; [reflexivity | discriminate]. Qed.

Lemma safe_atBuiltin {A : Type} n (post : A -> Prop) : safe n Store.atBuiltin post.
Proof. apply safe_pure. intros s _. split; [reflexivity | discriminate]. Qed.

Lemma safe_bind {A B : Type} n (m : Store.M A) (f : A -> Store.M B)
    (P : A -> Prop) (Q : B -> Prop) :
  safe n m P -> (forall a, P a -> safe n (f a) Q) -> safe n (Store.bindM m f) Q.
Proof.
  intros Hm Hf s Hinv. unfold Store.bindM.
  destruct (Hm s Hinv) as (Hinv1 & Hkeep1 & Hpost1).
  destruct (m s) as [s1 [a | e | |]]; simpl in *.
  - destruct (Hf a (Hpost1 a eq_refl) s1 Hinv1) as (Hinv2 & Hkeep2 & Hpost2).
    split; [assumption | split; [eapply keeps_trans; eauto | assumption]].
  - split; [assumption | split; [assumption | discriminate]].
  - split; [assumption | split; [assumption | discriminate]].
  - split; [assumption | split; [assumption | discriminate]].
Qed.

Lemma safe_weaken {A : Type} n (m : Store.M A) (P Q : A -> Prop) :
  safe n m P -> (forall a, P a -> Q a) -> safe n m Q.
Proof.
  intros Hm HPQ s Hinv. destruct (Hm s Hinv) as (H1 & H2 & H3).
  split; [assumption | split; [assumption | auto]].
Qed.

Lemma safe_reading {A : Type} n (f : Store.store -> A) (post : A -> Prop) :
  (forall s, inv n s -> post (f s)) -> safe n (Store.reading f) post.
Proof.
  intros Hf. apply safe_pure. intros s Hinv. split; [reflexivity|].
  intros a Ha. injection Ha as <-. now apply Hf.
Qed.

Lemma safe_lift {A : Type} n (r : result A) (post : A -> Prop) :
  (forall a, r = Ok a -> post a) -> safe n (Store.lift r) post.
Proof.
  intros Hr. destruct r as [a | e]; simpl.
  - apply safe_ret. now apply Hr.
  - apply safe_throw.
Qed.

Lemma safe_fueled {A : Type} n (o : option A) (post : A -> Prop) :
  (forall a, o = Some a -> post a) -> safe n (Store.fueled o) post.
Proof.
  intros Ho. destruct o as [a |]; simpl.
  - apply safe_ret. now apply Ho.
  - apply safe_exhausted.
Qed.

Lemma safe_mapS {A B : Type} n (f : A -> Store.M B) (P : B -> Prop) (l : list A) :
  (forall x, In x l -> safe n (f x) P) -> safe n (Store.mapS f l) (Forall P).
Proof.
  induction l as [|x l IH]; intros Hf; simpl.
  - apply safe_ret. constructor.
  - eapply safe_bind; [apply Hf; now left|]. intros y Hy.
    eapply safe_bind; [apply IH; intros z Hz; apply Hf; now right|].
    intros ys Hys. apply safe_ret. now constructor.
Qed.

Lemma safe_foldS {A B : Type} n (f : A -> B -> Store.M A) (P : A -> Prop)
    (l : list B) :
  (forall acc x, P acc -> safe n (f acc x) P) ->
  forall acc, P acc -> safe n (Store.foldS f acc l) P.
Proof.
  intros Hf. induction l as [|x l IH]; intros acc Hacc; simpl.
  - now apply safe_ret.
  - eapply safe_bind; [now apply Hf|]. intros acc' Hacc'. now apply IH.
Qed.

Lemma safe_reduceS {A B : Type} n (f : A -> nat -> B -> Store.M A)
    (P : A -> Prop) (Q : B -> Prop) (l : list B) :
  (forall acc i x, P acc -> Q x -> safe n (f acc i x) P) ->
  Forall Q l ->
  forall acc i, P acc -> safe n (Store.reduceS f acc i l) P.
Proof.
  intros Hf Hl. induction Hl as [|x l Hx _ IH]; intros acc i Hacc; simpl.
  - now apply safe_ret.
  - eapply safe_bind; [now apply Hf|]. intros acc' Hacc'. now apply IH.
Qed.

(** Cells. *)

Lemma length_update s : forall l c, length (Store.update s l c) = length s.
Proof. induction s as [|x s IH]; intros [|l] c; simpl; auto. Qed.

Lemma nth_error_update_other s :
  forall l l' c, l' <> l -> nth_error (Store.update s l c) l' = nth_error s l'.
Proof.
  induction s as [|x s IH]; intros [|l] [|l'] c Hne; simpl; auto; try congruence.
Qed.

Lemma nth_error_update_same s :
  forall l c c', nth_error (Store.update s l c) l = Some c' -> c' = c.
Proof.
  induction s as [|x s IH]; intros [|l] c c'; simpl; try discriminate.
  - now intros [= <-].
  - apply IH.
Qed.

Lemma fresh_of_primitive n v : primitive v -> fresh n v.
Proof. destruct v; simpl; tauto. Qed.

Lemma fresh_dict_replace n (props : list (string * Store.hval)) k x :
  Forall (fun kv => fresh n (snd kv)) props -> fresh n x ->
  Forall (fun kv => fresh n (snd kv)) (dict_replace props k x).
Proof.
  intros Hp Hx. induction Hp as [|[k' y] props Hy Hp IH]; simpl; [constructor|].
  destruct (String.eqb k' k); constructor; auto.
Qed.

Lemma fresh_dict_insert_index n (props : list (string * Store.hval)) i k x :
  Forall (fun kv => fresh n (snd kv)) props -> fresh n x ->
  Forall (fun kv => fresh n (snd kv)) (dict_insert_index props i k x).
Proof.
  intros Hp Hx. induction Hp as [|[k' y] props Hy Hp IH]; simpl.
  - now repeat constructor.
  - destruct (index_of_string k') as [j|].
    + destruct (Nat.ltb j i); repeat constructor; auto.
    + repeat constructor; auto.
Qed.

Lemma fresh_dict_set n (props : list (string * Store.hval)) k x :
  Forall (fun kv => fresh n (snd kv)) props -> fresh n x ->
  Forall (fun kv => fresh n (snd kv)) (dict_set props k x).
Proof.
  intros Hp Hx. unfold dict_set. destruct (assoc k props).
  - now apply fresh_dict_replace.
  - destruct (index_of_string k).
    + now apply fresh_dict_insert_index.
    + apply Forall_app. split; [assumption | now repeat constructor].
Qed.

Lemma fresh_list_set n (elems : list Store.hval) :
  Forall (fresh n) elems -> forall i x, fresh n x ->
  Forall (fresh n) (list_set Store.HUndef elems i x).
Proof.
  intros He i. revert elems He.
  induction i as [|i IH]; intros elems He x Hx.
  - destruct He; simpl; now repeat constructor.
  - destruct He as [|y elems Hy He]; simpl.
    + constructor; [exact I|]. apply IH; [constructor | assumption].
    + constructor; [assumption|]. now apply IH.
Qed.

Lemma fresh_lookupOr n k (props : list (string * Store.hval)) :
  Forall (fun kv => fresh n (snd kv)) props -> fresh n (Store.lookupOr k props).
Proof.
  intros Hp. unfold Store.lookupOr.
  induction Hp as [|[k' y] props Hy _ IH]; simpl; [exact I|].
  now destruct (String.eqb k' k).
Qed.

Lemma fresh_nth n (elems : list Store.hval) i :
  Forall (fresh n) elems -> fresh n (nth i elems Store.HUndef).
Proof.
  intros He. revert i.
  induction He as [|y elems Hy _ IH]; intros [|i]; simpl; auto.
Qed.

Lemma cell_of_fresh n s l c :
  inv n s -> n <= l -> nth_error s l = Some c -> cell_fresh n c.
Proof. intros [_ Hclosed] Hl Hc. now apply (Hclosed l c). Qed.

Lemma read_fresh n s v k : inv n s -> fresh n v -> fresh n (Store.read s v k).
Proof.
  intros Hinv Hv. destruct v as [| | | | str | l]; simpl; try exact I.
  - destruct (String.eqb k "length"); [exact I|].
    destruct (index_of_string k); [|exact I].
    now destruct (String.get n0 str).
  - destruct (nth_error s l) as [[elems | props]|] eqn:Hc; [| |exact I].
    + pose proof (cell_of_fresh n s l _ Hinv Hv Hc) as Hcell. simpl in Hcell.
      destruct (String.eqb k "length"); [exact I|].
      destruct (index_of_string k); [|exact I]. now apply fresh_nth.
    + pose proof (cell_of_fresh n s l _ Hinv Hv Hc) as Hcell.
      now apply fresh_lookupOr.
Qed.

Lemma walk_fresh n s path :
  inv n s -> forall v, fresh n v -> fresh n (Store.walk s v path).
Proof.
  intros Hinv. induction path as [|k path IH]; intros v Hv; simpl; [assumption|].
  destruct v; try exact I; apply IH; now apply read_fresh.
Qed.

Lemma safe_alloc n c : cell_fresh n c -> safe n (Store.alloc c) (fresh n).
Proof.
  intros Hc s [Hlen Hclosed]. simpl. split; [split | split].
  - rewrite length_app. simpl. lia.
  - intros l c' Hl Hc'.
    destruct (Nat.lt_ge_cases l (length s)) as [Hlt | Hge].
    + rewrite nth_error_app1 in Hc' by assumption. now apply (Hclosed l).
    + rewrite nth_error_app2 in Hc' by assumption.
      destruct (l - length s) as [|[|d]]; simpl in Hc'; try discriminate.
      now injection Hc' as <-.
  - intros l Hl. apply nth_error_app1. lia.
  - intros a Ha. injection Ha as <-. exact Hlen.
Qed.

Lemma inv_update n s l c :
  inv n s -> n <= l -> cell_fresh n c -> inv n (Store.update s l c).
Proof.
  intros [Hlen Hclosed] Hl Hc. split.
  - now rewrite length_update.
  - intros l' c' Hl' Hc'. destruct (Nat.eq_dec l' l) as [->|Hne].
    + apply nth_error_update_same in Hc'. now subst c'.
    + rewrite nth_error_update_other in Hc' by assumption. now apply (Hclosed l').
Qed.

Lemma keeps_update n s l c : n <= l -> keeps n s (Store.update s l c).
Proof. intros Hl l' Hl'. apply nth_error_update_other. lia. Qed.

Lemma safe_write n v k x (post : unit -> Prop) :
  fresh n v -> fresh n x -> post tt -> safe n (Store.write v k x) post.
Proof.
  intros Hv Hx Hpost s Hinv.
  assert (Hdone : forall a, Store.Done tt = Store.Done a -> post a)
    by (intros [] _; exact Hpost).
  assert (Hsame : inv n s /\ keeps n s s
                  /\ forall a, Store.Done tt = Store.Done a -> post a)
    by (split; [assumption | split; [apply keeps_refl | assumption]]).
  unfold Store.write.
  destruct v as [| | | | str | l]; simpl; try exact Hsame.
  destruct (nth_error s l) as [[elems | props]|] eqn:Hc; simpl; try exact Hsame.
  - pose proof (cell_of_fresh n s l _ Hinv Hv Hc) as Hcell. simpl in Hcell.
    destruct (index_of_string k) as [i|]; [|exact Hsame].
    split; [|split; [now apply keeps_update | assumption]].
    apply inv_update; auto. simpl. now apply fresh_list_set.
  - pose proof (cell_of_fresh n s l _ Hinv Hv Hc) as Hcell. simpl in Hcell.
    split; [|split; [now apply keeps_update | assumption]].
    apply inv_update; auto. simpl. now apply fresh_dict_set.
Qed.

Lemma safe_get n object path :
  fresh n object -> safe n (Store.get object path) (fresh n).
Proof.
  intros Ho. apply safe_reading. intros s Hinv.
  destruct object; try exact I;
    (destruct (Store.castPath s path _); [exact I | now apply walk_fresh]).
Qed.

Lemma safe_baseSet n (path : list string) :
  forall nested x,
    fresh n nested -> fresh n x ->
    safe n (Store.baseSet nested path x) (fun _ => True).
Proof.
  induction path as [|key path IH]; intros nested x Hn Hx; simpl.
  - now apply safe_ret.
  - destruct (Lodash.unsafeKey key); [now apply safe_ret|].
    destruct path as [|next rest]; [now apply safe_write|].
    eapply safe_bind.
    { apply safe_reading with (post := fun _ => True). auto. }
    intros [|] _; [apply safe_atBuiltin|].
    eapply safe_bind.
    { apply safe_reading with (post := fresh n).
      intros s Hinv. now apply read_fresh. }
    intros objValue Hobj.
    destruct (Store.isObject objValue); [now apply IH|].
    eapply safe_bind.
    { apply safe_alloc. destruct (Lodash.isIndex next); constructor. }
    intros newValue Hnew.
    eapply safe_bind; [now apply safe_write with (post := fun _ => True)|].
    intros _ _. now apply IH.
Qed.

Lemma safe_set n object path x :
  fresh n object -> fresh n x ->
  safe n (Store.set object path x) (fun _ => True).
Proof.
  intros Ho Hx. unfold Store.set.
  destruct (Store.isObject object); [|now apply safe_ret].
  eapply safe_bind.
  { apply safe_reading with (post := fun _ => True). auto. }
  intros p _. now apply safe_baseSet.
Qed.

Lemma fresh_combine n (ks : list string) (vs : list Store.hval) :
  Forall (fresh n) vs ->
  Forall (fun kv => fresh n (snd kv)) (combine ks vs).
Proof.
  intros Hvs. revert ks.
  induction Hvs as [|v vs Hv _ IH]; intros [|k ks]; simpl; constructor; auto.
Qed.

Lemma safe_cloneDeep n (fuel : nat) :
  forall v, safe n (Store.cloneDeep fuel v) (fresh n).
Proof.
  induction fuel as [|fuel IH]; intros v.
  - destruct v; simpl; try (now apply safe_ret). apply safe_exhausted.
  - destruct v; simpl; try (now apply safe_ret).
    eapply safe_bind.
    { apply safe_reading with (post := fun _ => True). auto. }
    intros [[elems | props]|] _.
    + eapply safe_bind; [apply safe_mapS; intros x _; apply IH|].
      intros copies Hcopies. now apply safe_alloc.
    + eapply safe_bind; [apply safe_mapS; intros x _; apply IH|].
      intros copies Hcopies. apply safe_alloc. simpl. now apply fresh_combine.
    + now apply safe_ret.
Qed.

Lemma safe_arrayElems n v :
  fresh n v -> safe n (Store.arrayElems v) (Forall (fresh n)).
Proof.
  intros Hv. apply safe_pure. intros s Hinv. unfold Store.arrayElems.
  destruct v as [| | | | str | l]; simpl; try (split; [reflexivity | discriminate]).
  destruct (nth_error s l) as [[elems | props]|] eqn:Hc; simpl;
    try (split; [reflexivity | discriminate]).
  split; [reflexivity|]. intros a Ha. injection Ha as <-.
  exact (cell_of_fresh n s l _ Hinv Hv Hc).
Qed.

Lemma safe_push n interfaces x :
  fresh n interfaces -> fresh n x ->
  safe n (Store.push interfaces x) (fun _ => True).
Proof.
  intros Hi Hx. unfold Store.push.
  eapply safe_bind; [now apply safe_arrayElems|].
  intros elems _. now apply safe_write.
Qed.

Lemma findByName_fresh n s (elems : list Store.hval) name found :
  Forall (fresh n) elems ->
  Store.findByName s elems name = Ok found -> fresh n found.
Proof.
  intros He. induction He as [|i elems Hi _ IH]; simpl.
  - now intros [= <-].
  - destruct i; try discriminate;
      (destruct (Store.strict_eq _ name); [now intros [= <-] | exact IH]).
Qed.

Lemma safe_addInterfaceProp n interfaces path value :
  fresh n interfaces -> fresh n value ->
  safe n (Store.addInterfaceProp interfaces path value) (fun r => r = interfaces).
Proof.
  intros Hi Hv. unfold Store.addInterfaceProp.
  destruct path as [|first rest]; [now apply safe_ret|].
  destruct (negb (String.eqb first "interfaces")); [now apply safe_ret|].
  eapply safe_bind; [now apply safe_arrayElems|].
  intros elems Helems.
  eapply safe_bind with (P := fresh n).
  { apply safe_pure. intros s _.
    destruct (Store.findByName s elems _) as [found | e] eqn:Hfind; simpl.
    - split; [reflexivity|]. intros a [= <-].
      eapply findByName_fresh; eauto.
    - split; [reflexivity | discriminate]. }
  intros found Hfound.
  eapply safe_bind with (P := fresh n).
  { destruct (Store.truthy found); [now apply safe_ret|].
    eapply safe_bind.
    { apply safe_alloc. simpl. constructor; [|constructor].
      simpl. destruct rest; exact I. }
    intros entry Hentry.
    eapply safe_bind; [now apply safe_push|].
    intros _ _. now apply safe_ret. }
  intros entry Hentry.
  eapply safe_bind with (P := fun _ => True).
  { destruct (negb (String.eqb _ "name"));
      [now apply safe_set | now apply safe_ret]. }
  intros _ _. now apply safe_ret.
Qed.

Lemma safe_extractInterfaces n (diff : list Store.changeRecord) :
  Forall (fun d => primitive (Store.r_oldValue d)) diff ->
  safe n (Store.extractInterfaces diff) (fresh n).
Proof.
  intros Hdiff. unfold Store.extractInterfaces.
  eapply safe_bind; [apply safe_alloc; constructor|].
  intros table Htable. revert table Htable.
  induction Hdiff as [|d diff Hd _ IH]; intros table Htable; simpl.
  - now apply safe_ret.
  - eapply safe_bind with (P := fresh n); [|exact IH].
    destruct (negb (String.eqb (Store.r_type d) "replace")); [now apply safe_ret|].
    eapply safe_weaken.
    + apply safe_addInterfaceProp; [assumption | now apply fresh_of_primitive].
    + now intros r ->.
Qed.

(** The synthesizer. *)

Lemma safe_toStringS n fuel v (post : string -> Prop) :
  (forall str, post str) -> safe n (Store.toStringS fuel v) post.
Proof.
  intros Hpost. apply safe_pure. intros s _. unfold Store.toStringS.
  destruct (Store.toStringIn fuel s v); simpl.
  - split; [reflexivity|]. intros a _. apply Hpost.
  - split; [reflexivity | discriminate].
Qed.

Lemma safe_placeholderOr n fuel rev key :
  fresh n key -> safe n (Store.placeholderOr fuel rev key) (fresh n).
Proof.
  intros Hkey. unfold Store.placeholderOr.
  eapply safe_bind; [apply safe_toStringS with (post := fun _ => True); auto|].
  intros k _. apply safe_ret.
  destruct (reverseLookup rev k) as [p | t |]; try exact I; try assumption.
  now destruct (is_empty p).
Qed.

Lemma spread_fresh n s v :
  inv n s -> fresh n v ->
  Forall (fun kv => fresh n (snd kv)) (Store.spread s v).
Proof.
  intros Hinv Hv. destruct v as [| | | | str | l]; simpl; try constructor.
  - apply Forall_forall. intros [k x] Hin. apply in_map_iff in Hin.
    destruct Hin as (i & [= <- <-] & _). simpl.
    now apply (read_fresh n s (Store.HStr str)).
  - destruct (nth_error s l) as [[elems | props]|] eqn:Hc; [| |constructor].
    + apply fresh_combine. exact (cell_of_fresh n s l _ Hinv Hv Hc).
    + exact (cell_of_fresh n s l _ Hinv Hv Hc).
Qed.

Lemma safe_readProp n v k :
  fresh n v -> safe n (Store.readProp v k) (fresh n).
Proof.
  intros Hv. unfold Store.readProp.
  destruct v; try apply safe_throw;
    (apply safe_reading; intros st Hinv; now apply read_fresh).
Qed.

Lemma safe_convertToLoopBody n variables rev (fuel : nat) :
  forall ast currPath,
    fresh n ast ->
    safe n (Store.convertToLoopBody fuel variables rev ast currPath) (fresh n).
Proof.
  induction fuel as [|fuel IH]; intros ast currPath Hast; simpl;
    [apply safe_exhausted|].
  eapply safe_bind.
  { apply safe_reading
      with (post := Forall (fun kv : string * Store.hval => fresh n (snd kv))).
    intros s Hinv. now apply spread_fresh. }
  intros replaced Hrep.
  assert (Hname : fresh n (Store.lookupOr "name" replaced))
    by now apply fresh_lookupOr.
  assert (Hvalue : fresh n (Store.lookupOr "value" replaced))
    by now apply fresh_lookupOr.
  eapply safe_bind
    with (P := Forall (fun kv : string * Store.hval => fresh n (snd kv))).
  { destruct (Store.strict_eq _ _ && Store.truthy _).
    - destruct (Store.lookupOr "value" replaced); try apply safe_throw.
      eapply safe_bind; [apply safe_lift with (post := fun _ => True); auto|].
      intros parts _. apply safe_ret. now apply fresh_dict_set.
    - assert (Hother :
        safe n
          (if negb (startsWith currPath "interface.") then
             Store.bindM
               (if Store.truthy (Store.lookupOr "name" replaced) then
                  Store.bindM
                    (Store.placeholderOr fuel rev (Store.lookupOr "name" replaced))
                    (fun p => Store.ret (dict_set replaced "name" p))
                else Store.ret replaced)
               (fun r1 =>
                  if Store.truthy (Store.lookupOr "value" replaced) then
                    Store.bindM
                      (Store.placeholderOr fuel rev (Store.lookupOr "value" replaced))
                      (fun p => Store.ret (dict_set r1 "value" p))
                  else Store.ret r1)
           else Store.ret replaced)
          (Forall (fun kv : string * Store.hval => fresh n (snd kv)))).
      { destruct (negb (startsWith currPath "interface.")); [|now apply safe_ret].
        eapply safe_bind
          with (P := Forall (fun kv : string * Store.hval => fresh n (snd kv))).
        - destruct (Store.truthy (Store.lookupOr "name" replaced));
            [|now apply safe_ret].
          eapply safe_bind; [now apply safe_placeholderOr|].
          intros p Hp. apply safe_ret. now apply fresh_dict_set.
        - intros r1 Hr1.
          destruct (Store.truthy (Store.lookupOr "value" replaced));
            [|now apply safe_ret].
          eapply safe_bind; [now apply safe_placeholderOr|].
          intros p Hp. apply safe_ret. now apply fresh_dict_set. }
      destruct (Lodash.get variables currPath); try exact Hother.
      apply safe_ret. now apply fresh_dict_set. }
  intros replaced1 Hrep1.
  eapply safe_bind
    with (P := fun o => forall elems, o = Some elems -> Forall (fresh n) elems).
  { apply safe_reading. intros s Hinv elems.
    pose proof (fresh_lookupOr n "children" replaced1 Hrep1) as Hc.
    destruct (Store.lookupOr "children" replaced1) as [| | | | |l];
      try discriminate.
    destruct (nth_error s l) as [[es | ps]|] eqn:Hcell; try discriminate.
    intros [= <-]. exact (cell_of_fresh n s l _ Hinv Hc Hcell). }
  intros [elems|] Helems.
  - eapply safe_bind with (P := Forall (fresh n)).
    + apply safe_mapS. intros child Hchild.
      assert (Hfresh : fresh n child).
      { specialize (Helems elems eq_refl). rewrite Forall_forall in Helems. auto. }
      eapply safe_bind; [now apply safe_readProp|].
      intros childName _.
      eapply safe_bind; [apply safe_toStringS with (post := fun _ => True); auto|].
      intros nm _. now apply IH.
    + intros children Hchildren.
      eapply safe_bind; [now apply safe_alloc|].
      intros arr Harr. apply safe_alloc. simpl. now apply fresh_dict_set.
  - now apply safe_alloc.
Qed.

Lemma safe_marker n name : safe n (Store.marker name) (fresh n).
Proof.
  unfold Store.marker. eapply safe_bind; [apply safe_alloc; constructor|].
  intros children Hc. apply safe_alloc. simpl. repeat constructor; auto.
Qed.

Lemma safe_loopReduce n fuel variables original subgroups currPath acc2 index child :
  Forall (fresh n) original -> Forall (fresh n) acc2 -> fresh n child ->
  safe n (Store.loopReduce fuel variables original subgroups currPath
            acc2 index child)
       (Forall (fresh n)).
Proof.
  intros Horig Hacc Hchild. unfold Store.loopReduce.
  destruct (match firstSubgroup subgroups with
            | Some sg => is_index index sg
            | None => false
            end).
  - eapply safe_bind; [apply safe_marker|]. intros loopOpen Hopen.
    eapply safe_bind; [apply safe_lift with (post := fun _ => True); auto|].
    intros rev _.
    eapply safe_bind with (P := fun _ => True).
    { destruct currPath; try apply safe_throw. now apply safe_ret. }
    intros path _.
    eapply safe_bind.
    { apply safe_convertToLoopBody. now apply fresh_nth. }
    intros body Hbody.
    eapply safe_bind; [apply safe_marker|]. intros loopClose Hclose.
    apply safe_ret. apply Forall_app. split; [assumption|].
    now repeat constructor.
  - destruct (negb (includes subgroups index)); apply safe_ret; [|assumption].
    apply Forall_app. split; [assumption | now repeat constructor].
Qed.

Lemma safe_loopStep n fuel variables acc group :
  fresh n acc -> safe n (Store.loopStep fuel variables acc group) (fresh n).
Proof.
  intros Hacc. destruct group as [loopPath changes]. unfold Store.loopStep.
  eapply safe_bind; [now apply safe_get|]. intros owner Howner.
  eapply safe_bind; [now apply safe_readProp|]. intros currPath _.
  eapply safe_bind; [now apply safe_get|]. intros original Horiginal.
  eapply safe_bind; [now apply safe_arrayElems|]. intros elems Helems.
  eapply safe_bind with (P := Forall (fresh n)).
  { apply safe_reduceS with (Q := fresh n); [|assumption | constructor].
    intros acc2 i x Hacc2 Hx. now apply safe_loopReduce. }
  intros replaced Hreplaced.
  eapply safe_bind; [now apply safe_alloc|]. intros arr Harr.
  eapply safe_bind; [now apply safe_set|]. intros _ _.
  now apply safe_ret.
Qed.

Lemma safe_convertToJinja2Ast n fuel ast diff variables :
  safe n (Store.convertToJinja2Ast fuel ast diff variables) (fresh n).
Proof.
  unfold Store.convertToJinja2Ast.
  eapply safe_bind; [apply safe_lift with (post := fun _ => True); auto|].
  intros groups _.
  eapply safe_bind; [apply safe_cloneDeep|]. intros acc Hacc.
  apply safe_foldS; [|assumption].
  intros acc' group Hacc'. now apply safe_loopStep.
Qed.

Lemma inv_at_length (s : Store.store) : inv (length s) s.
Proof.
  split; [lia|]. intros l c Hl Hc.
  apply nth_error_None in Hl. congruence.
Qed.

(** ** Interface extractor: the scenario *)

(** C4 (as amended).  Folding the one [replace] record with [semanticPath]
    [interfaces; ge-0/0/0; unit; 0; family] and [oldValue] ["inet"] into an
    empty table gives a table with the single entry named [ge-0/0/0]; the
    attribute path is made of the segments at the even positions 2 and 4,
    [unit.family], and the entry holds ["inet"] there: it is
    [{name: "ge-0/0/0", unit: {family: "inet"}}]. *)
Theorem interface_extraction_scenario :
  join "." (Store.evenPositions 0 (Store.r_absolutePath familyRecord)) = "unit.family"
  /\ exists s table,
       Store.extractInterfaces [familyRecord] [] = (s, Store.Done table)
       /\ Store.load 3 s table =
          Some (VArr [VObj [("name", VStr "ge-0/0/0");
                            ("unit", VObj [("family", VStr "inet")])]])
       /\ get (VObj [("name", VStr "ge-0/0/0");
                     ("unit", VObj [("family", VStr "inet")])]) "unit.family"
          = VStr "inet".
Proof.
  split; [reflexivity|].
  eexists. eexists. split; [reflexivity | split; reflexivity].
Qed.

(** C4 (as stated) fails: the entry has nothing at the dotted path
    [unit.0.family]. *)
Lemma interface_entry_has_no_unit_0_family :
  ~ (exists s table fuel entry,
       Store.extractInterfaces [familyRecord] [] = (s, Store.Done table)
       /\ Store.load fuel s table = Some (VArr [entry])
       /\ get entry "unit.0.family" = VStr "inet").
Proof.
  intros (s & table & fuel & entry & Hrun & Hload & Hget).
  vm_compute in Hrun. injection Hrun as <- <-.
  destruct fuel as [|[|[|[|fuel]]]]; simpl in Hload; try discriminate;
    injection Hload as <-; discriminate Hget.
Qed.

(** ** No mutation of the inputs *)

(** Where the fold stays in the store. *)

Lemma modelled_ret {A : Type} (a : A) : modelled (Store.ret a).
Proof. intros s. discriminate. Qed.

Lemma modelled_bind {A B : Type} (m : Store.M A) (f : A -> Store.M B) :
  modelled m -> (forall a, modelled (f a)) -> modelled (Store.bindM m f).
Proof.
  intros Hm Hf s. unfold Store.bindM. specialize (Hm s).
  destruct (m s) as [s1 [a | e | |]]; cbn [snd] in *;
    [apply Hf | discriminate | discriminate | congruence].
Qed.

Lemma modelled_reading {A : Type} (f : Store.store -> A) :
  modelled (Store.reading f).
Proof. intros s. discriminate. Qed.

Lemma modelled_alloc (c : Store.cell) : modelled (Store.alloc c).
Proof. intros s. discriminate. Qed.

Lemma modelled_write v k x : modelled (Store.write v k x).
Proof. intros s. discriminate. Qed.

Lemma modelled_arrayElems v : modelled (Store.arrayElems v).
Proof.
  intros s. unfold Store.arrayElems. destruct v; try discriminate.
  destruct (nth_error s l) as [[|]|]; discriminate.
Qed.

Lemma plainKey_not_inherited (s : Store.store) (v : Store.hval) (k : string) :
  plainKey k = true -> Store.inherits s v k = false.
Proof.
  unfold plainKey, Store.inherits. intros H.
  apply andb_true_iff in H as [H _].
  apply andb_true_iff in H as [Ho Ha]. apply negb_true_iff in Ho, Ha.
  rewrite Ho, Ha. destruct (negb (Store.has s v k)); [|reflexivity].
  destruct v; try reflexivity. now destruct (nth_error s l) as [[|]|].
Qed.

Lemma modelled_baseSet (path : list string) :
  forallb plainKey path = true ->
  forall nested x, modelled (Store.baseSet nested path x).
Proof.
  induction path as [|key path IH]; intros Hpath nested x;
    [apply modelled_ret|].
  cbn [forallb] in Hpath. apply andb_true_iff in Hpath as [Hkey Hpath].
  cbn [Store.baseSet]. destruct (Lodash.unsafeKey key); [apply modelled_ret|].
  destruct path as [|next rest]; [apply modelled_write|].
  intros s. unfold Store.bindM at 1. unfold Store.reading at 1.
  rewrite plainKey_not_inherited by assumption. revert s.
  apply modelled_bind; [apply modelled_reading|]. intros objValue.
  destruct (Store.isObject objValue); [now apply IH|].
  apply modelled_bind; [apply modelled_alloc|]. intros newValue.
  apply modelled_bind; [apply modelled_write|]. intros _. now apply IH.
Qed.

Lemma modelled_set object path x :
  forallb plainKey (split_char "." path) = true ->
  modelled (Store.set object path x).
Proof.
  intros Hpath. unfold Store.set.
  destruct (Store.isObject object); [|apply modelled_ret].
  intros s. unfold Store.bindM at 1. unfold Store.reading at 1.
  unfold Store.castPath. destruct (Store.has s object path).
  - cbn [Store.baseSet]. destruct (Lodash.unsafeKey path); discriminate.
  - now apply modelled_baseSet.
Qed.

Lemma modelled_addInterfaceProp interfaces (d : Store.changeRecord) :
  plainRecord d = true ->
  modelled (Store.addInterfaceProp interfaces (Store.r_absolutePath d)
              (Store.r_oldValue d)).
Proof.
  unfold plainRecord, attributeKeys. intros Hd. unfold Store.addInterfaceProp.
  destruct (Store.r_absolutePath d) as [|first rest]; [apply modelled_ret|].
  destruct (negb (String.eqb first "interfaces")); [apply modelled_ret|].
  apply modelled_bind; [apply modelled_arrayElems|]. intros elems.
  apply modelled_bind.
  { intros s. destruct (Store.findByName s elems _); discriminate. }
  intros found. apply modelled_bind.
  { destruct (Store.truthy found); [apply modelled_ret|].
    apply modelled_bind; [apply modelled_alloc|]. intros entry.
    apply modelled_bind; [|intros _; apply modelled_ret].
    unfold Store.push. apply modelled_bind; [apply modelled_arrayElems|].
    intros es. apply modelled_write. }
  intros entry. apply modelled_bind; [|intros _; apply modelled_ret].
  destruct (negb (String.eqb _ "name"));
    [now apply modelled_set | apply modelled_ret].
Qed.

Lemma modelled_extractInterfaces (diff : list Store.changeRecord) :
  Forall (fun d => plainRecord d = true) diff ->
  modelled (Store.extractInterfaces diff).
Proof.
  intros Hdiff. unfold Store.extractInterfaces.
  apply modelled_bind; [apply modelled_alloc|]. intros table. revert table.
  induction Hdiff as [|d diff Hd _ IH]; intros table; cbn [Store.foldS];
    [apply modelled_ret|].
  apply modelled_bind; [|exact IH].
  destruct (negb (String.eqb (Store.r_type d) "replace"));
    [apply modelled_ret | now apply modelled_addInterfaceProp].
Qed.

(** C8 (as amended).  [addInterfaceProp] works in place: it returns the very
    array it was handed, after pushing onto it and writing into its entries.
    The fold of the extractor hands it a new empty array, so that, when the
    old values of the records are primitives and no key of an attribute path
    is the name of a member of [Object.prototype] or [Array.prototype] (nor
    holds a bracket), the fold stays among the objects of the data and
    writes to new ones only: every cell that existed before is left as it
    was, and the table is a new array.  [convertToJinja2Ast] writes to the
    cells of its deep copy and to new cells only: every cell that existed
    before, the input tree among them, is left as it was, whichever way the
    call ends, and the tree returned is a new one. *)
Theorem inputs_left_untouched :
  (forall s interfaces path value s' r,
      Store.addInterfaceProp interfaces path value s = (s', Store.Done r) ->
      r = interfaces)
  /\ (forall s diff,
        Forall (fun d => primitive (Store.r_oldValue d)) diff ->
        Forall (fun d => plainRecord d = true) diff ->
        keeps (length s) s (fst (Store.extractInterfaces diff s))
        /\ snd (Store.extractInterfaces diff s) <> Store.AtBuiltin
        /\ forall table,
             snd (Store.extractInterfaces diff s) = Store.Done table ->
             fresh (length s) table)
  /\ (forall fuel s ast diff variables,
        keeps (length s) s (fst (Store.convertToJinja2Ast fuel ast diff variables s))
        /\ forall tree,
             snd (Store.convertToJinja2Ast fuel ast diff variables s)
               = Store.Done tree ->
             fresh (length s) tree).
Proof.
  split; [|split].
  - intros s interfaces path value s' r Hrun.
    assert (Hinv : inv 0 s).
    { split; [lia|]. intros l c _ _.
      destruct c as [elems | props]; simpl; apply Forall_forall;
        intros x _; destruct x as [| | | | | l'] || destruct x as [k [| | | | | l']];
        simpl; try exact I; lia. }
    assert (Hfresh : forall v, fresh 0 v) by (intros [| | | | | l]; simpl; lia || exact I).
    destruct (safe_addInterfaceProp 0 interfaces path value
                (Hfresh _) (Hfresh _) s Hinv) as (_ & _ & Hpost).
    apply Hpost. now rewrite Hrun.
  - intros s diff Hdiff Hplain.
    destruct (safe_extractInterfaces (length s) diff Hdiff s (inv_at_length s))
      as (_ & Hkeeps & Hpost).
    split; [assumption | split; [|assumption]].
    now apply modelled_extractInterfaces.
  - intros fuel s ast diff variables.
    destruct (safe_convertToJinja2Ast (length s) fuel ast diff variables s
                (inv_at_length s)) as (_ & Hkeeps & Hpost).
    split; assumption.
Qed.

Lemma inputs_left_untouched_witness :
  (forall s' r,
      Store.addInterfaceProp (Store.HRef 0) (Store.r_absolutePath familyRecord)
        (Store.HStr "inet") [Store.CArr []] = (s', Store.Done r) ->
      r = Store.HRef 0)
  /\ keeps 1 [Store.CObj [("kept", Store.HNull)]]
       (fst (Store.extractInterfaces [familyRecord]
               [Store.CObj [("kept", Store.HNull)]])).
Proof.
  split.
  - intros s' r.
    apply (proj1 inputs_left_untouched [Store.CArr []] (Store.HRef 0)
             (Store.r_absolutePath familyRecord) (Store.HStr "inet") s' r).
  - apply (proj1 (proj2 inputs_left_untouched)
             [Store.CObj [("kept", Store.HNull)]] [familyRecord]).
    + repeat constructor.
    + repeat constructor.
Defined.

(** C8 (as stated) fails.  Handed the empty array in cell 0,
    [addInterfaceProp] returns that array with an entry pushed onto it: its
    argument is mutated.  With an old value that is an object (cell 0),
    stored by reference under [a] by a first record, a second record with the
    path [a.b] writes into that object: the fold mutates what a change record
    it received refers to.  And with the attribute path [toString.value] the
    fold leaves the objects of the data: [_.set] takes the function
    [Object.prototype.toString], which the new entry inherits, for the level
    to write into, and puts [value] on it. *)
Lemma addInterfaceProp_mutates_its_argument :
  (exists s',
     Store.addInterfaceProp (Store.HRef 0) (Store.r_absolutePath familyRecord)
       (Store.HStr "inet") [Store.CArr []] = (s', Store.Done (Store.HRef 0))
     /\ nth_error [Store.CArr []] 0 = Some (Store.CArr [])
     /\ nth_error s' 0 = Some (Store.CArr [Store.HRef 1]))
  /\ (exists s' table,
        Store.extractInterfaces
          [Store.mkRecord "replace" ["interfaces"; "xe-0"; "a"] (Store.HRef 0);
           Store.mkRecord "replace" ["interfaces"; "xe-0"; "a"; "0"; "b"]
                          (Store.HStr "v")]
          [Store.CObj []] = (s', Store.Done table)
        /\ nth_error s' 0 = Some (Store.CObj [("b", Store.HStr "v")]))
  /\ (exists s',
        Store.extractInterfaces
          [Store.mkRecord "replace"
             ["interfaces"; "xe-0"; "toString"; "0"; "value"] (Store.HStr "v")]
          [] = (s', Store.AtBuiltin)).
Proof.
  split; [|split].
  - eexists. split; [vm_compute; reflexivity | split; reflexivity].
  - eexists. eexists. split; [vm_compute; reflexivity | reflexivity].
  - eexists. vm_compute. reflexivity.
Qed.

(** On the scenario the two models of the synthesizer agree: the tree the
    store model leaves is the value the plain model computes. *)
Lemma store_synthesizer_agrees_on_scenario :
  exists s0 root s tree result,
    Store.inject loopAst [] = (s0, Store.Done root)
    /\ Store.convertToJinja2Ast 12 root loopDiff loopVariables s0
       = (s, Store.Done tree)
    /\ convertToJinja2Ast loopAst loopDiff loopVariables = Ok result
    /\ Store.load 12 s tree = Some result
    /\ Store.load 12 s root = Some loopAst.
Proof.
  do 5 eexists.
  split; [vm_compute; reflexivity|].
  split; [vm_compute; reflexivity|].
  split; [vm_compute; reflexivity|].
  split; vm_compute; reflexivity.
Qed.

(** ** Differ: order-insensitive matching *)

Lemma similarity_of_nodes (x y : node) :
  calculateSimilarity (of_node x) (of_node y) = nodeScore x y.
Proof.
  destruct x as [t [n|] [v|] cs], y as [t' [n'|] [v'|] cs'];
    unfold nodeScore; cbn.
  all: destruct (String.eqb t t'); cbn; try reflexivity.
  all: try destruct (String.eqb n n'); try destruct (String.eqb v v');
    rewrite ?andb_false_r; try reflexivity.
  all: destruct (is_empty v'); reflexivity.
Qed.

Lemma Qgtb_asym (a b : Q) : Qgtb a b = true -> Qgtb b a = false.
Proof.
  unfold Qgtb. intros H. apply negb_true_iff in H. apply negb_false_iff.
  apply Qle_bool_iff. apply Qlt_le_weak. apply Qnot_le_lt.
  intros Hle. apply Qle_bool_iff in Hle. congruence.
Qed.

Lemma same_string_refl (a : option string) :
  same_string a a = match a with Some _ => true | None => false end.
Proof. destruct a; simpl; [apply String.eqb_refl | reflexivity]. Qed.

Lemma self_score (x : node) :
  nodeScore x x =
  match same_string (node_name x) (node_name x),
        same_string (node_value x) (node_value x) with
  | true, true => 32 # 32
  | true, false | false, true => 24 # 32
  | false, false => 16 # 32
  end.
Proof. unfold nodeScore. now rewrite String.eqb_refl. Qed.

Lemma self_score_passes (x : node) :
  node_name x <> None -> Qgtb (nodeScore x x) (7 # 10) = true.
Proof.
  intros Hname. rewrite self_score, !same_string_refl.
  destruct (node_name x); [|congruence]. now destruct (node_value x).
Qed.

Lemma self_score_is_highest (x y : node) :
  node_name x <> None -> Qgtb (nodeScore x y) (nodeScore x x) = false.
Proof.
  intros Hname. rewrite self_score, !same_string_refl. unfold nodeScore.
  destruct (negb (String.eqb (node_type x) (node_type y)));
    destruct (same_string (node_name x) (node_name y)) eqn:Hn;
    destruct (same_string (node_value x) (node_value y)) eqn:Hv;
    destruct (node_name x); try congruence;
    destruct (node_value x); try reflexivity; discriminate.
Qed.

Lemma self_score_beats_others (x y : node) :
  node_name x <> None -> twin x y = false ->
  Qgtb (nodeScore x x) (nodeScore x y) = true.
Proof.
  intros Hname Htwin. rewrite self_score, !same_string_refl.
  unfold nodeScore. unfold twin in Htwin.
  destruct (String.eqb (node_type x) (node_type y));
    destruct (same_string (node_name x) (node_name y)) eqn:Hn;
    destruct (same_string (node_value x) (node_value y)) eqn:Hv;
    destruct (node_name x); try congruence;
    destruct (node_value x); try reflexivity; discriminate.
Qed.

Lemma score_above_start (x y : node) : Qgtb (nodeScore x y) (- (1)) = true.
Proof.
  unfold nodeScore.
  destruct (negb (String.eqb (node_type x) (node_type y))); [reflexivity|].
  destruct (same_string (node_name x) (node_name y)),
           (same_string (node_value x) (node_value y)); reflexivity.
Qed.

(** The inner loop: the candidate that beats every earlier unmatched one
    and is beaten by no later one is the best match. *)
Section BestMatch.
Variable oldNode : value.
Variable news : list value.
Variable matched : list nat.
Variable jstar : nat.

Let score (j : nat) : Q := calculateSimilarity oldNode (nth j news VUndef).
Let step (best : option nat * Q) (j : nat) : option nat * Q :=
  if existsb (Nat.eqb j) matched then best
  else if Qgtb (score j) (snd best) then (Some j, score j) else best.

Hypothesis Hrange : jstar < length news.
Hypothesis Hfree : existsb (Nat.eqb jstar) matched = false.
Hypothesis Hbefore :
  forall j, j < jstar -> existsb (Nat.eqb j) matched = false ->
            Qgtb (score jstar) (score j) = true.
Hypothesis Hafter :
  forall j, jstar < j -> j < length news ->
            existsb (Nat.eqb j) matched = false ->
            Qgtb (score j) (score jstar) = false.
Hypothesis Hstart : Qgtb (score jstar) (- (1)) = true.

Lemma best_before (js : list nat) :
  (forall j, In j js -> j < jstar) ->
  forall best,
    Qgtb (score jstar) (snd best) = true ->
    Qgtb (score jstar) (snd (fold_left step js best)) = true.
Proof.
  induction js as [|j js IH]; intros Hjs best Hbest; simpl; [assumption|].
  apply IH; [intros k Hk; apply Hjs; now right|].
  unfold step. destruct (existsb (Nat.eqb j) matched) eqn:Hm; [assumption|].
  destruct (Qgtb (score j) (snd best)); [|assumption].
  simpl. apply Hbefore; [apply Hjs; now left | assumption].
Qed.

Lemma best_after (js : list nat) :
  (forall j, In j js -> jstar < j /\ j < length news) ->
  fold_left step js (Some jstar, score jstar) = (Some jstar, score jstar).
Proof.
  induction js as [|j js IH]; intros Hjs; simpl; [reflexivity|].
  assert (Hj : jstar < j /\ j < length news) by (apply Hjs; now left).
  replace (step (Some jstar, score jstar) j) with (Some jstar, score jstar).
  - apply IH. intros k Hk. apply Hjs. now right.
  - unfold step. destruct (existsb (Nat.eqb j) matched) eqn:Hm; [reflexivity|].
    simpl. now rewrite Hafter.
Qed.

Lemma bestMatch_pick :
  bestMatch oldNode news matched = (Some jstar, score jstar).
Proof.
  change (bestMatch oldNode news matched)
    with (fold_left step (seq 0 (length news)) (None, (- (1))%Q)).
  assert (Hsplit : seq 0 (length news)
                   = seq 0 jstar ++ jstar :: seq (S jstar) (length news - S jstar)).
  { replace (length news) with (jstar + S (length news - S jstar)) at 1 by lia.
    now rewrite seq_app. }
  rewrite Hsplit, fold_left_app.
  change (fold_left step (jstar :: seq (S jstar) (length news - S jstar))
            (fold_left step (seq 0 jstar) (None, (- (1))%Q)))
    with (fold_left step (seq (S jstar) (length news - S jstar))
            (step (fold_left step (seq 0 jstar) (None, (- (1))%Q)) jstar)).
  assert (Hfirst : Qgtb (score jstar)
                     (snd (fold_left step (seq 0 jstar) (None, (- (1))%Q))) = true).
  { apply best_before; [|exact Hstart].
    intros j Hj. apply in_seq in Hj. lia. }
  assert (Hstep : step (fold_left step (seq 0 jstar) (None, (- (1))%Q)) jstar
                  = (Some jstar, score jstar)).
  { unfold step at 1. now rewrite Hfree, Hfirst. }
  rewrite Hstep.
  apply best_after. intros j Hj. apply in_seq in Hj. lia.
Qed.

End BestMatch.

Lemma diffWalk_primitive_same ign ord (v : value) :
  Lodash.isObject v = false ->
  forall d cur abs, diffWalk ign ord v v d cur abs = [].
Proof.
  intros Hv d cur abs. rewrite diffWalk_unfold.
  destruct v; try discriminate; unfold diffBody; simpl; try reflexivity.
  - now rewrite Bool.eqb_reflx.
  - now rewrite Z.eqb_refl.
  - now rewrite String.eqb_refl.
Qed.

Lemma diffWalk_object_same ign ord (props : list (string * value)) :
  Forall (fun kv => forall d cur abs,
            diffWalk ign ord (snd kv) (snd kv) d cur abs = []) props ->
  forall d cur abs, diffWalk ign ord (VObj props) (VObj props) d cur abs = [].
Proof.
  intros IH d cur abs. rewrite diffWalk_unfold, diffBody_objects.
  apply flat_map_nil. intros prop Hprop.
  apply dedup_from_incl, in_app_or in Hprop.
  assert (Hin : In prop (map fst props)) by (simpl in Hprop; tauto).
  clear Hprop.
  destruct (assoc_in_keys prop props Hin) as (v & Hv & Hv').
  unfold propStep. destruct (shouldIgnore ign prop); [reflexivity|].
  simpl. rewrite Hv. simpl.
  destruct (depth_nonzero d); [|reflexivity].
  rewrite (assoc_map_snd (fun v => diffWalk ign ord v)), Hv. simpl.
  rewrite Forall_forall in IH. apply (IH (prop, v) Hv').
Qed.

Lemma nth_of_node (l : list node) (j : nat) (dflt : node) :
  j < length l -> nth j (map of_node l) VUndef = of_node (nth j l dflt).
Proof.
  intros Hj. rewrite (nth_indep _ VUndef (of_node dflt))
    by (now rewrite length_map).
  apply map_nth.
Qed.

Lemma unmatchedAdds_nil (news : list value) (matched : list nat) cur abs :
  (forall j, j < length news -> existsb (Nat.eqb j) matched = true) ->
  unmatchedAdds news matched cur abs = [].
Proof.
  intros Hall. unfold unmatchedAdds. apply flat_map_nil.
  intros j Hj. apply in_seq in Hj. rewrite Hall by lia. reflexivity.
Qed.

(** An array of named nodes diffed with itself, order ignored: each element
    is matched with itself, the first of its best candidates. *)
Lemma unorderedLoop_identity ign (full : list node) :
  Forall (fun c => node_name c <> None) full ->
  forall post pre matched d cur abs,
    full = pre ++ post ->
    (forall j, existsb (Nat.eqb j) matched = true <-> j < length pre) ->
    Forall (fun c => forall d cur abs,
              diffWalk ign true (of_node c) (of_node c) d cur abs = []) post ->
    exists matched',
      unorderedLoop
        (combine (map of_node post)
                 (map (fun o => diffWalk ign true o) (map of_node post)))
        (length pre) (map of_node full) matched d cur abs = ([], matched')
      /\ forall j, j < length full -> existsb (Nat.eqb j) matched' = true.
Proof.
  intros Hnamed post.
  induction post as [|c post IH]; intros pre matched d cur abs Hfull Hm Hsame.
  - simpl. exists matched. split; [reflexivity|]. intros j Hj. apply Hm.
    subst full. rewrite length_app in Hj. simpl in Hj. lia.
  - inversion Hsame as [|? ? Hc Hpost]; subst.
    assert (Hlen : length pre < length (pre ++ c :: post))
      by (rewrite length_app; simpl; lia).
    assert (Hnth : nth (length pre) (pre ++ c :: post) nobody = c)
      by (rewrite app_nth2, Nat.sub_diag by lia; reflexivity).
    assert (Hcname : node_name c <> None).
    { rewrite Forall_forall in Hnamed. apply Hnamed.
      apply in_or_app. right. now left. }
    assert (Hfree : existsb (Nat.eqb (length pre)) matched = false).
    { destruct (existsb (Nat.eqb (length pre)) matched) eqn:He; [|reflexivity].
      apply Hm in He. lia. }
    assert (Hbest : bestMatch (of_node c) (map of_node (pre ++ c :: post)) matched
                    = (Some (length pre), nodeScore c c)).
    { rewrite (bestMatch_pick (of_node c) _ matched (length pre)).
      - now rewrite (nth_of_node _ _ nobody), Hnth, similarity_of_nodes.
      - now rewrite length_map.
      - exact Hfree.
      - intros j Hj Hj'.
        destruct (existsb (Nat.eqb j) matched) eqn:He; [discriminate|].
        assert (existsb (Nat.eqb j) matched = true) by now apply Hm.
        congruence.
      - intros j Hj Hj' _. rewrite length_map in Hj'.
        rewrite !(nth_of_node _ _ nobody), Hnth, !similarity_of_nodes by lia.
        now apply self_score_is_highest.
      - rewrite (nth_of_node _ _ nobody), Hnth, similarity_of_nodes by lia.
        apply score_above_start. }
    simpl unorderedLoop. rewrite Hbest.
    rewrite self_score_passes by assumption.
    rewrite (nth_of_node _ _ nobody), Hnth by lia. rewrite Hc.
    destruct (IH (pre ++ [c]) (length pre :: matched) d cur abs) as (m' & Hrun & Hall).
    + now rewrite <- app_assoc.
    + intros j. rewrite length_app. simpl. rewrite orb_true_iff, Hm, Nat.eqb_eq. lia.
    + assumption.
    + rewrite length_app in Hrun. simpl in Hrun.
      replace (length pre + 1) with (S (length pre)) in Hrun by lia.
      rewrite Hrun. exists m'. split; [reflexivity | assumption].
Qed.

(** Order ignored, a tree of named nodes diffed with itself gives the empty
    change list. *)
Lemma unordered_identity ign (t : node) :
  named t = true ->
  forall d cur abs, diffWalk ign true (of_node t) (of_node t) d cur abs = [].
Proof.
  induction t as [t x v cs IH] using node_ind'. intros Hnamed d cur abs.
  simpl in Hnamed. apply andb_true_iff in Hnamed as [Hx Hcs].
  simpl of_node. apply diffWalk_object_same.
  apply Forall_cons;
    [cbn [snd]; apply diffWalk_primitive_same; reflexivity|].
  apply Forall_cons;
    [cbn [snd]; apply diffWalk_primitive_same; now destruct x|].
  apply Forall_cons;
    [cbn [snd]; apply diffWalk_primitive_same; now destruct v|].
  apply Forall_cons; [|apply Forall_nil].
  - cbn [snd]. intros d' cur' abs'.
    rewrite diffWalk_unfold, diffBody_arrays. cbv zeta.
    rewrite (array_parts ign true (map of_node cs)).
    rewrite forallb_forall in Hcs.
    destruct (unorderedLoop_identity ign cs) with
      (post := cs) (pre := @nil node) (matched := @nil nat)
      (d := d') (cur := cur') (abs := abs') as (m' & Hrun & Hall).
    + apply Forall_forall. intros c Hc. specialize (Hcs c Hc).
      destruct c as [ct [cx|] cv ccs]; simpl in *; congruence.
    + reflexivity.
    + intros j. simpl. split; [discriminate | lia].
    + rewrite Forall_forall in IH. apply Forall_forall. intros c Hc.
      apply IH; auto.
    + simpl length in Hrun. rewrite Hrun. simpl.
      apply unmatchedAdds_nil. intros j Hj. rewrite length_map in Hj. auto.
Qed.

Lemma twin_self (x : node) : node_name x <> None -> twin x x = true.
Proof.
  intros Hname. unfold twin. rewrite String.eqb_refl, !same_string_refl.
  destruct (node_name x); [|congruence]. now destruct (node_value x).
Qed.

Lemma twin_free_spec (l : list node) :
  Forall (fun c => node_name c <> None) l -> twin_free l = true ->
  NoDup l /\ forall x y, In x l -> In y l -> x <> y -> twin x y = false.
Proof.
  induction 1 as [|x l Hx Hl IH]; simpl; intros Hfree.
  - split; [constructor | intros x y []].
  - apply andb_true_iff in Hfree as [Hhead Htail].
    destruct (IH Htail) as [Hnodup Hpair]. rewrite forallb_forall in Hhead.
    split.
    + constructor; [|assumption]. intros Hin.
      specialize (Hhead x Hin). rewrite twin_self in Hhead by assumption.
      discriminate.
    + intros a b [-> | Ha] [-> | Hb] Hne; try congruence.
      * specialize (Hhead b Hb). apply andb_true_iff in Hhead as [H1 _].
        now apply negb_true_iff.
      * specialize (Hhead a Ha). apply andb_true_iff in Hhead as [_ H2].
        now apply negb_true_iff.
      * now apply Hpair.
Qed.

(** An array of named nodes diffed, order ignored, with a rearrangement of
    it in which no element has a twin: each element is matched with its own
    copy, its single best candidate. *)
Lemma unorderedLoop_permuted ign (news : list node) :
  NoDup news ->
  (forall x y, In x news -> In y news -> x <> y -> twin x y = false) ->
  forall olds i matched d cur abs,
    NoDup olds ->
    (forall o, In o olds -> In o news) ->
    Forall (fun c => node_name c <> None
                     /\ forall d cur abs,
                          diffWalk ign true (of_node c) (of_node c) d cur abs = [])
           olds ->
    (forall j, existsb (Nat.eqb j) matched = true ->
               j < length news /\ ~ In (nth j news nobody) olds) ->
    exists matched',
      unorderedLoop
        (combine (map of_node olds)
                 (map (fun o => diffWalk ign true o) (map of_node olds)))
        i (map of_node news) matched d cur abs = ([], matched')
      /\ forall j, j < length news ->
           existsb (Nat.eqb j) matched = true \/ In (nth j news nobody) olds ->
           existsb (Nat.eqb j) matched' = true.
Proof.
  intros Hnodup Hpair olds.
  induction olds as [|o olds IH];
    intros i matched d cur abs Hold Hin Hsame Hm.
  - simpl. exists matched. split; [reflexivity|].
    intros j _ [H | []]. exact H.
  - inversion Hsame as [|? ? [Hname Ho] Hrest]; subst.
    inversion Hold as [|? ? Hnotin Hold']; subst.
    destruct (In_nth news o nobody (Hin o (or_introl eq_refl)))
      as (jstar & Hjstar & Hnth).
    assert (Hfree : existsb (Nat.eqb jstar) matched = false).
    { destruct (existsb (Nat.eqb jstar) matched) eqn:He; [|reflexivity].
      destruct (Hm jstar He) as [_ Hno]. exfalso. apply Hno.
      rewrite Hnth. now left. }
    assert (Hother : forall j, j < length news -> j <> jstar ->
              Qgtb (nodeScore o o) (nodeScore o (nth j news nobody)) = true).
    { intros j Hj Hne. apply self_score_beats_others; [assumption|].
      apply Hpair.
      - apply Hin. now left.
      - now apply nth_In.
      - intros Heq. apply Hne.
        apply (proj1 (NoDup_nth news nobody) Hnodup); auto. congruence. }
    assert (Hbest : bestMatch (of_node o) (map of_node news) matched
                    = (Some jstar, nodeScore o o)).
    { rewrite (bestMatch_pick (of_node o) _ matched jstar).
      - now rewrite (nth_of_node _ _ nobody), Hnth, similarity_of_nodes.
      - now rewrite length_map.
      - exact Hfree.
      - intros j Hj _.
        rewrite !(nth_of_node _ _ nobody), Hnth, !similarity_of_nodes by lia.
        apply Hother; lia.
      - intros j Hj Hj' _. rewrite length_map in Hj'.
        rewrite !(nth_of_node _ _ nobody), Hnth, !similarity_of_nodes by lia.
        apply Qgtb_asym. apply Hother; lia.
      - rewrite (nth_of_node _ _ nobody), Hnth, similarity_of_nodes by lia.
        apply score_above_start. }
    simpl unorderedLoop. rewrite Hbest.
    rewrite self_score_passes by assumption.
    rewrite (nth_of_node _ _ nobody), Hnth by lia. rewrite Ho.
    destruct (IH (S i) (jstar :: matched) d cur abs) as (m' & Hrun & Hall).
    + assumption.
    + intros x Hx. apply Hin. now right.
    + assumption.
    + intros j Hj. simpl in Hj. apply orb_true_iff in Hj as [Hj | Hj].
      * apply Nat.eqb_eq in Hj. subst j. rewrite Hnth. auto.
      * destruct (Hm j Hj) as [Hlt Hno]. split; [assumption|].
        intros Hx. apply Hno. now right.
    + rewrite Hrun. exists m'. split; [reflexivity|].
      intros j Hj Hcase. apply Hall; [assumption|].
      destruct Hcase as [Hj' | [Hj' | Hj']].
      * left. simpl. rewrite Hj'. apply orb_true_r.
      * left. simpl.
        assert (j = jstar)
          by (apply (proj1 (NoDup_nth news nobody) Hnodup); auto; congruence).
        subst j. now rewrite Nat.eqb_refl.
      * now right.
Qed.

Lemma named_top (c : node) : named c = true -> node_name c <> None.
Proof. destruct c as [t [x|] v cs]; simpl; [discriminate | discriminate]. Qed.

(** C9 (as amended).  For every array of nodes that carry a name throughout
    and of which no two are twins of each other (same type, same name, and
    the same value or no value in one of them), and for every rearrangement
    of it (its reverse, for one), diffing the two with [ignoreArrayOrder:
    true] yields the empty change list, and so zero [add] and zero [remove]
    records: each left-side element is matched to the unmatched right-side
    element with the highest similarity score, its own copy, whose score
    exceeds the 0.7 threshold. *)
Theorem reordered_siblings_diff_empty (l l' : list node) :
  forallb named l = true ->
  twin_free l = true ->
  Permutation l l' ->
  diffAst (VArr (map of_node l)) (VArr (map of_node l')) unorderedOptions = [].
Proof.
  intros Hnamed Hfree Hperm.
  rewrite forallb_forall in Hnamed.
  assert (Hnames : Forall (fun c => node_name c <> None) l).
  { apply Forall_forall. intros c Hc. apply named_top. auto. }
  destruct (twin_free_spec l Hnames Hfree) as [Hnodup Hpair].
  unfold diffAst, unorderedOptions. simpl orDefault.
  rewrite diffWalk_unfold, diffBody_arrays. cbv zeta.
  rewrite (array_parts _ true (map of_node l)).
  destruct (unorderedLoop_permuted ["loc"; "range"] l')
    with (olds := l) (i := 0) (matched := @nil nat) (d := Infinity)
         (cur := @nil string) (abs := @nil string) as (m' & Hrun & Hall).
  - now apply (Permutation_NoDup Hperm).
  - intros x y Hx Hy.
    apply Hpair; (eapply Permutation_in; [apply Permutation_sym; eassumption|]);
      assumption.
  - assumption.
  - intros o Ho. eapply Permutation_in; eauto.
  - apply Forall_forall. intros c Hc. split; [now apply named_top; auto|].
    apply unordered_identity. auto.
  - intros j Hj. discriminate.
  - rewrite Hrun. simpl. apply unmatchedAdds_nil.
    intros j Hj. rewrite length_map in Hj. apply Hall; [assumption|].
    right. eapply Permutation_in; [apply Permutation_sym; eassumption|].
    now apply nth_In.
Qed.

Lemma reordered_siblings_diff_empty_witness :
  diffAst
    (VArr (map of_node
             [mkNode "named-block" (Some "unit") (Some "0")
                     [mkNode "directive" (Some "family") (Some "inet") []];
              mkNode "named-block" (Some "unit") (Some "1")
                     [mkNode "directive" (Some "family") (Some "inet6") []];
              mkNode "flag" (Some "disable") None []]))
    (VArr (map of_node
             (rev [mkNode "named-block" (Some "unit") (Some "0")
                     [mkNode "directive" (Some "family") (Some "inet") []];
                   mkNode "named-block" (Some "unit") (Some "1")
                     [mkNode "directive" (Some "family") (Some "inet6") []];
                   mkNode "flag" (Some "disable") None []])))
    unorderedOptions = [].
Proof.
  apply reordered_siblings_diff_empty;
    [reflexivity | reflexivity | apply Permutation_rev].
Defined.

(** C9 (as stated) fails: two blocks of the same name score as high against
    each other as against themselves, so the first is matched with the copy
    of the second; against its reverse the array then yields [remove] and
    [add] records for the bodies. *)
Lemma twin_blocks_give_add_and_remove :
  map d_type
    (diffAst (VArr (map of_node twinBlocks))
             (VArr (map of_node (rev twinBlocks))) unorderedOptions)
  = ["remove"; "add"; "remove"; "add"].
Proof. reflexivity. Qed.

(** ** Round trip: the serializer after the parser *)

(** Strings. *)

Lemma append_nil_r (s : string) : s +++ "" = s.
Proof. induction s as [|c s IH]; simpl; [reflexivity | now rewrite IH]. Qed.

Lemma append_assoc (a b c : string) : (a +++ b) +++ c = a +++ (b +++ c).
Proof. induction a as [|x a IH]; simpl; [reflexivity | now rewrite IH]. Qed.

Lemma all_chars_app (p : ascii -> bool) (a b : string) :
  all_chars p (a +++ b) = all_chars p a && all_chars p b.
Proof.
  induction a as [|x a IH]; simpl; [reflexivity|].
  rewrite IH. now rewrite andb_assoc.
Qed.

Lemma includes_char_app (c : ascii) (a b : string) :
  includes_char c (a +++ b) = includes_char c a || includes_char c b.
Proof.
  induction a as [|x a IH]; simpl; [reflexivity|].
  rewrite IH. now rewrite orb_assoc.
Qed.

Lemma no_char_app (c : ascii) (a b : string) :
  no_char c (a +++ b) = no_char c a && no_char c b.
Proof. unfold no_char. rewrite includes_char_app. apply negb_orb. Qed.

Lemma is_empty_app (a b : string) :
  is_empty (a +++ b) = is_empty a && is_empty b.
Proof. now destruct a. Qed.

Lemma is_empty_true (s : string) : is_empty s = true -> s = "".
Proof. now destruct s. Qed.

Lemma all_chars_weaken (p q : ascii -> bool) (s : string) :
  (forall c, p c = true -> q c = true) ->
  all_chars p s = true -> all_chars q s = true.
Proof.
  intros Hpq. induction s as [|c s IH]; simpl; [reflexivity|].
  intros H. apply andb_true_iff in H as [Hc Hs].
  now rewrite (Hpq c Hc), IH.
Qed.

Lemma line_terminator_is_space (c : ascii) :
  is_line_terminator c = true -> is_space c = true.
Proof.
  unfold is_line_terminator, is_space.
  destruct (nat_of_ascii c) as [|[|[|[|[|[|[|[|[|[|[|[|[|[|n]]]]]]]]]]]]]];
    try discriminate; reflexivity.
Qed.

Lemma no_space_no_line_terminator (s : string) :
  no_space s = true -> no_line_terminator s = true.
Proof.
  apply all_chars_weaken. intros c Hc.
  destruct (is_line_terminator c) eqn:Hlt; [|reflexivity].
  apply line_terminator_is_space in Hlt. now rewrite Hlt in Hc.
Qed.

(** [span]. *)

Lemma span_spec (p : ascii -> bool) (s : string) :
  forall a b, span p s = (a, b) ->
    s = a +++ b /\ all_chars p a = true
    /\ match b with String c _ => p c = false | EmptyString => True end.
Proof.
  induction s as [|c s IH]; simpl; intros a b H.
  - injection H as <- <-. auto.
  - destruct (p c) eqn:Hc.
    + destruct (span p s) as [a' b'] eqn:Hs. injection H as <- <-.
      destruct (IH a' b' eq_refl) as (-> & Ha & Hb). simpl. rewrite Hc. auto.
    + injection H as <- <-. simpl. rewrite Hc. auto.
Qed.

Lemma span_app (p : ascii -> bool) (a b : string) :
  all_chars p a = true ->
  match b with String c _ => p c = false | EmptyString => True end ->
  span p (a +++ b) = (a, b).
Proof.
  induction a as [|x a IH]; simpl; intros Ha Hb.
  - destruct b as [|c b]; simpl; [reflexivity | now rewrite Hb].
  - apply andb_true_iff in Ha as [Hx Ha]. now rewrite Hx, IH.
Qed.

(** [trim]. *)

Lemma ltrim_blank_app (w s : string) : blank w = true -> ltrim (w +++ s) = ltrim s.
Proof.
  unfold blank. induction w as [|c w IH]; simpl; intros Hw; [reflexivity|].
  apply andb_true_iff in Hw as [Hc Hw]. now rewrite Hc, IH.
Qed.

Lemma ltrim_starts (s : string) : starts_nonspace s = true -> ltrim s = s.
Proof.
  destruct s as [|c s]; simpl; [discriminate|].
  intros H. apply negb_true_iff in H. now rewrite H.
Qed.

Lemma ltrim_result (s : string) : ltrim s = "" \/ starts_nonspace (ltrim s) = true.
Proof.
  induction s as [|c s IH]; simpl; [now left|].
  destruct (is_space c) eqn:Hc; [assumption|]. right. simpl. now rewrite Hc.
Qed.

Lemma ltrim_suffix (s : string) : exists w, blank w = true /\ s = w +++ ltrim s.
Proof.
  unfold blank. induction s as [|c s IH]; simpl.
  - now exists "".
  - destruct (is_space c) eqn:Hc.
    + destruct IH as (w & Hw & Hs). exists (String c w). simpl.
      rewrite Hc, Hw. split; [reflexivity | now rewrite <- Hs].
    + now exists "".
Qed.

Lemma rtrim_blank (w : string) : blank w = true -> rtrim w = "".
Proof.
  unfold blank. induction w as [|c w IH]; simpl; intros Hw; [reflexivity|].
  apply andb_true_iff in Hw as [Hc Hw]. now rewrite IH, Hc.
Qed.

Lemma ends_nonspace_nonempty (s : string) : ends_nonspace s = true -> s <> "".
Proof. destruct s; simpl; [discriminate | discriminate]. Qed.

Lemma rtrim_ends (s : string) : ends_nonspace s = true -> rtrim s = s.
Proof.
  induction s as [|c s IH]; simpl; [discriminate|].
  destruct s as [|c' s'].
  - intros H. apply negb_true_iff in H. simpl. now rewrite H.
  - intros H. rewrite (IH H). reflexivity.
Qed.

Lemma ends_nonspace_app (a b : string) :
  ends_nonspace b = true -> ends_nonspace (a +++ b) = true.
Proof.
  intros Hb. induction a as [|c a IH]; simpl; [assumption|].
  destruct (a +++ b) eqn:Hab; [discriminate IH | exact IH].
Qed.

Lemma rtrim_app_blank (s w : string) :
  ends_nonspace s = true -> blank w = true -> rtrim (s +++ w) = s.
Proof.
  intros Hs Hw. induction s as [|c s IH]; simpl; [discriminate|].
  destruct s as [|c' s'].
  - simpl in *. rewrite (rtrim_blank w Hw).
    apply negb_true_iff in Hs. now rewrite Hs.
  - rewrite (IH Hs). reflexivity.
Qed.

Lemma rtrim_suffix (s : string) :
  exists w, blank w = true /\ s = rtrim s +++ w
            /\ (rtrim s = "" \/ ends_nonspace (rtrim s) = true).
Proof.
  unfold blank. induction s as [|c s IH]; simpl.
  - exists "". auto.
  - destruct IH as (w & Hw & Hs & Hend).
    destruct (rtrim s) as [|c' r] eqn:Hr.
    + simpl in Hs. subst s. destruct (is_space c) eqn:Hc.
      * exists (String c w). simpl. rewrite Hc, Hw. auto.
      * exists w. simpl. rewrite Hc. auto.
    + exists w. split; [assumption|]. split.
      * change (String c (String c' r) +++ w) with (String c (String c' r +++ w)).
        now rewrite <- Hs.
      * right. destruct Hend as [Hend | Hend]; [discriminate|]. exact Hend.
Qed.

Lemma trimmed_nonempty (s : string) : trimmed s = true -> is_empty s = false.
Proof. destruct s; simpl; [discriminate | reflexivity]. Qed.

Lemma trim_trimmed (s : string) : trimmed s = true -> trim s = s.
Proof.
  unfold trimmed, trim. intros H. apply andb_true_iff in H as [Hs He].
  now rewrite ltrim_starts, rtrim_ends.
Qed.

Lemma trim_pad (w1 s w2 : string) :
  blank w1 = true -> trimmed s = true -> blank w2 = true ->
  trim (w1 +++ s +++ w2) = s.
Proof.
  unfold trimmed, trim. intros H1 H H2. apply andb_true_iff in H as [Hs He].
  rewrite ltrim_blank_app by assumption.
  rewrite ltrim_starts by (destruct s; [discriminate | exact Hs]).
  now apply rtrim_app_blank.
Qed.

(** A string that starts with a character that is no white space is its
    trimmed form followed by white space. *)
Lemma trim_of_starts (s : string) :
  starts_nonspace s = true ->
  trimmed (trim s) = true /\ exists w, blank w = true /\ s = trim s +++ w.
Proof.
  intros Hs. unfold trim. rewrite ltrim_starts by assumption.
  destruct (rtrim_suffix s) as (w & Hw & Heq & Hend).
  assert (Hstart : starts_nonspace (rtrim s) = true).
  { destruct s as [|c s']; [discriminate|]. simpl in *.
    destruct (rtrim s'); [|exact Hs].
    apply negb_true_iff in Hs. rewrite Hs. simpl. now rewrite Hs. }
  split.
  - unfold trimmed. rewrite Hstart. simpl.
    destruct Hend as [Hend | Hend]; [|assumption].
    rewrite Hend in Hstart. discriminate.
  - exists w. auto.
Qed.

Lemma string_length_app (a b : string) :
  String.length (a +++ b) = String.length a + String.length b.
Proof. induction a as [|c a IH]; simpl; [reflexivity | now rewrite IH]. Qed.

(** Tokens. *)

Lemma token_spec (t : string) :
  is_token t = true -> is_empty t = false /\ no_space t = true.
Proof.
  unfold is_token. intros H. apply andb_true_iff in H as [H1 H2].
  apply negb_true_iff in H1. auto.
Qed.

Lemma token_starts (t : string) : is_token t = true -> starts_nonspace t = true.
Proof.
  intros H. destruct (token_spec t H) as [Hne Hns].
  destruct t as [|c t]; [discriminate|]. simpl in *.
  unfold no_space in Hns. simpl in Hns. now apply andb_true_iff in Hns as [-> _].
Qed.

Lemma no_space_ends (t : string) :
  is_empty t = false -> no_space t = true -> ends_nonspace t = true.
Proof.
  unfold no_space. induction t as [|c t IH]; simpl; [discriminate|].
  intros _ H. apply andb_true_iff in H as [Hc Ht].
  destruct t as [|c' t']; [assumption|]. now apply IH.
Qed.

Lemma token_trimmed (t : string) : is_token t = true -> trimmed t = true.
Proof.
  intros H. unfold trimmed. rewrite (token_starts t H). simpl.
  destruct (token_spec t H). now apply no_space_ends.
Qed.

Lemma ends_nonspace_app_r (a b : string) :
  is_empty b = false -> ends_nonspace (a +++ b) = ends_nonspace b.
Proof.
  intros Hb. induction a as [|c a IH]; simpl; [reflexivity|].
  destruct (a +++ b) eqn:Hab; [|assumption].
  destruct a; [simpl in Hab; subst b|]; discriminate.
Qed.

Lemma blank_not_ends (w : string) : blank w = true -> ends_nonspace w = false.
Proof.
  unfold blank. induction w as [|c w IH]; simpl; [reflexivity|].
  intros H. apply andb_true_iff in H as [Hc Hw].
  destruct w; [now rewrite Hc | now apply IH].
Qed.

Lemma starts_nonspace_app (a b : string) :
  starts_nonspace a = true -> starts_nonspace (a +++ b) = true.
Proof. now destruct a. Qed.

Lemma Sep_nonempty toks s : Sep toks s -> toks <> [].
Proof. destruct 1; discriminate. Qed.

Lemma Sep_tokens toks s : Sep toks s -> Forall (fun t => is_token t = true) toks.
Proof. induction 1; constructor; auto. Qed.

Lemma Sep_trimmed toks s : Sep toks s -> trimmed s = true.
Proof.
  induction 1 as [t Ht | t w toks r Ht Hne Hw Hsep IH].
  - now apply token_trimmed.
  - unfold trimmed in *. apply andb_true_iff in IH as [_ IH].
    rewrite starts_nonspace_app by now apply token_starts.
    simpl. rewrite ends_nonspace_app_r, ends_nonspace_app_r; auto.
    + destruct r; [discriminate | reflexivity].
    + rewrite is_empty_app, Hne. reflexivity.
Qed.

(** [split(/\s+/)] gives the tokens back. *)

Lemma split_ws_aux_nonempty b s : split_ws_aux b s <> [].
Proof.
  revert b. induction s as [|c s IH]; intros b; simpl; [discriminate|].
  destruct (is_space c).
  - destruct b; [apply IH | discriminate].
  - destruct (split_ws_aux false s); discriminate.
Qed.

Lemma split_ws_aux_token (t s : string) :
  no_space t = true ->
  split_ws_aux false (t +++ s) =
  match split_ws_aux false s with
  | h :: tl => (t +++ h) :: tl
  | [] => [t]
  end.
Proof.
  unfold no_space. induction t as [|c t IH]; simpl; intros Ht.
  - destruct (split_ws_aux false s) eqn:Hs; [|reflexivity].
    now apply split_ws_aux_nonempty in Hs.
  - apply andb_true_iff in Ht as [Hc Ht]. apply negb_true_iff in Hc.
    rewrite Hc, (IH Ht). now destruct (split_ws_aux false s).
Qed.

Lemma split_ws_aux_started (r : string) :
  starts_nonspace r = true -> split_ws_aux true r = split_ws_aux false r.
Proof.
  destruct r as [|c r]; simpl; [discriminate|].
  intros H. apply negb_true_iff in H. now rewrite H.
Qed.

Lemma split_ws_aux_blank (w r : string) :
  blank w = true -> starts_nonspace r = true ->
  split_ws_aux true (w +++ r) = split_ws_aux false r.
Proof.
  unfold blank. induction w as [|c w IH]; simpl; intros Hw Hr.
  - now apply split_ws_aux_started.
  - apply andb_true_iff in Hw as [Hc Hw]. rewrite Hc. now apply IH.
Qed.

Lemma split_ws_Sep toks s : Sep toks s -> split_ws s = toks.
Proof.
  unfold split_ws.
  induction 1 as [t Ht | t w toks r Ht Hne Hw Hsep IH].
  - destruct (token_spec t Ht) as [_ Hns].
    rewrite <- (append_nil_r t) at 1. rewrite split_ws_aux_token by assumption.
    simpl. now rewrite append_nil_r.
  - destruct (token_spec t Ht) as [_ Hns].
    rewrite split_ws_aux_token by assumption.
    destruct w as [|c w]; [discriminate|].
    unfold blank in Hw. simpl in Hw. apply andb_true_iff in Hw as [Hc Hw].
    simpl. rewrite Hc.
    rewrite split_ws_aux_blank, IH, append_nil_r; auto.
    apply Sep_trimmed in Hsep. unfold trimmed in Hsep.
    now apply andb_true_iff in Hsep as [-> _].
Qed.

(** Joining. *)

Lemma join_cons2 sep x y l : join sep (x :: y :: l) = x +++ sep +++ join sep (y :: l).
Proof. reflexivity. Qed.

Lemma Sep_join toks :
  Forall (fun t => is_token t = true) toks -> toks <> [] ->
  Sep toks (join " " toks).
Proof.
  induction 1 as [|t toks Ht Htoks IH]; intros Hne; [congruence|].
  destruct toks as [|t' toks'].
  - simpl. now constructor.
  - rewrite join_cons2. constructor; auto. apply IH. discriminate.
Qed.

(** Every trimmed string is a sequence of tokens. *)
Lemma Sep_exists_bounded (n : nat) :
  forall s, String.length s <= n -> trimmed s = true -> exists toks, Sep toks s.
Proof.
  induction n as [|n IH]; intros s Hlen Htrim.
  - destruct s; [discriminate | simpl in Hlen; lia].
  - unfold trimmed in Htrim. apply andb_true_iff in Htrim as [Hstart Hend].
    destruct (span (fun c => negb (is_space c)) s) as [t r] eqn:Ht.
    destruct (span_spec _ _ _ _ Ht) as (Hs & Htok & Hr).
    assert (Htoken : is_token t = true).
    { unfold is_token, no_space. rewrite Htok, andb_true_r.
      destruct t; [|reflexivity]. simpl in Hs. subst r.
      destruct s as [|c s]; [discriminate|]. simpl in Hstart. now rewrite Hr in Hstart. }
    destruct r as [|c r'].
    { rewrite append_nil_r in Hs. subst s. exists [t]. now constructor. }
    destruct (span is_space (String c r')) as [w rest] eqn:Hw.
    destruct (span_spec _ _ _ _ Hw) as (Hr' & Hblank & Hrest).
    assert (Hwne : is_empty w = false).
    { destruct w; [|reflexivity]. simpl in Hr'. subst rest.
      apply negb_false_iff in Hr. now rewrite Hr in Hrest. }
    assert (Hrestne : is_empty rest = false).
    { destruct rest; [|reflexivity]. exfalso.
      rewrite append_nil_r in Hr'. rewrite Hs, Hr' in Hend.
      rewrite ends_nonspace_app_r in Hend by assumption.
      now rewrite blank_not_ends in Hend. }
    assert (Hrest_trim : trimmed rest = true).
    { unfold trimmed. apply andb_true_iff. split.
      - destruct rest; [discriminate|]. simpl. now rewrite Hrest.
      - rewrite Hs, Hr' in Hend.
        rewrite !ends_nonspace_app_r in Hend; auto.
        rewrite is_empty_app, Hwne. reflexivity. }
    destruct (IH rest) as (toks & Hsep); [|assumption|].
    + rewrite Hs, Hr' in Hlen. rewrite !string_length_app in Hlen.
      destruct t; [discriminate|]. simpl in Hlen. lia.
    + exists (t :: toks). rewrite Hs, Hr'. now constructor.
Qed.

Lemma Sep_exists (s : string) : trimmed s = true -> exists toks, Sep toks s.
Proof. apply (Sep_exists_bounded (String.length s)). lia. Qed.

(** The last character. *)

Lemma strip_last_app (c : ascii) (r : string) :
  strip_last c (r +++ String c "") = Some r.
Proof.
  induction r as [|a r IH]; simpl.
  - now rewrite Ascii.eqb_refl.
  - rewrite IH. destruct r; reflexivity.
Qed.

Lemma strip_last_inv (c : ascii) (s r : string) :
  strip_last c s = Some r -> s = r +++ String c "".
Proof.
  revert r. induction s as [|a s IH]; simpl; intros r H; [discriminate|].
  destruct s as [|b s'].
  - destruct (Ascii.eqb a c) eqn:Hac; [|discriminate].
    apply Ascii.eqb_eq in Hac. injection H as <-. now subst.
  - destruct (strip_last c (String b s')) as [r'|] eqn:Hr; [|discriminate].
    injection H as <-. simpl. f_equal. now apply IH.
Qed.

Lemma strip_last_other (c d : ascii) (r : string) :
  Ascii.eqb d c = false -> strip_last c (r +++ String d "") = None.
Proof.
  intros Hdc. induction r as [|a r IH]; simpl.
  - now rewrite Hdc.
  - rewrite IH. destruct r; reflexivity.
Qed.

Lemma split_last_app (z : ascii) (r : string) :
  split_last (r +++ String z "") = Some (r, z).
Proof.
  induction r as [|a r IH]; simpl; [reflexivity|].
  rewrite IH. destruct r; reflexivity.
Qed.

Lemma split_last_inv (s r : string) (z : ascii) :
  split_last s = Some (r, z) -> s = r +++ String z "".
Proof.
  revert r. induction s as [|a s IH]; simpl; intros r H; [discriminate|].
  destruct s as [|b s'].
  - now injection H as <- <-.
  - destruct (split_last (String b s')) as [[r' z']|] eqn:Hr; [|discriminate].
    injection H as <- <-. simpl. f_equal. now apply IH.
Qed.

Lemma app_inj_tail (a b : string) (c d : ascii) :
  a +++ String c "" = b +++ String d "" -> a = b /\ c = d.
Proof.
  intros H. assert (H' := split_last_app c a). rewrite H, split_last_app in H'.
  now injection H' as <- <-.
Qed.

(** The automaton. *)

Lemma prun_app (s : pstate) (a b : string) : prun s (a +++ b) = prun (prun s a) b.
Proof. revert s. induction a as [|c a IH]; intros s; simpl; [reflexivity | apply IH]. Qed.

Lemma prun_dead (l : string) : prun PDead l = PDead.
Proof. induction l; simpl; auto. Qed.

Lemma prun_brace (l : string) :
  prun PBrace l = match l with EmptyString => PBrace | _ => PDead end.
Proof. destruct l; simpl; [reflexivity | apply prun_dead]. Qed.

(** A run of white space acts as a single space does. *)
Lemma pstep_space_idem (s : pstate) (c d : ascii) :
  is_space c = true -> is_space d = true -> pstep (pstep s c) d = pstep s c.
Proof.
  intros Hc Hd.
  assert (Hc' : Ascii.eqb c ">" = false) by (destruct (Ascii.eqb_spec c ">"); [subst; discriminate | reflexivity]).
  assert (Hd' : Ascii.eqb d ">" = false) by (destruct (Ascii.eqb_spec d ">"); [subst; discriminate | reflexivity]).
  destruct s; simpl; rewrite ?Hc, ?Hc'; simpl; rewrite ?Hd, ?Hd'; reflexivity.
Qed.

Lemma pstep_space_same (s : pstate) (c d : ascii) :
  is_space c = true -> is_space d = true -> pstep s c = pstep s d.
Proof.
  intros Hc Hd.
  assert (Hc' : Ascii.eqb c ">" = false) by (destruct (Ascii.eqb_spec c ">"); [subst; discriminate | reflexivity]).
  assert (Hd' : Ascii.eqb d ">" = false) by (destruct (Ascii.eqb_spec d ">"); [subst; discriminate | reflexivity]).
  destruct s; simpl; rewrite ?Hc, ?Hc', ?Hd, ?Hd'; reflexivity.
Qed.

Lemma prun_blank (s : pstate) (c : ascii) (w : string) :
  is_space c = true -> blank w = true -> prun (pstep s c) w = pstep s c.
Proof.
  unfold blank. intros Hc. induction w as [|d w IH]; simpl; intros Hw; [reflexivity|].
  apply andb_true_iff in Hw as [Hd Hw].
  rewrite pstep_space_idem by assumption. now apply IH.
Qed.

Lemma prun_gap (s : pstate) (w : string) :
  is_empty w = false -> blank w = true -> prun s w = pstep s " ".
Proof.
  destruct w as [|c w]; [discriminate|]. unfold blank. simpl. intros _ Hw.
  apply andb_true_iff in Hw as [Hc Hw].
  rewrite prun_blank by assumption. now apply pstep_space_same.
Qed.

Lemma prun_Sep (toks : list string) (r : string) :
  Sep toks r -> forall s, prun s r = prun s (join " " toks).
Proof.
  induction 1 as [t Ht | t w toks r Ht Hne Hw Hsep IH]; intros s; [reflexivity|].
  assert (Hj : join " " (t :: toks) = t +++ " " +++ join " " toks).
  { destruct toks; [now apply Sep_nonempty in Hsep | reflexivity]. }
  rewrite Hj, !prun_app, IH. f_equal. now apply prun_gap.
Qed.

Lemma prun_name (a : string) :
  all_chars (fun c => negb (is_space c)) a = true -> prun PName a = PName.
Proof.
  induction a as [|c a IH]; simpl; intros H; [reflexivity|].
  apply andb_true_iff in H as [Hc Ha]. apply negb_true_iff in Hc.
  rewrite Hc. now apply IH.
Qed.

Lemma prun_body (a : string) :
  all_chars (fun c => negb (Ascii.eqb c ">")) a = true -> prun PBody a = PBody.
Proof.
  induction a as [|c a IH]; simpl; intros H; [reflexivity|].
  apply andb_true_iff in H as [Hc Ha]. apply negb_true_iff in Hc.
  rewrite Hc. now apply IH.
Qed.

(** The scan of [matchPatternBlock] and the automaton accept the same
    lines. *)
Lemma matchPatternBlock_accepts (line : string) :
  paccepts line = match matchPatternBlock line with Some _ => true | None => false end.
Proof.
  unfold paccepts, matchPatternBlock.
  destruct (span (fun c => negb (is_space c)) line) as [bt r1] eqn:H1.
  destruct (span_spec _ _ _ _ H1) as (-> & Hbt & Hr1).
  destruct bt as [|b bt].
  { simpl. destruct r1 as [|c r1]; [reflexivity|]. simpl.
    apply negb_false_iff in Hr1. now rewrite Hr1, prun_dead. }
  simpl in Hbt. apply andb_true_iff in Hbt as [Hb Hbt].
  cbn [is_empty]. cbn [append prun pstep]. apply negb_true_iff in Hb. rewrite Hb.
  rewrite prun_app, prun_name by assumption.
  destruct (span is_space r1) as [w1 r2] eqn:H2.
  destruct (span_spec _ _ _ _ H2) as (-> & Hw1 & Hr2).
  destruct w1 as [|x w1].
  { simpl in *. destruct r2 as [|c r2]; [reflexivity|].
    apply negb_false_iff in Hr1. congruence. }
  cbn [is_empty]. rewrite (prun_app PName (String x w1) r2).
  rewrite (prun_gap PName (String x w1) eq_refl Hw1). cbn [pstep is_space].
  change (is_space " ") with true. cbv iota.
  destruct r2 as [|c r3]; [reflexivity|].
  destruct (Ascii.eqb_spec c "<") as [-> | Hc].
  2:{ cbn [prun pstep]. rewrite Hr2.
      destruct (Ascii.eqb_spec c "<") as [| _]; [contradiction|].
      rewrite prun_dead.
      destruct c as [[] [] [] [] [] [] [] []]; try reflexivity. now elim Hc. }
  cbn [prun pstep is_space]. change (is_space "<") with false. cbv iota.
  change (Ascii.eqb "<" "<") with true. cbv iota.
  destruct (span (fun c => negb (Ascii.eqb c ">")) r3) as [body r4] eqn:H3.
  destruct (span_spec _ _ _ _ H3) as (-> & Hbody & Hr4).
  destruct body as [|y body].
  { simpl. destruct r4 as [|c r4]; [reflexivity|]. simpl.
    apply negb_false_iff in Hr4. now rewrite Hr4, prun_dead. }
  simpl in Hbody. apply andb_true_iff in Hbody as [Hy Hbody].
  cbn [is_empty append prun pstep]. apply negb_true_iff in Hy. rewrite Hy.
  rewrite prun_app, prun_body by assumption.
  destruct r4 as [|c r5]; [reflexivity|].
  apply negb_false_iff in Hr4. apply Ascii.eqb_eq in Hr4. subst c.
  cbn [prun pstep]. change (Ascii.eqb ">" ">") with true. cbv iota.
  destruct (span is_space r5) as [w2 r6] eqn:H4.
  destruct (span_spec _ _ _ _ H4) as (-> & Hw2 & Hr6).
  destruct w2 as [|z w2].
  { simpl. destruct r6 as [|c r6]; [reflexivity|]. simpl.
    now rewrite Hr6, prun_dead. }
  cbn [is_empty]. rewrite (prun_app PGt (String z w2) _).
  rewrite (prun_gap PGt (String z w2) eq_refl Hw2).
  cbn [pstep]. change (is_space " ") with true. cbv iota.
  destruct r6 as [|c r7]; [reflexivity|].
  cbn [prun pstep]. rewrite Hr6.
  destruct (String.eqb_spec (String c r7) "{") as [Heq | Hne].
  - injection Heq as -> ->. reflexivity.
  - destruct (Ascii.eqb_spec c "{") as [-> | Hc]; [|now rewrite prun_dead].
    rewrite prun_brace. destruct r7; [now elim Hne | reflexivity].
Qed.

Lemma matchPatternBlock_none (line : string) :
  paccepts line = false -> matchPatternBlock line = None.
Proof.
  rewrite matchPatternBlock_accepts. now destruct (matchPatternBlock line).
Qed.

Lemma paccepts_none (line : string) :
  matchPatternBlock line = None -> paccepts line = false.
Proof. rewrite matchPatternBlock_accepts. now intros ->. Qed.

(** A header that the pattern rule refuses is still refused once its white
    space is normalized. *)
Lemma matchPatternBlock_normalized (toks : list string) (h w : string) :
  Sep toks h -> is_empty w = false -> blank w = true ->
  matchPatternBlock (h +++ w +++ "{") = None ->
  matchPatternBlock (join " " toks +++ " {") = None.
Proof.
  intros Hsep Hne Hw Hnone. apply matchPatternBlock_none.
  apply paccepts_none in Hnone. unfold paccepts in *.
  rewrite !prun_app in Hnone. rewrite (prun_Sep _ _ Hsep), (prun_gap _ w Hne Hw) in Hnone.
  change " {" with (" " +++ "{"). now rewrite !prun_app.
Qed.

Lemma matchPatternBlock_semicolon (x : string) :
  matchPatternBlock (x +++ ";") = None.
Proof.
  apply matchPatternBlock_none. unfold paccepts. rewrite prun_app.
  now destruct (prun PStart x).
Qed.

Lemma prun_token (t : string) : is_token t = true -> prun PStart t = PName.
Proof.
  intros Ht. destruct (token_spec t Ht) as [Hne Hns].
  destruct t as [|c t]; [discriminate|]. unfold no_space in Hns. simpl in *.
  apply andb_true_iff in Hns as [Hc Hns]. apply negb_true_iff in Hc.
  rewrite Hc. now apply prun_name.
Qed.

Lemma matchPatternBlock_block (p : string) :
  is_token p = true -> matchPatternBlock (p +++ " {") = None.
Proof.
  intros Hp. apply matchPatternBlock_none. unfold paccepts.
  now rewrite prun_app, prun_token.
Qed.

Lemma no_char_all (c : ascii) (s : string) :
  no_char c s = all_chars (fun a => negb (Ascii.eqb a c)) s.
Proof.
  unfold no_char. induction s as [|a s IH]; simpl; [reflexivity|].
  rewrite negb_orb. now rewrite IH.
Qed.

Lemma matchPatternBlock_intro (t body : string) :
  is_token t = true -> is_empty body = false -> no_char ">" body = true ->
  matchPatternBlock (t +++ " " +++ ("<" +++ body +++ ">") +++ " {")
  = Some (t, "<" +++ body +++ ">").
Proof.
  intros Ht Hne Hbody. destruct (token_spec t Ht) as [Htne Hns].
  unfold matchPatternBlock.
  rewrite (span_app _ t) by (auto; reflexivity). rewrite Htne.
  replace (" " +++ ("<" +++ body +++ ">") +++ " {")
    with (" " +++ String "<" (body +++ ">" +++ " {"))
    by (simpl; now rewrite append_assoc).
  rewrite (span_app is_space " ") by (auto; reflexivity). cbn [is_empty].
  rewrite no_char_all in Hbody.
  rewrite (span_app _ body) by (auto; reflexivity). rewrite Hne.
  change (">" +++ " {") with (String ">" (" " +++ "{")). cbv iota.
  rewrite (span_app is_space " " "{") by (auto; reflexivity).
  reflexivity.
Qed.

Lemma matchPatternBlock_inv (line bt pat : string) :
  matchPatternBlock line = Some (bt, pat) ->
  is_token bt = true /\
  exists body w1 w2,
    pat = "<" +++ body +++ ">" /\ is_empty body = false /\
    no_char ">" body = true /\ line = bt +++ w1 +++ pat +++ w2 +++ "{".
Proof.
  unfold matchPatternBlock.
  destruct (span (fun c => negb (is_space c)) line) as [t r1] eqn:H1.
  destruct (span_spec _ _ _ _ H1) as (-> & Hbt & _).
  destruct (is_empty t) eqn:Ht; [discriminate|].
  destruct (span is_space r1) as [w1 r2] eqn:H2.
  destruct (span_spec _ _ _ _ H2) as (-> & _ & _).
  destruct (is_empty w1); [discriminate|].
  destruct r2 as [|c r3]; [discriminate|].
  destruct (Ascii.eqb_spec c "<") as [-> | Hc].
  2:{ destruct c as [[] [] [] [] [] [] [] []]; try discriminate. now elim Hc. }
  destruct (span (fun c => negb (Ascii.eqb c ">")) r3) as [body r4] eqn:H3.
  destruct (span_spec _ _ _ _ H3) as (-> & Hbody & Hr4).
  destruct (is_empty body) eqn:Hne; [discriminate|].
  destruct r4 as [|c r5]; [discriminate|].
  apply negb_false_iff in Hr4. apply Ascii.eqb_eq in Hr4. subst c.
  destruct (span is_space r5) as [w2 r6] eqn:H4.
  destruct (span_spec _ _ _ _ H4) as (-> & _ & _).
  destruct (is_empty w2); [discriminate|].
  destruct (String.eqb_spec r6 "{") as [-> |]; [|discriminate].
  intros H. injection H as <- <-. split.
  - unfold is_token, no_space. now rewrite Ht, Hbt.
  - exists body, w1, w2. rewrite no_char_all. repeat split; auto.
    simpl. now rewrite !append_assoc.
Qed.

(** The two other rules. *)

Lemma matchMultiWordBlock_inv (line g : string) :
  starts_nonspace line = true ->
  matchMultiWordBlock line = Some g ->
  trimmed (trim g) = true /\
  exists w, is_empty w = false /\ blank w = true /\ line = trim g +++ w +++ "{".
Proof.
  unfold matchMultiWordBlock. intros Hstart H.
  destruct (strip_last "{" line) as [b|] eqn:Hb; [|discriminate].
  apply strip_last_inv in Hb.
  destruct (split_last b) as [[c z]|] eqn:Hc; [|discriminate].
  apply split_last_inv in Hc.
  destruct (is_space z) eqn:Hz; [|discriminate]. simpl in H.
  destruct (span (fun a => negb (is_line_terminator a)) c) as [g' rest] eqn:Hg.
  destruct (span_spec _ _ _ _ Hg) as (Hceq & _ & _).
  destruct (is_empty g') eqn:Hne; [discriminate|].
  destruct (all_chars is_space rest) eqn:Hrest; [|discriminate].
  injection H as ->.
  assert (Hgs : starts_nonspace g = true).
  { subst line b c. destruct g; [discriminate | exact Hstart]. }
  destruct (trim_of_starts g Hgs) as (Htrim & w0 & Hw0 & Hgeq).
  split; [assumption|].
  exists (w0 +++ rest +++ String z "").
  repeat split.
  - rewrite !is_empty_app. simpl. now rewrite !andb_false_r.
  - unfold blank in *. rewrite !all_chars_app, Hw0, Hrest. simpl. now rewrite Hz.
  - subst line b c. rewrite Hgeq at 1. now rewrite !append_assoc.
Qed.

Lemma span_all (p : ascii -> bool) (s : string) :
  all_chars p s = true -> span p s = (s, "").
Proof.
  intros H. rewrite <- (append_nil_r s) at 1. now apply span_app.
Qed.

Lemma matchMultiWordBlock_intro (x : string) :
  is_empty x = false -> no_line_terminator x = true ->
  matchMultiWordBlock (x +++ " {") = Some x.
Proof.
  intros Hne Hx. unfold matchMultiWordBlock.
  replace (x +++ " {") with ((x +++ " ") +++ "{") by now rewrite append_assoc.
  rewrite strip_last_app, split_last_app. simpl.
  rewrite span_all by exact Hx. now rewrite Hne.
Qed.

Lemma matchMultiWordBlock_semicolon (x : string) :
  matchMultiWordBlock (x +++ ";") = None.
Proof. unfold matchMultiWordBlock. now rewrite strip_last_other. Qed.

Lemma matchLeaf_inv (line g : string) :
  matchLeaf line = Some g ->
  line = g +++ ";" /\ is_empty g = false /\ no_line_terminator g = true.
Proof.
  unfold matchLeaf. destruct (strip_last ";" line) as [g'|] eqn:Hg; [|discriminate].
  apply strip_last_inv in Hg.
  destruct (is_empty g') eqn:Hne; [discriminate|].
  destruct (no_line_terminator g') eqn:Hlt; [|discriminate].
  intros H. injection H as <-. auto.
Qed.

Lemma matchLeaf_intro (g : string) :
  is_empty g = false -> no_line_terminator g = true ->
  matchLeaf (g +++ ";") = Some g.
Proof.
  intros Hne Hg. unfold matchLeaf. now rewrite strip_last_app, Hne, Hg.
Qed.

(** Quotes and joins. *)

Lemma remove_char_app (c : ascii) (a b : string) :
  remove_char c (a +++ b) = remove_char c a +++ remove_char c b.
Proof.
  induction a as [|x a IH]; simpl; [reflexivity|].
  destruct (Ascii.eqb x c); simpl; now rewrite IH.
Qed.

Lemma remove_char_join (l : list string) :
  remove_char dquote (join " " l) = join " " (map (remove_char dquote) l).
Proof.
  induction l as [|x l IH]; [reflexivity|].
  destruct l as [|y l]; [reflexivity|].
  rewrite join_cons2, !remove_char_app, IH. reflexivity.
Qed.

Lemma remove_char_all (p : ascii -> bool) (c : ascii) (s : string) :
  all_chars p s = true -> all_chars p (remove_char c s) = true.
Proof.
  induction s as [|x s IH]; simpl; intros H; [reflexivity|].
  apply andb_true_iff in H as [Hx Hs].
  destruct (Ascii.eqb x c); simpl; [|rewrite Hx]; auto.
Qed.

Lemma remove_char_gone (c : ascii) (s : string) : no_char c (remove_char c s) = true.
Proof.
  unfold no_char. induction s as [|x s IH]; simpl; [reflexivity|].
  destruct (Ascii.eqb x c) eqn:Hx; simpl; [|rewrite Hx]; auto.
Qed.

Lemma remove_char_absent (c : ascii) (s : string) :
  no_char c s = true -> remove_char c s = s.
Proof.
  unfold no_char. induction s as [|x s IH]; simpl; intros H; [reflexivity|].
  apply negb_true_iff in H. apply orb_false_iff in H as [Hx Hs].
  rewrite Hx. f_equal. apply IH. now rewrite Hs.
Qed.

Lemma no_space_no_blank (s : string) :
  no_space s = true -> includes_char " " s = false.
Proof.
  unfold no_space. induction s as [|x s IH]; simpl; intros H; [reflexivity|].
  apply andb_true_iff in H as [Hx Hs]. rewrite (IH Hs), orb_false_r.
  destruct (Ascii.eqb_spec x " ") as [-> |]; [discriminate | reflexivity].
Qed.

(** ** What the parser builds *)

Lemma headerNode_WF (line g : string) (body : list node) :
  starts_nonspace line = true ->
  matchPatternBlock line = None ->
  matchMultiWordBlock line = Some g ->
  Forall WF body ->
  WF (headerNode g body).
Proof.
  intros Hstart Hpat Hmulti Hbody.
  destruct (matchMultiWordBlock_inv line g Hstart Hmulti)
    as (Htrim & w & Hne & Hw & Hline).
  destruct (Sep_exists _ Htrim) as (toks & Hsep).
  unfold headerNode. rewrite (split_ws_Sep _ _ Hsep).
  assert (Htoks := Sep_tokens _ _ Hsep).
  destruct toks as [|t [|t2 rest]].
  - now apply Sep_nonempty in Hsep.
  - constructor; [now inversion Htoks | assumption].
  - pose proof (Forall_inv Htoks) as Ht. pose proof (Forall_inv_tail Htoks) as Hrest.
    cbn [hd tl]. unfold createNode. constructor; auto; [discriminate|].
    rewrite Hline in Hpat.
    apply (matchPatternBlock_normalized _ _ _ Hsep Hne Hw) in Hpat.
    rewrite join_cons2, !append_assoc in Hpat. exact Hpat.
Qed.

Lemma leafNode_WF (line g : string) :
  starts_nonspace line = true ->
  matchLeaf line = Some g ->
  WF (leafNode g).
Proof.
  intros Hstart Hleaf.
  destruct (matchLeaf_inv line g Hleaf) as (Hline & Hne & Hlt).
  assert (Hgs : starts_nonspace g = true).
  { subst line. destruct g; [discriminate | exact Hstart]. }
  destruct (trim_of_starts g Hgs) as (Htrim & w0 & Hw0 & Hgeq).
  assert (Hslt : no_line_terminator (trim g) = true).
  { unfold no_line_terminator in *. rewrite Hgeq, all_chars_app in Hlt.
    now apply andb_true_iff in Hlt as [-> _]. }
  unfold leafNode.
  destruct (includes_char " " (trim g)) eqn:Hsp.
  - destruct (Sep_exists _ Htrim) as (toks & Hsep).
    rewrite (split_ws_Sep _ _ Hsep).
    assert (Htoks := Sep_tokens _ _ Hsep).
    destruct toks as [|t [|t2 rest]].
    + now apply Sep_nonempty in Hsep.
    + inversion Hsep; subst.
      * match goal with H : is_token _ = true |- _ =>
          destruct (token_spec _ H) as [_ Hns] end.
        apply no_space_no_blank in Hns. congruence.
      * match goal with H : Sep [] _ |- _ => now apply Sep_nonempty in H end.
    + pose proof (Forall_inv Htoks) as Ht. pose proof (Forall_inv_tail Htoks) as Hrest.
      cbn [hd tl]. unfold createNode. rewrite remove_char_join.
      constructor; auto; [discriminate|].
      apply Forall_map. eapply Forall_impl; [|exact Hrest].
      intros x Hx. destruct (token_spec x Hx) as [_ Hns]. split.
      * now apply remove_char_all.
      * apply remove_char_gone.
  - unfold createNode. constructor; auto.
    unfold no_char. now rewrite Hsp.
Qed.

Lemma parseBlock_WF (fuel : nat) (lines : list string) :
  Forall (fun l => trimmed l = true /\ no_char LF l = true) lines ->
  forall i cs k w,
    parseBlock fuel lines i = Some (cs, k, w) -> Forall WF cs.
Proof.
  intros Hlines. induction fuel as [|fuel IH]; intros i cs k w H; [discriminate|].
  simpl in H.
  destruct (nth_error lines i) as [line|] eqn:Hnth.
  2:{ injection H as <- _ _. constructor. }
  assert (Hline : trimmed line = true /\ no_char LF line = true).
  { rewrite Forall_forall in Hlines. apply Hlines. eapply nth_error_In; eauto. }
  destruct Hline as [Htrim Hlf].
  assert (Hstart : starts_nonspace line = true).
  { unfold trimmed in Htrim. now apply andb_true_iff in Htrim as [-> _]. }
  destruct (String.eqb line "}").
  { injection H as <- _ _. constructor. }
  destruct (matchPatternBlock line) as [[bt pat]|] eqn:Hpat.
  { destruct (parseBlock fuel lines (i + 1)) as [[[body j] w1]|] eqn:Hbody; [|discriminate].
    destruct (parseBlock fuel lines j) as [[[rest k'] w2]|] eqn:Hrest; [|discriminate].
    injection H as <- _ _. constructor; [|eauto].
    destruct (matchPatternBlock_inv _ _ _ Hpat)
      as (Hbt & b & w1' & w2' & -> & Hne & Hgt & Heq).
    unfold createNode. constructor; eauto.
    rewrite Heq in Hlf. rewrite !no_char_all, !all_chars_app in Hlf.
    rewrite no_char_all.
    apply andb_true_iff in Hlf as [_ Hlf]. apply andb_true_iff in Hlf as [_ Hlf].
    apply andb_true_iff in Hlf as [Hlf _]. apply andb_true_iff in Hlf as [_ Hlf].
    now apply andb_true_iff in Hlf as [Hlf _]. }
  destruct (matchMultiWordBlock line) as [g|] eqn:Hmulti.
  { destruct (parseBlock fuel lines (i + 1)) as [[[body j] w1]|] eqn:Hbody; [|discriminate].
    destruct (parseBlock fuel lines j) as [[[rest k'] w2]|] eqn:Hrest; [|discriminate].
    injection H as <- _ _. constructor; [|eauto].
    eapply headerNode_WF; eauto. }
  destruct (matchLeaf line) as [g|] eqn:Hleaf.
  { destruct (parseBlock fuel lines (i + 1)) as [[[rest k'] w1]|] eqn:Hrest; [|discriminate].
    injection H as <- _ _. constructor; [|eauto].
    eapply leafNode_WF; eauto. }
  destruct (parseBlock fuel lines (i + 1)) as [[[rest k'] w1]|] eqn:Hrest; [|discriminate].
  injection H as <- _ _. eauto.
Qed.

(** The preprocessed lines. *)

Lemma split_char_no_sep (sep : ascii) (s : string) :
  Forall (fun l => no_char sep l = true) (split_char sep s).
Proof.
  induction s as [|c s IH]; simpl.
  - now constructor.
  - destruct (Ascii.eqb c sep) eqn:Hc.
    + constructor; [reflexivity | assumption].
    + destruct (split_char sep s) as [|h t]; constructor; try constructor.
      * unfold no_char. simpl. now rewrite Hc.
      * inversion IH; subst. unfold no_char in *. simpl. now rewrite Hc.
      * now inversion IH.
Qed.

Lemma strip_comment_prefix (s : string) : exists r, s = strip_comment s +++ r.
Proof.
  induction s as [|c s (r & IH)]; simpl; [now exists ""|].
  destruct (Ascii.eqb c "#" && no_line_terminator s).
  - now exists (String c s).
  - exists r. simpl. now rewrite <- IH.
Qed.

Lemma strip_comment_clean (s : string) : no_char "#" s = true -> strip_comment s = s.
Proof.
  unfold no_char. induction s as [|c s IH]; simpl; intros H; [reflexivity|].
  apply negb_true_iff in H. apply orb_false_iff in H as [Hc Hs].
  rewrite Hc. simpl. f_equal. apply IH. now rewrite Hs.
Qed.

Lemma trim_result (s : string) : trim s = "" \/ trimmed (trim s) = true.
Proof.
  unfold trim. destruct (ltrim_result s) as [-> | H]; [now left|].
  right. destruct (trim_of_starts _ H) as [Ht _]. unfold trim in Ht.
  now rewrite (ltrim_starts _ H) in Ht.
Qed.

Lemma trim_no_char (c : ascii) (s : string) :
  no_char c s = true -> no_char c (trim s) = true.
Proof.
  intros H. unfold trim.
  destruct (ltrim_suffix s) as (w1 & _ & H1).
  destruct (rtrim_suffix (ltrim s)) as (w2 & _ & H2 & _).
  rewrite H1, H2 in H. rewrite !no_char_app in H.
  apply andb_true_iff in H as [_ H]. now apply andb_true_iff in H as [H _].
Qed.

Lemma preprocess_lines (config : string) :
  Forall (fun l => trimmed l = true /\ no_char LF l = true) (preprocess config).
Proof.
  unfold preprocess. apply Forall_forall. intros l Hl.
  apply filter_In in Hl as [Hin Hne]. apply in_map_iff in Hin as (raw & <- & Hraw).
  assert (Hlf : no_char LF raw = true).
  { pose proof (split_char_no_sep LF config) as H. rewrite Forall_forall in H. auto. }
  unfold preprocess_line in *. split.
  - destruct (trim_result (strip_comment raw)) as [H | H]; [|assumption].
    rewrite H in Hne. discriminate.
  - apply trim_no_char. destruct (strip_comment_prefix raw) as (r & Hr).
    rewrite Hr, no_char_app in Hlf. now apply andb_true_iff in Hlf as [-> _].
Qed.

(** Every node of a parse has the shape of its rule. *)
Lemma parse_WF (config : string) (t : node) (w : list warning) :
  parseJuniperConfig config = Some (t, w) ->
  exists cs, t = mkNode "root" None None cs /\ Forall WF cs.
Proof.
  unfold parseJuniperConfig. intros H.
  destruct (parseBlock _ _ 0) as [[[cs k] w']|] eqn:Hp; [|discriminate].
  injection H as <- _. exists cs. split; [reflexivity|].
  eapply parseBlock_WF; [apply preprocess_lines | exact Hp].
Qed.

(** ** The serializer, line by line *)

Lemma join_cons_ne (s x : string) (l : list string) :
  l <> [] -> join s (x :: l) = x +++ s +++ join s l.
Proof. destruct l; [congruence | reflexivity]. Qed.

Lemma join_app (s : string) (l1 l2 : list string) :
  l1 <> [] -> l2 <> [] -> join s (l1 ++ l2) = join s l1 +++ s +++ join s l2.
Proof.
  induction l1 as [|x l1 IH]; intros H1 H2; [congruence|].
  destruct l1 as [|y l1].
  - simpl app. now rewrite join_cons_ne.
  - change ((x :: y :: l1) ++ l2) with (x :: (y :: l1) ++ l2).
    rewrite join_cons_ne by discriminate.
    rewrite IH by (auto; discriminate).
    rewrite join_cons2. now rewrite !append_assoc.
Qed.

Lemma join_flat (A : Type) (s : string) (f : A -> list string) (cs : list A) :
  (forall c, In c cs -> f c <> []) ->
  join s (map (fun c => join s (f c)) cs) = join s (flat_map f cs).
Proof.
  induction cs as [|c cs IH]; intros H; [reflexivity|].
  destruct cs as [|c' cs].
  - simpl. now rewrite app_nil_r.
  - cbn [map flat_map]. rewrite join_cons2.
    change (join s (f c') :: map (fun c0 => join s (f c0)) cs)
      with (map (fun c0 => join s (f c0)) (c' :: cs)).
    rewrite IH by (intros; apply H; now right).
    change (f c' ++ flat_map f cs) with (flat_map f (c' :: cs)).
    rewrite join_app; [reflexivity | apply H; now left |].
    cbn [flat_map]. intros Hnil. apply app_eq_nil in Hnil as [Hnil _].
    apply (H c'); [right; now left | assumption].
Qed.

Lemma map_flat_map (A B C : Type) (f : B -> C) (g : A -> list B) (l : list A) :
  map f (flat_map g l) = flat_map (fun x => map f (g x)) l.
Proof.
  induction l as [|x l IH]; simpl; [reflexivity|]. now rewrite map_app, IH.
Qed.

Lemma is_empty_join (s x : string) (l : list string) :
  is_empty x = false -> is_empty (join s (x :: l)) = false.
Proof.
  intros Hx. destruct l; [exact Hx|]. rewrite join_cons2, is_empty_app, Hx. reflexivity.
Qed.

(** The first line of a node. *)
Lemma nodeLines_head (n : node) (k : nat) :
  WF n -> exists core rest, nodeLines n k = (k, core) :: rest /\ is_empty core = false.
Proof.
  intros H. inversion H; subst; cbn [nodeLines String.eqb Ascii.eqb Bool.eqb orb];
    eexists; eexists; (split; [reflexivity|]);
    cbn [show]; rewrite ?is_empty_app; cbn [is_empty]; rewrite ?andb_false_r; reflexivity.
Qed.

Lemma nodeLines_nonempty (n : node) (k : nat) : WF n -> nodeLines n k <> [].
Proof.
  intros H. destruct (nodeLines_head n k H) as (c & r & -> & _). discriminate.
Qed.

Lemma is_empty_render (k : nat) (core : string) :
  is_empty core = false -> is_empty (render (k, core)) = false.
Proof.
  intros H. unfold render. cbn [fst snd]. rewrite is_empty_app, H. apply andb_false_r.
Qed.

Lemma children_text (cs : list node) (k : nat) :
  Forall WF cs ->
  Forall (fun c => WF c -> forall k,
            nodeToConfig c k = join nl (map render (nodeLines c k))) cs ->
  join nl (map (fun child => nodeToConfig child k) cs)
  = join nl (map render (flat_map (fun child => nodeLines child k) cs))
  /\ is_empty (join nl (map (fun child => nodeToConfig child k) cs))
     = match cs with [] => true | _ => false end.
Proof.
  intros Hwf IH.
  assert (Heq : map (fun child => nodeToConfig child k) cs
                = map (fun c => join nl (map render (nodeLines c k))) cs).
  { apply map_ext_in. intros c Hc. rewrite Forall_forall in Hwf, IH. auto. }
  rewrite Heq, map_flat_map.
  rewrite (join_flat node nl (fun c => map render (nodeLines c k))).
  2:{ intros c Hc Hnil. apply map_eq_nil in Hnil. rewrite Forall_forall in Hwf.
      now apply (nodeLines_nonempty c k (Hwf c Hc)). }
  split; [reflexivity|].
  destruct cs as [|c cs]; [reflexivity|].
  cbn [flat_map]. inversion Hwf; subst.
  destruct (nodeLines_head c k) as (core & rest & -> & Hne); [assumption|].
  cbn [map app]. apply is_empty_join. now apply is_empty_render.
Qed.

Lemma render_eq (k : nat) (core : string) :
  render (k, core) = repeat_str "    " k +++ core.
Proof. reflexivity. Qed.

Lemma block_text (ind header : string) (body : list string) :
  (ind +++ header +++ nl)
  +++ (if match body with [] => true | _ => false end then ""
       else join nl body +++ nl)
  +++ (ind +++ "}")
  = join nl ((ind +++ header) :: body ++ [ind +++ "}"]).
Proof.
  destruct body as [|l body].
  - simpl. now rewrite !append_assoc.
  - rewrite (join_cons_ne nl (ind +++ header) ((l :: body) ++ [ind +++ "}"]))
      by (cbn; discriminate).
    rewrite join_app by discriminate.
    cbn [join concat]. now rewrite !append_assoc.
Qed.

(** [nodeToConfig] joins the lines of the node. *)
Lemma nodeToConfig_lines (n : node) :
  WF n -> forall k, nodeToConfig n k = join nl (map render (nodeLines n k)).
Proof.
  induction n as [t x v cs IH] using node_ind'. intros Hwf k.
  inversion Hwf; subst.
  - destruct (children_text cs (k + 1)) as [Htext Hempty]; auto.
    cbn [nodeToConfig nodeLines String.eqb Ascii.eqb Bool.eqb orb show].
    rewrite Hempty, Htext, map_cons, map_app. cbn [map]. rewrite !render_eq, <- block_text.
    destruct cs; [cbn [flat_map map]; now rewrite ?append_assoc|].
    destruct (map render _) eqn:Hm; [|now rewrite ?append_assoc].
    exfalso. apply map_eq_nil in Hm. cbn [flat_map] in Hm.
    apply app_eq_nil in Hm as [Hm _].
    match goal with H : Forall WF (_ :: _) |- _ => inversion H; subst end.
    now apply (nodeLines_nonempty n (k + 1)) in Hm.
  - destruct (children_text cs (k + 1)) as [Htext Hempty]; auto.
    cbn [nodeToConfig nodeLines String.eqb Ascii.eqb Bool.eqb orb show].
    rewrite Hempty, Htext, map_cons, map_app. cbn [map]. rewrite !render_eq, <- block_text.
    destruct cs; [cbn [flat_map map]; now rewrite ?append_assoc|].
    destruct (map render _) eqn:Hm; [|now rewrite ?append_assoc].
    exfalso. apply map_eq_nil in Hm. cbn [flat_map] in Hm.
    apply app_eq_nil in Hm as [Hm _].
    match goal with H : Forall WF (_ :: _) |- _ => inversion H; subst end.
    now apply (nodeLines_nonempty n (k + 1)) in Hm.
  - destruct (children_text cs (k + 1)) as [Htext Hempty]; auto.
    cbn [nodeToConfig nodeLines String.eqb Ascii.eqb Bool.eqb orb show].
    rewrite Hempty, Htext, map_cons, map_app. cbn [map]. rewrite !render_eq, <- block_text.
    destruct cs; [cbn [flat_map map]; now rewrite ?append_assoc|].
    destruct (map render _) eqn:Hm; [|now rewrite ?append_assoc].
    exfalso. apply map_eq_nil in Hm. cbn [flat_map] in Hm.
    apply app_eq_nil in Hm as [Hm _].
    match goal with H : Forall WF (_ :: _) |- _ => inversion H; subst end.
    now apply (nodeLines_nonempty n (k + 1)) in Hm.
  - reflexivity.
  - reflexivity.
Qed.

(** Each line, once preprocessed, is its text after the indentation. *)

Lemma all_chars_join (p : ascii -> bool) (l : list string) :
  p " "%char = true -> Forall (fun x => all_chars p x = true) l ->
  all_chars p (join " " l) = true.
Proof.
  intros Hp. induction 1 as [|x l Hx Hl IH]; [reflexivity|].
  destruct l as [|y l]; [exact Hx|].
  rewrite join_cons2, !all_chars_app, Hx, IH. simpl. now rewrite Hp.
Qed.

Lemma no_space_no_LF (s : string) : no_space s = true -> no_char LF s = true.
Proof.
  rewrite no_char_all. apply all_chars_weaken. intros c Hc.
  destruct (Ascii.eqb_spec c LF) as [-> |]; [discriminate | reflexivity].
Qed.

Lemma no_line_terminator_no_LF (s : string) :
  no_line_terminator s = true -> no_char LF s = true.
Proof.
  rewrite no_char_all. apply all_chars_weaken. intros c Hc.
  destruct (Ascii.eqb_spec c LF) as [-> |]; [discriminate | reflexivity].
Qed.

Lemma tokens_no_LF (l : list string) :
  Forall (fun x => no_space x = true) l -> no_char LF (join " " l) = true.
Proof.
  intros H. rewrite no_char_all. apply all_chars_join; [reflexivity|].
  eapply Forall_impl; [|exact H]. intros x Hx.
  rewrite <- no_char_all. now apply no_space_no_LF.
Qed.

Lemma tokens_no_line_terminator (l : list string) :
  Forall (fun x => no_space x = true) l -> no_line_terminator (join " " l) = true.
Proof.
  intros H. apply all_chars_join; [reflexivity|].
  eapply Forall_impl; [|exact H]. intros x Hx.
  now apply no_space_no_line_terminator.
Qed.

Lemma core_ok_brace : core_ok "}".
Proof. repeat split. Qed.

Lemma core_ok_app (a b : string) :
  starts_nonspace a = true -> ends_nonspace b = true ->
  no_char LF (a +++ b) = true -> no_char "#" (a +++ b) = true ->
  core_ok (a +++ b).
Proof.
  intros Ha Hb Hlf Hh. repeat split; auto. unfold trimmed.
  now rewrite starts_nonspace_app, ends_nonspace_app.
Qed.

Lemma clean_unfold (t : string) (x v : option string) (cs : list node) :
  clean (mkNode t x v cs) = true ->
  no_hash x = true /\ no_hash v = true
  /\ (if String.eqb t "directive" then full_words v else true) = true
  /\ Forall (fun c => clean c = true) cs.
Proof.
  cbn [clean]. intros H.
  apply andb_true_iff in H as [H Hcs]. apply andb_true_iff in H as [H Hd].
  apply andb_true_iff in H as [Hx Hv]. repeat split; auto.
  apply Forall_forall. now apply forallb_forall.
Qed.

Lemma tokens_weaken (l : list string) :
  Forall (fun x => is_token x = true) l -> Forall (fun x => no_space x = true) l.
Proof.
  apply Forall_impl. intros x Hx. now destruct (token_spec x Hx).
Qed.

Lemma nodeLines_ok (n : node) :
  WF n -> clean n = true ->
  forall k, Forall (fun l => core_ok (snd l)) (nodeLines n k).
Proof.
  induction n as [t x v cs IH] using node_ind'. intros Hwf Hclean k.
  apply clean_unfold in Hclean as (Hx & Hv & Hd & Hcs).
  assert (Hchildren : Forall WF cs ->
            Forall (fun l => core_ok (snd l))
                   (flat_map (fun child => nodeLines child (k + 1)) cs)).
  { intros Hwfs. apply Forall_flat_map. rewrite Forall_forall in *.
    intros c Hc. apply IH; auto. }
  inversion Hwf; subst; cbn [nodeLines String.eqb Ascii.eqb Bool.eqb orb show];
    cbn [no_hash] in Hx, Hv.
  - constructor; [|apply Forall_app; split; [auto | constructor; [apply core_ok_brace | constructor]]].
    cbn [snd]. destruct (token_spec p) as [_ Hns]; [assumption|].
    apply core_ok_app; auto using token_starts.
    + now rewrite no_char_app, no_space_no_LF.
    + now rewrite no_char_app, Hx.
  - constructor; [|apply Forall_app; split; [auto | constructor; [apply core_ok_brace | constructor]]].
    cbn [snd]. destruct (token_spec t0) as [_ Hns]; [assumption|].
    apply core_ok_app; auto using token_starts.
    + apply ends_nonspace_app, ends_nonspace_app. reflexivity.
    + rewrite !no_char_app, no_space_no_LF, tokens_no_LF; auto using tokens_weaken.
    + now rewrite !no_char_app, Hx, Hv.
  - constructor; [|apply Forall_app; split; [auto | constructor; [apply core_ok_brace | constructor]]].
    cbn [snd]. destruct (token_spec t0) as [_ Hns]; [assumption|].
    apply core_ok_app; auto using token_starts.
    + apply ends_nonspace_app, ends_nonspace_app. reflexivity.
    + rewrite !no_char_app, no_space_no_LF by assumption.
      change (String "<" (body +++ ">")) with ("<" +++ body +++ ">").
      rewrite !no_char_app.
      match goal with H : no_char LF body = true |- _ => rewrite H end. reflexivity.
    + now rewrite !no_char_app, Hx, Hv.
  - constructor; [|constructor].
    cbn [snd]. destruct (token_spec t0) as [_ Hns]; [assumption|].
    apply core_ok_app; auto using token_starts.
    + apply ends_nonspace_app, ends_nonspace_app. reflexivity.
    + rewrite !no_char_app, no_space_no_LF, tokens_no_LF; auto.
      eapply Forall_impl; [|eassumption]. now intros a [Ha _].
    + now rewrite !no_char_app, Hx, Hv.
  - constructor; [|constructor].
    cbn [snd]. apply core_ok_app.
    + match goal with H : trimmed s = true |- _ =>
        unfold trimmed in H; now apply andb_true_iff in H as [-> _] end.
    + reflexivity.
    + now rewrite no_char_app, no_line_terminator_no_LF.
    + now rewrite no_char_app, Hx.
Qed.

Lemma indent_blank (k : nat) : blank (repeat_str "    " k) = true.
Proof. unfold blank. induction k as [|k IH]; [reflexivity|]. simpl. exact IH. Qed.

Lemma indent_no_char (c : ascii) (k : nat) :
  Ascii.eqb " " c = false -> no_char c (repeat_str "    " k) = true.
Proof.
  intros Hc. induction k as [|k IH]; [reflexivity|].
  cbn [repeat_str]. rewrite no_char_app, IH, andb_true_r.
  unfold no_char. cbn [includes_char]. now rewrite Hc.
Qed.

Lemma preprocess_render (l : nat * string) :
  core_ok (snd l) -> preprocess_line (render l) = snd l.
Proof.
  destruct l as [k core]. intros (Htrim & _ & Hhash). cbn [snd] in *.
  unfold preprocess_line, render. cbn [fst snd].
  rewrite strip_comment_clean
    by (rewrite no_char_app, Hhash, indent_no_char; reflexivity).
  rewrite <- (append_nil_r core) at 1.
  apply trim_pad; auto using indent_blank.
Qed.

Lemma render_no_LF (l : nat * string) :
  core_ok (snd l) -> no_char LF (render l) = true.
Proof.
  destruct l as [k core]. intros (_ & Hlf & _). cbn [snd] in *.
  unfold render. cbn [fst snd]. now rewrite no_char_app, Hlf, indent_no_char.
Qed.

(** [split] undoes [join]. *)

Lemma split_char_one (sep : ascii) (a : string) :
  no_char sep a = true -> split_char sep a = [a].
Proof.
  unfold no_char. induction a as [|c a IH]; simpl; intros H; [reflexivity|].
  apply negb_true_iff in H. apply orb_false_iff in H as [Hc Ha].
  rewrite Hc, IH by now rewrite Ha. reflexivity.
Qed.

Lemma split_char_app (sep : ascii) (a b : string) :
  no_char sep a = true ->
  split_char sep (a +++ String sep b) = a :: split_char sep b.
Proof.
  unfold no_char. induction a as [|c a IH]; simpl; intros H.
  - now rewrite Ascii.eqb_refl.
  - apply negb_true_iff in H. apply orb_false_iff in H as [Hc Ha].
    rewrite Hc, IH by now rewrite Ha. reflexivity.
Qed.

Lemma split_join (sep : ascii) (l : list string) :
  l <> [] -> Forall (fun x => no_char sep x = true) l ->
  split_char sep (join (String sep "") l) = l.
Proof.
  intros Hne H. induction H as [|x l Hx Hl IH]; [congruence|].
  destruct l as [|y l].
  - now apply split_char_one.
  - rewrite join_cons2. change (String sep "" +++ join (String sep "") (y :: l))
      with (String sep (join (String sep "") (y :: l))).
    rewrite split_char_app by assumption. f_equal. apply IH. discriminate.
Qed.

Lemma preprocess_text (ls : list (nat * string)) :
  Forall (fun l => core_ok (snd l)) ls ->
  preprocess (join nl (map render ls)) = map snd ls.
Proof.
  intros H. unfold preprocess. destruct ls as [|l ls]; [reflexivity|].
  unfold nl. rewrite split_join.
  - rewrite map_map.
    rewrite (map_ext_in _ snd)
      by (intros a Ha; rewrite Forall_forall in H; now apply preprocess_render, H).
    apply forallb_filter_id. apply forallb_forall. intros s Hs.
    apply in_map_iff in Hs as (a & <- & Ha). rewrite Forall_forall in H.
    destruct (H a Ha) as (Htrim & _). now rewrite trimmed_nonempty.
  - discriminate.
  - apply Forall_map. eapply Forall_impl; [|exact H].
    intros a Ha. now apply render_no_LF.
Qed.

(** ** Reading the serialized lines back *)

Lemma not_brace (a b : string) :
  is_empty a = false -> is_empty b = false -> String.eqb (a +++ b) "}" = false.
Proof.
  destruct a as [|c a]; [discriminate|]. intros _ Hb.
  apply String.eqb_neq. intros H. injection H as _ H.
  destruct a; simpl in H; [subst b|]; discriminate.
Qed.

Lemma coreLines_cons (d : nat) (n : node) (cs : list node) :
  coreLines d (n :: cs) = map snd (nodeLines n d) ++ coreLines d cs.
Proof. unfold coreLines. cbn [flat_map]. apply map_app. Qed.

Lemma reparses_nil : reparses [].
Proof.
  intros d fuel lines pre post -> Hpost Hfuel.
  destruct fuel as [|fuel]; [lia|]. cbn [coreLines flat_map map app parseBlock].
  rewrite nth_error_app2, Nat.sub_diag by lia.
  destruct Hpost as [-> | (rest & ->)]; cbn [nth_error closing length].
  - do 3 f_equal. lia.
  - rewrite String.eqb_refl. do 3 f_equal. lia.
Qed.

(** One line, one node: the leaves. *)
Lemma reparses_leaf (n : node) (line g : string) (cs : list node) :
  (forall d, nodeLines n d = [(d, line)]) ->
  String.eqb line "}" = false ->
  matchPatternBlock line = None ->
  matchMultiWordBlock line = None ->
  matchLeaf line = Some g ->
  leafNode g = n ->
  reparses cs -> reparses (n :: cs).
Proof.
  intros Hlines Hb Hp Hm Hl Hn Hcs d fuel lines pre post Heq Hpost Hfuel.
  rewrite coreLines_cons, Hlines in *. cbn [map snd app length] in *.
  destruct fuel as [|fuel]; [lia|]. cbn [parseBlock].
  assert (Hnth : nth_error lines (length pre) = Some line).
  { rewrite Heq, nth_error_app2, Nat.sub_diag by lia. reflexivity. }
  rewrite Hnth, Hb, Hp, Hm, Hl.
  replace (length pre + 1) with (length (pre ++ [line]))
    by (rewrite length_app; reflexivity).
  rewrite (Hcs d fuel lines (pre ++ [line]) post); auto.
  - rewrite Hn, length_app. cbn [length]. do 3 f_equal. lia.
  - rewrite Heq, <- app_assoc. reflexivity.
  - lia.
Qed.

(** A header, a body, a closing brace: the blocks. *)
Lemma reparses_block (n : node) (header : string) (body cs : list node)
    (build : list node -> node) :
  (forall d, nodeLines n d
             = (d, header) :: flat_map (fun c => nodeLines c (d + 1)) body
               ++ [(d, "}")]) ->
  String.eqb header "}" = false ->
  (forall fuel lines i,
      nth_error lines i = Some header ->
      String.eqb header "}" = false ->
      forall b j w1 rest k w2,
        parseBlock fuel lines (i + 1) = Some (b, j, w1) ->
        parseBlock fuel lines j = Some (rest, k, w2) ->
        parseBlock (S fuel) lines i = Some (build b :: rest, k, w1 ++ w2)) ->
  build body = n ->
  reparses body -> reparses cs -> reparses (n :: cs).
Proof.
  intros Hlines Hb Hstep Hn Hbody Hcs d fuel lines pre post Heq Hpost Hfuel.
  rewrite coreLines_cons, Hlines in *.
  cbn [map snd app] in *. rewrite map_app in *. cbn [map snd] in *.
  fold (coreLines (d + 1) body) in *.
  cbn [length] in Hfuel. rewrite !length_app in Hfuel. cbn [length] in Hfuel.
  destruct fuel as [|fuel]; [lia|].
  assert (Hnth : nth_error lines (length pre) = Some header).
  { rewrite Heq, nth_error_app2, Nat.sub_diag by lia. reflexivity. }
  assert (H1 : parseBlock fuel lines (length pre + 1)
               = Some (body, length pre + 1 + length (coreLines (d + 1) body) + 1, [])).
  { replace (length pre + 1) with (length (pre ++ [header]))
      by (rewrite length_app; reflexivity).
    rewrite (Hbody (d + 1) fuel lines (pre ++ [header])
                   ("}" :: coreLines d cs ++ post)).
    - reflexivity.
    - rewrite Heq. rewrite <- !app_assoc. reflexivity.
    - right. eauto.
    - cbn [length]. rewrite length_app. lia. }
  assert (H2 : parseBlock fuel lines
                 (length pre + 1 + length (coreLines (d + 1) body) + 1)
               = Some (cs, length pre + 1 + length (coreLines (d + 1) body) + 1
                           + length (coreLines d cs) + closing post, [])).
  { replace (length pre + 1 + length (coreLines (d + 1) body) + 1)
      with (length (pre ++ header :: coreLines (d + 1) body ++ ["}"]))
      by (rewrite length_app; cbn [length]; rewrite length_app; cbn [length]; lia).
    rewrite (Hcs d fuel lines (pre ++ header :: coreLines (d + 1) body ++ ["}"]) post).
    - reflexivity.
    - rewrite Heq. rewrite <- !app_assoc. cbn [app]. rewrite <- !app_assoc. reflexivity.
    - assumption.
    - lia. }
  rewrite (Hstep fuel lines (length pre) Hnth Hb _ _ _ _ _ _ H1 H2).
  rewrite Hn. cbn [length app]. rewrite !length_app. cbn [length].
  do 3 f_equal. lia.
Qed.

(** What the rules build from a normalized line. *)

Lemma headerNode_block (p : string) (body : list node) :
  is_token p = true -> headerNode p body = mkNode "block" (Some p) None body.
Proof.
  intros Hp. unfold headerNode.
  rewrite trim_trimmed by now apply token_trimmed.
  now rewrite (split_ws_Sep [p] p (Sep_one p Hp)).
Qed.

Lemma Sep_header (t : string) (toks : list string) :
  is_token t = true -> Forall (fun x => is_token x = true) toks ->
  Sep (t :: toks) (join " " (t :: toks)).
Proof. intros Ht Htoks. apply Sep_join; [now constructor | discriminate]. Qed.

Lemma join_header (t : string) (toks : list string) :
  toks <> [] -> join " " (t :: toks) = t +++ " " +++ join " " toks.
Proof. apply join_cons_ne. Qed.

Lemma headerNode_named (t : string) (toks : list string) (body : list node) :
  is_token t = true -> toks <> [] -> Forall (fun x => is_token x = true) toks ->
  headerNode (t +++ " " +++ join " " toks) body
  = mkNode "named-block" (Some t) (Some (join " " toks)) body.
Proof.
  intros Ht Hne Htoks. unfold headerNode. rewrite <- join_header by assumption.
  pose proof (Sep_header t toks Ht Htoks) as Hsep.
  rewrite trim_trimmed by now apply (Sep_trimmed _ _ Hsep).
  rewrite (split_ws_Sep _ _ Hsep).
  destruct toks; [congruence | reflexivity].
Qed.

Lemma includes_char_intro (c : ascii) (a b : string) :
  includes_char c (a +++ String c b) = true.
Proof.
  rewrite includes_char_app. cbn [includes_char].
  now rewrite Ascii.eqb_refl, orb_true_r.
Qed.

Lemma leafNode_directive (t : string) (ws : list string) :
  is_token t = true -> ws <> [] ->
  Forall (fun x => is_token x = true) ws ->
  Forall (fun x => no_char dquote x = true) ws ->
  leafNode (t +++ " " +++ join " " ws)
  = mkNode "directive" (Some t) (Some (join " " ws)) [].
Proof.
  intros Ht Hne Hws Hq. unfold leafNode.
  pose proof (Sep_header t ws Ht Hws) as Hsep.
  rewrite join_header in Hsep by assumption.
  rewrite trim_trimmed by now apply (Sep_trimmed _ _ Hsep).
  change (" " +++ join " " ws) with (String " " (join " " ws)).
  rewrite includes_char_intro.
  change (String " " (join " " ws)) with (" " +++ join " " ws).
  rewrite (split_ws_Sep _ _ Hsep). cbn [hd tl]. unfold createNode.
  rewrite remove_char_join. do 3 f_equal.
  clear Hsep Hne Hws. induction Hq as [|x l Hx Hl IH]; [reflexivity|].
  cbn [map]. now rewrite remove_char_absent, IH.
Qed.

Lemma leafNode_flag (s : string) :
  trimmed s = true -> no_char " " s = true ->
  leafNode s = mkNode "flag" (Some s) None [].
Proof.
  intros Htrim Hsp. unfold leafNode. rewrite trim_trimmed by assumption.
  unfold no_char in Hsp. apply negb_true_iff in Hsp. now rewrite Hsp.
Qed.

(** The words of a directive value that has no empty word are tokens. *)
Lemma words_full (ws : list string) :
  ws <> [] -> Forall (fun x => no_space x = true /\ no_char dquote x = true) ws ->
  full_words (Some (join " " ws)) = true ->
  Forall (fun x => is_token x = true) ws.
Proof.
  intros Hne Hws Hfull. cbn [full_words] in Hfull.
  change (join " " ws) with (join (String " " "") ws) in Hfull.
  rewrite split_join in Hfull; [|assumption|].
  - rewrite forallb_forall in Hfull. rewrite Forall_forall in *.
    intros x Hx. unfold is_token. rewrite (Hfull x Hx).
    now destruct (Hws x Hx) as [-> _].
  - eapply Forall_impl; [|exact Hws]. intros x [Hx _].
    unfold no_char. now rewrite no_space_no_blank.
Qed.

(** The parser's step at a header line. *)

Lemma parseBlock_pattern (fuel : nat) (lines : list string) (i : nat)
    (header bt pat : string) :
  matchPatternBlock header = Some (bt, pat) ->
  nth_error lines i = Some header ->
  String.eqb header "}" = false ->
  forall b j w1 rest k w2,
    parseBlock fuel lines (i + 1) = Some (b, j, w1) ->
    parseBlock fuel lines j = Some (rest, k, w2) ->
    parseBlock (S fuel) lines i
    = Some (mkNode "pattern-block" (Some bt) (Some pat) b :: rest, k, w1 ++ w2).
Proof.
  intros Hp Hnth Hb b j w1 rest k w2 H1 H2.
  cbn [parseBlock]. now rewrite Hnth, Hb, Hp, H1, H2.
Qed.

Lemma parseBlock_header (fuel : nat) (lines : list string) (i : nat)
    (header g : string) :
  matchPatternBlock header = None ->
  matchMultiWordBlock header = Some g ->
  nth_error lines i = Some header ->
  String.eqb header "}" = false ->
  forall b j w1 rest k w2,
    parseBlock fuel lines (i + 1) = Some (b, j, w1) ->
    parseBlock fuel lines j = Some (rest, k, w2) ->
    parseBlock (S fuel) lines i = Some (headerNode g b :: rest, k, w1 ++ w2).
Proof.
  intros Hp Hm Hnth Hb b j w1 rest k w2 H1 H2.
  cbn [parseBlock]. now rewrite Hnth, Hb, Hp, Hm, H1, H2.
Qed.

Lemma reparses_all (l : list node) :
  Forall (fun n => forall cs, reparses cs -> reparses (n :: cs)) l -> reparses l.
Proof. induction 1; [apply reparses_nil | auto]. Qed.

Lemma token_no_line_terminator (t : string) :
  is_token t = true -> no_line_terminator t = true.
Proof.
  intros Ht. destruct (token_spec t Ht). now apply no_space_no_line_terminator.
Qed.

Lemma header_no_line_terminator (t : string) (toks : list string) :
  is_token t = true -> Forall (fun x => no_space x = true) toks ->
  no_line_terminator (t +++ " " +++ join " " toks) = true.
Proof.
  intros Ht Htoks.
  pose proof (token_no_line_terminator t Ht) as H1.
  pose proof (tokens_no_line_terminator toks Htoks) as H2.
  unfold no_line_terminator in *. now rewrite !all_chars_app, H1, H2.
Qed.

Lemma header_nonempty (t rest : string) :
  is_token t = true -> is_empty (t +++ rest) = false.
Proof.
  intros Ht. destruct (token_spec t Ht) as [Hne _].
  now rewrite is_empty_app, Hne.
Qed.

(** A node of the parser's making, read back after its siblings-to-be. *)
Lemma reparses_node (n : node) :
  WF n -> clean n = true -> forall cs, reparses cs -> reparses (n :: cs).
Proof.
  induction n as [ty x v body IH] using node_ind'. intros Hwf Hclean cs Hcs.
  apply clean_unfold in Hclean as (Hx & Hv & Hd & Hbody).
  assert (Hchildren : Forall WF body -> reparses body).
  { intros Hwfs. apply reparses_all. rewrite Forall_forall in *.
    intros c Hc. apply IH; auto. }
  inversion Hwf; subst.
  - (* block *)
    apply (reparses_block _ (p +++ " {") body cs
             (fun b => mkNode "block" (Some p) None b)); auto.
    + apply not_brace; [now apply token_spec | reflexivity].
    + intros fuel lines i Hnth Hb b j w1 rest k w2 Hp1 Hp2.
      rewrite <- (headerNode_block p b) by assumption.
      apply (parseBlock_header fuel lines i (p +++ " {") p) with (j := j); auto.
      * now apply matchPatternBlock_block.
      * apply matchMultiWordBlock_intro; [now apply token_spec|].
        now apply token_no_line_terminator.
  - (* named block *)
    apply (reparses_block _ (t +++ " " +++ join " " toks +++ " {") body cs
             (fun b => mkNode "named-block" (Some t) (Some (join " " toks)) b)); auto.
    + apply not_brace; [now apply token_spec | reflexivity].
    + intros fuel lines i Hnth Hb b j w1 rest k w2 Hp1 Hp2.
      rewrite <- (headerNode_named t toks b) by assumption.
      apply (parseBlock_header fuel lines i
               (t +++ " " +++ join " " toks +++ " {")
               (t +++ " " +++ join " " toks)) with (j := j); auto.
      replace (t +++ " " +++ join " " toks +++ " {")
        with ((t +++ " " +++ join " " toks) +++ " {")
        by now rewrite !append_assoc.
      apply matchMultiWordBlock_intro; [now apply header_nonempty|].
      apply header_no_line_terminator; auto using tokens_weaken.
  - (* pattern block *)
    apply (reparses_block _ (t +++ " " +++ ("<" +++ body0 +++ ">") +++ " {") body cs
             (fun b => mkNode "pattern-block" (Some t)
                              (Some ("<" +++ body0 +++ ">")) b)); auto.
    + apply not_brace; [now apply token_spec | reflexivity].
    + intros fuel lines i Hnth Hb b j w1 rest k w2 Hp1 Hp2.
      apply (parseBlock_pattern fuel lines i
               (t +++ " " +++ ("<" +++ body0 +++ ">") +++ " {")) with (j := j); auto.
      now apply matchPatternBlock_intro.
  - (* directive *)
    cbn [String.eqb Ascii.eqb Bool.eqb] in Hd.
    assert (Htoks : Forall (fun x => is_token x = true) ws)
      by now apply words_full.
    apply (reparses_leaf _ (t +++ " " +++ join " " ws +++ ";")
             (t +++ " " +++ join " " ws)); auto.
    + apply not_brace; [now apply token_spec | reflexivity].
    + replace (t +++ " " +++ join " " ws +++ ";")
        with ((t +++ " " +++ join " " ws) +++ ";") by now rewrite !append_assoc.
      apply matchPatternBlock_semicolon.
    + replace (t +++ " " +++ join " " ws +++ ";")
        with ((t +++ " " +++ join " " ws) +++ ";") by now rewrite !append_assoc.
      apply matchMultiWordBlock_semicolon.
    + replace (t +++ " " +++ join " " ws +++ ";")
        with ((t +++ " " +++ join " " ws) +++ ";") by now rewrite !append_assoc.
      apply matchLeaf_intro; [now apply header_nonempty|].
      apply header_no_line_terminator; auto using tokens_weaken.
    + apply leafNode_directive; auto.
      match goal with
      | H : Forall (fun x => _ /\ _) ws |- _ => eapply Forall_impl; [|exact H]
      end.
      now intros a [_ Ha].
  - (* flag *)
    apply (reparses_leaf _ (s +++ ";") s); auto.
    + apply not_brace; [now apply trimmed_nonempty | reflexivity].
    + apply matchPatternBlock_semicolon.
    + apply matchMultiWordBlock_semicolon.
    + apply matchLeaf_intro; [now apply trimmed_nonempty | assumption].
    + now apply leafNode_flag.
Qed.

(** The text of a tree of the parser's making, read back. *)
Lemma reparse_children (cs : list node) :
  Forall WF cs -> Forall (fun c => clean c = true) cs ->
  parseJuniperConfig (astToConfig (mkNode "root" None None cs))
  = Some (mkNode "root" None None cs, []).
Proof.
  intros Hwf Hclean.
  assert (Htext : astToConfig (mkNode "root" None None cs)
                  = join nl (map render (flat_map (fun c => nodeLines c 0) cs))).
  { unfold astToConfig. cbn [nodeToConfig String.eqb Ascii.eqb Bool.eqb].
    apply children_text; [assumption|].
    apply Forall_forall. intros c _ Hc k. now apply nodeToConfig_lines. }
  assert (Hok : Forall (fun l => core_ok (snd l))
                       (flat_map (fun c => nodeLines c 0) cs)).
  { apply Forall_flat_map. rewrite Forall_forall in *.
    intros c Hc. apply nodeLines_ok; auto. }
  unfold parseJuniperConfig. rewrite Htext, (preprocess_text _ Hok).
  fold (coreLines 0 cs).
  assert (Hre : reparses cs).
  { apply reparses_all. rewrite Forall_forall in *.
    intros c Hc. apply reparses_node; auto. }
  assert (H : parseBlock (S (length (coreLines 0 cs))) (coreLines 0 cs) 0
              = Some (cs, 0 + length (coreLines 0 cs) + 0, [])).
  { apply (Hre 0 _ _ [] []).
    - cbn [app]. now rewrite app_nil_r.
    - now left.
    - cbn [length]. lia. }
  now rewrite H.
Qed.

(** C1 (as amended).  For every tree the parser produces in which no name
    and no value contains [#] and no directive value has an empty word,
    parsing the serialized tree returns that very tree, and logs no
    diagnostic. *)
Theorem round_trip_of_clean_trees (config : string) (t : node) (w : list warning) :
  parseJuniperConfig config = Some (t, w) ->
  clean t = true ->
  parseJuniperConfig (astToConfig t) = Some (t, []).
Proof.
  intros Hparse Hclean.
  destruct (parse_WF config t w Hparse) as (cs & -> & Hwf).
  apply clean_unfold in Hclean as (_ & _ & _ & Hcs).
  now apply reparse_children.
Qed.

Lemma round_trip_of_clean_trees_witness :
  parseJuniperConfig sampleConfig = Some (sampleTree, [])
  /\ clean sampleTree = true
  /\ parseJuniperConfig (astToConfig sampleTree) = Some (sampleTree, []).
Proof.
  split; [reflexivity | split; [reflexivity |]].
  apply (round_trip_of_clean_trees sampleConfig sampleTree []); reflexivity.
Defined.

(** C1 (as stated) fails, in two ways.  The statement [a "";] parses to
    a directive whose value is empty once the quotes are stripped; it is
    written back as [a ;], which parses to the flag [a].  And in a text whose
    lines end in CR LF the comment pattern finds no match, so [a#b;] parses
    to the flag [a#b]; written back without the carriage return, the line is
    cut at the [#], and what is left is no statement: the tree read back has
    no node at all. *)
Lemma round_trip_loses_empty_value_and_hash :
  parseJuniperConfig emptyQuoted
  = Some (mkNode "root" None None
            [mkNode "directive" (Some "a") (Some "") []], [])
  /\ astToConfig (mkNode "root" None None
                    [mkNode "directive" (Some "a") (Some "") []]) = "a ;"
  /\ parseJuniperConfig "a ;"
     = Some (mkNode "root" None None [mkNode "flag" (Some "a") None []], [])
  /\ parseJuniperConfig hashBeforeCR
     = Some (mkNode "root" None None [mkNode "flag" (Some "a#b") None []], [])
  /\ astToConfig (mkNode "root" None None
                    [mkNode "flag" (Some "a#b") None []]) = "a#b;"
  /\ parseJuniperConfig "a#b;"
     = Some (mkNode "root" None None [], [mkWarning 1 "a"])
  /\ ~ (forall config t w,
          parseJuniperConfig config = Some (t, w) ->
          exists w', parseJuniperConfig (astToConfig t) = Some (t, w')).
Proof.
  repeat (split; [reflexivity|]).
  intros H. destruct (H emptyQuoted _ _ eq_refl) as (w' & Hw').
  discriminate Hw'.
Qed.

(** ** Parser: the shape of every node *)

Lemma split_join_space (l : list string) :
  l <> [] -> Forall (fun x => no_space x = true) l ->
  split_char " " (join " " l) = l.
Proof.
  intros Hne H. change (join " " l) with (join (String " " "") l).
  apply split_join; [assumption|].
  eapply Forall_impl; [|exact H]. intros x Hx.
  unfold no_char. now rewrite no_space_no_blank.
Qed.

Lemma no_char_join (c : ascii) (l : list string) :
  Ascii.eqb " " c = false ->
  Forall (fun x => no_char c x = true) l -> no_char c (join " " l) = true.
Proof.
  intros Hc H. rewrite no_char_all. apply all_chars_join.
  - now rewrite Hc.
  - eapply Forall_impl; [|exact H]. intros x Hx. now rewrite <- no_char_all.
Qed.

Lemma WF_shaped (n : node) : WF n -> shaped n = true.
Proof.
  induction n as [ty x v cs IH] using node_ind'. intros Hwf.
  assert (Hcs : Forall WF cs -> forallb shaped cs = true).
  { intros H. apply forallb_forall. rewrite Forall_forall in *. auto. }
  inversion Hwf; subst; cbn [shaped String.eqb Ascii.eqb Bool.eqb].
  - cbn [is_some_token is_none]. rewrite Hcs by assumption.
    match goal with H : is_token _ = true |- _ => now rewrite H end.
  - cbn [is_some_token spaced_tokens]. rewrite Hcs by assumption.
    rewrite split_join_space by auto using tokens_weaken.
    match goal with H : is_token t = true |- _ => rewrite H end.
    rewrite andb_true_r. cbn [andb]. apply forallb_forall.
    match goal with H : Forall _ toks |- _ => rewrite Forall_forall in H; exact H end.
  - cbn [is_some_token is_pattern]. rewrite Hcs by assumption.
    match goal with H : is_token t = true |- _ => rewrite H end.
    change ("<" +++ body +++ ">") with (String "<" (body +++ ">")).
    rewrite strip_last_app.
    match goal with H : is_empty body = false |- _ => rewrite H end.
    match goal with H : no_char ">" body = true |- _ => now rewrite H end.
  - cbn [is_some_token is_directive_value no_children forallb].
    match goal with H : is_token t = true |- _ => rewrite H end.
    match goal with H : Forall _ ws |- _ => rename H into Hws end.
    assert (Hns : Forall (fun x => no_space x = true) ws)
      by (eapply Forall_impl; [|exact Hws]; now intros a [Ha _]).
    assert (Hq : Forall (fun x => no_char dquote x = true) ws)
      by (eapply Forall_impl; [|exact Hws]; now intros a [_ Ha]).
    rewrite split_join_space by assumption.
    rewrite no_char_join by (assumption || reflexivity).
    rewrite !andb_true_r. cbn [andb]. apply forallb_forall.
    rewrite Forall_forall in Hws. intros a Ha. now apply Hws.
  - cbn [is_flag_name is_none no_children forallb].
    repeat match goal with H : _ = true |- _ => rewrite H; clear H end.
    reflexivity.
Qed.

(** X1.  Whatever the text, every node under the root of the tree
    [parseJuniperConfig] returns was built by one of the five rules: a
    [block] has a name without white space and no value; a [named-block] has
    such a name and a value of words one space apart; a [pattern-block] has
    a value of the form [<...>]; a [directive] has a value of words one space
    apart with no double quote left, and no children; a [flag] has a name
    without a space, no value and no children. *)
Theorem parsed_nodes_are_shaped (config : string) :
  exists cs ws,
    parseJuniperConfig config = Some (mkNode "root" None None cs, ws)
    /\ forallb shaped cs = true.
Proof.
  destruct (parseBlock_returns (S (length (preprocess config)))
              (preprocess config) 0 ltac:(lia))
    as (cs & k & ws & Hrun & _).
  assert (Hparse : parseJuniperConfig config
                   = Some (mkNode "root" None None cs, ws)).
  { unfold parseJuniperConfig. now rewrite Hrun. }
  exists cs, ws. split; [exact Hparse|].
  destruct (parse_WF config _ _ Hparse) as (cs' & Heq & Hwf).
  injection Heq as <-.
  apply forallb_forall. rewrite Forall_forall in Hwf.
  intros n Hn. now apply WF_shaped, Hwf.
Qed.

(** ** Parser: a closing brace missing at the end of the text *)

(** With a closing brace appended to the lines, [parseBlock] builds the same
    nodes and logs the same warnings; it returns the same index, or steps
    over the new brace where it had run into the end. *)
Lemma parseBlock_closing_brace (lines : list string) (fuel : nat) :
  forall i cs k ws,
    i <= length lines ->
    parseBlock fuel lines i = Some (cs, k, ws) ->
    k <= length lines
    /\ exists k',
         parseBlock fuel (lines ++ ["}"]) i = Some (cs, k', ws)
         /\ (k' = k \/ k = length lines /\ k' = S (length lines)).
Proof.
  induction fuel as [|fuel IH]; intros i cs k ws Hi H; [discriminate|].
  cbn [parseBlock] in *.
  destruct (nth_error lines i) as [line|] eqn:Hline.
  2:{ injection H as <- <- <-. apply nth_error_None in Hline.
      assert (i = length lines) by lia. subst i.
      rewrite nth_error_app2, Nat.sub_diag by lia. cbn [nth_error].
      rewrite String.eqb_refl. split; [lia|].
      exists (length lines + 1). split; [reflexivity | right; lia]. }
  assert (Hlt : i < length lines) by (apply nth_error_Some; congruence).
  rewrite nth_error_app1, Hline by assumption.
  assert (Hpair : forall body j w1 rest k0 w2,
             parseBlock fuel lines (i + 1) = Some (body, j, w1) ->
             parseBlock fuel lines j = Some (rest, k0, w2) ->
             k0 <= length lines
             /\ exists j' k',
                  parseBlock fuel (lines ++ ["}"]) (i + 1) = Some (body, j', w1)
                  /\ parseBlock fuel (lines ++ ["}"]) j' = Some (rest, k', w2)
                  /\ (k' = k0 \/ k0 = length lines /\ k' = S (length lines))).
  { intros body j w1 rest k0 w2 H1 H2.
    destruct (IH (i + 1) _ _ _ ltac:(lia) H1) as (Hj & j' & H1' & Hj').
    destruct (IH j _ _ _ Hj H2) as (Hk0 & k' & H2' & Hk').
    split; [assumption|].
    destruct Hj' as [-> | [Hjl ->]].
    - exists j, k'. auto.
    - exists (S (length lines)). subst j.
      destruct fuel as [|fuel']; [discriminate|].
      cbn [parseBlock] in H2 |- *.
      rewrite (proj2 (nth_error_None lines (length lines))) in H2 by lia.
      injection H2 as <- <- <-.
      rewrite (proj2 (nth_error_None (lines ++ ["}"]) (S (length lines))))
        by (rewrite length_app; cbn [length]; lia).
      exists (S (length lines)). split; [|split; [reflexivity | right; auto]].
      cbn [parseBlock] in H1'. exact H1'. }
  destruct (String.eqb line "}").
  { injection H as <- <- <-. split; [lia|]. exists (i + 1). auto. }
  destruct (matchPatternBlock line) as [[bt pat]|].
  { destruct (parseBlock fuel lines (i + 1)) as [[[body j] w1]|] eqn:H1; [|discriminate].
    destruct (parseBlock fuel lines j) as [[[rest k0] w2]|] eqn:H2; [|discriminate].
    injection H as <- <- <-.
    destruct (Hpair _ _ _ _ _ _ eq_refl H2) as (Hk0 & j' & k' & -> & -> & Hk').
    split; [assumption|]. exists k'. auto. }
  destruct (matchMultiWordBlock line) as [g|].
  { destruct (parseBlock fuel lines (i + 1)) as [[[body j] w1]|] eqn:H1; [|discriminate].
    destruct (parseBlock fuel lines j) as [[[rest k0] w2]|] eqn:H2; [|discriminate].
    injection H as <- <- <-.
    destruct (Hpair _ _ _ _ _ _ eq_refl H2) as (Hk0 & j' & k' & -> & -> & Hk').
    split; [assumption|]. exists k'. auto. }
  destruct (matchLeaf line) as [g|].
  { destruct (parseBlock fuel lines (i + 1)) as [[[rest k0] w1]|] eqn:H1; [|discriminate].
    injection H as <- <- <-.
    destruct (IH (i + 1) _ _ _ ltac:(lia) H1) as (Hk0 & k' & -> & Hk').
    split; [assumption|]. exists k'. auto. }
  destruct (parseBlock fuel lines (i + 1)) as [[[rest k0] w1]|] eqn:H1; [|discriminate].
  injection H as <- <- <-.
  destruct (IH (i + 1) _ _ _ ltac:(lia) H1) as (Hk0 & k' & -> & Hk').
  split; [assumption|]. exists k'. auto.
Qed.

Lemma split_char_sep (sep : ascii) (a b : string) :
  split_char sep (a +++ String sep b) = split_char sep a ++ split_char sep b.
Proof.
  induction a as [|c a IH]; cbn [append split_char].
  - now rewrite Ascii.eqb_refl.
  - destruct (Ascii.eqb c sep); [now rewrite IH|].
    rewrite IH. destruct (split_char sep a) eqn:Ha; [|reflexivity].
    now apply split_char_nonempty in Ha.
Qed.

Lemma preprocess_line_break (a b : string) :
  preprocess (a +++ nl +++ b) = preprocess a ++ preprocess b.
Proof.
  unfold preprocess. change (nl +++ b) with (String LF b).
  now rewrite split_char_sep, map_app, filter_app.
Qed.

(** X2.  A closing brace missing at the end of the text is implied:
    with a line [}] appended, [parseJuniperConfig] returns the same tree and
    logs the same warnings. *)
Theorem closing_brace_at_end_is_implied (config : string) :
  parseJuniperConfig (config +++ nl +++ "}") = parseJuniperConfig config.
Proof.
  unfold parseJuniperConfig. rewrite preprocess_line_break.
  change (preprocess "}") with ["}"].
  set (lines := preprocess config).
  destruct (parseBlock_returns (S (length lines)) lines 0 ltac:(lia))
    as (cs & k & ws & Hrun & _).
  rewrite Hrun.
  apply parseBlock_more_fuel in Hrun.
  destruct (parseBlock_closing_brace lines _ 0 cs k ws ltac:(lia) Hrun)
    as (_ & k' & Hrun' & _).
  rewrite length_app. cbn [length].
  replace (length lines + 1) with (S (length lines)) by lia.
  now rewrite Hrun'.
Qed.

(** ** Serializer and parser: a node of a type unknown to the serializer *)

Lemma preprocess_join (l : list string) :
  preprocess (join nl l) = flat_map preprocess l.
Proof.
  induction l as [|x l IH]; [reflexivity|].
  destruct l as [|y l]; [cbn [join concat flat_map]; now rewrite app_nil_r|].
  rewrite join_cons2, preprocess_line_break, IH. reflexivity.
Qed.

Lemma nodeToConfig_unknown (ty : string) (x v : option string) (cs : list node)
    (k : nat) :
  mem ty knownTypes = false ->
  nodeToConfig (mkNode ty x v cs) k
  = repeat_str "    " k +++ "# Unknown node type: " +++ ty.
Proof.
  unfold mem, knownTypes. cbn [existsb]. intros H.
  repeat (apply orb_false_iff in H as [? H]).
  cbn [nodeToConfig].
  repeat match goal with
         | E : String.eqb ty ?s = false |- _ => rewrite E; clear E
         end.
  reflexivity.
Qed.

Lemma preprocess_unknown (ty : string) (x v : option string) (cs : list node)
    (k : nat) :
  mem ty knownTypes = false -> no_line_terminator ty = true ->
  preprocess (nodeToConfig (mkNode ty x v cs) k) = [].
Proof.
  intros Hty Hlt. rewrite nodeToConfig_unknown by assumption.
  set (ind := repeat_str "    " k).
  assert (Hline : preprocess_line (ind +++ "# Unknown node type: " +++ ty) = "").
  { unfold preprocess_line.
    change (ind +++ "# Unknown node type: " +++ ty)
      with (ind +++ String "#" (" Unknown node type: " +++ ty)).
    rewrite strip_comment_hash.
    - unfold trim. rewrite <- (append_nil_r ind) at 1.
      now rewrite ltrim_blank_app by apply indent_blank.
    - pose proof (indent_no_char "#" k eq_refl) as Hind.
      unfold no_char in Hind. now apply negb_true_iff in Hind.
    - unfold no_line_terminator in *. now rewrite all_chars_app, Hlt. }
  unfold preprocess. rewrite split_char_one.
  - cbn [map]. rewrite Hline. reflexivity.
  - rewrite !no_char_app, (no_line_terminator_no_LF ty Hlt).
    unfold ind. now rewrite (indent_no_char LF k eq_refl).
Qed.

(** The lines of a block: those of its header, of its children and of its
    closing brace. *)
Lemma preprocess_block (header children closing : string) :
  preprocess ((header +++ nl)
              +++ (if is_empty children then "" else children +++ nl)
              +++ closing)
  = preprocess header ++ preprocess children ++ preprocess closing.
Proof.
  destruct (is_empty children) eqn:He.
  - apply is_empty_true in He. subst children.
    rewrite append_assoc. cbn [append].
    now rewrite preprocess_line_break.
  - rewrite !append_assoc.
    now rewrite !preprocess_line_break.
Qed.

Lemma preprocess_same_block (head closing c1 c2 : string) :
  (exists header, head = header +++ nl) ->
  preprocess c1 = preprocess c2 ->
  preprocess (head +++ (if is_empty c1 then "" else c1 +++ nl) +++ closing)
  = preprocess (head +++ (if is_empty c2 then "" else c2 +++ nl) +++ closing).
Proof.
  intros [header ->] Hc. now rewrite !preprocess_block, Hc.
Qed.

Lemma preprocess_children (f : node -> string) (cs : list node) :
  preprocess (join nl (map f cs)) = flat_map (fun c => preprocess (f c)) cs.
Proof.
  rewrite preprocess_join.
  now rewrite flat_map_concat_map, map_map, <- flat_map_concat_map.
Qed.

(** The unknown nodes leave no line. *)
Lemma preprocess_pruned (n : node) :
  unknown_on_one_line n = true ->
  forall k, preprocess (nodeToConfig (prune n) k) = preprocess (nodeToConfig n k).
Proof.
  induction n as [t x v cs IH] using node_ind'. intros Hn k.
  cbn [unknown_on_one_line] in Hn.
  set (kept := fix kept (cs : list node) : list node :=
                 match cs with
                 | [] => []
                 | c :: cs' => if known c then prune c :: kept cs' else kept cs'
                 end).
  assert (Hcs : forall j,
            flat_map (fun c => preprocess (nodeToConfig c j)) (kept cs)
            = flat_map (fun c => preprocess (nodeToConfig c j)) cs).
  { intros j. induction IH as [|c cs Hc _ IHcs]; [reflexivity|].
    cbn [forallb] in Hn. apply andb_true_iff in Hn as [Hhead Hn].
    cbn [kept flat_map]. destruct (known c) eqn:Hknown.
    - cbn [flat_map]. now rewrite Hc, IHcs.
    - rewrite IHcs by assumption. destruct c as [ty x' v' cs'].
      unfold known in Hknown. cbn [node_type] in Hknown, Hhead.
      now rewrite preprocess_unknown. }
  change (prune (mkNode t x v cs)) with (mkNode t x v (kept cs)).
  cbn [nodeToConfig].
  destruct (String.eqb t "root"); [now rewrite !preprocess_children|].
  destruct (String.eqb t "block").
  { apply preprocess_same_block.
    - exists (repeat_str "    " k +++ show x +++ " {"). now rewrite !append_assoc.
    - now rewrite !preprocess_children, Hcs. }
  destruct (String.eqb t "named-block" || String.eqb t "pattern-block").
  { apply preprocess_same_block.
    - exists (repeat_str "    " k +++ show x +++ " " +++ show v +++ " {").
      now rewrite !append_assoc.
    - now rewrite !preprocess_children, Hcs. }
  reflexivity.
Qed.

(** X3.  A node of a type [nodeToConfig] does not know is written as one
    comment line, [# Unknown node type: ...], at any depth and whatever its
    children, which are not written at all.  Where no such type holds a line
    terminator, the parser drops these lines: the text of a tree reads back
    as the text of the tree without its nodes of unknown type, with the same
    warnings. *)
Theorem unknown_node_is_lost (t : node) :
  unknown_on_one_line t = true ->
  (forall ty x v cs k,
      mem ty knownTypes = false ->
      nodeToConfig (mkNode ty x v cs) k
      = repeat_str "    " k +++ "# Unknown node type: " +++ ty)
  /\ parseJuniperConfig (astToConfig t) = parseJuniperConfig (astToConfig (prune t)).
Proof.
  intros Ht. split; [intros; now apply nodeToConfig_unknown|].
  unfold parseJuniperConfig, astToConfig.
  now rewrite (preprocess_pruned t Ht 0).
Qed.

Lemma unknown_node_is_lost_witness :
  parseJuniperConfig
    (astToConfig
       (mkNode "root" None None
          [mkNode "block" (Some "system") None
             [mkNode "flag" (Some "a") None [];
              mkNode "comment" (Some "x") None [mkNode "flag" (Some "y") None []];
              mkNode "flag" (Some "b") None []]]))
  = parseJuniperConfig
      (astToConfig
         (mkNode "root" None None
            [mkNode "block" (Some "system") None
               [mkNode "flag" (Some "a") None [];
                mkNode "flag" (Some "b") None []]])).
Proof.
  apply (proj2 (unknown_node_is_lost
                  (mkNode "root" None None
                     [mkNode "block" (Some "system") None
                        [mkNode "flag" (Some "a") None [];
                         mkNode "comment" (Some "x") None
                                [mkNode "flag" (Some "y") None []];
                         mkNode "flag" (Some "b") None []]])
                  eq_refl)).
Defined.

(** ** Parser: indentation *)

Lemma strip_comment_blank (w s : string) :
  blank w = true -> strip_comment (w +++ s) = w +++ strip_comment s.
Proof.
  unfold blank. induction w as [|c w IH]; intros H; [reflexivity|].
  cbn [all_chars] in H. apply andb_true_iff in H as [Hc Hw].
  cbn [append strip_comment].
  destruct (Ascii.eqb_spec c "#") as [-> |]; [discriminate Hc|].
  cbn [andb]. now rewrite IH.
Qed.

Lemma preprocess_line_indent (w s : string) :
  blank w = true -> preprocess_line (w +++ s) = preprocess_line s.
Proof.
  intros H. unfold preprocess_line, trim.
  now rewrite strip_comment_blank, ltrim_blank_app.
Qed.

Lemma split_char_prefix (sep : ascii) (w s : string) :
  no_char sep w = true ->
  split_char sep (w +++ s)
  = match split_char sep s with
    | h :: t => (w +++ h) :: t
    | [] => [w]
    end.
Proof.
  unfold no_char. induction w as [|c w IH]; intros H.
  - cbn [append]. destruct (split_char sep s) eqn:Hs; [|reflexivity].
    now apply split_char_nonempty in Hs.
  - cbn [includes_char] in H. apply negb_true_iff, orb_false_iff in H as [Hc Hw].
    cbn [append split_char]. rewrite Hc, IH by now rewrite Hw.
    destruct (split_char sep s); reflexivity.
Qed.

Lemma preprocess_indent (w s : string) :
  is_indent w = true -> preprocess (w +++ s) = preprocess s.
Proof.
  unfold is_indent. intros H. apply andb_true_iff in H as [Hw Hlf].
  unfold preprocess. rewrite split_char_prefix by assumption.
  destruct (split_char LF s) as [|h t] eqn:Hs;
    [now apply split_char_nonempty in Hs|].
  cbn [map]. now rewrite preprocess_line_indent.
Qed.

(** X4.  Indentation does not matter to the parser: white space put
    before the lines of a text changes neither the tree nor the warnings. *)
Theorem indentation_is_insignificant (ls : list (string * string)) :
  Forall (fun p => is_indent (fst p) = true) ls ->
  parseJuniperConfig (join nl (map (fun p => fst p +++ snd p) ls))
  = parseJuniperConfig (join nl (map snd ls)).
Proof.
  intros H. unfold parseJuniperConfig.
  rewrite !preprocess_join, !flat_map_concat_map, !map_map.
  rewrite (map_ext_in (fun p => preprocess (fst p +++ snd p))
                      (fun p => preprocess (snd p))); [reflexivity|].
  intros p Hp. rewrite Forall_forall in H. now apply preprocess_indent, H.
Qed.

Lemma indentation_is_insignificant_witness :
  parseJuniperConfig
    (join nl (map (fun p => fst p +++ snd p)
                  [("  ", "system {"); (String TAB "", "host-name r1;"); ("", "}")]))
  = parseJuniperConfig
      (join nl (map snd
                  [("  ", "system {"); (String TAB "", "host-name r1;"); ("", "}")])).
Proof.
  apply (indentation_is_insignificant
           [("  ", "system {"); (String TAB "", "host-name r1;"); ("", "}")]).
  repeat constructor.
Defined.

(** ** Parser: what becomes of each line *)

Lemma closingBetween_nil lines i : closingBetween lines i i = 0.
Proof. unfold closingBetween. now rewrite Nat.sub_diag. Qed.

Lemma closingBetween_split lines i j k :
  i <= j -> j <= k ->
  closingBetween lines i k = closingBetween lines i j + closingBetween lines j k.
Proof.
  intros Hij Hjk. unfold closingBetween.
  replace (k - i) with ((j - i) + (k - j)) by lia.
  rewrite seq_app, filter_app, length_app.
  now replace (i + (j - i)) with j by lia.
Qed.

Lemma closingBetween_first lines i k line :
  i < k -> nth_error lines i = Some line ->
  closingBetween lines i k
  = (if String.eqb line "}" then 1 else 0) + closingBetween lines (i + 1) k.
Proof.
  intros Hik Hline. unfold closingBetween.
  replace (k - i) with (S (k - (i + 1))) by lia.
  cbn [seq filter]. rewrite Hline. replace (S i) with (i + 1) by lia.
  now destruct (String.eqb line "}").
Qed.

Lemma nodesIn_cons (n : node) (cs : list node) :
  nodesIn (n :: cs) = nodeCount n + nodesIn cs.
Proof. reflexivity. Qed.

(** Each line [parseBlock] steps over gives one node, gives one warning, or
    closes a block. *)
Lemma parseBlock_accounts (lines : list string) (fuel : nat) :
  forall i cs k ws,
    parseBlock fuel lines i = Some (cs, k, ws) ->
    i <= k
    /\ nodesIn cs + length ws + closingBetween lines i k = k - i.
Proof.
  induction fuel as [|fuel IH]; intros i cs k ws H; [discriminate|].
  cbn [parseBlock] in H.
  destruct (nth_error lines i) as [line|] eqn:Hline.
  2:{ injection H as <- <- <-. rewrite closingBetween_nil. cbn. lia. }
  destruct (String.eqb line "}") eqn:Hb.
  { injection H as <- <- <-. split; [lia|].
    rewrite (closingBetween_first lines i (i + 1) line) by (auto; lia).
    rewrite Hb, closingBetween_nil. cbn. lia. }
  assert (Hblock : forall (n : node) body j (w1 : list warning) rest k0
                           (w2 : list warning),
             nodeCount n = S (nodesIn body) ->
             i + 1 <= j /\ nodesIn body + length w1
                           + closingBetween lines (i + 1) j = j - (i + 1) ->
             j <= k0 /\ nodesIn rest + length w2
                        + closingBetween lines j k0 = k0 - j ->
             i <= k0
             /\ nodesIn (n :: rest) + length (w1 ++ w2)
                + closingBetween lines i k0 = k0 - i).
  { intros n body j w1 rest k0 w2 Hn [Hj Hbody] [Hk0 Hrest].
    split; [lia|].
    rewrite (closingBetween_first lines i k0 line) by (auto; lia).
    rewrite (closingBetween_split lines (i + 1) j k0) by lia.
    rewrite Hb, length_app, nodesIn_cons, Hn. lia. }
  assert (Hone : forall rest k0 (w : list warning)
                         (extraNodes extraWarnings : nat),
             extraNodes + extraWarnings = 1 ->
             i + 1 <= k0 /\ nodesIn rest + length w
                            + closingBetween lines (i + 1) k0 = k0 - (i + 1) ->
             i <= k0
             /\ extraNodes + nodesIn rest + (extraWarnings + length w)
                + closingBetween lines i k0 = k0 - i).
  { intros rest k0 w a b Hab [Hk0 Hrest].
    split; [lia|].
    rewrite (closingBetween_first lines i k0 line) by (auto; lia).
    rewrite Hb. lia. }
  destruct (matchPatternBlock line) as [[bt pat]|].
  { destruct (parseBlock fuel lines (i + 1)) as [[[body j] w1]|] eqn:H1; [|discriminate].
    destruct (parseBlock fuel lines j) as [[[rest k0] w2]|] eqn:H2; [|discriminate].
    injection H as <- <- <-.
    apply (Hblock _ body j w1 rest k0 w2); [reflexivity | now apply IH | now apply IH]. }
  destruct (matchMultiWordBlock line) as [g|].
  { destruct (parseBlock fuel lines (i + 1)) as [[[body j] w1]|] eqn:H1; [|discriminate].
    destruct (parseBlock fuel lines j) as [[[rest k0] w2]|] eqn:H2; [|discriminate].
    injection H as <- <- <-.
    apply (Hblock _ body j w1 rest k0 w2); [| now apply IH | now apply IH].
    unfold headerNode. now destruct (split_ws (trim g)) as [|p [|q parts]]. }
  destruct (matchLeaf line) as [g|].
  { destruct (parseBlock fuel lines (i + 1)) as [[[rest k0] w]|] eqn:H1; [|discriminate].
    injection H as <- <- <-.
    destruct (Hone rest k0 w 1 0 eq_refl (IH _ _ _ _ H1)) as [Hk0 Hsum].
    split; [assumption|]. rewrite nodesIn_cons.
    replace (nodeCount (leafNode g)) with 1
      by (unfold leafNode; now destruct (includes_char " " (trim g))).
    lia. }
  destruct (parseBlock fuel lines (i + 1)) as [[[rest k0] w]|] eqn:H1; [|discriminate].
  injection H as <- <- <-.
  destruct (Hone rest k0 w 0 1 eq_refl (IH _ _ _ _ H1)) as [Hk0 Hsum].
  split; [assumption|]. cbn [length]. lia.
Qed.

(** X5.  No line is lost on the way: up to the index where the top-level
    call stops (the number of preprocessed lines, or the index just past a
    closing brace met at top level), every preprocessed line gave exactly
    one node of the tree, gave one warning, or is a closing brace. *)
Theorem every_line_is_accounted_for (config : string) :
  exists cs k ws,
    parseBlock (S (length (preprocess config))) (preprocess config) 0
      = Some (cs, k, ws)
    /\ parseJuniperConfig config = Some (mkNode "root" None None cs, ws)
    /\ (k = length (preprocess config)
        \/ k < length (preprocess config)
           /\ nth_error (preprocess config) (k - 1) = Some "}")
    /\ nodesIn cs + length ws + closingBetween (preprocess config) 0 k = k.
Proof.
  destruct (parseBlock_returns (S (length (preprocess config)))
              (preprocess config) 0 ltac:(lia))
    as (cs & k & ws & Hrun & _ & Hk & _ & Hend & _).
  exists cs, k, ws. split; [exact Hrun|].
  split; [unfold parseJuniperConfig; now rewrite Hrun|].
  split.
  - destruct (Nat.eq_dec k (length (preprocess config))) as [|Hne]; [now left|].
    right. split; [lia|]. destruct Hend as [Hend | [Hend _]]; [lia | assumption].
  - destruct (parseBlock_accounts _ _ _ _ _ _ Hrun) as [_ Hsum]. lia.
Qed.

(** ** Differ: where the records of an order-sensitive diff point *)

Lemma to_uint_nonnil (n : nat) : Nat.to_uint n <> Decimal.Nil.
Proof.
  intros H. assert (Hn : n = 0)
    by (rewrite <- (Unsigned.of_to n), H; reflexivity).
  subst n. discriminate H.
Qed.

Lemma index_of_string_of_nat (n : nat) : index_of_string (string_of_nat n) = Some n.
Proof.
  unfold index_of_string, string_of_nat.
  rewrite NilZero.usu by apply to_uint_nonnil.
  rewrite Unsigned.of_to. now rewrite String.eqb_refl.
Qed.

Lemma string_of_nat_not_length (n : nat) : String.eqb (string_of_nat n) "length" = false.
Proof.
  apply String.eqb_neq. intros H.
  pose proof (index_of_string_of_nat n) as Hi. rewrite H in Hi. discriminate Hi.
Qed.

Lemma get_prop_index (l : list value) (j : nat) :
  get_prop (VArr l) (string_of_nat j) = nth j l VUndef.
Proof.
  cbn [get_prop]. now rewrite string_of_nat_not_length, index_of_string_of_nat.
Qed.

Lemma assoc_In {A : Type} (k : string) (l : list (string * A)) (x : A) :
  assoc k l = Some x -> In (k, x) l.
Proof.
  induction l as [|[k' y] l IH]; simpl; [discriminate|].
  destruct (String.eqb_spec k' k) as [-> |].
  - intros H. injection H as ->. now left.
  - intros H. right. now apply IH.
Qed.

Lemma assoc_app {A : Type} (k : string) (l1 l2 : list (string * A)) :
  assoc k (l1 ++ l2)
  = match assoc k l1 with Some x => Some x | None => assoc k l2 end.
Proof.
  induction l1 as [|[k' y] l1 IH]; simpl; [reflexivity|].
  now destruct (String.eqb k' k).
Qed.

Lemma In_combine_seq {A B C : Type} (g : nat -> A) (h : B -> C) (dflt : B)
    (l : list B) :
  forall i a c,
    In (a, c) (combine (map g (seq i (length l))) (map h l)) ->
    exists j, j < length l /\ a = g (i + j) /\ c = h (nth j l dflt).
Proof.
  induction l as [|x l IH]; intros i a c H; [destruct H|].
  cbn [length seq map combine] in H. destruct H as [H | H].
  - injection H as <- <-. exists 0. cbn [length nth].
    rewrite Nat.add_0_r. repeat split. lia.
  - destruct (IH (S i) a c H) as (j & Hj & -> & ->).
    exists (S j). cbn [length nth]. repeat split; [lia | f_equal; lia].
Qed.

(** A value that is no object is compared on the spot. *)
Lemma diffBody_on_the_spot ign ord (old : value) recur (new : value) d cur abs r :
  Lodash.isObject old && Lodash.isObject new = false ->
  In r (diffBody ign ord old recur new d cur abs) ->
  d_path r = cur /\ d_type r = "replace"
  /\ d_oldValue r = Some old /\ d_newValue r = Some new.
Proof.
  intros Hprim. unfold diffBody.
  destruct old, new; try discriminate Hprim; cbn;
    repeat match goal with
           | |- context [if ?c then _ else _] => destruct c
           end;
    cbn; intros H;
    first [destruct H as [<- | []]; repeat split | destruct H].
Qed.

Lemma diffBody_on_objects ign (old : value) recur (new : value) d cur abs :
  Lodash.isObject old = true -> Lodash.isObject new = true ->
  diffBody ign false old recur new d cur abs =
  match old, new with
  | VArr olds, VArr news =>
      orderedLoop (combine olds (map snd recur)) 0 news d cur abs
  | _, _ =>
      flat_map (propStep ign old new recur d cur abs)
               (dedup (keys old ++ keys new))
  end.
Proof.
  destruct old, new; try discriminate; reflexivity.
Qed.

Lemma locates_primitive ign ord (old : value) recur :
  Lodash.isObject old = false -> locates old (diffBody ign ord old recur).
Proof.
  intros Hold new d cur abs r Hr.
  destruct (diffBody_on_the_spot ign ord old recur new d cur abs r)
    as (Hp & Ht & Ho & Hn); [now rewrite Hold | assumption |].
  exists []. rewrite app_nil_r. split; [assumption|]. now constructor.
Qed.

Lemma In_adds (news : list value) :
  forall i cur abs r,
    In r (map (fun jn => addRecord cur abs (fst jn) (snd jn))
              (combine (seq i (length news)) news)) ->
    exists j, j < length news /\ r = addRecord cur abs (i + j) (nth j news VUndef).
Proof.
  induction news as [|x news IH]; intros i cur abs r H; [destruct H|].
  cbn [length seq combine map fst snd] in H. destruct H as [<- | H].
  - exists 0. cbn [length nth]. rewrite Nat.add_0_r. split; [lia | reflexivity].
  - destruct (IH (S i) cur abs r H) as (j & Hj & ->).
    exists (S j). cbn [length nth]. split; [lia | f_equal; lia].
Qed.

Lemma nth_nil (j : nat) : nth j (@nil value) VUndef = VUndef.
Proof. now destruct j. Qed.

(** The loop by index: a record stands under the index of an element added,
    removed, or present on both sides. *)
Lemma orderedLoop_located ign (olds : list value) :
  Forall (fun o => locates o (diffWalk ign false o)) olds ->
  forall i news d cur abs r,
    In r (orderedLoop (combine olds (map (fun o => diffWalk ign false o) olds))
                      i news d cur abs) ->
    exists j suffix,
      d_path r = cur ++ string_of_nat (i + j) :: suffix
      /\ ((suffix = [] /\ d_type r = "add" /\ d_oldValue r = None
           /\ d_newValue r = Some (nth j news VUndef))
          \/ (suffix = [] /\ d_type r = "remove"
              /\ d_oldValue r = Some (nth j olds VUndef) /\ d_newValue r = None)
          \/ (depth_nonzero d = true
              /\ Located (nth j olds VUndef) (nth j news VUndef)
                         (depth_next d) suffix r)).
Proof.
  induction 1 as [|o olds Ho _ IH]; intros i news d cur abs r Hr.
  - cbn [map combine orderedLoop] in Hr.
    destruct (In_adds news i cur abs r Hr) as (j & Hj & ->).
    exists j, []. split; [reflexivity|]. left. repeat split.
  - cbn [map combine orderedLoop] in Hr. destruct news as [|n news].
    + destruct Hr as [<- | Hr].
      * exists 0, []. rewrite Nat.add_0_r. split; [reflexivity|].
        right; left. repeat split.
      * destruct (IH (S i) [] d cur abs r Hr) as (j & suffix & Hp & Hcase).
        exists (S j), suffix. replace (i + S j) with (S i + j) by lia.
        split; [assumption|]. cbn [nth]. rewrite nth_nil in *. exact Hcase.
    + apply in_app_or in Hr as [Hr | Hr].
      * destruct (depth_nonzero d) eqn:Hd; [|destruct Hr].
        destruct (Ho _ _ _ _ _ Hr) as (suffix & Hp & Hloc).
        exists 0, suffix. rewrite Nat.add_0_r. split.
        -- now rewrite Hp, <- app_assoc.
        -- right; right. split; [reflexivity | exact Hloc].
      * destruct (IH (S i) news d cur abs r Hr) as (j & suffix & Hp & Hcase).
        exists (S j), suffix. replace (i + S j) with (S i + j) by lia.
        split; [assumption | exact Hcase].
Qed.

(** The loop over the property names. *)
Lemma propStep_located ign (old new : value) recur d cur abs prop r :
  Lodash.isObject old = true -> Lodash.isObject new = true ->
  (forall call, assoc prop recur = Some call -> locates (get_prop old prop) call) ->
  In r (propStep ign old new recur d cur abs prop) ->
  exists suffix, d_path r = cur ++ suffix /\ Located old new d suffix r.
Proof.
  intros Hold Hnew Hrecur. unfold propStep.
  destruct (shouldIgnore ign prop); [intros []|].
  destruct (negb (has_prop old prop)).
  { intros [<- | []]. exists [prop]. split; [reflexivity|].
    apply Located_added; auto. }
  destruct (negb (has_prop new prop)).
  { intros [<- | []]. exists [prop]. split; [reflexivity|].
    apply Located_removed; auto. }
  destruct (depth_nonzero d) eqn:Hd; [|intros []].
  destruct (assoc prop recur) as [call|] eqn:Hcall; [|intros []].
  intros Hr. destruct (Hrecur call eq_refl _ _ _ _ _ Hr) as (suffix & Hp & Hloc).
  exists (prop :: suffix). split.
  - now rewrite Hp, <- app_assoc.
  - now apply Located_inside.
Qed.

Lemma nth_locates ign (olds : list value) (j : nat) :
  Forall (fun o => locates o (diffWalk ign false o)) olds ->
  locates (nth j olds VUndef) (diffWalk ign false (nth j olds VUndef)).
Proof.
  intros H. destruct (Nat.lt_ge_cases j (length olds)) as [Hj | Hj].
  - rewrite Forall_forall in H. apply H. now apply nth_In.
  - rewrite nth_overflow by assumption.
    rewrite diffWalk_unfold. now apply locates_primitive.
Qed.

(** Every record of an order-sensitive diff is located below the two values
    at the path it carries. *)
Lemma diffWalk_located ign (old : value) : locates old (diffWalk ign false old).
Proof.
  induction old as [| | b | z | s | olds IH | props IH] using value_ind';
    try (rewrite diffWalk_unfold; now apply locates_primitive).
  - (* an array *)
    intros new d cur abs r Hr. rewrite diffWalk_unfold in Hr.
    destruct (Lodash.isObject new) eqn:Hnew.
    2:{ apply diffBody_on_the_spot in Hr as (Hp & Ht & Ho & Hn);
          [|now rewrite Hnew, andb_false_r].
        exists []. rewrite app_nil_r. split; [assumption | now constructor]. }
    rewrite diffBody_on_objects in Hr by auto.
    destruct new as [| | | | | news | qs]; try discriminate Hnew.
    + rewrite array_parts in Hr.
      destruct (orderedLoop_located ign olds IH 0 news d cur abs r Hr)
        as (j & suffix & Hp & Hcase).
      cbn [Nat.add] in Hp. exists (string_of_nat j :: suffix).
      split; [assumption|].
      destruct Hcase as [(-> & Ht & Ho & Hn) | [(-> & Ht & Ho & Hn) | (Hd & Hloc)]].
      * apply Located_added; auto. now rewrite get_prop_index.
      * apply Located_removed; auto. now rewrite get_prop_index.
      * apply Located_inside; auto. now rewrite !get_prop_index.
    + apply in_flat_map in Hr as (prop & _ & Hr).
      eapply propStep_located; eauto.
      intros call Hcall. rewrite assoc_app in Hcall.
      destruct (assoc prop (combine _ _)) as [c|] eqn:Hc.
      * injection Hcall as <-. apply assoc_In in Hc.
        cbn [keys] in Hc. unfold indices in Hc.
        destruct (In_combine_seq string_of_nat (fun o => diffWalk ign false o)
                    VUndef olds 0 prop c Hc) as (j & Hj & -> & ->).
        cbn [Nat.add]. rewrite get_prop_index. now apply nth_locates.
      * cbn [assoc] in Hcall.
        destruct (String.eqb_spec "length" prop) as [<- |]; [|discriminate].
        injection Hcall as <-. now apply locates_primitive.
  - (* an object *)
    intros new d cur abs r Hr. rewrite diffWalk_unfold in Hr.
    destruct (Lodash.isObject new) eqn:Hnew.
    2:{ apply diffBody_on_the_spot in Hr as (Hp & Ht & Ho & Hn);
          [|now rewrite Hnew, andb_false_r].
        exists []. rewrite app_nil_r. split; [assumption | now constructor]. }
    rewrite diffBody_on_objects in Hr by auto.
    assert (Hflat : In r (flat_map (propStep ign (VObj props) new
                            (map (fun kv => match kv with
                                            | (k, v) => (k, diffWalk ign false v)
                                            end) props) d cur abs)
                            (dedup (keys (VObj props) ++ keys new))))
      by (destruct new; try discriminate Hnew; exact Hr).
    apply in_flat_map in Hflat as (prop & _ & Hstep).
    eapply propStep_located; eauto.
    intros call Hcall.
    rewrite (assoc_map_snd (fun v => diffWalk ign false v)) in Hcall.
    destruct (assoc prop props) as [v|] eqn:Hv; [|discriminate].
    injection Hcall as <-. cbn [get_prop]. rewrite Hv.
    apply assoc_In in Hv. rewrite Forall_forall in IH. apply (IH (prop, v) Hv).
Qed.

Lemma Located_walk (old new : value) d suffix r :
  Located old new d suffix r ->
  (forall v, d_oldValue r = Some v -> walk old suffix = v)
  /\ (forall v, d_newValue r = Some v -> walk new suffix = v).
Proof.
  induction 1 as [old new d r Ht Ho Hn
                 | old new d k r Hnew Ht Ho Hn
                 | old new d k r Hold Ht Ho Hn
                 | old new d k suffix r Hold Hnew Hd Hloc [IHo IHn]].
  - split; intros v Hv; cbn [walk]; congruence.
  - split; intros v Hv; [congruence|].
    rewrite walk_of_object by assumption. cbn [walk]. congruence.
  - split; intros v Hv; [|congruence].
    rewrite walk_of_object by assumption. cbn [walk]. congruence.
  - split; intros v Hv; rewrite walk_of_object by assumption; auto.
Qed.

(** X6.  When the order of arrays matters (the default), the [path] of
    every record of [diffAst] starts with the [currentPath] of the options,
    and what follows it leads, key by key and index by index, from the old
    value to the record's [oldValue] and from the new value to its
    [newValue], whichever of the two the record carries. *)
Theorem diff_paths_locate_values (old new : value) (options : DiffOptions)
    (r : JuniperDiff) :
  orDefault (ignoreArrayOrder options) false = false ->
  In r (diffAst old new options) ->
  exists suffix,
    d_path r = orDefault (currentPath options) [] ++ suffix
    /\ (forall v, d_oldValue r = Some v -> walk old suffix = v)
    /\ (forall v, d_newValue r = Some v -> walk new suffix = v).
Proof.
  unfold diffAst. intros -> Hr.
  destruct (diffWalk_located _ _ _ _ _ _ _ Hr) as (suffix & Hp & Hloc).
  exists suffix. split; [assumption|]. eapply Located_walk; eassumption.
Qed.

Lemma diff_paths_locate_values_witness :
  exists suffix,
    d_path (mkDiff "replace" ["a"; "0"] ["a"; "0"] (Some (VNum 1)) (Some (VNum 2))
                   None None None None)
    = orDefault (currentPath defaultOptions) [] ++ suffix
    /\ (forall v, Some (VNum 1) = Some v ->
          walk (VObj [("a", VArr [VNum 1])]) suffix = v)
    /\ (forall v, Some (VNum 2) = Some v ->
          walk (VObj [("a", VArr [VNum 2])]) suffix = v).
Proof.
  apply (diff_paths_locate_values
           (VObj [("a", VArr [VNum 1])]) (VObj [("a", VArr [VNum 2])])
           defaultOptions
           (mkDiff "replace" ["a"; "0"] ["a"; "0"] (Some (VNum 1)) (Some (VNum 2))
                   None None None None));
    [reflexivity | vm_compute; left; reflexivity].
Defined.

Lemma Located_depth (old new : value) d suffix r :
  Located old new d suffix r ->
  forall z, d = Finite z -> (0 <= z)%Z -> length suffix <= Z.to_nat z + 1.
Proof.
  induction 1 as [old new d r Ht Ho Hn
                 | old new d k r Hnew Ht Ho Hn
                 | old new d k r Hold Ht Ho Hn
                 | old new d k suffix r Hold Hnew Hd Hloc IH];
    intros z -> Hz; cbn [length]; try lia.
  cbn [depth_nonzero] in Hd. apply negb_true_iff, Z.eqb_neq in Hd.
  cbn [depth_next] in IH.
  destruct (Z.ltb_spec 0 z) as [Hpos|]; [|lia].
  specialize (IH (z - 1)%Z eq_refl ltac:(lia)).
  replace (Z.to_nat z) with (S (Z.to_nat (z - 1))) by lia. lia.
Qed.

(** X7.  When the order of arrays matters, [maxDepth] bounds how far below
    the starting point a record can lie: with [maxDepth = n >= 0], the
    [path] of every record has at most [n + 1] segments after
    [currentPath]. *)
Theorem maxDepth_bounds_paths (old new : value) (options : DiffOptions)
    (z : Z) (r : JuniperDiff) :
  orDefault (ignoreArrayOrder options) false = false ->
  maxDepth options = Some (Finite z) ->
  (0 <= z)%Z ->
  In r (diffAst old new options) ->
  length (d_path r)
  <= length (orDefault (currentPath options) []) + Z.to_nat z + 1.
Proof.
  unfold diffAst. intros -> -> Hz Hr. cbn [orDefault] in Hr.
  destruct (diffWalk_located _ _ _ _ _ _ _ Hr) as (suffix & Hp & Hloc).
  rewrite Hp, length_app.
  pose proof (Located_depth _ _ _ _ _ Hloc z eq_refl Hz). lia.
Qed.

Lemma maxDepth_bounds_paths_witness :
  length (d_path (mkDiff "replace" ["a"] ["a"] (Some (VNum 1)) (Some (VNum 2))
                         None None None None))
  <= length (orDefault (currentPath (mkOptions None None (Some (Finite 1)) None None)) [])
     + Z.to_nat 1 + 1.
Proof.
  apply (maxDepth_bounds_paths
           (VObj [("a", VNum 1); ("b", VObj [("c", VNum 1)])])
           (VObj [("a", VNum 2); ("b", VObj [("c", VNum 2)])])
           (mkOptions None None (Some (Finite 1)) None None) 1
           (mkDiff "replace" ["a"] ["a"] (Some (VNum 1)) (Some (VNum 2))
                   None None None None));
    [reflexivity | reflexivity | lia | vm_compute; left; reflexivity].
Defined.

(** ** Differ: an empty diff of two trees *)

Lemma diff_str_eq ign ord (s s' : string) d cur abs :
  diffWalk ign ord (VStr s) (VStr s') d cur abs = [] -> s = s'.
Proof.
  rewrite diffWalk_unfold. unfold diffBody. cbn.
  destruct (String.eqb_spec s s'); [auto | discriminate].
Qed.

Lemma diff_opt_eq ign ord (x x' : option string) d cur abs :
  diffWalk ign ord (of_opt x) (of_opt x') d cur abs = [] -> x = x'.
Proof.
  destruct x as [s|], x' as [s'|]; cbn [of_opt].
  - intros H. f_equal. eapply diff_str_eq, H.
  - rewrite diffWalk_unfold. unfold diffBody. cbn. discriminate.
  - rewrite diffWalk_unfold. unfold diffBody. cbn. discriminate.
  - reflexivity.
Qed.

Lemma diff_node_fields (t t' : string) (x x' v v' : option string)
    (cs cs' : list node) cur abs :
  exists nodePath,
    diffWalk ["loc"; "range"] false (of_node (mkNode t x v cs))
             (of_node (mkNode t' x' v' cs')) Infinity cur abs
    = diffWalk ["loc"; "range"] false (VStr t) (VStr t') Infinity
               (cur ++ ["type"]) (abs ++ ["type"])
      ++ diffWalk ["loc"; "range"] false (of_opt x) (of_opt x') Infinity
                  (cur ++ ["name"]) (abs ++ ["name"])
      ++ diffWalk ["loc"; "range"] false (of_opt v) (of_opt v') Infinity
                  (cur ++ ["value"]) (abs ++ ["value"])
      ++ diffWalk ["loc"; "range"] false (VArr (map of_node cs))
                  (VArr (map of_node cs')) Infinity
                  (cur ++ ["children"]) nodePath
      ++ [].
Proof. eexists. reflexivity. Qed.

Lemma diff_arrays_ordered ign (olds news : list value) d cur abs :
  diffWalk ign false (VArr olds) (VArr news) d cur abs
  = orderedLoop (combine olds (map (fun o => diffWalk ign false o) olds))
                0 news d cur abs.
Proof.
  rewrite diffWalk_unfold, diffBody_arrays. cbv zeta. now rewrite array_parts.
Qed.

Lemma orderedLoop_empty_equal ign (cs : list node) :
  Forall (fun a => forall b cur abs,
            diffWalk ign false (of_node a) (of_node b) Infinity cur abs = []
            -> a = b) cs ->
  forall cs' i cur abs,
    orderedLoop (combine (map of_node cs)
                         (map (fun o => diffWalk ign false o) (map of_node cs)))
                i (map of_node cs') Infinity cur abs = [] ->
    cs = cs'.
Proof.
  induction 1 as [|c cs Hc _ IH]; intros cs' i cur abs H.
  - destruct cs' as [|c' cs']; [reflexivity|]. discriminate H.
  - destruct cs' as [|c' cs']; [discriminate H|].
    cbn [map combine orderedLoop depth_nonzero] in H.
    apply app_eq_nil in H as [H1 H2].
    f_equal; [eapply Hc, H1 | eapply IH, H2].
Qed.

Lemma diffWalk_empty_equal (a : node) :
  forall b cur abs,
    diffWalk ["loc"; "range"] false (of_node a) (of_node b) Infinity cur abs = []
    -> a = b.
Proof.
  induction a as [t x v cs IH] using node_ind'.
  intros [t' x' v' cs'] cur abs H.
  destruct (diff_node_fields t t' x x' v v' cs cs' cur abs) as (p & Heq).
  rewrite Heq in H. clear Heq.
  apply app_eq_nil in H as [Ht H]. apply app_eq_nil in H as [Hx H].
  apply app_eq_nil in H as [Hv H]. apply app_eq_nil in H as [Hcs _].
  apply diff_str_eq in Ht. apply diff_opt_eq in Hx. apply diff_opt_eq in Hv.
  rewrite diff_arrays_ordered in Hcs.
  apply (orderedLoop_empty_equal _ cs IH) in Hcs. congruence.
Qed.

(** X8.  Under the default options the diff of two trees is empty exactly
    when the trees are equal: whatever differs between two trees, in a type,
    a name, a value or the children at any depth, leaves a record. *)
Theorem diff_empty_iff_equal (a b : node) :
  diffAst (of_node a) (of_node b) defaultOptions = [] <-> a = b.
Proof.
  split.
  - apply diffWalk_empty_equal.
  - intros ->. apply diffWalk_same.
Qed.

(** ** Differ: elements appended to or dropped from the end of an array *)

Lemma orderedLoop_appended ign (l e : list value) :
  forall i d cur abs,
    orderedLoop (combine l (map (fun o => diffWalk ign false o) l))
                i (l ++ e) d cur abs
    = map (fun jn => addRecord cur abs (fst jn) (snd jn))
          (combine (seq (i + length l) (length e)) e).
Proof.
  induction l as [|o l IH]; intros i d cur abs.
  - cbn [map combine orderedLoop app length]. now rewrite Nat.add_0_r.
  - cbn [map combine orderedLoop app length].
    rewrite diffWalk_same, IH.
    replace (S i + length l) with (i + S (length l)) by lia.
    now destruct (depth_nonzero d).
Qed.

Lemma orderedLoop_all_removed ign (e : list value) :
  forall i d cur abs,
    orderedLoop (combine e (map (fun o => diffWalk ign false o) e))
                i [] d cur abs
    = map (fun jo => removeRecord cur abs (fst jo) (snd jo))
          (combine (seq i (length e)) e).
Proof.
  induction e as [|o e IH]; intros i d cur abs; [reflexivity|].
  cbn [map combine orderedLoop length seq fst snd]. now rewrite IH.
Qed.

Lemma orderedLoop_dropped ign (l e : list value) :
  forall i d cur abs,
    orderedLoop (combine (l ++ e) (map (fun o => diffWalk ign false o) (l ++ e)))
                i l d cur abs
    = map (fun jo => removeRecord cur abs (fst jo) (snd jo))
          (combine (seq (i + length l) (length e)) e).
Proof.
  induction l as [|o l IH]; intros i d cur abs.
  - cbn [app length]. rewrite Nat.add_0_r. apply orderedLoop_all_removed.
  - cbn [map combine orderedLoop app length].
    rewrite diffWalk_same, IH.
    replace (S i + length l) with (i + S (length l)) by lia.
    now destruct (depth_nonzero d).
Qed.

(** X9.  When the order of arrays matters, elements appended to an array
    give one [add] record each and nothing else, and elements dropped from
    its end give one [remove] record each and nothing else.  The record of
    an element carries the element and its node type; its [path] is
    [currentPath] followed by the index of the element; its [absolutePath]
    is what [getAbsolutePath] makes of the element and its index:
    [absolutePath] followed by the name of the element if it has one (left
    as it is if it ends in that name already), by the index otherwise. *)
Theorem array_tail_changes (l e : list value) (options : DiffOptions) :
  orDefault (ignoreArrayOrder options) false = false ->
  diffAst (VArr l) (VArr (l ++ e)) options
  = map (fun jn : nat * value =>
           mkDiff "add"
                  (orDefault (currentPath options) [] ++ [string_of_nat (fst jn)])
                  (getAbsolutePath (orDefault (absolutePath options) [])
                                   (snd jn) (string_of_nat (fst jn)))
                  None (Some (snd jn)) None (Some (getNodeType (snd jn)))
                  None None)
        (combine (seq (length l) (length e)) e)
  /\ diffAst (VArr (l ++ e)) (VArr l) options
     = map (fun jo : nat * value =>
              mkDiff "remove"
                     (orDefault (currentPath options) [] ++ [string_of_nat (fst jo)])
                     (getAbsolutePath (orDefault (absolutePath options) [])
                                      (snd jo) (string_of_nat (fst jo)))
                     (Some (snd jo)) None None (Some (getNodeType (snd jo)))
                     None None)
           (combine (seq (length l) (length e)) e).
Proof.
  unfold diffAst. intros ->. rewrite !diff_arrays_ordered. split.
  - apply orderedLoop_appended.
  - apply orderedLoop_dropped.
Qed.

Lemma array_tail_changes_witness :
  diffAst (VArr [VNum 1])
          (VArr ([VNum 1] ++ [VNum 2; of_node (mkNode "flag" (Some "b") None [])]))
          defaultOptions
  = [mkDiff "add" ["1"] ["1"] None (Some (VNum 2)) None (Some (VStr "number"))
            None None;
     mkDiff "add" ["2"] ["b"] None
            (Some (of_node (mkNode "flag" (Some "b") None []))) None
            (Some (VStr "flag")) None None].
Proof.
  apply (proj1 (array_tail_changes [VNum 1]
                  [VNum 2; of_node (mkNode "flag" (Some "b") None [])]
                  defaultOptions eq_refl)).
Defined.

(** ** Differ: which nodes the order-insensitive matching pairs *)

(** X10.  Two nodes score above the threshold of 0.7 exactly when they
    have the same type and either the same name or the same value (two
    [null] fields never count as the same); what their children are makes
    no difference to the score. *)
Theorem node_match_criterion (x y : node) :
  Qgtb (calculateSimilarity (of_node x) (of_node y)) (7 # 10)
  = String.eqb (node_type x) (node_type y)
    && (same_string (node_name x) (node_name y)
        || same_string (node_value x) (node_value y))
  /\ calculateSimilarity (of_node x) (of_node y)
     = calculateSimilarity
         (of_node (mkNode (node_type x) (node_name x) (node_value x) []))
         (of_node (mkNode (node_type y) (node_name y) (node_value y) [])).
Proof.
  split.
  - rewrite similarity_of_nodes. unfold nodeScore.
    destruct (String.eqb (node_type x) (node_type y)); [|reflexivity].
    destruct (same_string (node_name x) (node_name y)),
             (same_string (node_value x) (node_value y)); reflexivity.
  - rewrite !similarity_of_nodes. destruct x, y. reflexivity.
Qed.

(** ** Synthesizer: the loop groups *)

Lemma In_dict_replace {A : Type} (d : list (string * A)) (key : string) (x : A)
    (k : string) (v : A) :
  In (k, v) (dict_replace d key x) -> (k = key /\ v = x) \/ In (k, v) d.
Proof.
  induction d as [|[k' y] d IH]; cbn [dict_replace]; [tauto|].
  destruct (String.eqb_spec k' key) as [-> |].
  - intros [H | H]; [injection H as <- <-; auto | right; now right].
  - intros [H | H]; [right; now left|].
    destruct (IH H) as [? | ?]; [now left | right; now right].
Qed.

Lemma In_dict_insert_index {A : Type} (d : list (string * A)) (i : nat)
    (key : string) (x : A) (k : string) (v : A) :
  In (k, v) (dict_insert_index d i key x) -> (k = key /\ v = x) \/ In (k, v) d.
Proof.
  induction d as [|[k' y] d IH]; cbn [dict_insert_index].
  - intros [H | []]. injection H as <- <-. auto.
  - destruct (index_of_string k') as [j|].
    + destruct (Nat.ltb j i).
      * intros [H | H]; [right; now left|].
        destruct (IH H) as [? | ?]; [now left | right; now right].
      * intros [H | H]; [injection H as <- <-; auto | now right].
    + intros [H | H]; [injection H as <- <-; auto | now right].
Qed.

Lemma In_dict_set {A : Type} (d : list (string * A)) (key : string) (x : A)
    (k : string) (v : A) :
  In (k, v) (dict_set d key x) -> (k = key /\ v = x) \/ In (k, v) d.
Proof.
  unfold dict_set. destruct (assoc key d).
  - apply In_dict_replace.
  - destruct (index_of_string key).
    + apply In_dict_insert_index.
    + intros H. apply in_app_or in H as [H | [H | []]]; [now right|].
      injection H as <- <-. auto.
Qed.

Lemma Permutation_dict_replace {A : Type} (d : list (string * list A))
    (key : string) (l : list A) (c : A) :
  assoc key d = Some l ->
  Permutation (flat_map snd (dict_replace d key (l ++ [c])))
              (flat_map snd d ++ [c]).
Proof.
  induction d as [|[k' y] d IH]; cbn [assoc dict_replace]; [discriminate|].
  destruct (String.eqb k' key).
  - intros H. injection H as ->. cbn [flat_map snd].
    rewrite <- !app_assoc. apply Permutation_app_head, Permutation_app_comm.
  - intros H. cbn [flat_map snd]. rewrite <- app_assoc.
    apply Permutation_app_head. now apply IH.
Qed.

Lemma Permutation_dict_insert_index {A : Type} (d : list (string * list A))
    (i : nat) (key : string) (x : list A) :
  Permutation (flat_map snd (dict_insert_index d i key x)) (flat_map snd d ++ x).
Proof.
  induction d as [|[k' y] d IH]; cbn [dict_insert_index].
  - cbn [flat_map snd app]. now rewrite app_nil_r.
  - assert (Hfront : Permutation (flat_map snd ((key, x) :: (k', y) :: d))
                                 (flat_map snd ((k', y) :: d) ++ x)).
    { change (flat_map snd ((key, x) :: (k', y) :: d))
        with (x ++ flat_map snd ((k', y) :: d)).
      apply Permutation_app_comm. }
    destruct (index_of_string k') as [j|]; [|exact Hfront].
    destruct (Nat.ltb j i); [|exact Hfront].
    cbn [flat_map snd]. rewrite <- app_assoc. now apply Permutation_app_head.
Qed.

Lemma Permutation_dict_append {A : Type} (d : list (string * list A))
    (key : string) (c : A) :
  Permutation
    (flat_map snd (dict_set d key
                     (match assoc key d with Some l => l | None => [] end ++ [c])))
    (flat_map snd d ++ [c]).
Proof.
  unfold dict_set. destruct (assoc key d) as [l|] eqn:Hl.
  - now apply Permutation_dict_replace.
  - cbn [app]. destruct (index_of_string key).
    + apply Permutation_dict_insert_index.
    + rewrite flat_map_app. cbn [flat_map snd]. now rewrite app_nil_r.
Qed.

Lemma groupKey_fits (acc : loopGroups) (path : list string) :
  fits (groupKey acc path) path = true.
Proof.
  unfold groupKey, fits.
  destruct (find _ (map fst acc)) as [k|] eqn:Hfind.
  - apply find_some in Hfind as [_ H]. exact H.
  - now rewrite String.eqb_refl.
Qed.

Lemma addOpportunity_eq (acc : loopGroups) (path : list string) :
  addOpportunity acc path
  = (existing <- existingList acc (groupKey acc path) ;;
     Ok (dict_set acc (groupKey acc path)
           (existing
            ++ [mkChange (join "." path)
                         (subgroupOf (groupKey acc path) (join "." path))]))).
Proof. reflexivity. Qed.

Lemma existingList_returns (acc : loopGroups) (key : string) (l : list change) :
  existingList acc key = Ok l ->
  l = match assoc key acc with Some l' => l' | None => [] end.
Proof.
  unfold existingList. destruct (assoc key acc); [now intros [= <-]|].
  destruct (mem key objectPrototypeNames); [discriminate | now intros [= <-]].
Qed.

Lemma existingList_throws (acc : loopGroups) (key e : string) :
  existingList acc key = Throw e ->
  e = TypeError /\ assoc key acc = None
  /\ mem key objectPrototypeNames = true.
Proof.
  unfold existingList. destruct (assoc key acc); [discriminate|].
  destruct (mem key objectPrototypeNames); [|discriminate].
  intros [= <-]. auto.
Qed.

Lemma addOpportunity_groups (acc acc' : loopGroups) (path : list string) :
  addOpportunity acc path = Ok acc' ->
  Permutation (flat_map snd acc')
              (flat_map snd acc
               ++ [mkChange (join "." path)
                            (subgroupOf (groupKey acc path) (join "." path))])
  /\ forall key changes c,
       In (key, changes) acc' -> In c changes ->
       (exists changes', In (key, changes') acc /\ In c changes')
       \/ (key = groupKey acc path
           /\ c = mkChange (join "." path) (subgroupOf key (join "." path))).
Proof.
  rewrite addOpportunity_eq.
  destruct (existingList acc (groupKey acc path)) as [l | e] eqn:Hl;
    [|discriminate].
  apply existingList_returns in Hl. subst l. cbn [bind]. intros [= <-]. split.
  - apply Permutation_dict_append.
  - intros key changes c Hin Hc.
    apply In_dict_set in Hin as [[-> ->] | Hin]; [|left; eauto].
    apply in_app_or in Hc as [Hc | [<- | []]]; [|right; auto].
    left. destruct (assoc (groupKey acc path) acc) as [l|] eqn:Hl; [|destruct Hc].
    exists l. split; [now apply assoc_In | assumption].
Qed.

(** The spread throws only for a new group, under a key that is the path of
    the record without its last two segments. *)
Lemma addOpportunity_throws (acc : loopGroups) (path : list string) (e : string) :
  addOpportunity acc path = Throw e ->
  e = TypeError /\ mem (wildcard path) objectPrototypeNames = true.
Proof.
  rewrite addOpportunity_eq.
  destruct (existingList acc (groupKey acc path)) as [l | e'] eqn:Hl;
    [discriminate|].
  cbn [bind]. intros [= <-].
  apply existingList_throws in Hl as (-> & Hnone & Hmem).
  split; [reflexivity|].
  unfold groupKey in Hnone, Hmem.
  destruct (find _ (map fst acc)) as [k|] eqn:Hfind; [|exact Hmem].
  apply find_some in Hfind as [Hk _].
  destruct (assoc_in_keys k acc Hk) as (x & Hx & _). congruence.
Qed.

Lemma loop_groups_fold (rest : list JuniperDiff) :
  forall (acc groups : loopGroups) (done : list JuniperDiff),
    foldM (fun acc d => addOpportunity acc (d_path d)) acc rest = Ok groups ->
    Permutation (map c_path (flat_map snd acc)) (map pathText done) ->
    (forall key changes c,
        In (key, changes) acc -> In c changes ->
        exists d, In d done /\ c_path c = pathText d
                  /\ fits key (d_path d) = true
                  /\ c_subgroup c = subgroupOf key (c_path c)) ->
    Permutation (map c_path (flat_map snd groups)) (map pathText (done ++ rest))
    /\ forall key changes c,
         In (key, changes) groups -> In c changes ->
         exists d, In d (done ++ rest) /\ c_path c = pathText d
                   /\ fits key (d_path d) = true
                   /\ c_subgroup c = subgroupOf key (c_path c).
Proof.
  induction rest as [|d rest IH]; intros acc groups done Hrun Hperm Hfit.
  - injection Hrun as <-. rewrite app_nil_r. split; assumption.
  - cbn [foldM] in Hrun.
    destruct (addOpportunity acc (d_path d)) as [acc' | e] eqn:Hstep;
      [|discriminate].
    cbn [bind] in Hrun.
    destruct (addOpportunity_groups acc acc' (d_path d) Hstep) as [Hp Hin].
    replace (done ++ d :: rest) with ((done ++ [d]) ++ rest)
      by now rewrite <- app_assoc.
    apply (IH acc' groups (done ++ [d]) Hrun).
    + rewrite (Permutation_map c_path Hp), !map_app. cbn [map c_path].
      now apply Permutation_app_tail.
    + intros key changes c Hkey Hc.
      destruct (Hin key changes c Hkey Hc) as [(changes' & Hk' & Hc') | [-> ->]].
      * destruct (Hfit key changes' c Hk' Hc') as (d0 & Hd0 & Hrest).
        exists d0. split; [apply in_or_app; now left | exact Hrest].
      * exists d. split; [apply in_or_app; right; now left|].
        cbn [c_path c_subgroup]. repeat split. apply groupKey_fits.
Qed.

Lemma loop_groups_throw (rest : list JuniperDiff) :
  forall (acc : loopGroups) (e : string),
    foldM (fun acc d => addOpportunity acc (d_path d)) acc rest = Throw e ->
    e = TypeError
    /\ exists d, In d rest
                 /\ mem (wildcard (d_path d)) objectPrototypeNames = true.
Proof.
  induction rest as [|d rest IH]; intros acc e Hrun; [discriminate|].
  cbn [foldM] in Hrun.
  destruct (addOpportunity acc (d_path d)) as [acc' | e'] eqn:Hstep.
  - cbn [bind] in Hrun. destruct (IH acc' e Hrun) as (He & d' & Hd' & Hmem).
    split; [assumption|]. exists d'. split; [now right | assumption].
  - cbn [bind] in Hrun. injection Hrun as <-.
    apply addOpportunity_throws in Hstep as [He Hmem].
    split; [assumption|]. exists d. split; [now left | assumption].
Qed.

(** The groups of a diff, with what the fold keeps true of them. *)
Lemma loop_groups_of (diff : list JuniperDiff) (groups : loopGroups) :
  findLoopOpportunities diff = Ok groups ->
  Permutation (map c_path (flat_map snd groups)) (map pathText diff)
  /\ forall key changes c,
       In (key, changes) groups -> In c changes ->
       exists d, In d diff /\ c_path c = pathText d
                 /\ fits key (d_path d) = true
                 /\ c_subgroup c = subgroupOf key (c_path c).
Proof.
  intros Hrun.
  apply (loop_groups_fold diff [] groups [] Hrun); [constructor|].
  intros key changes c [].
Qed.

(** X11.  Whenever [findLoopOpportunities] returns, it has filed every
    record of the diff in a group and none twice: the dotted paths kept in
    the groups are, up to their order, those of the records; and each
    change lies in a group whose key is the path of its record without the
    last two segments, or a dotted prefix of that.  It fails in one way
    only: with a [TypeError], on a diff with a record whose path without its
    last two segments is the name of a member of [Object.prototype]. *)
Theorem loop_groups_partition (diff : list JuniperDiff) :
  (forall groups,
      findLoopOpportunities diff = Ok groups ->
      Permutation (map c_path (flat_map snd groups)) (map pathText diff)
      /\ forall key changes c,
           In (key, changes) groups -> In c changes ->
           exists d, In d diff /\ c_path c = pathText d
                     /\ fits key (d_path d) = true)
  /\ (forall e,
        findLoopOpportunities diff = Throw e ->
        e = TypeError
        /\ exists d, In d diff
                     /\ mem (wildcard (d_path d)) objectPrototypeNames = true).
Proof.
  split.
  - intros groups Hrun.
    destruct (loop_groups_of diff groups Hrun) as [Hperm Hfit].
    split; [assumption|]. intros key changes c Hkey Hc.
    destruct (Hfit key changes c Hkey Hc) as (d & Hd & Hpath & Hfits & _).
    exists d. auto.
  - intros e Hrun. now apply (loop_groups_throw diff [] e).
Qed.

Lemma loop_groups_partition_witness :
  Permutation
    (map c_path
       (flat_map snd
          [("children", [mkChange "children.0.name" (Int 0);
                         mkChange "children.1.name" (Int 1)])]))
    (map pathText
       [mkDiff "replace" ["children"; "0"; "name"] [] None None None None None None;
        mkDiff "replace" ["children"; "1"; "name"] [] None None None None None None])
  /\ exists d,
       In d [mkDiff "add" ["toString"; "0"; "name"] [] None None None None None None]
       /\ mem (wildcard (d_path d)) objectPrototypeNames = true.
Proof.
  split.
  - apply (proj1 (loop_groups_partition
             [mkDiff "replace" ["children"; "0"; "name"] [] None None None None None None;
              mkDiff "replace" ["children"; "1"; "name"] [] None None None None None None])
             _ eq_refl).
  - apply (proj2 (loop_groups_partition
             [mkDiff "add" ["toString"; "0"; "name"] [] None None None None None None])
             TypeError eq_refl).
Defined.

(** ** Synthesizer: the subgroup of a change *)

Lemma digit_is_no_other (c : ascii) :
  is_digit c = true ->
  is_space c = false
  /\ Ascii.eqb c "+" = false /\ Ascii.eqb c "-" = false
  /\ Ascii.eqb c "I" = false /\ Ascii.eqb c "." = false
  /\ Ascii.eqb c "x" || Ascii.eqb c "X" = false
  /\ Ascii.eqb c "o" || Ascii.eqb c "O" = false
  /\ Ascii.eqb c "b" || Ascii.eqb c "B" = false.
Proof.
  destruct c as [[] [] [] [] [] [] [] []]; intros H;
    first [discriminate H | repeat split].
Qed.

Lemma digit_chars (d : Decimal.uint) :
  all_chars is_digit (NilEmpty.string_of_uint d) = true.
Proof.
  induction d; cbn [NilEmpty.string_of_uint all_chars]; try reflexivity;
    rewrite IHd; reflexivity.
Qed.

Lemma string_of_nat_digits (n : nat) : all_chars is_digit (string_of_nat n) = true.
Proof.
  unfold string_of_nat, NilZero.string_of_uint.
  destruct (Nat.to_uint n); try apply digit_chars. reflexivity.
Qed.

Lemma string_of_nat_no_dot (n : nat) : no_char "." (string_of_nat n) = true.
Proof.
  rewrite no_char_all.
  apply (all_chars_weaken is_digit); [|apply string_of_nat_digits].
  intros c Hc. apply digit_is_no_other in Hc as (_ & _ & _ & _ & -> & _).
  reflexivity.
Qed.

Lemma string_of_nat_nonempty (n : nat) : is_empty (string_of_nat n) = false.
Proof.
  pose proof (index_of_string_of_nat n) as H.
  destruct (string_of_nat n); [discriminate H | reflexivity].
Qed.

Lemma digits_from_uint (d : Decimal.uint) :
  forall acc : nat,
    digits_from 10 (Z.of_nat acc) (NilEmpty.string_of_uint d)
    = Some (Z.of_nat (Nat.of_uint_acc d acc)).
Proof.
  induction d; intros acc;
    cbn [NilEmpty.string_of_uint digits_from Nat.of_uint_acc];
    [reflexivity | ..];
    match goal with
    | |- context [digit_of 10 ?c] =>
        let v := eval vm_compute in (digit_of 10 c) in
        change (digit_of 10 c) with v
    end;
    rewrite <- IHd; f_equal; rewrite Nat.tail_mul_spec; lia.
Qed.

Lemma toNumber_string_of_nat (n : nat) :
  (Z.of_nat n <= 2 ^ 53)%Z -> toNumber (string_of_nat n) = Int (Z.of_nat n).
Proof.
  intros Hn.
  pose proof (string_of_nat_digits n) as Hdigits.
  pose proof (string_of_nat_nonempty n) as Hne.
  assert (Hvalue : digits_from 10 0 (string_of_nat n) = Some (Z.of_nat n)).
  { assert (Hs0 : string_of_nat n = NilEmpty.string_of_uint (Nat.to_uint n)).
    { unfold string_of_nat, NilZero.string_of_uint.
      pose proof (to_uint_nonnil n) as Hnil.
      destruct (Nat.to_uint n); [congruence | reflexivity ..]. }
    rewrite Hs0. change 0%Z with (Z.of_nat 0).
    rewrite (digits_from_uint (Nat.to_uint n) 0).
    change (Nat.of_uint_acc (Nat.to_uint n) 0) with (Nat.of_uint (Nat.to_uint n)).
    now rewrite Unsigned.of_to. }
  assert (Htrim : trim (string_of_nat n) = string_of_nat n).
  { apply trim_trimmed, token_trimmed. unfold is_token. rewrite Hne.
    apply (all_chars_weaken is_digit); [|exact Hdigits].
    intros c Hc. apply digit_is_no_other in Hc as (-> & _). reflexivity. }
  unfold toNumber. rewrite Htrim, Hne.
  destruct (string_of_nat n) as [|c r] eqn:Hs; [discriminate Hne|].
  cbn [all_chars] in Hdigits. apply andb_true_iff in Hdigits as [Hc Hr].
  destruct (digit_is_no_other c Hc) as (_ & Hplus & Hminus & Hinf & _).
  assert (Hradix : radixLiteral (String c r) = None).
  { unfold radixLiteral. destruct r as [|c' r']; [reflexivity|].
    cbn [all_chars] in Hr. apply andb_true_iff in Hr as [Hc' _].
    destruct (digit_is_no_other c' Hc') as (_ & _ & _ & _ & _ & -> & -> & ->).
    now destruct (negb (Ascii.eqb c "0")). }
  rewrite Hradix, Hplus, Hminus. unfold unsignedLiteral.
  assert (Hnot : String.eqb (String c r) "Infinity" = false)
    by (cbn [String.eqb]; now rewrite Hinf).
  rewrite Hnot.
  rewrite (span_all is_digit (String c r))
    by (cbn [all_chars]; now rewrite Hc, Hr).
  cbn [is_empty andb exponentPart String.length Z.of_nat].
  rewrite append_nil_r, Hvalue.
  change (0 - 0)%Z with 0%Z. change (0 <=? 0)%Z with true. cbv iota.
  replace (Z.of_nat n * 10 ^ 0)%Z with (Z.of_nat n) by (rewrite Z.pow_0_r; lia).
  unfold number.
  destruct (Z.eqb_spec (Z.of_nat n) 0) as [-> | _]; [reflexivity|].
  rewrite Z.eqb_refl. cbn [andb].
  now rewrite (proj2 (Z.leb_le _ _) Hn).
Qed.

Lemma drop_app (a b : string) : drop (String.length a) (a +++ b) = b.
Proof. induction a as [|c a IH]; [now destruct b | exact IH]. Qed.

(** The number behind the key, where the key is the dotted form of the
    first segments of a path and an array index follows. *)
Lemma subgroupOf_index (pre : list string) (i : nat) (tail : list string) :
  pre <> [] -> (Z.of_nat i <= 2 ^ 53)%Z ->
  subgroupOf (join "." pre) (join "." (pre ++ string_of_nat i :: tail))
  = Int (Z.of_nat i).
Proof.
  intros Hpre Hi. unfold subgroupOf.
  rewrite join_app by (auto; discriminate).
  replace (String.length (join "." pre) + 1)
    with (String.length (join "." pre +++ "."))
    by (rewrite string_length_app; reflexivity).
  rewrite <- append_assoc, drop_app.
  destruct tail as [|t tail].
  - cbn [join concat]. rewrite split_char_one by apply string_of_nat_no_dot.
    now apply toNumber_string_of_nat.
  - rewrite join_cons2. change ("." +++ join "." (t :: tail))
      with (String "." (join "." (t :: tail))).
    rewrite split_char_app by apply string_of_nat_no_dot.
    now apply toNumber_string_of_nat.
Qed.

(** X12.  The subgroup [findLoopOpportunities] gives a change is the array
    index that follows the key of its group in the path: for a change filed
    under a key that is the dotted form of the first segments of its path
    (one at least), the next segment being the decimal form of an index [i]
    up to [2^53], the subgroup is the number [i]. *)
Theorem subgroup_is_index_after_key (diff : list JuniperDiff)
    (groups : loopGroups) (key : string) (changes : list change) (c : change)
    (pre : list string) (i : nat) (tail : list string) :
  findLoopOpportunities diff = Ok groups ->
  In (key, changes) groups -> In c changes ->
  pre <> [] -> key = join "." pre ->
  c_path c = join "." (pre ++ string_of_nat i :: tail) ->
  (Z.of_nat i <= 2 ^ 53)%Z ->
  c_subgroup c = Int (Z.of_nat i).
Proof.
  intros Hrun Hkey Hc Hpre -> Hpath Hi.
  destruct (loop_groups_of diff groups Hrun) as [_ Hfit].
  destruct (Hfit _ _ c Hkey Hc) as (d & _ & _ & _ & ->).
  rewrite Hpath. now apply subgroupOf_index.
Qed.

Lemma subgroup_is_index_after_key_witness :
  c_subgroup (mkChange "children.0.children.12.name" (Int 12))
  = Int (Z.of_nat 12).
Proof.
  apply (subgroup_is_index_after_key
           [mkDiff "replace" ["children"; "0"; "children"; "12"; "name"] []
                   None None None None None None]
           [("children.0.children",
             [mkChange "children.0.children.12.name" (Int 12)])]
           "children.0.children"
           [mkChange "children.0.children.12.name" (Int 12)]
           (mkChange "children.0.children.12.name" (Int 12))
           ["children"; "0"; "children"] 12 ["name"]).
  - reflexivity.
  - now left.
  - now left.
  - discriminate.
  - reflexivity.
  - reflexivity.
  - vm_compute. discriminate.
Defined.

(** ** Synthesizer: the reverse substitution table *)

Lemma flattenInto_object (props : list (string * value)) (prefix : string) :
  forall res,
    flattenInto (VObj props) prefix res
    = fold_left
        (fun res kv =>
           let path := if is_empty prefix then fst kv
                       else prefix +++ "." +++ fst kv in
           match snd kv with
           | VObj _ => flattenInto (snd kv) path res
           | _ => assignEntry res (toString (snd kv)) path
           end)
        props res.
Proof.
  induction props as [|[k x] props IH]; intros res; [reflexivity|].
  cbn [fold_left fst snd]. rewrite <- IH. destruct x; reflexivity.
Qed.

Lemma plain_keys_from (ps : list (string * value)) :
  forall seen,
    (fix all (ps : list (string * value)) (seen : list string) : bool :=
       match ps with
       | [] => true
       | (k, x) :: ps' =>
           negb (is_empty k) && negb (mem k seen) && plain_keys x
           && all ps' (k :: seen)
       end) ps seen = true ->
    NoDup (map fst ps)
    /\ (forall k, In k (map fst ps) -> mem k seen = false)
    /\ Forall (fun kv => is_empty (fst kv) = false /\ plain_keys (snd kv) = true) ps.
Proof.
  induction ps as [|[k x] ps IH]; intros seen H.
  - repeat split; [constructor | intros k [] | constructor].
  - apply andb_true_iff in H as [H Hrest]. apply andb_true_iff in H as [H Hx].
    apply andb_true_iff in H as [Hk Hseen].
    apply negb_true_iff in Hk, Hseen.
    destruct (IH (k :: seen) Hrest) as (Hnd & Hfresh & Hall).
    assert (Hsub : forall k', In k' (map fst ps) ->
                     String.eqb k' k = false /\ mem k' seen = false).
    { intros k' Hk'. specialize (Hfresh k' Hk'). unfold mem in *.
      cbn [existsb] in Hfresh. now apply orb_false_iff in Hfresh. }
    repeat split.
    + cbn [map fst]. constructor; [|assumption].
      intros Hin. destruct (Hsub k Hin) as [Hkk _].
      now rewrite String.eqb_refl in Hkk.
    + intros k' [<- | Hk']; [assumption | now apply Hsub].
    + constructor; [split; assumption | assumption].
Qed.

Lemma NoDup_assoc {A : Type} (l : list (string * A)) (k : string) (x : A) :
  NoDup (map fst l) -> In (k, x) l -> assoc k l = Some x.
Proof.
  induction l as [|[k' y] l IH]; cbn [map fst assoc]; intros Hnd Hin; [destruct Hin|].
  inversion Hnd as [|? ? Hnotin Hnd']; subst.
  destruct Hin as [H | H].
  - injection H as -> ->. now rewrite String.eqb_refl.
  - destruct (String.eqb_spec k' k) as [-> |]; [|now apply IH].
    exfalso. apply Hnotin. apply in_map_iff. now exists (k, x).
Qed.

Lemma entries_of_object (props : list (string * value)) :
  NoDup (map fst props) ->
  combine (keys (VObj props)) (map (get_prop (VObj props)) (keys (VObj props)))
  = props.
Proof.
  intros Hnd. cbn [keys].
  assert (H : forall ps, (forall kv, In kv ps -> In kv props) ->
            combine (map fst ps) (map (get_prop (VObj props)) (map fst ps)) = ps).
  { induction ps as [|[k x] ps IH]; intros Hsub; [reflexivity|].
    cbn [map fst combine]. rewrite IH by (intros kv Hkv; apply Hsub; now right).
    cbn [get_prop]. rewrite (NoDup_assoc props k x Hnd) by (apply Hsub; now left).
    reflexivity. }
  now apply H.
Qed.

Lemma join_snoc (s : string) (l : list string) (x : string) :
  l <> [] -> join s (l ++ [x]) = join s l +++ s +++ x.
Proof. intros Hl. now rewrite join_app by (auto; discriminate). Qed.

Lemma extend_path (pre : list string) (key : string) :
  Forall (fun seg => is_empty seg = false) pre ->
  (if is_empty (join "." pre) then key else join "." pre +++ "." +++ key)
  = join "." (pre ++ [key]).
Proof.
  intros Hpre. destruct pre as [|seg pre]; [reflexivity|].
  rewrite is_empty_join by now inversion Hpre.
  now rewrite join_snoc by discriminate.
Qed.

(** Each entry the loop adds maps the string form of a leaf to the dotted
    path that leads to it. *)
Lemma flattenInto_entries (x : value) :
  plain_keys x = true ->
  forall pre res k p,
    Forall (fun seg => is_empty seg = false) pre ->
    In (k, p) (flattenInto x (join "." pre) res) ->
    In (k, p) res
    \/ exists segs,
         segs <> [] /\ p = join "." (pre ++ segs)
         /\ toString (walk x segs) = k
         /\ is_plain_object (walk x segs) = false.
Proof.
  induction x as [| | b | z | s | l _ | props IH] using value_ind';
    intros Hplain pre res k p Hpre Hin; try (left; exact Hin).
  rewrite flattenInto_object in Hin.
  destruct (plain_keys_from props [] Hplain) as (Hnd & _ & Hall).
  assert (Hloop : forall ps res,
            (forall kv, In kv ps -> In kv props) ->
            In (k, p)
               (fold_left
                  (fun res kv =>
                     let path := if is_empty (join "." pre) then fst kv
                                 else join "." pre +++ "." +++ fst kv in
                     match snd kv with
                     | VObj _ => flattenInto (snd kv) path res
                     | _ => assignEntry res (toString (snd kv)) path
                     end) ps res) ->
            In (k, p) res
            \/ exists segs,
                 segs <> [] /\ p = join "." (pre ++ segs)
                 /\ toString (walk (VObj props) segs) = k
                 /\ is_plain_object (walk (VObj props) segs) = false).
  { induction ps as [|[key y] ps IHps]; intros res0 Hsub H; [now left|].
    cbn [fold_left fst snd] in H.
    assert (Hkv : In (key, y) props) by (apply Hsub; now left).
    assert (Hread : get_prop (VObj props) key = y)
      by (cbn [get_prop]; now rewrite (NoDup_assoc props key y Hnd Hkv)).
    rewrite Forall_forall in Hall, IH.
    destruct (Hall (key, y) Hkv) as [Hkey Hy]. cbn [fst snd] in Hkey, Hy.
    rewrite extend_path in H by assumption.
    apply IHps in H; [|intros kv Hkvs; apply Hsub; now right].
    destruct H as [H | H]; [|now right].
    assert (Hleaf : is_plain_object y = false ->
              In (k, p) (assignEntry res0 (toString y) (join "." (pre ++ [key]))) ->
              In (k, p) res0
              \/ exists segs,
                   segs <> [] /\ p = join "." (pre ++ segs)
                   /\ toString (walk (VObj props) segs) = k
                   /\ is_plain_object (walk (VObj props) segs) = false).
    { intros Hy' Hd. unfold assignEntry in Hd.
      destruct (String.eqb (toString y) "__proto__"); [now left|].
      apply In_dict_set in Hd as [[-> ->] | Hd]; [|now left].
      right. exists [key]. cbn [walk]. rewrite Hread.
      repeat split; [discriminate | assumption]. }
    destruct y; try (now apply Hleaf).
    apply (IH (key, VObj props0) Hkv Hy (pre ++ [key])) in H.
    - destruct H as [H | (segs & Hne & -> & Hk & Hleaf')]; [now left|].
      right. exists (key :: segs). cbn [walk]. rewrite Hread.
      repeat split; [discriminate | now rewrite <- app_assoc | assumption | assumption].
    - apply Forall_app. split; [assumption | now constructor]. }
  apply (Hloop props res); [auto | exact Hin].
Qed.

(** X13.  Every entry of the table [flattenObjectReverse] builds from an
    object maps the string form of a leaf of the object to the dotted path
    of that leaf: reading the object along the path gives a value that is
    no plain object and whose string form is the key.  (No object inside has
    an empty key.) *)
Theorem reverse_table_entries (props : list (string * value))
    (table : list (string * string)) (k p : string) :
  plain_keys (VObj props) = true ->
  flattenObjectReverse (VObj props) = Ok table ->
  In (k, p) table ->
  exists segs,
    segs <> [] /\ p = join "." segs
    /\ toString (walk (VObj props) segs) = k
    /\ is_plain_object (walk (VObj props) segs) = false.
Proof.
  intros Hplain Htable Hin.
  destruct (plain_keys_from props [] Hplain) as (Hnd & _ & _).
  unfold flattenObjectReverse, entries in Htable. cbn [bind] in Htable.
  rewrite entries_of_object in Htable by assumption.
  injection Htable as <-.
  apply (flattenInto_entries (VObj props) Hplain [] [] k p) in Hin;
    [|constructor].
  destruct Hin as [[] | H]. exact H.
Qed.

Lemma reverse_table_entries_witness :
  exists segs,
    segs <> [] /\ "interface.unit.name" = join "." segs
    /\ toString (walk loopVariables segs) = "100"
    /\ is_plain_object (walk loopVariables segs) = false.
Proof.
  apply (reverse_table_entries
           [("interface",
             VObj [("name", VStr "ge-0/0/1");
                   ("unit", VObj [("name", VStr "100")])])]
           [("100", "interface.unit.name"); ("ge-0/0/1", "interface.name")]
           "100" "interface.unit.name");
    [reflexivity | reflexivity | left; reflexivity].
Defined.

(** ** Synthesizer: the later [convertToLoopBody] *)

Lemma guarded_component_returns rev index value :
  exists s, Guarded.rewriteComponent rev index value = Ok s.
Proof.
  unfold Guarded.rewriteComponent, rewriteComponent.
  destruct (reverseLookup rev value) as [p | t |] eqn:Hl; [| |eauto].
  - destruct (is_empty p); [eauto|].
    destruct index as [|[|index]]; [| |eauto];
      destruct (String.eqb p _); eauto.
  - destruct index as [|[|index]]; [| |eauto];
      destruct (String.eqb t _); eauto.
Qed.

Lemma guarded_components_return rev (l : list string) :
  forall i, exists parts, mapi_from (Guarded.rewriteComponent rev) i l = Ok parts.
Proof.
  induction l as [|c l IH]; intros i; cbn [mapi_from]; [eauto|].
  destruct (guarded_component_returns rev i c) as (s & ->).
  destruct (IH (S i)) as (parts & ->). cbn [bind]. eauto.
Qed.

Lemma mapM_returns {A B : Type} (f : A -> result B) (l : list A) :
  Forall (fun x => exists y, f x = Ok y) l -> exists ys, mapM f l = Ok ys.
Proof.
  induction 1 as [|x l (y & Hy) _ (ys & Hys)]; cbn [mapM]; [eauto|].
  rewrite Hy, Hys. cbn [bind]. eauto.
Qed.

Lemma guarded_unfold variables rev props currPath :
  Guarded.convertToLoopBody variables rev (VObj props) currPath =
  Guarded.loopBody variables rev (VObj props)
    ((fix children (ps : list (string * value)) : list (value * bodyOf) :=
        match ps with
        | [] => []
        | (k, v) :: ps' =>
            if String.eqb k "children" then
              match v with
              | VArr elems =>
                  map (fun c => (c, Guarded.convertToLoopBody variables rev c)) elems
              | _ => []
              end
            else children ps'
        end) props)
    currPath.
Proof. reflexivity. Qed.

(** What the first half of [loopBody] leaves of the four fields of a node:
    the tree of children is untouched. *)
Lemma guarded_fields_return variables rev (t : string) (x v : option string)
    (kids : value) currPath :
  exists t' x' v',
    (let replaced := [("type", VStr t); ("name", of_opt x); ("value", of_opt v);
                      ("children", kids)] in
     let nameV := get_prop (VObj replaced) "name" in
     let valueV := get_prop (VObj replaced) "value" in
     if strict_eq nameV (VStr "interface") && truthy valueV then
       match valueV with
       | VStr s =>
           parts <- mapi_from (Guarded.rewriteComponent rev) 0 (split_char "." s) ;;
           Ok (dict_set replaced "value" (VStr (join "." parts)))
       | _ => Throw TypeError
       end
     else
       match get variables currPath with
       | VStr _ => Ok (dict_set replaced "value" (VStr ("{{" +++ currPath +++ "}}")))
       | _ =>
           if negb (startsWith currPath "interface.") then
             let r1 :=
               if truthy nameV
               then dict_set replaced "name" (placeholderOr rev nameV nameV)
               else replaced in
             let r2 :=
               if truthy valueV
               then dict_set r1 "value" (placeholderOr rev valueV valueV)
               else r1 in
             Ok r2
           else Ok replaced
       end)
    = Ok [("type", t'); ("name", x'); ("value", v'); ("children", kids)].
Proof.
  cbv zeta. cbn [get_prop assoc String.eqb Ascii.eqb Bool.eqb].
  destruct (strict_eq (of_opt x) (VStr "interface") && truthy (of_opt v)) eqn:Hif.
  - destruct v as [s|]; [|now rewrite andb_false_r in Hif]. cbn [of_opt].
    destruct (guarded_components_return rev (split_char "." s) 0) as (parts & ->).
    cbn [bind]. eexists _, _, _. reflexivity.
  - destruct (get variables currPath); try (eexists _, _, _; reflexivity);
      (destruct (negb (startsWith currPath "interface."));
       [|eexists _, _, _; reflexivity]);
      destruct (truthy (of_opt x)), (truthy (of_opt v));
      eexists _, _, _; reflexivity.
Qed.

(** X14.  The later version of [convertToLoopBody] returns on every tree,
    whatever the substitution table and the path: a component of an
    [interface] value that the reverse table does not map is kept as it is
    instead of being asked for its string form. *)
Theorem guarded_loop_body_returns (variables : value)
    (rev : list (string * string)) (n : node) :
  forall currPath,
    exists body, Guarded.convertToLoopBody variables rev (of_node n) currPath = Ok body.
Proof.
  induction n as [t x v cs IH] using node_ind'. intros currPath.
  cbn [of_node]. rewrite guarded_unfold. unfold Guarded.loopBody.
  cbn [spread]. cbv zeta.
  match goal with
  | |- exists body, bind ?E _ = _ =>
      assert (Hfields : exists t' x' v',
                E = Ok [("type", t'); ("name", x'); ("value", v');
                        ("children", VArr (map of_node cs))])
        by exact (guarded_fields_return variables rev t x v
                    (VArr (map of_node cs)) currPath)
  end.
  destruct Hfields as (t' & x' & v' & ->).
  cbn [bind get_prop assoc String.eqb Ascii.eqb Bool.eqb].
  match goal with
  | |- exists body, (children <- mapM ?f ?l ;; _) = _ =>
      destruct (mapM_returns f l) as (ys & ->)
  end.
  - rewrite !Forall_map. eapply Forall_impl; [|exact IH].
    intros c Hc. destruct c as [ct cx cv ccs].
    cbn [of_node read_prop bind]. apply Hc.
  - cbn [bind]. eauto.
Qed.

Lemma guarded_component_refines rev index value s :
  Synth.rewriteComponent rev index value = Ok s ->
  Guarded.rewriteComponent rev index value = Ok s.
Proof.
  unfold Guarded.rewriteComponent. intros H.
  destruct (reverseLookup rev value) as [p | t |] eqn:Hl; [|assumption|].
  - destruct (is_empty p) eqn:Hp; [|assumption].
    apply is_empty_true in Hp. subst p.
    unfold rewriteComponent in H. rewrite Hl in H.
    destruct index as [|[|index]]; exact H.
  - unfold rewriteComponent in H. rewrite Hl in H.
    destruct index as [|[|index]]; [discriminate | discriminate | exact H].
Qed.

Lemma guarded_components_refine rev (l : list string) :
  forall i parts,
    mapi_from (Synth.rewriteComponent rev) i l = Ok parts ->
    mapi_from (Guarded.rewriteComponent rev) i l = Ok parts.
Proof.
  induction l as [|c l IH]; intros i parts H; [exact H|].
  cbn [mapi_from] in *.
  destruct (Synth.rewriteComponent rev i c) as [s|] eqn:Hc; [|discriminate].
  rewrite (guarded_component_refines _ _ _ _ Hc). cbn [bind] in *.
  destruct (mapi_from (Synth.rewriteComponent rev) (S i) l) as [ps|] eqn:Hl;
    [|discriminate].
  now rewrite (IH _ _ Hl).
Qed.

Lemma mapM_refines (old new : list (value * bodyOf)) (currPath : string) :
  Forall2 (fun a b => fst a = fst b /\ refines (snd a) (snd b)) old new ->
  forall ys,
    mapM (fun cr : value * bodyOf =>
            let (child, k) := cr in
            childName <- read_prop child "name" ;;
            k (currPath +++ "." +++ toString childName)) old = Ok ys ->
    mapM (fun cr : value * bodyOf =>
            let (child, k) := cr in
            childName <- read_prop child "name" ;;
            k (currPath +++ "." +++ toString childName)) new = Ok ys.
Proof.
  induction 1 as [|[c k] [c' k'] old new [Hc Hk] _ IH]; intros ys H; [exact H|].
  cbn [fst snd] in Hc, Hk. subst c'. cbn [mapM] in *.
  destruct (read_prop c "name") as [nm|]; [|discriminate]. cbn [bind] in *.
  destruct (k (currPath +++ "." +++ toString nm)) as [y|] eqn:Hy; [|discriminate].
  rewrite (Hk _ _ Hy). cbn [bind] in *.
  destruct (mapM _ old) as [ys'|] eqn:Hys; [|discriminate].
  now rewrite (IH _ eq_refl).
Qed.

Lemma loopBody_refines variables rev (ast : value)
    (old new : list (value * bodyOf)) :
  Forall2 (fun a b => fst a = fst b /\ refines (snd a) (snd b)) old new ->
  refines (Synth.loopBody variables rev ast old)
          (Guarded.loopBody variables rev ast new).
Proof.
  intros Hrecur path r. unfold Synth.loopBody, Guarded.loopBody. cbv zeta.
  destruct (strict_eq (get_prop (VObj (spread ast)) "name") (VStr "interface")
            && truthy (get_prop (VObj (spread ast)) "value")).
  - destruct (get_prop (VObj (spread ast)) "value"); try (intros H; exact H).
    destruct (mapi_from (Synth.rewriteComponent rev) 0 (split_char "." s))
      as [parts|] eqn:Hparts; [|discriminate].
    rewrite (guarded_components_refine _ _ _ _ Hparts). cbn [bind].
    destruct (get_prop _ "children"); try (intros H; exact H).
    destruct (mapM _ old) as [ys|] eqn:Hys; [|discriminate].
    now rewrite (mapM_refines old new path Hrecur ys Hys).
  - match goal with
    | |- bind ?E _ = _ -> _ => destruct E as [replaced1|]; [|discriminate]
    end.
    cbn [bind]. destruct (get_prop _ "children"); try (intros H; exact H).
    destruct (mapM _ old) as [ys|] eqn:Hys; [|discriminate].
    now rewrite (mapM_refines old new path Hrecur ys Hys).
Qed.

Lemma guarded_refines_all variables rev (ast : value) :
  refines (Synth.convertToLoopBody variables rev ast)
          (Guarded.convertToLoopBody variables rev ast)
  /\ match ast with
     | VArr elems =>
         Forall (fun c => refines (Synth.convertToLoopBody variables rev c)
                                  (Guarded.convertToLoopBody variables rev c)) elems
     | _ => True
     end.
Proof.
  induction ast as [| | b | z | s | l IH | props IH] using value_ind';
    try (split; [apply (loopBody_refines variables rev _ [] []); constructor
                | exact I]).
  - split; [apply (loopBody_refines variables rev _ [] []); constructor|].
    eapply Forall_impl; [|exact IH]. now intros c [Hc _].
  - split; [|exact I].
    intros path r. rewrite convertToLoopBody_unfold, guarded_unfold.
    apply loopBody_refines. clear path r.
    induction IH as [|[k v] props Hv _ IHprops]; [constructor|].
    destruct (String.eqb k "children"); [|exact IHprops].
    destruct v as [| | | | | elems |]; try constructor.
    cbn [snd] in Hv. destruct Hv as [_ Helems].
    induction Helems as [|c elems Hc _ IHelems]; constructor; auto.
Qed.

(** X15.  The later version of [convertToLoopBody] agrees with the earlier
    one wherever the earlier one returns: for every value, substitution
    table and path, the result of the earlier version is the result of the
    later one. *)
Theorem guarded_agrees_with_earlier (variables : value)
    (rev : list (string * string)) (ast : value) (currPath : string) (r : value) :
  Synth.convertToLoopBody variables rev ast currPath = Ok r ->
  Guarded.convertToLoopBody variables rev ast currPath = Ok r.
Proof. apply guarded_refines_all. Qed.

Lemma guarded_agrees_with_earlier_witness :
  Guarded.convertToLoopBody loopVariables
    [("100", "interface.unit.name"); ("ge-0/0/1", "interface.name")]
    (VObj [("type", VStr "directive"); ("name", VStr "interface");
           ("value", VStr "ge-0/0/1.100"); ("children", VArr [])])
    "protocols.interface"
  = Ok (VObj [("type", VStr "directive"); ("name", VStr "interface");
              ("value", VStr "{{interface.name}}.{{interface.unit.name}}");
              ("children", VArr [])]).
Proof.
  apply (guarded_agrees_with_earlier loopVariables
           [("100", "interface.unit.name"); ("ge-0/0/1", "interface.name")]).
  reflexivity.
Defined.

(** ** Interface extractor: the records that do not count *)

Lemma foldS_relevant (diff : list Store.changeRecord) :
  forall acc s,
    Store.foldS
      (fun acc d =>
         if negb (String.eqb (Store.r_type d) "replace") then Store.ret acc
         else Store.addInterfaceProp acc (Store.r_absolutePath d) (Store.r_oldValue d))
      acc (filter relevant diff) s
    = Store.foldS
        (fun acc d =>
           if negb (String.eqb (Store.r_type d) "replace") then Store.ret acc
           else Store.addInterfaceProp acc (Store.r_absolutePath d) (Store.r_oldValue d))
        acc diff s.
Proof.
  induction diff as [|d diff IH]; intros acc s; [reflexivity|].
  cbn [filter]. destruct (relevant d) eqn:Hrel.
  - cbn [Store.foldS]. unfold Store.bindM.
    destruct (_ s) as [s1 [acc1 | e | |]]; [apply IH | reflexivity ..].
  - rewrite IH. cbn [Store.foldS]. unfold Store.bindM, relevant in *.
    destruct (String.eqb (Store.r_type d) "replace"); [|reflexivity].
    cbn [negb andb] in *. unfold Store.addInterfaceProp.
    destruct (Store.r_absolutePath d) as [|first rest]; [reflexivity|].
    now rewrite Hrel.
Qed.

(** X16.  The fold that builds the interface table acts on the [replace]
    records whose absolute path starts at [interfaces] and on no other:
    with all other records dropped from the change list it builds the same
    table and leaves the same store. *)
Theorem other_records_do_not_count (diff : list Store.changeRecord)
    (s : Store.store) :
  Store.extractInterfaces (filter relevant diff) s = Store.extractInterfaces diff s.
Proof.
  unfold Store.extractInterfaces, Store.bindM. cbn [Store.alloc].
  apply foldS_relevant.
Qed.
